(** * Redcon: the RESP command reader, the reply writer and the connection
      engine of [redcon.go], as a shallow embedding.

    Conventions of the embedding.
    - A Go [[]byte] and a Go [string] are both [list byte].  Argument slices
      returned by the reader are modelled by their contents at the moment they
      are returned.
    - Slice indices and lengths are [nat]; the integers that the parser
      computes from the bytes it receives ([parseInt], [i+ni2+2]) are [Z] with
      the wrap-around of a 64-bit Go [int] written out.
    - A function that can fail returns an [outcome]: a value, a Go [error], a
      run-time panic (index out of range, a slice capacity out of range), or
      exhaustion of the fuel that bounds a Go loop or recursion in the
      embedding.
    - The platform is a 64-bit one with 48 bits of heap address (amd64,
      arm64): a slice header is 24 bytes and the runtime allocates at most
      [maxAlloc = 2^48] bytes at once.  Running out of memory below that
      limit is not modelled.
    - The TCP stream, the handlers and the close observer are the environment:
      the stream is a script of read and write results in [world], handlers
      are trees of calls on the [Conn] facade, and every externally visible
      action is appended to the [w_trace] of the world. *)

From Stdlib Require Import ZArith NArith List Lia Bool Arith.
From Stdlib Require Import Strings.Byte Strings.String.
Import ListNotations.
Local Open Scope list_scope.
Local Abbreviation length := List.length.

(* ------------------------------------------------------------------ *)
(** ** Bytes, errors and outcomes *)

Definition bytes := list byte.

Definition bs (s : string) : bytes := list_byte_of_string s.

Definition LF : byte := x0a.
Definition CR : byte := x0d.
Definition TAB : byte := x09.
Definition DQUOTE : byte := x22.
Definition CRLF : bytes := [CR; LF].

(** The error values of the package and of the stream.  [errProtocol msg] is
    [&errProtocol{msg}]; [errNet] stands for any error of the TCP stream
    other than [io.EOF]. *)
Inductive error : Type :=
| errProtocol (msg : bytes)
| errHijacked
| errClosed
| errInvalidNumber
| io_EOF
| io_ErrUnexpectedEOF
| errNet (code : nat).

Definition errUnbalancedQuotes : error :=
  errProtocol (bs "unbalanced quotes in request").
Definition errInvalidBulkLength : error :=
  errProtocol (bs "invalid bulk length").
Definition errInvalidMultiBulkLength : error :=
  errProtocol (bs "invalid multibulk length").

(** [func (err *errProtocol) Error() string] *)
Definition errProtocol_Error (msg : bytes) : bytes :=
  bs "Protocol error: " ++ msg.

Definition defaultBufLen : nat := 4 * 1024.
Definition defaultPoolSize : nat := 64.

Inductive outcome (A : Type) : Type :=
| Ok (a : A)
| Err (e : error)
| Panic
| OutOfFuel.
Arguments Ok {A} a.
Arguments Err {A} e.
Arguments Panic {A}.
Arguments OutOfFuel {A}.

Definition bind {A B : Type} (m : outcome A) (k : A -> outcome B) : outcome B :=
  match m with
  | Ok a => k a
  | Err e => Err e
  | Panic => Panic
  | OutOfFuel => OutOfFuel
  end.

Notation "x <- m ;; k" := (bind m (fun x => k))
  (at level 61, m at next level, right associativity).

(** [b[i]]: panics when [i] is out of range. *)
Definition byte_at (b : bytes) (i : nat) : outcome byte :=
  match nth_error b i with
  | Some c => Ok c
  | None => Panic
  end.

(** [b[i]] for an index computed as a Go [int]. *)
Definition byte_atZ (b : bytes) (i : Z) : outcome byte :=
  if (i <? 0)%Z then Panic else byte_at b (Z.to_nat i).

(** [b[lo:hi]]; every slice expression of the reader stays within [len(b)],
    so the bound checked here is the length. *)
Definition slice (b : bytes) (lo hi : nat) : outcome bytes :=
  if (lo <=? hi) && (hi <=? length b)
  then Ok (firstn (hi - lo) (skipn lo b))
  else Panic.

(** [b[lo:]] *)
Definition slice_from (b : bytes) (lo : nat) : outcome bytes :=
  if lo <=? length b then Ok (skipn lo b) else Panic.

(* ------------------------------------------------------------------ *)
(** ** Go [int] arithmetic (64 bits, two's complement) *)

Definition int_wrap (z : Z) : Z :=
  ((z + 2 ^ 63) mod 2 ^ 64 - 2 ^ 63)%Z.

Definition int_add (a b : Z) : Z := int_wrap (a + b).
Definition int_mul (a b : Z) : Z := int_wrap (a * b).

(** [make([][]byte, 0, cap)] for [cap > 0]: the runtime's [makeslice]
    panics (cap out of range) when the size of [cap] slice headers overflows
    or exceeds [maxAlloc]. *)
Definition maxAlloc : Z := 2 ^ 48.
Definition sliceHeaderSize : Z := 24.

Definition makeslice_ok (cap : Z) : bool :=
  (sliceHeaderSize * cap <=? maxAlloc)%Z.

(* ------------------------------------------------------------------ *)
(** ** parseInt *)

Definition is_digit (c : byte) : bool :=
  ((48 <=? Byte.to_N c) && (Byte.to_N c <=? 57))%N.

(** [int(c - '0')] for a byte already known to be a digit. *)
Definition digit_val (c : byte) : Z := (Z.of_N (Byte.to_N c) - 48)%Z.

(** The general loop of [parseInt]. *)
Fixpoint parseInt_loop (b : bytes) (n : Z) : outcome Z :=
  match b with
  | [] => Ok n
  | c :: b' =>
      if is_digit c
      then parseInt_loop b' (int_add (int_mul n 10) (digit_val c))
      else Err errInvalidNumber
  end.

Definition parseInt (b : bytes) : outcome Z :=
  match b with
  | [c0] =>
      if is_digit c0 then Ok (digit_val c0) else parseInt_loop b 0%Z
  | [c0; c1] =>
      if is_digit c0 && is_digit c1
      then Ok (int_add (int_mul (digit_val c0) 10) (digit_val c1))
      else parseInt_loop b 0%Z
  | _ => parseInt_loop b 0%Z
  end.

(* ------------------------------------------------------------------ *)
(** ** Inline (telnet) commands: splitting a line into arguments *)

(** The [switch c] of an escaped byte inside quotes. *)
Definition unescape (c : byte) : byte :=
  if Byte.eqb c "n" then LF
  else if Byte.eqb c "r" then CR
  else if Byte.eqb c "t" then TAB
  else c.

(** How one run of the inner [for i := 0; i < len(line); i++] loop ends. *)
Inductive inner_exit : Type :=
| IContinue (line : bytes) (args : list bytes) (quote escape : bool)
| IReturn (e : error)
| IExit (nline : bytes) (escape : bool).

(** The inner loop over [line]; [rest] is [line[i:]], so that the tail of
    [rest] is the [line[i+1:]] the source re-slices to. *)
Fixpoint inline_inner (rest : bytes) (i : nat) (nline : bytes)
    (args : list bytes) (quote escape : bool) : inner_exit :=
  match rest with
  | [] => IExit nline escape
  | c :: rest' =>
      if negb quote then
        if Byte.eqb c " " then
          IContinue rest'
            (if 0 <? length nline then args ++ [nline] else args)
            quote escape
        else if Byte.eqb c DQUOTE then
          if negb (i =? 0) then IReturn errUnbalancedQuotes
          else IContinue rest' args true escape
        else inline_inner rest' (S i) (nline ++ [c]) args quote escape
      else
        if escape then
          inline_inner rest' (S i) (nline ++ [unescape c]) args quote false
        else if Byte.eqb c DQUOTE then
          let args := args ++ [nline] in
          let line := rest' in
          match line with
          | c' :: _ =>
              if negb (Byte.eqb c' " ") then IReturn errUnbalancedQuotes
              else IContinue line args false escape
          | [] => IContinue line args false escape
          end
        else if Byte.eqb c "\" then
          inline_inner rest' (S i) nline args quote true
        else inline_inner rest' (S i) (nline ++ [c]) args quote escape
  end.

(** The [outer:] loop.  Every [continue outer] shortens [line], so
    [S (length line)] rounds of fuel are enough. *)
Fixpoint inline_outer (fuel : nat) (line : bytes) (args : list bytes)
    (quote escape : bool) : outcome (list bytes) :=
  match fuel with
  | 0 => OutOfFuel
  | S fuel' =>
      match inline_inner line 0 [] args quote escape with
      | IContinue line' args' quote' escape' =>
          inline_outer fuel' line' args' quote' escape'
      | IReturn e => Err e
      | IExit _ _ =>
          if quote then Err errUnbalancedQuotes
          else Ok (if 0 <? length line then args ++ [line] else args)
      end
  end.

Definition inline_args (line : bytes) : outcome (list bytes) :=
  inline_outer (S (length line)) line [] false false.

(** The [default:] case of the switch: look for the first ['\n'] of [b].
    [rest] is [b[i:]].  [None] means the loop ran to the end of [b] and
    control falls out of the switch to [done:] with [b] unchanged. *)
Fixpoint inline_scan (b rest : bytes) (i : nat) (cmds : list (list bytes))
    : outcome (option (list (list bytes) * bytes)) :=
  match rest with
  | [] => Ok None
  | c :: rest' =>
      if Byte.eqb c LF then
        line <- (if 0 <? i then
                   p <- byte_at b (i - 1) ;;
                   if Byte.eqb p CR then slice b 0 (i - 1) else slice b 0 i
                 else slice b 0 i) ;;
        args <- inline_args line ;;
        let cmds := if 0 <? length args then cmds ++ [args] else cmds in
        b' <- slice_from b (i + 1) ;;
        Ok (Some (cmds, b'))
      else inline_scan b rest' (S i) cmds
  end.

(* ------------------------------------------------------------------ *)
(** ** RESP commands *)

(** [string(b[i])]: the UTF-8 encoding of the code point of one byte. *)
Definition string_of_byte (c : byte) : bytes :=
  let n := Byte.to_N c in
  if (n <? 128)%N then [c]
  else match Byte.of_N (192 + n / 64), Byte.of_N (128 + n mod 64) with
       | Some hi, Some lo => [hi; lo]
       | _, _ => [c]
       end.

Definition errExpectedDollar (c : byte) : error :=
  errProtocol (bs "expected '$', got '" ++ string_of_byte c ++ bs "'").

(** How the loop that reads one bulk string ends. *)
Inductive bulk_exit : Type :=
| BArg (i : nat) (arg : bytes)   (* [break] after [args = append(args, arg)] *)
| BNotReady                      (* [break outer2] *)
| BEnd (i : nat).                (* the loop condition [i < len(b)] failed *)

(** [for ; i < len(b); i++] looking for the ['\n'] of a bulk header that
    starts at [si]; [rest] is [b[i:]]. *)
Fixpoint read_bulk (b : bytes) (si : nat) (rest : bytes) (i : nat)
    : outcome bulk_exit :=
  match rest with
  | [] => Ok (BEnd i)
  | c :: rest' =>
      if Byte.eqb c LF then
        p <- (if 0 <? i then byte_at b (i - 1) else Panic) ;;
        if negb (Byte.eqb p CR) then Err errInvalidBulkLength else
        hdr <- slice b (si + 1) (i - 1) ;;
        match parseInt hdr with
        | Ok ni2 =>
            if (ni2 <? 0)%Z then Err errInvalidBulkLength else
            let k2 := int_add (int_add (Z.of_nat i) ni2) 2 in
            if (Z.of_nat (length b) <=? k2)%Z then Ok BNotReady else
            c2 <- byte_atZ b k2 ;;
            if negb (Byte.eqb c2 LF) then Err errInvalidBulkLength else
            c1 <- byte_atZ b (int_add (int_add (Z.of_nat i) ni2) 1) ;;
            if negb (Byte.eqb c1 CR) then Err errInvalidBulkLength else
            let i := S i in
            arg <- slice b i (i + Z.to_nat ni2) ;;
            Ok (BArg (i + (Z.to_nat ni2 + 1)) arg)
        | Err _ => Err errInvalidBulkLength
        | Panic => Panic
        | OutOfFuel => OutOfFuel
        end
      else read_bulk b si rest' (S i)
  end.

(** [for j := 0; j < ni; j++]; [n] is the number of rounds left.  [None] is
    [break outer2]; otherwise the values of [si], [i] and [args] after the
    loop. *)
Fixpoint read_args (n : nat) (b : bytes) (si i : nat) (args : list bytes)
    : outcome (option (nat * nat * list bytes)) :=
  match n with
  | 0 => Ok (Some (si, i, args))
  | S n' =>
      let i := S i in
      if i <? length b then
        c <- byte_at b i ;;
        if negb (Byte.eqb c "$") then Err (errExpectedDollar c) else
        let si := i in
        r <- read_bulk b si (skipn i b) i ;;
        match r with
        | BArg i' arg => read_args n' b si i' (args ++ [arg])
        | BNotReady => Ok None
        | BEnd i' => read_args n' b si i' args
        end
      else read_args n' b si i args
  end.

(** The [outer2:] loop of the ['*'] case.  The fuel bounds the number of
    rounds; [i] grows in every round, so [length b] rounds are enough and
    running out of fuel coincides with [i >= len(b)]. [None] means that
    control leaves the switch for [done:] with [b] and [cmds] unchanged. *)
Fixpoint resp_loop (fuel : nat) (b : bytes) (si i : nat)
    (cmds : list (list bytes))
    : outcome (option (list (list bytes) * bytes)) :=
  match fuel with
  | 0 => if i <? length b then OutOfFuel else Ok None
  | S fuel' =>
      if i <? length b then
        c <- byte_at b i ;;
        if Byte.eqb c LF then
          p <- (if 0 <? i then byte_at b (i - 1) else Panic) ;;
          if negb (Byte.eqb p CR) then Err errInvalidMultiBulkLength else
          hdr <- slice b (si + 1) (i - 1) ;;
          match parseInt hdr with
          | Ok ni =>
              if (ni <=? 0)%Z then Err errInvalidMultiBulkLength else
              if negb (makeslice_ok ni) then Panic else
              r <- read_args (Z.to_nat ni) b si i [] ;;
              match r with
              | None => Ok None
              | Some (si', i', args) =>
                  if (Z.of_nat (length args) =? ni)%Z then
                    b' <- slice_from b (i' + 1) ;;
                    Ok (Some (cmds ++ [args], b'))
                  else resp_loop fuel' b si' (S i') cmds
              end
          | Err _ => Err errInvalidMultiBulkLength
          | Panic => Panic
          | OutOfFuel => OutOfFuel
          end
        else resp_loop fuel' b si (S i) cmds
      else Ok None
  end.

(** The label [next:] and the switch on [b[0]].  Every [goto next] comes with
    a shorter, non-empty [b]; [length b] rounds of fuel are enough.  The
    result is the value of [cmds] and [b] at [done:]. *)
Fixpoint parse_next (fuel : nat) (b : bytes) (cmds : list (list bytes))
    : outcome (list (list bytes) * bytes) :=
  match fuel with
  | 0 => OutOfFuel
  | S fuel' =>
      c <- byte_at b 0 ;;
      r <- (if Byte.eqb c "*" then resp_loop (length b) b 0 0 cmds
            else inline_scan b b 0 cmds) ;;
      match r with
      | None => Ok (cmds, b)
      | Some (cmds', b') =>
          if 0 <? length b' then parse_next fuel' b' cmds'
          else Ok (cmds', b')
      end
  end.

Definition parse (b : bytes) : outcome (list (list bytes) * bytes) :=
  parse_next (length b) b [].

(* ------------------------------------------------------------------ *)
(** ** The stream and the world *)

(** What the next [Read] of the TCP stream delivers. *)
Inductive read_event : Type :=
| RData (d : bytes)
| RFail (code : nat).

(** Externally visible actions, in the order they happen. *)
Inductive event : Type :=
| EvWrite (b : bytes) (res : option error)   (* [conn.Write(b)] and its result *)
| EvConnClose                                (* [c.conn.Close()] *)
| EvHandler (bytes_api : bool) (cmds : list (list bytes))
| EvClosed (err : option error).             (* the [closed] observer *)

Record world : Type := mkWorld {
  w_in : list read_event;         (* the reads still to come; then [io.EOF] *)
  w_wres : list (option nat);     (* results of the writes still to come *)
  w_closed : bool;                (* the stream was closed on this side *)
  w_trace : list event
}.

Definition errNetClosed : error := errNet 0.

(** [conn.Read(p)] with [len(p) = n]: at most [n] bytes of the next data;
    what does not fit stays for the next read. *)
Definition stream_read (w : world) (n : nat) : (bytes + error) * world :=
  if w_closed w then (inr errNetClosed, w) else
  match w_in w with
  | [] => (inr io_EOF, w)
  | RData d :: rest =>
      if length d <=? n
      then (inl d, mkWorld rest (w_wres w) (w_closed w) (w_trace w))
      else (inl (firstn n d),
            mkWorld (RData (skipn n d) :: rest) (w_wres w) (w_closed w)
                    (w_trace w))
  | RFail code :: rest =>
      (inr (errNet code), mkWorld rest (w_wres w) (w_closed w) (w_trace w))
  end.

(** [conn.Write(b)]. *)
Definition stream_write (w : world) (b : bytes) : option error * world :=
  if w_closed w then
    (Some errNetClosed,
     mkWorld (w_in w) (w_wres w) true
             (w_trace w ++ [EvWrite b (Some errNetClosed)]))
  else
    match w_wres w with
    | Some code :: rest =>
        (Some (errNet code),
         mkWorld (w_in w) rest false
                 (w_trace w ++ [EvWrite b (Some (errNet code))]))
    | None :: rest =>
        (None, mkWorld (w_in w) rest false (w_trace w ++ [EvWrite b None]))
    | [] =>
        (None, mkWorld (w_in w) [] false (w_trace w ++ [EvWrite b None]))
    end.

(** [conn.Close()]. *)
Definition stream_close (w : world) : world :=
  mkWorld (w_in w) (w_wres w) true (w_trace w ++ [EvConnClose]).

Definition log (w : world) (e : event) : world :=
  mkWorld (w_in w) (w_wres w) (w_closed w) (w_trace w ++ [e]).

(* ------------------------------------------------------------------ *)
(** ** The reader *)

Record reader : Type := mkReader {
  rd_buf : bytes;
  rd_start : nat;
  rd_end : nat
}.

(** [newReader(r, buf)] *)
Definition newReader (buf : bytes) : reader := mkReader buf 0 0.

(** [copy(p, d)] at offset [off] of [buf], for [off + len(d) <= len(buf)]. *)
Definition write_at (buf : bytes) (off : nat) (d : bytes) : bytes :=
  firstn off buf ++ d ++ skipn (off + length d) buf.

(** The first half of [ReadCommands]: when bytes are buffered, parse them
    and, at [done:], move [r.start] past what was consumed.  The result is
    [cmds] and the reader at [if len(cmds) > 0]. *)
Definition parse_buffered (r : reader)
    : outcome (list (list bytes) * reader) :=
  if rd_start r <? rd_end r then
    b <- slice (rd_buf r) (rd_start r) (rd_end r) ;;
    p <- parse b ;;
    let '(cmds, b') := p in
    Ok (cmds,
        if length b' =? 0
        then mkReader (rd_buf r) 0 0
        else mkReader (rd_buf r) (rd_end r - length b') (rd_end r))
  else Ok ([], r).

(** [if r.end == len(r.buf) { ... }]: the buffer is doubled. *)
Definition grow (r : reader) : reader :=
  if rd_end r =? length (rd_buf r)
  then mkReader (rd_buf r ++ repeat x00 (length (rd_buf r)))
                (rd_start r) (rd_end r)
  else r.

(** [ReadCommands]; the fuel bounds the depth of the recursion
    [return r.ReadCommands()] after a successful read.  A protocol error
    returns before [done:], so the reader is left as it was. *)
Fixpoint ReadCommands (fuel : nat) (r : reader) (w : world)
    : outcome (list (list bytes)) * reader * world :=
  match fuel with
  | 0 => (OutOfFuel, r, w)
  | S fuel' =>
      match parse_buffered r with
      | Err e => (Err e, r, w)
      | Panic => (Panic, r, w)
      | OutOfFuel => (OutOfFuel, r, w)
      | Ok (cmds, r) =>
          if 0 <? length cmds then (Ok cmds, r, w) else
          let r := grow r in
          if length (rd_buf r) <? rd_end r then (Panic, r, w) else
          match stream_read w (length (rd_buf r) - rd_end r) with
          | (inr e, w') =>
              match e with
              | io_EOF =>
                  if 0 <? rd_end r then (Err io_ErrUnexpectedEOF, r, w')
                  else (Err io_EOF, r, w')
              | _ => (Err e, r, w')
              end
          | (inl d, w') =>
              let r := mkReader (write_at (rd_buf r) (rd_end r) d)
                                (rd_start r) (rd_end r + length d) in
              ReadCommands fuel' r w'
          end
      end
  end.

(* ------------------------------------------------------------------ *)
(** ** strconv.FormatInt(n, 10) *)

Definition digit_byte (d : N) : byte :=
  match Byte.of_N (48 + d) with
  | Some c => c
  | None => "0"%byte
  end.

(** The decimal digits of [n], most significant first, in front of [acc].
    [n] has at most [1 + log2 n] decimal digits, which bounds the recursion. *)
Fixpoint dec_digits (fuel : nat) (n : N) (acc : bytes) : bytes :=
  let acc' := digit_byte (n mod 10) :: acc in
  match fuel with
  | 0 => acc'
  | S fuel' => if (n <? 10)%N then acc' else dec_digits fuel' (n / 10) acc'
  end.

Definition decimal (n : N) : bytes :=
  dec_digits (N.to_nat (N.log2 n)) n [].

Definition FormatInt (z : Z) : bytes :=
  if (z <? 0)%Z then "-"%byte :: decimal (Z.to_N (- z))
  else decimal (Z.to_N z).

(** The RESP encoding of a command, as a client sends it. *)
Definition encode_bulk (arg : bytes) : bytes :=
  "$"%byte :: FormatInt (Z.of_nat (length arg)) ++ CRLF ++ arg ++ CRLF.

Definition encode_command (args : list bytes) : bytes :=
  "*"%byte :: FormatInt (Z.of_nat (length args)) ++ CRLF
    ++ List.concat (map encode_bulk args).

Definition encode_commands (cmds : list (list bytes)) : bytes :=
  List.concat (map encode_command cmds).

(* ------------------------------------------------------------------ *)
(** ** The data of the writer, the connection and the server *)

Record writer : Type := mkWriter {
  wr_b : bytes;               (* the contents of [w.b] *)
  wr_cap : nat;               (* [cap(w.b)] *)
  wr_err : option error
}.

(** One call of a [Write*] method of the writer. *)
Inductive write_call : Type :=
| CallWriteString (s : bytes)
| CallWriteError (msg : bytes)
| CallWriteInt (n : Z)
| CallWriteNull
| CallWriteBulk (s : bytes)
| CallWriteBulkBytes (b : bytes)
| CallWriteArrayStart (k : Z).

Record conn : Type := mkConn {
  c_wr : writer;
  c_rd : reader;
  c_addr : bytes;
  c_ctx : option nat;         (* the user context, [nil] at first *)
  c_hj : bool
}.

Record hijackedConn : Type := mkHijacked {
  hjc_conn : conn;
  hjc_cmds : list (list bytes)
}.

(** User code that holds a [Conn]: a tree of calls on the facade whose
    continuation depends on what each call returns.  [R] is the result of
    the code: [unit] for a handler, [bool] for the accept filter. *)
Inductive prog (R : Type) : Type :=
| Return (r : R)
| DoWrite (call : write_call) (k : prog R)
| DoSetReadBuffer (n : Z) (k : prog R)
| DoSetContext (v : option nat) (k : prog R)
| DoContext (k : option nat -> prog R)
| DoRemoteAddr (k : bytes -> prog R)
| DoClose (k : option error -> prog R)
| DoHijack (k : prog R).
Arguments Return {R} r.
Arguments DoWrite {R} call k.
Arguments DoSetReadBuffer {R} n k.
Arguments DoSetContext {R} v k.
Arguments DoContext {R} k.
Arguments DoRemoteAddr {R} k.
Arguments DoClose {R} k.
Arguments DoHijack {R} k.

(** A handler sees the batch; what it does may also depend on everything
    that happened before (its own state). *)
Definition handler : Type := list event -> list (list bytes) -> prog unit.

Record config : Type := mkConfig {
  shandler : option handler;
  bhandler : option handler;
  accept : option (list event -> prog bool);
  closed : bool               (* whether a close observer is installed *)
}.

Record server : Type := mkServer {
  s_conns : list nat;
  s_rdpool : list bytes;
  s_wrpool : list (bytes * nat)   (* contents and capacity *)
}.

(** How one round of the loop of [handle] ends. *)
Inductive round_exit : Type :=
| Continue                       (* the [for] loop goes round again *)
| Return_ (err : option error).  (* [return err] *)

(* ------------------------------------------------------------------ *)
(** ** The writer, the connection and the engine

    [growslice oldcap needed] is the capacity the Go runtime gives a slice
    of capacity [oldcap] when [append] needs [needed > oldcap] elements; the
    language leaves it to the implementation. *)

Section Engine.

Variable growslice : nat -> nat -> nat.

(** [newWriter]: [make([]byte, 0, 512)] *)
Definition newWriter : writer := mkWriter [] 512 None.

(** [w.b = append(w.b, xs...)] *)
Definition wr_append (w : writer) (xs : bytes) : writer :=
  let b := wr_b w ++ xs in
  mkWriter b
    (if length b <=? wr_cap w then wr_cap w else growslice (wr_cap w) (length b))
    (wr_err w).

Definition WriteNull (w : writer) : option error * writer :=
  match wr_err w with
  | Some e => (Some e, w)
  | None => (None, wr_append w ("$"%byte :: "-"%byte :: "1"%byte :: CRLF))
  end.

Definition WriteArrayStart (w : writer) (count : Z) : option error * writer :=
  match wr_err w with
  | Some e => (Some e, w)
  | None =>
      let w := wr_append w ["*"%byte] in
      let w := wr_append w (FormatInt count) in
      (None, wr_append w CRLF)
  end.

Definition WriteBulk (w : writer) (bulk : bytes) : option error * writer :=
  match wr_err w with
  | Some e => (Some e, w)
  | None =>
      let w := wr_append w ["$"%byte] in
      let w := wr_append w (FormatInt (Z.of_nat (length bulk))) in
      let w := wr_append w CRLF in
      let w := wr_append w bulk in
      (None, wr_append w CRLF)
  end.

Definition WriteBulkBytes (w : writer) (bulk : bytes) : option error * writer :=
  match wr_err w with
  | Some e => (Some e, w)
  | None =>
      let w := wr_append w ["$"%byte] in
      let w := wr_append w (FormatInt (Z.of_nat (length bulk))) in
      let w := wr_append w CRLF in
      let w := wr_append w bulk in
      (None, wr_append w CRLF)
  end.

Definition Flush (w : writer) (wd : world) : option error * writer * world :=
  match wr_err w with
  | Some e => (Some e, w, wd)
  | None =>
      if length (wr_b w) =? 0 then (None, w, wd) else
      match stream_write wd (wr_b w) with
      | (Some e, wd') => (Some e, mkWriter (wr_b w) (wr_cap w) (Some e), wd')
      | (None, wd') => (None, mkWriter [] (wr_cap w) (wr_err w), wd')
      end
  end.

Definition WriteError (w : writer) (msg : bytes) : option error * writer :=
  match wr_err w with
  | Some e => (Some e, w)
  | None =>
      let w := wr_append w ["-"%byte] in
      let w := wr_append w msg in
      (None, wr_append w CRLF)
  end.

Definition bytes_eqb (a b : bytes) : bool :=
  if list_eq_dec Byte.byte_eq_dec a b then true else false.

Definition WriteString (w : writer) (msg : bytes) : option error * writer :=
  match wr_err w with
  | Some e => (Some e, w)
  | None =>
      if bytes_eqb msg (bs "OK") then
        (None, wr_append w ("+"%byte :: "O"%byte :: "K"%byte :: CRLF))
      else
        let w := wr_append w ["+"%byte] in
        let w := wr_append w msg in
        (None, wr_append w CRLF)
  end.

Definition WriteInt (w : writer) (num : Z) : option error * writer :=
  match wr_err w with
  | Some e => (Some e, w)
  | None =>
      let w := wr_append w [":"%byte] in
      let w := wr_append w (FormatInt num) in
      (None, wr_append w CRLF)
  end.

(** [writer.Close] *)
Definition writer_Close (w : writer) (wd : world)
    : option error * writer * world :=
  match wr_err w with
  | Some e => (Some e, w, wd)
  | None =>
      match Flush w wd with
      | (Some e, w', wd') =>
          (Some e, mkWriter (wr_b w') (wr_cap w') (Some e), wd')
      | (None, w', wd') =>
          (None, mkWriter (wr_b w') (wr_cap w') (Some errClosed), wd')
      end
  end.

Definition do_write (w : writer) (c : write_call) : option error * writer :=
  match c with
  | CallWriteString s => WriteString w s
  | CallWriteError msg => WriteError w msg
  | CallWriteInt n => WriteInt w n
  | CallWriteNull => WriteNull w
  | CallWriteBulk s => WriteBulk w s
  | CallWriteBulkBytes b => WriteBulkBytes w b
  | CallWriteArrayStart k => WriteArrayStart w k
  end.

Definition set_wr (c : conn) (w : writer) : conn :=
  mkConn w (c_rd c) (c_addr c) (c_ctx c) (c_hj c).
Definition set_rd (c : conn) (r : reader) : conn :=
  mkConn (c_wr c) r (c_addr c) (c_ctx c) (c_hj c).

(** [conn.Close]: flush and close the writer, close the stream, return the
    writer's error only. *)
Definition conn_Close (c : conn) (wd : world) : option error * conn * world :=
  match writer_Close (c_wr c) wd with
  | (err, w', wd') => (err, set_wr c w', stream_close wd')
  end.

(** The [Write*] methods of the facade return nothing. *)
Definition conn_write (c : conn) (call : write_call) : conn :=
  set_wr c (snd (do_write (c_wr c) call)).

Definition conn_SetContext (c : conn) (v : option nat) : conn :=
  mkConn (c_wr c) (c_rd c) (c_addr c) v (c_hj c).

Definition conn_SetReadBuffer (c : conn) (n : Z) : conn := c.

(** [conn.Hijack] *)
Definition conn_Hijack (c : conn) : hijackedConn * conn :=
  let c' := mkConn (c_wr c) (c_rd c) (c_addr c) (c_ctx c) true in
  (mkHijacked c' [], c').

Fixpoint run_prog {R : Type} (p : prog R) (c : conn) (wd : world)
    : R * conn * world :=
  match p with
  | Return r => (r, c, wd)
  | DoWrite call k => run_prog k (conn_write c call) wd
  | DoSetReadBuffer n k => run_prog k (conn_SetReadBuffer c n) wd
  | DoSetContext v k => run_prog k (conn_SetContext c v) wd
  | DoContext k => run_prog (k (c_ctx c)) c wd
  | DoRemoteAddr k => run_prog (k (c_addr c)) c wd
  | DoClose k =>
      match conn_Close c wd with
      | (err, c', wd') => run_prog (k err) c' wd'
      end
  | DoHijack k => run_prog k (snd (conn_Hijack c)) wd
  end.

Definition is_hijacked (err : option error) : bool :=
  match err with
  | Some errHijacked => true
  | _ => false
  end.

(** One round of [for { ... }] in [handle]; [fuel] is for the call of
    [ReadCommands]. *)
Definition handle_round (fuel : nat) (cfg : config) (c : conn) (wd : world)
    : outcome round_exit * conn * world :=
  if c_hj c then (Ok (Return_ (Some errHijacked)), c, wd) else
  match ReadCommands fuel (c_rd c) wd with
  | (Err e, r', wd') =>
      let c := set_rd c r' in
      match e with
      | errProtocol msg =>
          let w1 := snd (WriteError (c_wr c)
                           (bs "ERR " ++ errProtocol_Error msg)) in
          match Flush w1 wd' with
          | (_, w2, wd'') => (Ok (Return_ (Some e)), set_wr c w2, wd'')
          end
      | _ => (Ok (Return_ (Some e)), c, wd')
      end
  | (Panic, r', wd') => (Panic, set_rd c r', wd')
  | (OutOfFuel, r', wd') => (OutOfFuel, set_rd c r', wd')
  | (Ok cmds, r', wd') =>
      let c := set_rd c r' in
      let '(c, wd') :=
        if 0 <? length cmds then
          match shandler cfg, bhandler cfg with
          | Some h, _ =>
              let wd1 := log wd' (EvHandler false cmds) in
              match run_prog (h (w_trace wd') cmds) c wd1 with
              | (_, c', wd2) => (c', wd2)
              end
          | None, Some h =>
              let wd1 := log wd' (EvHandler true cmds) in
              match run_prog (h (w_trace wd') cmds) c wd1 with
              | (_, c', wd2) => (c', wd2)
              end
          | None, None => (c, wd')
          end
        else (c, wd') in
      match wr_err (c_wr c) with
      | Some errClosed => (Ok (Return_ None), c, wd')
      | Some e => (Ok (Return_ (Some e)), c, wd')
      | None =>
          match Flush (c_wr c) wd' with
          | (Some e, w', wd'') => (Ok (Return_ (Some e)), set_wr c w', wd'')
          | (None, w', wd'') => (Ok Continue, set_wr c w', wd'')
          end
      end
  end.

(** The loop of [handle]: [err = func() error { for { ... } }()]. *)
Fixpoint handle_loop (fuel : nat) (cfg : config) (c : conn) (wd : world)
    : outcome (option error) * conn * world :=
  match fuel with
  | 0 => (OutOfFuel, c, wd)
  | S fuel' =>
      match handle_round fuel' cfg c wd with
      | (Ok Continue, c', wd') => handle_loop fuel' cfg c' wd'
      | (Ok (Return_ err), c', wd') => (Ok err, c', wd')
      | (Err e, c', wd') => (Err e, c', wd')
      | (Panic, c', wd') => (Panic, c', wd')
      | (OutOfFuel, c', wd') => (OutOfFuel, c', wd')
      end
  end.

(** The deferred function of [handle]. *)
Definition handle_deferred (cfg : config) (s : server) (id : nat) (c : conn)
    (wd : world) (err : option error) : server * world :=
  let wd := if is_hijacked err then wd else stream_close wd in
  let conns := remove Nat.eq_dec id (s_conns s) in
  let wd :=
    if closed cfg then
      log wd (EvClosed (match err with Some io_EOF => None | _ => err end))
    else wd in
  if is_hijacked err then (mkServer conns (s_rdpool s) (s_wrpool s), wd) else
  let rdpool :=
    if (length (s_rdpool s) <? defaultPoolSize)
       && (length (rd_buf (c_rd c)) <? defaultBufLen)
    then s_rdpool s ++ [rd_buf (c_rd c)] else s_rdpool s in
  let wrpool :=
    if (length (s_wrpool s) <? defaultPoolSize)
       && (wr_cap (c_wr c) <? defaultBufLen)
    then s_wrpool s ++ [([], wr_cap (c_wr c))] else s_wrpool s in
  (mkServer conns rdpool wrpool, wd).

(** [handle] as it runs: the loop, then the deferred function.  When the
    loop panics the deferred function runs all the same, while the panic
    unwinds the stack, with [err] still [nil] (nothing was assigned to it);
    nothing recovers, so the panic goes on after it. *)
Definition handle_run (fuel : nat) (cfg : config) (s : server) (id : nat)
    (c : conn) (wd : world)
    : outcome (option error) * server * conn * world :=
  match handle_loop fuel cfg c wd with
  | (Ok err, c', wd') =>
      let '(s', wd'') := handle_deferred cfg s id c' wd' err in
      (Ok err, s', c', wd'')
  | (Panic, c', wd') =>
      let '(s', wd'') := handle_deferred cfg s id c' wd' None in
      (Panic, s', c', wd'')
  | (Err e, c', wd') => (Err e, s, c', wd')
  | (OutOfFuel, c', wd') => (OutOfFuel, s, c', wd')
  end.

(** [handle] for its caller: when it returns, the error of the loop and
    the state it leaves. *)
Definition handle (fuel : nat) (cfg : config) (s : server) (id : nat)
    (c : conn) (wd : world) : outcome (option error * server * conn * world) :=
  match handle_run fuel cfg s id c wd with
  | (Ok err, s', c', wd') => Ok (err, s', c', wd')
  | (Err e, _, _, _) => Err e
  | (Panic, _, _, _) => Panic
  | (OutOfFuel, _, _, _) => OutOfFuel
  end.

(** [NewServer]: the read pool starts with [defaultPoolSize] buffers of
    [defaultBufLen] bytes. *)
Definition NewServer : server :=
  mkServer [] (repeat (repeat x00 defaultBufLen) defaultPoolSize) [].

(** The part of the accept loop that builds the connection [id] with
    buffers from the pools and registers it. *)
Definition new_conn (s : server) (id : nat) (addr : bytes) : server * conn :=
  let '(rdbuf, rdpool) :=
    match rev (s_rdpool s) with
    | buf :: _ => (buf, removelast (s_rdpool s))
    | [] => (repeat x00 defaultBufLen, s_rdpool s)
    end in
  let '(wrb, wrpool) :=
    match rev (s_wrpool s) with
    | slot :: _ => (slot, removelast (s_wrpool s))
    | [] => (([], 64), s_wrpool s)
    end in
  (mkServer (id :: s_conns s) rdpool wrpool,
   mkConn (mkWriter (fst wrb) (snd wrb) None) (mkReader rdbuf 0 0) addr None
          false).

(** The body of the accept loop for one accepted connection. *)
Definition serve_conn (fuel : nat) (cfg : config) (s : server) (id : nat)
    (addr : bytes) (wd : world)
    : outcome (option (option error) * server * world) :=
  let '(s, c) := new_conn s id addr in
  let '(ok, c, wd) :=
    match accept cfg with
    | Some f => run_prog (f (w_trace wd)) c wd
    | None => (true, c, wd)
    end in
  if negb ok then
    let s := mkServer (remove Nat.eq_dec id (s_conns s)) (s_rdpool s)
                      (s_wrpool s) in
    match conn_Close c wd with
    | (_, _, wd') => Ok (None, s, wd')
    end
  else
    let cfg' :=
      match shandler cfg, bhandler cfg with
      | None, None =>
          mkConfig (Some (fun _ _ => Return tt)) None (accept cfg) (closed cfg)
      | Some h, _ => mkConfig (Some h) None (accept cfg) (closed cfg)
      | None, Some h => mkConfig None (Some h) (accept cfg) (closed cfg)
      end in
    match handle fuel cfg' s id c wd with
    | Ok (err, s', _, wd') => Ok (Some err, s', wd')
    | Err e => Err e
    | Panic => Panic
    | OutOfFuel => OutOfFuel
    end.

(** [hijackedConn.Flush] *)
Definition hijacked_Flush (h : hijackedConn) (wd : world)
    : option error * hijackedConn * world :=
  match Flush (c_wr (hjc_conn h)) wd with
  | (err, w', wd') => (err, mkHijacked (set_wr (hjc_conn h) w') (hjc_cmds h), wd')
  end.

(** [hijackedConn.ReadCommandBytes]; the fuel bounds the recursion
    [return hjc.ReadCommandBytes()]. *)
Fixpoint ReadCommandBytes (fuel : nat) (h : hijackedConn) (wd : world)
    : outcome (list bytes) * hijackedConn * world :=
  match fuel with
  | 0 => (OutOfFuel, h, wd)
  | S fuel' =>
      match hjc_cmds h with
      | args :: rest => (Ok args, mkHijacked (hjc_conn h) rest, wd)
      | [] =>
          match ReadCommands fuel' (c_rd (hjc_conn h)) wd with
          | (Ok cmds, r', wd') =>
              ReadCommandBytes fuel' (mkHijacked (set_rd (hjc_conn h) r') cmds) wd'
          | (Err e, r', wd') =>
              (Err e, mkHijacked (set_rd (hjc_conn h) r') (hjc_cmds h), wd')
          | (Panic, r', wd') =>
              (Panic, mkHijacked (set_rd (hjc_conn h) r') (hjc_cmds h), wd')
          | (OutOfFuel, r', wd') =>
              (OutOfFuel, mkHijacked (set_rd (hjc_conn h) r') (hjc_cmds h), wd')
          end
      end
  end.

(** [hijackedConn.ReadCommand]; the fuel bounds the recursion
    [return hjc.ReadCommand()]. *)
Fixpoint ReadCommand (fuel : nat) (h : hijackedConn) (wd : world)
    : outcome (list bytes) * hijackedConn * world :=
  match fuel with
  | 0 => (OutOfFuel, h, wd)
  | S fuel' =>
      match hjc_cmds h with
      | args :: rest => (Ok args, mkHijacked (hjc_conn h) rest, wd)
      | [] => ReadCommand fuel' h wd
      end
  end.

End Engine.

(* ------------------------------------------------------------------ *)
(** ** What the specification says, as definitions to compare with *)

(** The wire encoding of each reply, in the words of the table of wire
    encodings. *)
Definition encoding (c : write_call) : bytes :=
  match c with
  | CallWriteString s => bs "+" ++ s ++ CRLF
  | CallWriteError msg => bs "-" ++ msg ++ CRLF
  | CallWriteInt n => bs ":" ++ FormatInt n ++ CRLF
  | CallWriteNull => bs "$-1" ++ CRLF
  | CallWriteBulk s =>
      bs "$" ++ FormatInt (Z.of_nat (length s)) ++ CRLF ++ s ++ CRLF
  | CallWriteBulkBytes b =>
      bs "$" ++ FormatInt (Z.of_nat (length b)) ++ CRLF ++ b ++ CRLF
  | CallWriteArrayStart k => bs "*" ++ FormatInt k ++ CRLF
  end.

(** A sequence of [Write*] calls on a writer, one after the other. *)
Definition write_calls (growslice : nat -> nat -> nat) (w : writer)
    (calls : list write_call) : writer :=
  fold_left (fun w c => snd (do_write growslice w c)) calls w.

(** The quoting rules of inline commands, in the words of the
    specification.  An escaped byte inside quotes: *)
Definition escaped (c : byte) : byte :=
  match c with
  | "n"%byte => LF
  | "r"%byte => CR
  | "t"%byte => TAB
  | other => other
  end.

(** The bytes of a quoted argument after its opening quote: the argument
    and what follows its closing quote, or [None] when the quote is left
    open at the end of the line. *)
Fixpoint quoted_arg (l : bytes) (acc : bytes) : option (bytes * bytes) :=
  match l with
  | [] => None
  | c :: l' =>
      if Byte.eqb c "\" then
        match l' with
        | [] => None
        | e :: l'' => quoted_arg l'' (acc ++ [escaped e])
        end
      else if Byte.eqb c DQUOTE then Some (acc, l')
      else quoted_arg l' (acc ++ [c])
  end.

(** An unquoted argument: the bytes up to the next space or quote. *)
Fixpoint bare_arg (l : bytes) : bytes * bytes :=
  match l with
  | [] => ([], [])
  | c :: l' =>
      if Byte.eqb c " " || Byte.eqb c DQUOTE then ([], l)
      else let (tok, rest) := bare_arg l' in (c :: tok, rest)
  end.

Definition cons_arg (a : bytes) (r : outcome (list bytes))
    : outcome (list bytes) :=
  args <- r ;; Ok (a :: args).

(** The arguments of a line.  Spaces separate arguments and empty unquoted
    tokens vanish; a quote opens an argument only at its start; the closing
    quote must be followed by a space or the end of the line. *)
Fixpoint split_line (fuel : nat) (l : bytes) : outcome (list bytes) :=
  match fuel with
  | 0 => OutOfFuel
  | S fuel' =>
      match l with
      | [] => Ok []
      | c :: l' =>
          if Byte.eqb c " " then split_line fuel' l'
          else if Byte.eqb c DQUOTE then
            match quoted_arg l' [] with
            | None => Err errUnbalancedQuotes
            | Some (arg, []) => Ok [arg]
            | Some (arg, (c' :: _) as rest) =>
                if Byte.eqb c' " " then cons_arg arg (split_line fuel' rest)
                else Err errUnbalancedQuotes
            end
          else
            match bare_arg l with
            | (tok, []) => Ok [tok]
            | (tok, (c' :: _) as rest) =>
                if Byte.eqb c' DQUOTE then Err errUnbalancedQuotes
                else cons_arg tok (split_line fuel' rest)
            end
      end
  end.

Definition line_args (l : bytes) : outcome (list bytes) :=
  split_line (S (length l)) l.

(** A line without the ['\r'] that may end it. *)
Definition strip_cr (l : bytes) : bytes :=
  match rev l with
  | c :: _ => if Byte.eqb c CR then removelast l else l
  | [] => l
  end.

(** What [ReadCommands] hands over for one inline line. *)
Definition line_result (l : bytes) : outcome (list (list bytes) * bytes) :=
  args <- line_args (strip_cr l) ;;
  Ok (match args with [] => [] | _ => [args] end, []).

(** ** Reading a whole stream: [ReadCommands] called until it fails *)

Fixpoint read_all (n fuel : nat) (r : reader) (w : world)
    : list (list (list bytes)) * outcome unit * reader * world :=
  match n with
  | 0 => ([], OutOfFuel, r, w)
  | S n' =>
      match ReadCommands fuel r w with
      | (Ok cmds, r', w') =>
          let '(batches, fin, r'', w'') := read_all n' fuel r' w' in
          (cmds :: batches, fin, r'', w'')
      | (Err e, r', w') => ([], Err e, r', w')
      | (Panic, r', w') => ([], Panic, r', w')
      | (OutOfFuel, r', w') => ([], OutOfFuel, r', w')
      end
  end.

(** The buffered, not yet consumed bytes [buf[start:end]]. *)
Definition pending (r : reader) : bytes :=
  firstn (rd_end r - rd_start r) (skipn (rd_start r) (rd_buf r)).

(** The invariant of the parser state, with the fact that the cursors are
    reset when everything is consumed and that the buffer is not empty. *)
Definition reader_ok (r : reader) : Prop :=
  rd_start r <= rd_end r /\ rd_end r <= length (rd_buf r) /\
  0 < length (rd_buf r) /\ (rd_start r = rd_end r -> rd_end r = 0).

(** Bytes and reads left in the stream: bounds the reads [ReadCommands]
    can make. *)
Fixpoint stream_size (evs : list read_event) : nat :=
  match evs with
  | [] => 0
  | RData d :: evs' => S (length d + stream_size evs')
  | RFail _ :: evs' => S (stream_size evs')
  end.

(** A well-formed command: at least one argument, and an encoding that
    fits the address space. *)
Definition wf_command (args : list bytes) : Prop :=
  args <> [] /\ (Z.of_nat (length (encode_command args)) < 2 ^ 63)%Z.

(** A count of arguments below ten million.  The parser passes the count
    that a client announces to [make] as soon as it has read it, before any
    argument has arrived; for a modest count the slice is at most 240 MB.
    (Of [make] only the panic on a capacity out of range is modelled, not
    what the runtime does when memory is short.) *)
Definition modest (n : nat) : Prop := (Z.of_nat n < 10 ^ 7)%Z.

(** A well-formed command with a modest count of arguments. *)
Definition fit_command (args : list bytes) : Prop :=
  wf_command args /\ modest (length args).

(** [q] is the beginning of such a command of which bytes are still
    missing; nothing buffered is also such a beginning. *)
Definition partial_command (q : bytes) : Prop :=
  exists args rest, fit_command args /\ rest <> [] /\
                    encode_command args = q ++ rest.

(** ** RESP frames with explicit length headers

    The parser reads a length header with [parseInt], which accepts more
    than the decimal numbers a client normally sends.  A frame pairs every
    bulk string with the header bytes that announce it. *)

Definition frame_bulk (hb : bytes * bytes) : bytes :=
  "$"%byte :: fst hb ++ CRLF ++ snd hb ++ CRLF.

Definition bulks_bytes (bulks : list (bytes * bytes)) : bytes :=
  List.concat (map frame_bulk bulks).

Definition frame_command (hn : bytes) (bulks : list (bytes * bytes)) : bytes :=
  "*"%byte :: hn ++ CRLF ++ List.concat (map frame_bulk bulks).

(** [h] holds no ['\n'] and the parser reads it as the number [n]. *)
Definition header_ok (h : bytes) (n : nat) : Prop :=
  ~ In LF h /\ parseInt h = Ok (Z.of_nat n).

(** [h] is a count header: read as [n], a modest count. *)
Definition count_ok (h : bytes) (n : nat) : Prop :=
  header_ok h n /\ modest n.

Definition bulk_ok (hb : bytes * bytes) : Prop :=
  header_ok (fst hb) (length (snd hb)).

Definition frame_ok (hn : bytes) (bulks : list (bytes * bytes)) : Prop :=
  header_ok hn (length bulks) /\ bulks <> [] /\ Forall bulk_ok bulks /\
  (Z.of_nat (length (frame_command hn bulks)) < 2 ^ 63)%Z.

(** The headers a client sends: the decimal lengths. *)
Definition with_headers (args : list bytes) : list (bytes * bytes) :=
  map (fun a => (FormatInt (Z.of_nat (length a)), a)) args.

(** A command in which the header of an empty argument has no digits. *)
Definition bare_headers (args : list bytes) : list (bytes * bytes) :=
  map (fun a => (match a with
                 | [] => []
                 | _ :: _ => FormatInt (Z.of_nat (length a))
                 end, a)) args.

(** What [ReadCommands] returns when the stream ends: the terminal signal
    when nothing is pending, [io.ErrUnexpectedEOF] otherwise. *)
Definition eof_error (partial : bytes) : error :=
  match partial with
  | [] => io_EOF
  | _ :: _ => io_ErrUnexpectedEOF
  end.

(** The states the loop of [handle] goes through: [c, wd] at the start of a
    round, [c', wd'] at the start of a later one. *)
Inductive rounds (growslice : nat -> nat -> nat) (cfg : config)
    : conn -> world -> conn -> world -> Prop :=
| rounds_refl c wd : rounds growslice cfg c wd c wd
| rounds_step fuel c wd c1 wd1 c2 wd2 :
    handle_round growslice fuel cfg c wd = (Ok Continue, c1, wd1) ->
    rounds growslice cfg c1 wd1 c2 wd2 ->
    rounds growslice cfg c wd c2 wd2.

(** What holds of a connection when [handle] receives it: a writer with a
    sticky error was closed through the facade, which closed the stream, and
    nothing was read yet. *)
Definition conn_ok (c : conn) (wd : world) : Prop :=
  wr_err (c_wr c) = None \/
  (w_closed wd = true /\ rd_start (c_rd c) = rd_end (c_rd c)).

(* ------------------------------------------------------------------ *)
(** ** Sample inputs *)

(** Three commands, with arguments that hold line ends and zero bytes,
    followed by the bytes of a command cut before its last line end. *)
Definition sample_cmds : list (list bytes) :=
  [[bs "SET"; bs "k"; [CR; LF; x00]]; [bs "GET"; bs "k"]; [[]]].
Definition sample_partial : bytes :=
  bs "*2" ++ CRLF ++ bs "$3" ++ CRLF ++ bs "foo" ++ CRLF
    ++ bs "$3" ++ CRLF ++ bs "bar".
Definition sample_stream : bytes :=
  encode_commands sample_cmds ++ sample_partial.
Definition sample_chunks : list bytes :=
  [firstn 3 sample_stream; []; firstn 20 (skipn 3 sample_stream);
   skipn 23 sample_stream].

(** The inline line [set "a b" "c\nd"], with the ['\r'] that ends it. *)
Definition sample_line : bytes :=
  bs "set " ++ [DQUOTE] ++ bs "a b" ++ [DQUOTE] ++ bs " " ++ [DQUOTE]
    ++ bs "c\nd" ++ [DQUOTE] ++ [CR].

(** A growth policy, handlers, a connection and streams for examples. *)
Definition sample_grow (oldcap needed : nat) : nat := Nat.max needed (2 * oldcap).

Definition pong : handler :=
  fun _ cmds =>
    fold_right (fun _ k => DoWrite (CallWriteString (bs "PONG")) k) (Return tt) cmds.

Definition hijacker : handler := fun _ _ => DoHijack (Return tt).

Definition sample_cfg : config := mkConfig (Some pong) None None true.
Definition hijack_cfg : config := mkConfig (Some hijacker) None None true.

Definition sample_conn : conn :=
  mkConn (mkWriter [] 64 None) (mkReader (repeat x00 32) 0 0)
         (bs "10.0.0.1:5000") None false.

Definition sample_server : server := mkServer [1] [] [].

Definition bad_world : world :=
  mkWorld [RData (bs "ping" ++ CRLF); RData (bs "*abc" ++ CRLF)] [] false [].

Definition cut_world : world :=
  mkWorld [RData (bs "ping" ++ CRLF ++ bs "*1" ++ CRLF ++ bs "$4" ++ CRLF ++ bs "pi")]
          [] false [].

Definition ping_world : world :=
  mkWorld [RData (bs "ping" ++ CRLF)] [] false [].

(** The state at the start of the second round. *)
Definition second_round (cfg : config) (wd : world) : conn * world :=
  match handle_round sample_grow 10 cfg sample_conn wd with
  | (_, c, wd') => (c, wd')
  end.

(* ------------------------------------------------------------------ *)
(** ** What further statements about the code are written with *)

(** The number that a string of digits denotes, without any bound. *)
Definition digits_value (b : bytes) : Z :=
  fold_left (fun n c => (10 * n + digit_val c)%Z) b 0%Z.

(** The number of digits at the head of [b], and the length of the longest
    run of consecutive digits in [b]. *)
Fixpoint digit_run (b : bytes) : nat :=
  match b with
  | c :: b' => if is_digit c then S (digit_run b') else 0
  | [] => 0
  end.

Fixpoint longest_digit_run (b : bytes) : nat :=
  match b with
  | [] => 0
  | _ :: b' => Nat.max (digit_run b) (longest_digit_run b')
  end.

(** Words joined by single spaces, as a client types an inline command. *)
Fixpoint join_words (ws : list bytes) : bytes :=
  match ws with
  | [] => []
  | [w] => w
  | w :: ws' => w ++ " "%byte :: join_words ws'
  end.

(** A word that needs no quotes: not empty, without space, quote or line
    end. *)
Definition plain_byte (c : byte) : bool :=
  negb (Byte.eqb c " ") && negb (Byte.eqb c DQUOTE) && negb (Byte.eqb c LF).

Definition plain_word (w : bytes) : bool :=
  (0 <? length w) && forallb plain_byte w.

(** An argument written between quotes: a line end becomes backslash-n, a
    quote and a backslash get a backslash in front. *)
Definition quote_byte (c : byte) : bytes :=
  if Byte.eqb c LF then ["\"%byte; "n"%byte]
  else if Byte.eqb c DQUOTE || Byte.eqb c "\" then ["\"%byte; c]
  else [c].

Definition quote_arg (a : bytes) : bytes :=
  DQUOTE :: List.concat (map quote_byte a) ++ [DQUOTE].

(** The bytes still to come on the stream, failed reads left out. *)
Fixpoint stream_bytes (evs : list read_event) : bytes :=
  match evs with
  | [] => []
  | RData d :: evs' => d ++ stream_bytes evs'
  | RFail _ :: evs' => stream_bytes evs'
  end.

(** [wd'] continues the trace of [wd] with events that satisfy [P]. *)
Definition trace_adds (P : event -> Prop) (wd wd' : world) : Prop :=
  exists evs, w_trace wd' = w_trace wd ++ evs /\ Forall P evs.

(** What user code can do to the stream through the facade: write and
    close. *)
Definition stream_event (e : event) : Prop :=
  match e with
  | EvWrite _ _ | EvConnClose => True
  | _ => False
  end.

(** Anything but a call of the observer. *)
Definition not_observer (e : event) : Prop := forall err, e <> EvClosed err.

(** A handler body that only writes replies. *)
Definition replies (calls : list write_call) (k : prog unit) : prog unit :=
  fold_right (fun call p => DoWrite call p) k calls.

(** An accept callback that writes replies and turns the connection
    away. *)
Definition refusing (calls : list write_call) : prog bool :=
  fold_right (fun call p => DoWrite call p) (Return false) calls.

(** The errors with which the parser refuses bytes. *)
Definition is_protocol (e : error) : Prop := exists msg, e = errProtocol msg.

(** A connection with a reply that is still buffered, a stream whose first
    read fails, a handler that says goodbye and closes, and a configuration
    whose accept callback turns every connection away. *)
Definition pending_conn : conn :=
  mkConn (mkWriter (bs "+hi" ++ CRLF) 64 None) (mkReader (repeat x00 32) 0 0)
         (bs "10.0.0.1:5000") None false.

Definition failing_world : world := mkWorld [RFail 5] [] false [].

(** A stream that announces a command of twenty million million
    arguments. *)
Definition huge_count_world : world :=
  mkWorld [RData (bs "*20000000000000" ++ CRLF)] [] false [].

Definition closer : handler :=
  fun _ _ =>
    replies [CallWriteString (bs "BYE")]
      (DoClose (fun _ => replies [CallWriteString (bs "late")] (Return tt))).

Definition closer_cfg : config := mkConfig (Some closer) None None true.

Definition refuse_cfg : config :=
  mkConfig (Some pong) None
           (Some (fun _ => DoWrite (CallWriteError (bs "ERR busy")) (Return false)))
           true.

Definition small_server : server :=
  mkServer [] [repeat x00 defaultBufLen; repeat x00 defaultBufLen] [([], 64)].

(** [ReadCommandBytes] called on a hijacked connection until it fails: the
    commands it returned, how the calls ended, and the state they left. *)
Fixpoint read_each (n fuel : nat) (h : hijackedConn) (wd : world)
    : list (list bytes) * outcome unit * hijackedConn * world :=
  match n with
  | 0 => ([], OutOfFuel, h, wd)
  | S n' =>
      match ReadCommandBytes fuel h wd with
      | (Ok args, h', wd') =>
          let '(cmds, fin, h'', wd'') := read_each n' fuel h' wd' in
          (args :: cmds, fin, h'', wd'')
      | (Err e, h', wd') => ([], Err e, h', wd')
      | (Panic, h', wd') => ([], Panic, h', wd')
      | (OutOfFuel, h', wd') => ([], OutOfFuel, h', wd')
      end
  end.

(** The commands that a trace shows as handed to a handler, in order. *)
Fixpoint delivered (evs : list event) : list (list bytes) :=
  match evs with
  | [] => []
  | EvHandler _ cmds :: evs' => cmds ++ delivered evs'
  | _ :: evs' => delivered evs'
  end.

(** A handler that only ever answers with [Write*] calls. *)
Definition replying (h : handler) : Prop :=
  forall tr cmds, exists calls, h tr cmds = replies calls (Return tt).

(** A handler that answers, hijacks the connection and writes once more,
    and a stream on which the first write fails. *)
Definition taker : handler :=
  fun _ _ =>
    replies [CallWriteString (bs "OK")]
      (DoHijack (replies [CallWriteString (bs "late")] (Return tt))).

Definition taker_cfg : config := mkConfig (Some taker) None None true.

Definition broken_world : world :=
  mkWorld [RData (bs "ping" ++ CRLF)] [Some 9] false [].

(** What a client sends for one command: the RESP encoding, a line of plain
    words, or a line of quoted arguments. *)
Inductive sent : Type :=
| SentResp (args : list bytes)
| SentWords (ws : list bytes)
| SentQuoted (args : list bytes).

Definition sent_bytes (s : sent) : bytes :=
  match s with
  | SentResp args => encode_command args
  | SentWords ws => join_words ws ++ CRLF
  | SentQuoted args => join_words (map quote_arg args) ++ CRLF
  end.

Definition sent_args (s : sent) : list bytes :=
  match s with
  | SentResp args => args
  | SentWords ws => ws
  | SentQuoted args => args
  end.

(** Whether the count of arguments of a RESP command is a capacity that
    [make] accepts; a line announces no count. *)
Definition sent_fits (s : sent) : bool :=
  match s with
  | SentResp args => makeslice_ok (Z.of_nat (length args))
  | SentWords _ | SentQuoted _ => true
  end.

Definition sent_ok (s : sent) : Prop :=
  match s with
  | SentResp args => wf_command args
  | SentWords ws =>
      ws <> [] /\ forallb plain_word ws = true /\
      hd_error (join_words ws) <> Some "*"%byte
  | SentQuoted args => args <> []
  end.

(* ================================================================== *)
(** * Theorems *)

(* ------------------------------------------------------------------ *)
(** ** Lists of bytes *)

Ltac len :=
  repeat (progress (rewrite ?length_app; cbn [length])); lia.
Ltac assoc :=
  repeat (progress (cbn [app]; rewrite <- ?app_assoc)); reflexivity.

Lemma byte_at_split b X c Y i :
  b = X ++ c :: Y -> length X = i -> byte_at b i = Ok c.
Proof.
  intros -> <-. unfold byte_at. rewrite nth_error_app2 by lia.
  now rewrite Nat.sub_diag.
Qed.

Lemma slice_split b X M Y lo hi :
  b = X ++ M ++ Y -> length X = lo -> lo + length M = hi -> slice b lo hi = Ok M.
Proof.
  intros -> <- <-. unfold slice.
  replace (length X <=? length X + length M) with true
    by (symmetry; apply Nat.leb_le; lia).
  replace (length X + length M <=? length (X ++ M ++ Y)) with true
    by (symmetry; apply Nat.leb_le; rewrite !length_app; lia).
  cbn [andb]. rewrite skipn_app, skipn_all, Nat.sub_diag. cbn [skipn app].
  replace (length X + length M - length X) with (length M) by lia.
  rewrite firstn_app, firstn_all, Nat.sub_diag. cbn [firstn]. now rewrite app_nil_r.
Qed.

Lemma slice_from_split b X Y lo :
  b = X ++ Y -> length X = lo -> slice_from b lo = Ok Y.
Proof.
  intros -> <-. unfold slice_from.
  replace (length X <=? length (X ++ Y)) with true
    by (symmetry; apply Nat.leb_le; rewrite length_app; lia).
  rewrite skipn_app, skipn_all, Nat.sub_diag. reflexivity.
Qed.

Lemma eqb_LF_notin c l : In c l -> ~ In LF l -> Byte.eqb c LF = false.
Proof.
  intros Hin Hn. destruct (Byte.eqb c LF) eqn:E; [|reflexivity].
  apply Byte.byte_dec_bl in E. subst. contradiction.
Qed.


(* ------------------------------------------------------------------ *)
(** ** Inline commands: the loops against the quoting rules *)

Lemma escaped_unescape c : escaped c = unescape c.
Proof. destruct c; reflexivity. Qed.

Lemma bare_arg_app l : l = fst (bare_arg l) ++ snd (bare_arg l).
Proof.
  induction l as [|c l IH]; simpl; [reflexivity|].
  destruct (Byte.eqb c " " || Byte.eqb c DQUOTE); simpl; [reflexivity|].
  destruct (bare_arg l) as [tok rest]; simpl in *. now rewrite IH at 1.
Qed.

Lemma bare_arg_length l : length (snd (bare_arg l)) <= length l.
Proof.
  rewrite (bare_arg_app l) at 2. rewrite length_app. lia.
Qed.

Lemma inline_inner_bare l : forall i nline A e,
  inline_inner l i nline A false e =
  inline_inner (snd (bare_arg l)) (i + length (fst (bare_arg l)))
               (nline ++ fst (bare_arg l)) A false e.
Proof.
  induction l as [|c l IH]; intros i nline A e.
  - simpl. now rewrite app_nil_r.
  - cbn [bare_arg].
    destruct (Byte.eqb c " ") eqn:Hs; cbn [orb].
    + cbn [fst snd length]. now rewrite Nat.add_0_r, app_nil_r.
    + destruct (Byte.eqb c DQUOTE) eqn:Hq.
      * cbn [fst snd length]. now rewrite Nat.add_0_r, app_nil_r.
      * destruct (bare_arg l) as [tok rest] eqn:Hb. cbn [fst snd] in *.
        cbn [inline_inner negb]. rewrite Hs, Hq. rewrite IH.
        cbn [length]. rewrite <- app_assoc. cbn [app].
        now rewrite Nat.add_succ_r.
Qed.

Lemma quoted_arg_length : forall n l acc arg rest,
  length l <= n -> quoted_arg l acc = Some (arg, rest) -> length rest < length l.
Proof.
  induction n as [|n IH]; intros l acc arg rest Hn H.
  - destruct l; [discriminate|simpl in Hn; lia].
  - destruct l as [|c l]; [discriminate|]. cbn [quoted_arg] in H.
    destruct (Byte.eqb c "\").
    + destruct l as [|e l]; [discriminate|].
      apply IH in H; simpl in *; lia.
    + destruct (Byte.eqb c DQUOTE).
      * inversion H; subst. simpl. lia.
      * apply IH in H; simpl in *; lia.
Qed.

(** The inner loop inside quotes against [quoted_arg]. *)
Lemma inline_inner_quoted : forall n l i nline A,
  length l <= n ->
  match quoted_arg l nline with
  | None => exists nl e, inline_inner l i nline A true false = IExit nl e
  | Some (arg, rest) =>
      inline_inner l i nline A true false =
      match rest with
      | [] => IContinue [] (A ++ [arg]) false false
      | c' :: _ => if Byte.eqb c' " " then IContinue rest (A ++ [arg]) false false
                   else IReturn errUnbalancedQuotes
      end
  end.
Proof.
  induction n as [|n IH]; intros l i nline A Hn.
  - destruct l; [|simpl in Hn; lia]. simpl. eauto.
  - destruct l as [|c l]; [simpl; eauto|].
    cbn [quoted_arg inline_inner negb].
    destruct (Byte.eqb c "\") eqn:Hb.
    + assert (Hq : Byte.eqb c DQUOTE = false).
      { apply Byte.byte_dec_bl in Hb. subst. reflexivity. }
      rewrite Hq.
      destruct l as [|e l].
      * simpl. eauto.
      * cbn [inline_inner negb]. rewrite escaped_unescape.
        apply IH. simpl in *; lia.
    + destruct (Byte.eqb c DQUOTE) eqn:Hq.
      * destruct l as [|c' l]; [reflexivity|].
        destruct (Byte.eqb c' " "); reflexivity.
      * apply IH. simpl in *; lia.
Qed.

Lemma bare_arg_rest_head l c' r :
  snd (bare_arg l) = c' :: r -> Byte.eqb c' " " || Byte.eqb c' DQUOTE = true.
Proof.
  induction l as [|c l IH]; simpl; [discriminate|].
  destruct (Byte.eqb c " " || Byte.eqb c DQUOTE) eqn:E; simpl.
  - intros H; inversion H; subst; exact E.
  - destruct (bare_arg l); simpl in *. exact IH.
Qed.

Lemma inline_outer_split : forall n l,
  length l <= n ->
  forall f1 f2 A, length l < f1 -> length l < f2 ->
  inline_outer f1 l A false false = (args <- split_line f2 l ;; Ok (A ++ args)).
Proof.
  induction n as [|n IH]; intros l Hn f1 f2 A H1 H2.
  - destruct l; [|simpl in Hn; lia].
    destruct f1; [lia|]. destruct f2; [lia|]. simpl. now rewrite app_nil_r.
  - destruct l as [|c l].
    { destruct f1; [lia|]. destruct f2; [lia|]. simpl. now rewrite app_nil_r. }
    cbn [length] in *.
    destruct f1 as [|f1]; [lia|]. destruct f2 as [|f2]; [lia|].
    cbn [split_line inline_outer].
    destruct (Byte.eqb c " ") eqn:Hs.
    + cbn [inline_inner negb]. rewrite Hs. cbn [length Nat.ltb Nat.leb].
      apply IH; lia.
    + destruct (Byte.eqb c DQUOTE) eqn:Hq.
      * cbn [inline_inner negb]. rewrite Hs, Hq. cbn [Nat.eqb negb].
        destruct f1 as [|f1]; [lia|]. cbn [inline_outer].
        pose proof (inline_inner_quoted (length l) l 0 [] A (le_n _)) as Hin.
        destruct (quoted_arg l []) as [[arg rest]|] eqn:Hqa.
        -- rewrite Hin. pose proof (quoted_arg_length _ _ _ _ _ (le_n _) Hqa) as Hlen.
           destruct rest as [|c' rest].
           ++ destruct f1 as [|f1]; [lia|]. reflexivity.
           ++ destruct (Byte.eqb c' " ") eqn:Hc'; [|reflexivity].
              rewrite (IH (c' :: rest) ltac:(lia) f1 f2 (A ++ [arg]) ltac:(lia) ltac:(lia)).
              unfold cons_arg. destruct (split_line f2 (c' :: rest)); simpl; try reflexivity.
              now rewrite <- app_assoc.
        -- destruct Hin as (nl & e & Hin). rewrite Hin. reflexivity.
      * rewrite (inline_inner_bare (c :: l) 0 [] A false).
        pose proof (bare_arg_app (c :: l)) as Happ.
        pose proof (bare_arg_rest_head (c :: l)) as Hhead.
        assert (Htok : fst (bare_arg (c :: l)) <> []).
        { cbn [bare_arg]. rewrite Hs, Hq. cbn [orb]. destruct (bare_arg l); discriminate. }
        destruct (bare_arg (c :: l)) as [tok rest] eqn:Hb. cbn [fst snd] in *.
        destruct rest as [|c' rest].
        -- cbn [inline_inner]. rewrite app_nil_r in Happ. rewrite <- Happ.
           reflexivity.
        -- specialize (Hhead c' rest eq_refl).
           cbn [inline_inner negb app]. 
           assert (Hlt : length tok + length (c' :: rest) = S (length l)).
           { rewrite <- length_app, <- Happ. reflexivity. }
           assert (Htl : 1 <= length tok).
           { destruct tok; [congruence|simpl; lia]. }
           destruct (Byte.eqb c' " ") eqn:Hc's.
           ++ assert (Hc'q : Byte.eqb c' DQUOTE = false).
              { apply Byte.byte_dec_bl in Hc's. subst. reflexivity. }
              rewrite Hc'q.
              assert (Hl : (0 <? length tok) = true).
              { destruct tok; [congruence|reflexivity]. }
              rewrite Hl. cbn [length] in Hlt.
              rewrite (IH rest ltac:(lia) f1 (pred f2) (A ++ [tok]) ltac:(lia) ltac:(lia)).
              destruct f2 as [|f2]; [lia|]. cbn [split_line pred]. rewrite Hc's.
              unfold cons_arg. destruct (split_line f2 rest); simpl; try reflexivity.
              now rewrite <- app_assoc.
           ++ cbn [orb] in Hhead. rewrite Hhead.
              assert (Hi : negb (length tok =? 0) = true).
              { destruct tok; [congruence|reflexivity]. }
              cbn [Nat.add]. rewrite Hi. reflexivity.
Qed.

Theorem inline_args_line_args l : inline_args l = line_args l.
Proof.
  unfold inline_args, line_args.
  rewrite (inline_outer_split (length l) l (le_n _) _ (S (length l)) []) by lia.
  destruct (split_line _ l); reflexivity.
Qed.

Lemma inline_scan_skip b : forall l2 rest i cmds,
  ~ In LF l2 ->
  inline_scan b (l2 ++ rest) i cmds = inline_scan b rest (i + length l2) cmds.
Proof.
  induction l2 as [|c l2 IH]; intros rest i cmds Hn.
  - simpl. now rewrite Nat.add_0_r.
  - cbn [app inline_scan]. rewrite (eqb_LF_notin c (c :: l2)) by (simpl; auto).
    rewrite IH by (simpl in Hn; tauto). cbn [length]. f_equal. lia.
Qed.

Lemma strip_cr_snoc l c :
  strip_cr (l ++ [c]) = if Byte.eqb c CR then l else l ++ [c].
Proof.
  unfold strip_cr. rewrite rev_app_distr. cbn [rev app].
  destruct (Byte.eqb c CR); [|reflexivity]. apply removelast_last.
Qed.

Lemma inline_scan_line l post cmds :
  ~ In LF l ->
  inline_scan (l ++ LF :: post) (l ++ LF :: post) 0 cmds =
  (args <- inline_args (strip_cr l) ;;
   Ok (Some (if 0 <? length args then cmds ++ [args] else cmds, post))).
Proof.
  intros Hn. rewrite inline_scan_skip by exact Hn. cbn [Nat.add inline_scan].
  change (Byte.eqb LF LF) with true. cbv iota.
  assert (Hline :
    (if 0 <? length l
     then p <- byte_at (l ++ LF :: post) (length l - 1) ;;
          if Byte.eqb p CR then slice (l ++ LF :: post) 0 (length l - 1)
          else slice (l ++ LF :: post) 0 (length l)
     else slice (l ++ LF :: post) 0 (length l)) = Ok (strip_cr l)).
  { clear Hn. induction l as [|c l' _] using rev_ind.
    - reflexivity.
    - rewrite strip_cr_snoc, length_app. cbn [length].
      replace (0 <? length l' + 1) with true by (symmetry; apply Nat.ltb_lt; lia).
      replace (length l' + 1 - 1) with (length l') by lia.
      rewrite (byte_at_split _ l' c (LF :: post))
        by (rewrite <- ?app_assoc; reflexivity).
      cbn [bind]. destruct (Byte.eqb c CR).
      + apply (slice_split _ [] l' (c :: LF :: post)); [|reflexivity|reflexivity].
        cbn [app]. now rewrite <- app_assoc.
      + apply (slice_split _ [] (l' ++ [c]) (LF :: post)); [reflexivity|reflexivity|].
        rewrite length_app. reflexivity. }
  rewrite Hline. cbn [bind].
  destruct (inline_args (strip_cr l)) as [args| | |]; cbn [bind]; try reflexivity.
  rewrite (slice_from_split _ (l ++ [LF]) post) by
    (rewrite <- ?app_assoc, ?length_app; cbn [length app]; auto; lia).
  reflexivity.
Qed.


(* ------------------------------------------------------------------ *)
(** ** Integers: [parseInt] reads what [FormatInt] writes *)

Lemma int_wrap_small z : (- 2 ^ 63 <= z < 2 ^ 63)%Z -> int_wrap z = z.
Proof.
  intros H. unfold int_wrap. rewrite Z.mod_small; lia.
Qed.

Lemma digit_val_range c : is_digit c = true -> (0 <= digit_val c <= 9)%Z.
Proof.
  unfold is_digit, digit_val. intros H. apply andb_true_iff in H as [H1 H2].
  apply N.leb_le in H1, H2. lia.
Qed.

Lemma is_digit_not_LF c : is_digit c = true -> c <> LF.
Proof. intros H ->. discriminate. Qed.

Lemma digit_byte_to_N d : (d < 10)%N -> Byte.to_N (digit_byte d) = (48 + d)%N.
Proof.
  intros H. unfold digit_byte.
  destruct (Byte.of_N (48 + d)) as [c|] eqn:E.
  - now apply Byte.to_of_N in E.
  - exfalso. pose proof (Byte.to_of_N_option_map (48 + d)) as Hm.
    rewrite E in Hm. cbn [option_map] in Hm.
    destruct (N.leb_spec (48 + d) 255) as [Hle|Hgt]; [discriminate Hm|lia].
Qed.

Lemma digit_byte_is_digit d : (d < 10)%N -> is_digit (digit_byte d) = true.
Proof.
  intros H. unfold is_digit. rewrite digit_byte_to_N by exact H.
  apply andb_true_iff. split; apply N.leb_le; lia.
Qed.

Lemma digit_byte_val d : (d < 10)%N -> digit_val (digit_byte d) = Z.of_N d.
Proof.
  intros H. unfold digit_val. rewrite digit_byte_to_N by exact H. lia.
Qed.

Lemma log2_div10 n : (10 <= n)%N -> (N.log2 (n / 10) < N.log2 n)%N.
Proof.
  intros H.
  assert (H2 : (n / 10 <= n / 2)%N) by (apply N.div_le_compat_l; lia).
  apply N.log2_le_mono in H2.
  assert (E : (n / 2 = N.shiftr n 1)%N) by (rewrite N.shiftr_div_pow2; reflexivity).
  rewrite E, N.log2_shiftr in H2.
  assert (3 <= N.log2 n)%N.
  { change 3%N with (N.log2 8). apply N.log2_le_mono. lia. }
  lia.
Qed.

Lemma dec_digits_fuel : forall n f1 f2 acc,
  N.to_nat (N.log2 n) <= f1 -> N.to_nat (N.log2 n) <= f2 ->
  dec_digits f1 n acc = dec_digits f2 n [] ++ acc.
Proof.
  intros n. induction n as [n IH] using (well_founded_induction N.lt_wf_0).
  intros f1 f2 acc H1 H2.
  destruct (N.ltb_spec n 10) as [Hlt|Hge].
  - assert (E : (n <? 10)%N = true) by (apply N.ltb_lt; exact Hlt).
    destruct f1, f2; cbn [dec_digits]; rewrite ?E; reflexivity.
  - assert (E : (n <? 10)%N = false) by (apply N.ltb_ge; exact Hge).
    pose proof (log2_div10 n Hge) as Hl.
    destruct f1 as [|f1]; [lia|]. destruct f2 as [|f2]; [lia|].
    cbn [dec_digits]. rewrite E.
    assert (Hd : (n / 10 < n)%N) by (apply N.div_lt; lia).
    rewrite (IH _ Hd f1 f2 (digit_byte (n mod 10) :: acc)) by lia.
    rewrite (IH _ Hd f2 f2 [digit_byte (n mod 10)]) by lia.
    now rewrite <- app_assoc.
Qed.

Lemma decimal_small n : (n < 10)%N -> decimal n = [digit_byte n].
Proof.
  intros H. unfold decimal.
  assert (E : (n <? 10)%N = true) by (apply N.ltb_lt; exact H).
  destruct (N.to_nat (N.log2 n)); cbn [dec_digits]; rewrite ?E.
  all: rewrite N.mod_small by exact H; reflexivity.
Qed.

Lemma decimal_step n :
  (10 <= n)%N -> decimal n = decimal (n / 10) ++ [digit_byte (n mod 10)].
Proof.
  intros H. unfold decimal at 1.
  pose proof (log2_div10 n H) as Hl.
  destruct (N.to_nat (N.log2 n)) as [|f] eqn:Ef; [lia|].
  cbn [dec_digits].
  replace (n <? 10)%N with false by (symmetry; apply N.ltb_ge; exact H).
  unfold decimal. apply dec_digits_fuel; lia.
Qed.

Lemma decimal_digits n : Forall (fun c => is_digit c = true) (decimal n).
Proof.
  induction n as [n IH] using (well_founded_induction N.lt_wf_0).
  destruct (N.ltb_spec n 10) as [Hlt|Hge].
  - rewrite decimal_small by exact Hlt. constructor; [|constructor].
    now apply digit_byte_is_digit.
  - rewrite decimal_step by exact Hge. apply Forall_app. split.
    + apply IH. apply N.div_lt; lia.
    + constructor; [|constructor]. apply digit_byte_is_digit.
      apply N.mod_lt. lia.
Qed.

Lemma decimal_nonempty n : decimal n <> [].
Proof.
  destruct (N.ltb_spec n 10) as [Hlt|Hge].
  - rewrite decimal_small by exact Hlt. discriminate.
  - rewrite decimal_step by exact Hge. intros E. apply app_eq_nil in E as [_ E]. discriminate.
Qed.

Lemma parseInt_loop_app l1 l2 a :
  parseInt_loop (l1 ++ l2) a = (m <- parseInt_loop l1 a ;; parseInt_loop l2 m).
Proof.
  revert a. induction l1 as [|c l1 IH]; intros a; [reflexivity|].
  cbn [app parseInt_loop]. destruct (is_digit c); [apply IH|reflexivity].
Qed.

Lemma parseInt_loop_decimal n :
  (Z.of_N n < 2 ^ 63)%Z -> parseInt_loop (decimal n) 0 = Ok (Z.of_N n).
Proof.
  induction n as [n IH] using (well_founded_induction N.lt_wf_0). intros Hb.
  destruct (N.ltb_spec n 10) as [Hlt|Hge].
  - rewrite decimal_small by exact Hlt. cbn [parseInt_loop].
    rewrite digit_byte_is_digit, digit_byte_val by exact Hlt.
    unfold int_add, int_mul. f_equal.
    rewrite (int_wrap_small (0 * 10)) by lia. apply int_wrap_small. lia.
  - rewrite decimal_step, parseInt_loop_app by exact Hge.
    assert (Hd : (n / 10 < n)%N) by (apply N.div_lt; lia).
    assert (Hm : (n mod 10 < 10)%N) by (apply N.mod_lt; lia).
    pose proof (N.div_mod n 10 ltac:(lia)) as Hdm.
    assert (Hq : (Z.of_N n = 10 * Z.of_N (n / 10) + Z.of_N (n mod 10))%Z) by lia.
    assert (Hm' : (0 <= Z.of_N (n mod 10) < 10)%Z).
    { split; [apply N2Z.is_nonneg|]. change 10%Z with (Z.of_N 10).
      apply N2Z.inj_lt. exact Hm. }
    assert (Hq' : (0 <= Z.of_N (n / 10))%Z) by apply N2Z.is_nonneg.
    rewrite IH; [|exact Hd|].
    2:{ clear -Hq Hm' Hq' Hb. generalize dependent (Z.of_N (n / 10)).
        generalize dependent (Z.of_N (n mod 10)). intros; lia. }
    cbn [bind parseInt_loop].
    rewrite digit_byte_is_digit, digit_byte_val by exact Hm.
    clear -Hq Hm' Hq' Hb.
    generalize dependent (Z.of_N (n mod 10)). generalize dependent (Z.of_N (n / 10)).
    intros q Hq0 r Hr Hr'.
    unfold int_add, int_mul. f_equal.
    rewrite (int_wrap_small (q * 10)) by lia.
    rewrite int_wrap_small by lia. lia.
Qed.

Lemma parseInt_is_loop b : parseInt b = parseInt_loop b 0.
Proof.
  destruct b as [|c0 [|c1 [|c2 b]]]; try reflexivity.
  - cbn [parseInt parseInt_loop]. destruct (is_digit c0) eqn:E0; [|reflexivity].
    pose proof (digit_val_range _ E0). unfold int_add, int_mul. f_equal.
    rewrite (int_wrap_small (0 * 10)) by lia. symmetry. apply int_wrap_small. lia.
  - cbn [parseInt parseInt_loop]. destruct (is_digit c0) eqn:E0; [|reflexivity].
    destruct (is_digit c1) eqn:E1; cbn [andb]; [|reflexivity].
    pose proof (digit_val_range _ E0). unfold int_add, int_mul.
    rewrite (int_wrap_small (0 * 10)) by lia.
    rewrite (int_wrap_small (0 * 10 + digit_val c0)) by lia.
    reflexivity.
Qed.

Lemma FormatInt_nonneg z : (0 <= z)%Z -> FormatInt z = decimal (Z.to_N z).
Proof.
  intros H. unfold FormatInt.
  destruct (Z.ltb_spec z 0); [lia|reflexivity].
Qed.

Lemma parseInt_FormatInt z :
  (0 <= z < 2 ^ 63)%Z -> parseInt (FormatInt z) = Ok z.
Proof.
  intros H. rewrite parseInt_is_loop, FormatInt_nonneg by lia.
  rewrite parseInt_loop_decimal by lia. f_equal. lia.
Qed.

Lemma FormatInt_no_LF z : (0 <= z)%Z -> ~ In LF (FormatInt z).
Proof.
  intros H Hin. rewrite FormatInt_nonneg in Hin by exact H.
  pose proof (decimal_digits (Z.to_N z)) as Hd.
  rewrite Forall_forall in Hd. apply Hd in Hin. discriminate.
Qed.

(* ------------------------------------------------------------------ *)
(** ** RESP: a command that is buffered whole *)

Lemma frame_bulk_length hb :
  length (frame_bulk hb) = length (fst hb) + length (snd hb) + 5.
Proof.
  unfold frame_bulk, CRLF. cbn [length]. rewrite !length_app. cbn [length]. lia.
Qed.

Lemma read_bulk_skip b si : forall seg rest i,
  ~ In LF seg ->
  read_bulk b si (seg ++ rest) i = read_bulk b si rest (i + length seg).
Proof.
  induction seg as [|c seg IH]; intros rest i Hn.
  - simpl. now rewrite Nat.add_0_r.
  - cbn [app read_bulk]. rewrite (eqb_LF_notin c (c :: seg)) by (simpl; auto).
    rewrite IH by (simpl in Hn; tauto). cbn [length]. f_equal. lia.
Qed.


Lemma not_in_header h : ~ In LF h -> ~ In LF ("$"%byte :: h ++ [CR]).
Proof.
  intros Hn [H|H]; [discriminate|].
  apply in_app_or in H as [H|[H|[]]]; [contradiction|discriminate].
Qed.

(** The header of a bulk string whose ['\n'] is at [i]: the checks up to
    the test that the whole bulk string is buffered. *)
Lemma read_bulk_at_LF b pre h n rest' :
  header_ok h n ->
  b = pre ++ "$"%byte :: h ++ CR :: LF :: rest' ->
  (Z.of_nat (length pre + length h + n + 5) < 2 ^ 63)%Z ->
  let i := length pre + length h + 2 in
  read_bulk b (length pre) (LF :: rest') i =
  (if (Z.of_nat (length b) <=? Z.of_nat (i + n + 2))%Z then Ok BNotReady else
   c2 <- byte_at b (i + n + 2) ;;
   if negb (Byte.eqb c2 LF) then Err errInvalidBulkLength else
   c1 <- byte_at b (i + n + 1) ;;
   if negb (Byte.eqb c1 CR) then Err errInvalidBulkLength else
   arg <- slice b (S i) (S i + n) ;;
   Ok (BArg (S i + (n + 1)) arg)).
Proof.
  intros [Hn Hp] Hb Hbound i. cbn [read_bulk].
  change (Byte.eqb LF LF) with true. cbv iota.
  replace (0 <? i) with true by (symmetry; apply Nat.ltb_lt; unfold i; lia).
  rewrite (byte_at_split b (pre ++ "$"%byte :: h) CR (LF :: rest'))
    by (subst b i; first [assoc | len]).
  cbn [bind]. change (negb (Byte.eqb CR CR)) with false. cbv iota.
  rewrite (slice_split b (pre ++ ["$"%byte]) h (CR :: LF :: rest'))
    by (subst b i; first [assoc | len]).
  cbn [bind]. rewrite Hp.
  replace (Z.of_nat n <? 0)%Z with false by (symmetry; apply Z.ltb_ge; lia).
  unfold int_add.
  rewrite (int_wrap_small (Z.of_nat i + Z.of_nat n)) by (unfold i; lia).
  rewrite (int_wrap_small (Z.of_nat i + Z.of_nat n + 2)) by (unfold i; lia).
  rewrite (int_wrap_small (Z.of_nat i + Z.of_nat n + 1)) by (unfold i; lia).
  replace (Z.of_nat i + Z.of_nat n + 2)%Z with (Z.of_nat (i + n + 2)) by lia.
  replace (Z.of_nat i + Z.of_nat n + 1)%Z with (Z.of_nat (i + n + 1)) by lia.
  unfold byte_atZ.
  replace (Z.of_nat (i + n + 2) <? 0)%Z with false by (symmetry; apply Z.ltb_ge; lia).
  replace (Z.of_nat (i + n + 1) <? 0)%Z with false by (symmetry; apply Z.ltb_ge; lia).
  rewrite !Nat2Z.id. reflexivity.
Qed.

Lemma read_bulk_complete pre hb post :
  bulk_ok hb ->
  (Z.of_nat (length pre + length (frame_bulk hb)) < 2 ^ 63)%Z ->
  read_bulk (pre ++ frame_bulk hb ++ post) (length pre)
            (frame_bulk hb ++ post) (length pre) =
  Ok (BArg (length pre + length (frame_bulk hb) - 1) (snd hb)).
Proof.
  destruct hb as [h a]. unfold bulk_ok. cbn [fst snd]. intros Hok Hbound.
  rewrite frame_bulk_length in *. cbn [fst snd] in *.
  set (b := pre ++ frame_bulk (h, a) ++ post).
  assert (Hb : b = pre ++ "$"%byte :: h ++ CR :: LF :: (a ++ CRLF ++ post)).
  { unfold b, frame_bulk, CRLF. cbn [fst snd]. assoc. }
  replace (frame_bulk (h, a) ++ post)
    with (("$"%byte :: h ++ [CR]) ++ LF :: (a ++ CRLF ++ post))
    by (unfold frame_bulk, CRLF; cbn [fst snd]; assoc).
  rewrite read_bulk_skip by (apply not_in_header, Hok).
  replace (length pre + length ("$"%byte :: h ++ [CR]))
    with (length pre + length h + 2) by len.
  rewrite (read_bulk_at_LF b pre h (length a) (a ++ CRLF ++ post) Hok Hb)
    by lia.
  assert (Hlen : length b = length pre + length h + length a + 5 + length post).
  { rewrite Hb. unfold CRLF. len. }
  replace (Z.of_nat (length b) <=? Z.of_nat (length pre + length h + 2 + length a + 2))%Z
    with false by (symmetry; apply Z.leb_gt; lia).
  rewrite (byte_at_split b (pre ++ "$"%byte :: h ++ CRLF ++ a ++ [CR]) LF post)
    by (rewrite ?Hb; unfold CRLF; first [assoc | len]).
  cbn [bind]. change (negb (Byte.eqb LF LF)) with false. cbv iota.
  rewrite (byte_at_split b (pre ++ "$"%byte :: h ++ CRLF ++ a) CR (LF :: post))
    by (rewrite ?Hb; unfold CRLF; first [assoc | len]).
  cbn [bind]. change (negb (Byte.eqb CR CR)) with false. cbv iota.
  rewrite (slice_split b (pre ++ "$"%byte :: h ++ CRLF) a (CRLF ++ post))
    by (rewrite ?Hb; unfold CRLF; first [assoc | len]).
  cbn [bind]. do 2 f_equal. lia.
Qed.

Lemma read_args_complete : forall bulks pre post si acc,
  pre <> [] -> Forall bulk_ok bulks ->
  (Z.of_nat (length pre + length (bulks_bytes bulks)) < 2 ^ 63)%Z ->
  exists si',
    read_args (length bulks) (pre ++ bulks_bytes bulks ++ post) si
              (length pre - 1) acc =
    Ok (Some (si', length pre + length (bulks_bytes bulks) - 1,
              acc ++ map snd bulks)).
Proof.
  induction bulks as [|hb bulks IH]; intros pre post si acc Hpre Hok Hbound.
  - exists si. cbn. rewrite app_nil_r, Nat.add_0_r. reflexivity.
  - inversion Hok as [|? ? Hhb Hrest]; subst.
    unfold bulks_bytes in *. cbn [map List.concat length read_args] in *.
    rewrite length_app in Hbound.
    pose proof (frame_bulk_length hb) as Hfl.
    assert (Hp : 1 <= length pre) by (destruct pre; [congruence|simpl; lia]).
    replace (S (length pre - 1)) with (length pre) by lia.
    set (b := pre ++ (frame_bulk hb ++ List.concat (map frame_bulk bulks)) ++ post).
    replace (length pre <? length b) with true
      by (symmetry; apply Nat.ltb_lt; unfold b; len).
    assert (Hb : b = pre ++ frame_bulk hb ++ (List.concat (map frame_bulk bulks) ++ post))
      by (unfold b; assoc).
    rewrite (byte_at_split b pre "$"%byte
               (fst hb ++ CRLF ++ snd hb ++ CRLF ++ List.concat (map frame_bulk bulks) ++ post))
      by (rewrite ?Hb; unfold frame_bulk; first [assoc | len]).
    cbn [bind]. change (negb (Byte.eqb "$" "$")) with false. cbv iota.
    assert (Hsk : skipn (length pre) b =
                  frame_bulk hb ++ (List.concat (map frame_bulk bulks) ++ post)).
    { rewrite Hb, skipn_app, skipn_all, Nat.sub_diag. reflexivity. }
    rewrite Hsk.
    pose proof (read_bulk_complete pre hb
                  (List.concat (map frame_bulk bulks) ++ post) Hhb
                  ltac:(lia)) as Hrb.
    rewrite <- Hb in Hrb. rewrite Hrb. clear Hrb Hsk.
    cbn [bind].
    destruct (IH (pre ++ frame_bulk hb) post (length pre) (acc ++ [snd hb]))
      as [si' Hsi'].
    + destruct pre; discriminate.
    + exact Hrest.
    + rewrite length_app. lia.
    + exists si'. rewrite length_app in Hsi'.
      replace b with ((pre ++ frame_bulk hb) ++
                      List.concat (map frame_bulk bulks) ++ post)
        by (unfold b; assoc).
      rewrite Hsi'. rewrite length_app. do 3 f_equal; [f_equal; lia|assoc].
Qed.

Lemma resp_loop_end fuel b si i cmds :
  length b <= i -> resp_loop fuel b si i cmds = Ok None.
Proof.
  intros H. assert (E : (i <? length b) = false) by (apply Nat.ltb_ge; exact H).
  destruct fuel; cbn [resp_loop]; rewrite E; reflexivity.
Qed.

Lemma resp_loop_skip : forall seg pre rest fuel si cmds,
  ~ In LF seg ->
  resp_loop (length seg + fuel) (pre ++ seg ++ rest) si (length pre) cmds =
  resp_loop fuel (pre ++ seg ++ rest) si (length pre + length seg) cmds.
Proof.
  induction seg as [|c seg IH]; intros pre rest fuel si cmds Hn.
  - cbn [length Nat.add]. now rewrite Nat.add_0_r.
  - cbn [length Nat.add resp_loop].
    replace (length pre <? length (pre ++ (c :: seg) ++ rest)) with true
      by (symmetry; apply Nat.ltb_lt; len).
    rewrite (byte_at_split _ pre c (seg ++ rest)) by reflexivity.
    cbn [bind]. rewrite (eqb_LF_notin c (c :: seg)) by (simpl; auto).
    replace (pre ++ (c :: seg) ++ rest) with ((pre ++ [c]) ++ seg ++ rest) by assoc.
    replace (S (length pre)) with (length (pre ++ [c])) by len.
    rewrite IH by (simpl in Hn; tauto). f_equal. len.
Qed.

Lemma not_in_count hn : ~ In LF hn -> ~ In LF ("*"%byte :: hn ++ [CR]).
Proof.
  intros Hn [H|H]; [discriminate|].
  apply in_app_or in H as [H|[H|[]]]; [contradiction|discriminate].
Qed.

(** The round of the [outer2] loop at the ['\n'] of the count header. *)
Lemma resp_loop_at_LF fuel b hn n rest' cmds :
  header_ok hn n -> 0 < n ->
  b = "*"%byte :: hn ++ CR :: LF :: rest' ->
  let i := length hn + 2 in
  resp_loop (S fuel) b 0 i cmds =
  if negb (makeslice_ok (Z.of_nat n)) then Panic else
  (r <- read_args n b 0 i [] ;;
   match r with
   | None => Ok None
   | Some (si', i', args) =>
       if (Z.of_nat (length args) =? Z.of_nat n)%Z then
         b' <- slice_from b (i' + 1) ;; Ok (Some (cmds ++ [args], b'))
       else resp_loop fuel b si' (S i') cmds
   end).
Proof.
  intros [Hn Hp] Hpos Hb i. cbn [resp_loop].
  replace (i <? length b) with true
    by (symmetry; apply Nat.ltb_lt; subst b; unfold i; len).
  rewrite (byte_at_split b ("*"%byte :: hn ++ [CR]) LF rest')
    by (subst b i; first [assoc | len]).
  cbn [bind]. change (Byte.eqb LF LF) with true. cbv iota.
  replace (0 <? i) with true by (symmetry; apply Nat.ltb_lt; unfold i; lia).
  rewrite (byte_at_split b ("*"%byte :: hn) CR (LF :: rest'))
    by (subst b i; first [assoc | len]).
  cbn [bind]. change (negb (Byte.eqb CR CR)) with false. cbv iota.
  rewrite (slice_split b ["*"%byte] hn (CR :: LF :: rest'))
    by (subst b i; first [assoc | len]).
  cbn [bind]. rewrite Hp.
  replace (Z.of_nat n <=? 0)%Z with false by (symmetry; apply Z.leb_gt; lia).
  rewrite Nat2Z.id. reflexivity.
Qed.


Lemma frame_command_length hn bulks :
  length (frame_command hn bulks) = length hn + 3 + length (bulks_bytes bulks).
Proof. unfold frame_command, CRLF, bulks_bytes. len. Qed.

Lemma resp_loop_skip_eq b seg pre rest fuel fuel' si i cmds :
  b = pre ++ seg ++ rest -> ~ In LF seg -> fuel' = length seg + fuel ->
  i = length pre ->
  resp_loop fuel' b si i cmds =
  resp_loop fuel b si (i + length seg) cmds.
Proof. intros -> Hn -> ->. now apply resp_loop_skip. Qed.

Lemma read_args_complete_eq b bulks pre post si acc :
  b = pre ++ bulks_bytes bulks ++ post ->
  pre <> [] -> Forall bulk_ok bulks ->
  (Z.of_nat (length pre + length (bulks_bytes bulks)) < 2 ^ 63)%Z ->
  exists si',
    read_args (length bulks) b si (length pre - 1) acc =
    Ok (Some (si', length pre + length (bulks_bytes bulks) - 1,
              acc ++ map snd bulks)).
Proof. intros ->. apply read_args_complete. Qed.

Lemma bulks_bytes_length_pos bulks : bulks <> [] -> 1 <= length (bulks_bytes bulks).
Proof.
  destruct bulks as [|hb ?]; [congruence|]. intros _. unfold bulks_bytes.
  cbn [map List.concat]. rewrite length_app, frame_bulk_length. lia.
Qed.

Lemma modest_makeslice n : modest n -> makeslice_ok (Z.of_nat n) = true.
Proof.
  unfold modest, makeslice_ok, sliceHeaderSize, maxAlloc. intros H.
  apply Z.leb_le. lia.
Qed.

Lemma resp_complete hn bulks post cmds :
  frame_ok hn bulks ->
  let b := frame_command hn bulks ++ post in
  resp_loop (length b) b 0 0 cmds =
  if makeslice_ok (Z.of_nat (length bulks))
  then Ok (Some (cmds ++ [map snd bulks], post)) else Panic.
Proof.
  intros (Hh & Hne & Hok & Hbound) b.
  rewrite frame_command_length in Hbound.
  assert (Hb : b = "*"%byte :: hn ++ CR :: LF :: (bulks_bytes bulks ++ post)).
  { unfold b, frame_command, CRLF, bulks_bytes. assoc. }
  clearbody b.
  rewrite (resp_loop_skip_eq b ("*"%byte :: hn ++ [CR]) []
             (LF :: bulks_bytes bulks ++ post)
             (S (length (bulks_bytes bulks ++ post))) (length b) 0 0 cmds)
    by (first [ subst b; assoc | apply not_in_count, Hh | subst b; len
              | reflexivity ]).
  replace (0 + length ("*"%byte :: hn ++ [CR])) with (length hn + 2)
    by (cbn [length]; len).
  assert (Hpos : 0 < length bulks) by (destruct bulks; [congruence|simpl; lia]).
  rewrite (resp_loop_at_LF _ b hn (length bulks) _ cmds Hh Hpos Hb).
  destruct (makeslice_ok (Z.of_nat (length bulks))); [|reflexivity].
  cbn [negb].
  pose proof (bulks_bytes_length_pos bulks Hne) as Hbl.
  destruct (read_args_complete_eq b bulks ("*"%byte :: hn ++ CRLF) post 0 [])
    as [si' Hra]; [subst b; unfold CRLF; assoc|discriminate|exact Hok| |].
  { unfold CRLF. len. }
  replace (length ("*"%byte :: hn ++ CRLF) - 1) with (length hn + 2) in Hra
    by (unfold CRLF; len).
  rewrite Hra. cbn [bind app]. rewrite length_map, Z.eqb_refl.
  rewrite (slice_from_split b ("*"%byte :: hn ++ CRLF ++ bulks_bytes bulks) post).
  - reflexivity.
  - rewrite Hb. unfold CRLF. assoc.
  - unfold CRLF. len.
Qed.

(* ------------------------------------------------------------------ *)
(** ** RESP: a command of which bytes are missing *)

Lemma not_in_app_l (x : byte) l1 l2 : ~ In x (l1 ++ l2) -> ~ In x l1.
Proof. intros H Hin. apply H, in_or_app. now left. Qed.

Lemma read_bulk_incomplete b pre q hb r :
  bulk_ok hb -> frame_bulk hb = q ++ r -> r <> [] -> b = pre ++ q ->
  (Z.of_nat (length pre + length (frame_bulk hb)) < 2 ^ 63)%Z ->
  read_bulk b (length pre) q (length pre) = Ok BNotReady \/
  read_bulk b (length pre) q (length pre) = Ok (BEnd (length b)).
Proof.
  destruct hb as [h a]. unfold bulk_ok. cbn [fst snd].
  intros Hok Hq Hr Hb Hbound. rewrite frame_bulk_length in Hbound. cbn [fst snd] in Hbound.
  assert (Hf : frame_bulk (h, a) = ("$"%byte :: h ++ [CR]) ++ LF :: (a ++ CRLF)).
  { unfold frame_bulk, CRLF. cbn [fst snd]. assoc. }
  pose proof (not_in_header h (proj1 Hok)) as Hnl.
  rewrite Hf in Hq. symmetry in Hq. apply app_eq_app in Hq.
  destruct Hq as [l [[Hq1 Hq2]|[Hq1 Hq2]]].
  - destruct l as [|c l'].
    + rewrite app_nil_r in Hq1. right.
      rewrite <- (app_nil_r q) at 1. rewrite read_bulk_skip by (rewrite Hq1; exact Hnl).
      cbn [read_bulk]. rewrite Hb, length_app. reflexivity.
    + cbn [app] in Hq2. inversion Hq2; subst c. clear Hq2. left.
      rewrite Hq1. rewrite read_bulk_skip by exact Hnl.
      replace (length pre + length ("$"%byte :: h ++ [CR]))
        with (length pre + length h + 2) by len.
      assert (Hb' : b = pre ++ "$"%byte :: h ++ CR :: LF :: l').
      { rewrite Hb, Hq1. assoc. }
      rewrite (read_bulk_at_LF b pre h (length a) l' Hok Hb') by lia.
      assert (Hlen : length (a ++ CRLF) = length l' + length r).
      { rewrite H1. apply length_app. }
      assert (Hr' : 1 <= length r) by (destruct r; [congruence|simpl; lia]).
      rewrite length_app in Hlen. cbn [length CRLF] in Hlen.
      replace (Z.of_nat (length b) <=?
               Z.of_nat (length pre + length h + 2 + length a + 2))%Z
        with true; [reflexivity|].
      symmetry. apply Z.leb_le. rewrite Hb'. 
      repeat (progress (rewrite ?length_app; cbn [length])). lia.
  - right. assert (Hnq : ~ In LF q).
    { rewrite Hq1 in Hnl. now apply not_in_app_l in Hnl. }
    rewrite <- (app_nil_r q) at 1. rewrite read_bulk_skip by exact Hnq.
    cbn [read_bulk]. rewrite Hb, length_app. reflexivity.
Qed.

Lemma read_args_skip_all : forall n b si i acc,
  length b <= S i -> read_args n b si i acc = Ok (Some (si, i + n, acc)).
Proof.
  induction n as [|n IH]; intros b si i acc H.
  - cbn. now rewrite Nat.add_0_r.
  - cbn [read_args].
    replace (S i <? length b) with false by (symmetry; apply Nat.ltb_ge; lia).
    rewrite IH by lia. do 3 f_equal. f_equal. lia.
Qed.

Lemma read_args_incomplete : forall bulks b pre q r si acc,
  b = pre ++ q -> pre <> [] -> Forall bulk_ok bulks ->
  bulks_bytes bulks = q ++ r -> r <> [] ->
  (Z.of_nat (length pre + length (bulks_bytes bulks)) < 2 ^ 63)%Z ->
  read_args (length bulks) b si (length pre - 1) acc = Ok None \/
  exists si' i' acc',
    read_args (length bulks) b si (length pre - 1) acc =
      Ok (Some (si', i', acc')) /\
    length acc' < length acc + length bulks /\ length b <= S i'.
Proof.
  induction bulks as [|hb bulks IH]; intros b pre q r si acc Hb Hpre Hok Hq Hr Hbound.
  - unfold bulks_bytes in Hq. cbn in Hq. symmetry in Hq.
    apply app_eq_nil in Hq as [_ Hq]. contradiction.
  - pose proof (Forall_inv Hok) as Hhb. pose proof (Forall_inv_tail Hok) as Hrest.
    assert (Hp : 1 <= length pre) by (destruct pre; [congruence|simpl; lia]).
    assert (Hbb : bulks_bytes (hb :: bulks) = frame_bulk hb ++ bulks_bytes bulks)
      by reflexivity.
    rewrite Hbb in Hq, Hbound. rewrite length_app in Hbound.
    pose proof (frame_bulk_length hb) as Hfl.
    cbn [length read_args].
    replace (S (length pre - 1)) with (length pre) by lia.
    apply app_eq_app in Hq. destruct Hq as [l [[Hq1 Hq2]|[Hq1 Hq2]]].
    + (* the bulk string is cut *)
      destruct l as [|c l'].
      * (* exactly at its end: it is complete *)
        rewrite app_nil_r in Hq1. cbn [app] in Hq2. subst q.
        replace (length pre <? length b) with true
          by (symmetry; apply Nat.ltb_lt; subst b; len).
        rewrite (byte_at_split b pre "$"%byte
                   (fst hb ++ CRLF ++ snd hb ++ CRLF))
          by (rewrite ?Hb; unfold frame_bulk; first [assoc | len]).
        cbn [bind]. change (negb (Byte.eqb "$" "$")) with false. cbv iota.
        assert (Hsk : skipn (length pre) b = frame_bulk hb ++ []).
        { rewrite Hb, skipn_app, skipn_all, Nat.sub_diag, app_nil_r. reflexivity. }
        rewrite Hsk.
        pose proof (read_bulk_complete pre hb [] Hhb ltac:(lia)) as Hrb.
        rewrite app_nil_r in Hrb at 1. rewrite <- Hb in Hrb. rewrite Hrb.
        cbn [bind].
        destruct (IH b (pre ++ frame_bulk hb) [] r (length pre) (acc ++ [snd hb]))
          as [HN|(si' & i' & acc' & HS & Hl1 & Hl2)].
        -- now rewrite app_nil_r.
        -- destruct pre; discriminate.
        -- exact Hrest.
        -- symmetry. exact Hq2.
        -- exact Hr.
        -- rewrite length_app. lia.
        -- left. rewrite length_app in HN. exact HN.
        -- right. exists si', i', acc'. rewrite length_app in HS.
           split; [exact HS|]. rewrite length_app in Hl1. cbn [length] in Hl1. lia.
      * assert (Hl : c :: l' <> []) by discriminate.
        destruct q as [|c0 q'].
        -- (* nothing of it is buffered *)
           right. rewrite app_nil_r in Hb. 
           replace (length pre <? length b) with false
             by (symmetry; apply Nat.ltb_ge; subst b; lia).
           rewrite read_args_skip_all by (subst b; lia).
           eexists _, _, _. split; [reflexivity|]. subst b. lia.
        -- replace (length pre <? length b) with true
             by (symmetry; apply Nat.ltb_lt; subst b; len).
           assert (Hc0 : c0 = "$"%byte).
           { unfold frame_bulk in Hq1. cbn [app] in Hq1. now inversion Hq1. }
           subst c0.
           rewrite (byte_at_split b pre "$"%byte q') by (rewrite ?Hb; reflexivity).
           cbn [bind]. change (negb (Byte.eqb "$" "$")) with false. cbv iota.
           assert (Hsk : skipn (length pre) b = "$"%byte :: q').
           { rewrite Hb, skipn_app, skipn_all, Nat.sub_diag. reflexivity. }
           rewrite Hsk.
           destruct (read_bulk_incomplete b pre ("$"%byte :: q') hb (c :: l')
                       Hhb Hq1 Hl Hb ltac:(lia)) as [E|E]; rewrite E; cbn [bind].
           ++ now left.
           ++ right. rewrite read_args_skip_all by lia.
              eexists _, _, _. split; [reflexivity|]. lia.
    + (* the bulk string is complete *)
      replace (length pre <? length b) with true
        by (symmetry; apply Nat.ltb_lt; subst b q; len).
      rewrite (byte_at_split b pre "$"%byte
                 (fst hb ++ CRLF ++ snd hb ++ CRLF ++ l))
        by (rewrite ?Hb, ?Hq1; unfold frame_bulk; first [assoc | len]).
      cbn [bind]. change (negb (Byte.eqb "$" "$")) with false. cbv iota.
      assert (Hsk : skipn (length pre) b = q).
      { rewrite Hb, skipn_app, skipn_all, Nat.sub_diag. reflexivity. }
      rewrite Hsk.
      pose proof (read_bulk_complete pre hb l Hhb ltac:(lia)) as Hrb.
      rewrite <- Hq1, <- Hb in Hrb. rewrite Hrb. cbn [bind].
      destruct (IH b (pre ++ frame_bulk hb) l r (length pre) (acc ++ [snd hb]))
        as [HN|(si' & i' & acc' & HS & Hl1 & Hl2)].
      * rewrite Hb, Hq1. assoc.
      * destruct pre; discriminate.
      * exact Hrest.
      * exact Hq2.
      * exact Hr.
      * rewrite length_app. lia.
      * left. rewrite length_app in HN. exact HN.
      * right. exists si', i', acc'. rewrite length_app in HS.
        split; [exact HS|]. rewrite length_app in Hl1. cbn [length] in Hl1. lia.
Qed.

Lemma resp_incomplete hn bulks q r cmds :
  frame_ok hn bulks -> makeslice_ok (Z.of_nat (length bulks)) = true ->
  frame_command hn bulks = q ++ r -> r <> [] ->
  resp_loop (length q) q 0 0 cmds = Ok None.
Proof.
  intros (Hh & Hne & Hok & Hbound) Hfit Hq Hr.
  rewrite frame_command_length in Hbound.
  assert (Hf : frame_command hn bulks =
               ("*"%byte :: hn ++ [CR]) ++ LF :: bulks_bytes bulks).
  { unfold frame_command, bulks_bytes, CRLF. assoc. }
  pose proof (not_in_count hn (proj1 Hh)) as Hnl.
  assert (Hscan : forall q, ~ In LF q -> resp_loop (length q) q 0 0 cmds = Ok None).
  { intros q0 Hn0.
    rewrite (resp_loop_skip_eq q0 q0 [] [] 0 (length q0) 0 0 cmds)
      by (first [now rewrite app_nil_r | exact Hn0 | lia | reflexivity]).
    apply resp_loop_end. lia. }
  rewrite Hf in Hq. symmetry in Hq. apply app_eq_app in Hq.
  destruct Hq as [l [[Hq1 Hq2]|[Hq1 Hq2]]].
  - destruct l as [|c l'].
    + apply Hscan. rewrite Hq1, app_nil_r. exact Hnl.
    + cbn [app] in Hq2. inversion Hq2; subst c. clear Hq2.
      assert (Hb : q = "*"%byte :: hn ++ CR :: LF :: l') by (rewrite Hq1; assoc).
      rewrite (resp_loop_skip_eq q ("*"%byte :: hn ++ [CR]) [] (LF :: l')
                 (S (length l')) (length q) 0 0 cmds)
        by (first [ rewrite Hq1; assoc | exact Hnl | rewrite Hq1; len | reflexivity ]).
      replace (0 + length ("*"%byte :: hn ++ [CR])) with (length hn + 2)
        by (cbn [length]; len).
      assert (Hpos : 0 < length bulks) by (destruct bulks; [congruence|simpl; lia]).
      rewrite (resp_loop_at_LF _ q hn (length bulks) _ cmds Hh Hpos Hb).
      rewrite Hfit. cbn [negb].
      destruct (read_args_incomplete bulks q ("*"%byte :: hn ++ CRLF) l' r 0 [])
        as [HN|(si' & i' & acc' & HS & Hl1 & Hl2)].
      * rewrite Hb. unfold CRLF. assoc.
      * discriminate.
      * exact Hok.
      * exact H1.
      * exact Hr.
      * unfold CRLF. 
        repeat (progress (rewrite ?length_app; cbn [length])). lia.
      * replace (length ("*"%byte :: hn ++ CRLF) - 1) with (length hn + 2) in HN
          by (unfold CRLF; len).
        rewrite HN. reflexivity.
      * replace (length ("*"%byte :: hn ++ CRLF) - 1) with (length hn + 2) in HS
          by (unfold CRLF; len).
        rewrite HS. cbn [bind].
        replace (Z.of_nat (length acc') =? Z.of_nat (length bulks))%Z with false
          by (symmetry; apply Z.eqb_neq; cbn [length] in Hl1; lia).
        apply resp_loop_end. lia.
  - apply Hscan. rewrite Hq1 in Hnl. now apply not_in_app_l in Hnl.
Qed.

(* ------------------------------------------------------------------ *)
(** ** Pipelined commands in the buffer *)

Lemma with_headers_snd args : map snd (with_headers args) = args.
Proof.
  unfold with_headers. rewrite map_map. cbn [snd]. apply map_id.
Qed.

Lemma encode_command_frame args :
  encode_command args =
  frame_command (FormatInt (Z.of_nat (length args))) (with_headers args).
Proof.
  unfold encode_command, frame_command, with_headers. do 3 f_equal.
  rewrite map_map. reflexivity.
Qed.

Lemma bulks_bytes_length_ge bulks hb :
  In hb bulks -> length (frame_bulk hb) <= length (bulks_bytes bulks).
Proof.
  induction bulks as [|x bulks IH]; [intros []|].
  intros [->|H]; unfold bulks_bytes in *; cbn [map List.concat]; rewrite length_app.
  - lia.
  - specialize (IH H). lia.
Qed.

Lemma bulks_bytes_length_count bulks : length bulks <= length (bulks_bytes bulks).
Proof.
  induction bulks as [|x bulks IH]; [simpl; lia|].
  unfold bulks_bytes in *. cbn [map List.concat length]. rewrite length_app, frame_bulk_length. lia.
Qed.

Lemma header_ok_FormatInt n k :
  (Z.of_nat n < 2 ^ 63)%Z -> k = n -> header_ok (FormatInt (Z.of_nat k)) n.
Proof.
  intros H ->. split.
  - apply FormatInt_no_LF. lia.
  - apply parseInt_FormatInt. lia.
Qed.

Lemma with_headers_length args : length (with_headers args) = length args.
Proof. unfold with_headers. apply length_map. Qed.

Lemma wf_command_frame_ok args :
  wf_command args ->
  frame_ok (FormatInt (Z.of_nat (length args))) (with_headers args).
Proof.
  intros [Hne Hb]. rewrite encode_command_frame in Hb.
  pose proof Hb as Hb'. rewrite frame_command_length in Hb'.
  pose proof (bulks_bytes_length_count (with_headers args)) as Hc.
  assert (Hl : length (with_headers args) = length args)
    by (unfold with_headers; apply length_map).
  repeat split.
  - apply FormatInt_no_LF. lia.
  - rewrite Hl. apply parseInt_FormatInt. lia.
  - destruct args; [congruence|discriminate].
  - apply Forall_forall. intros hb Hin.
    pose proof (bulks_bytes_length_ge _ _ Hin) as Hge.
    rewrite frame_bulk_length in Hge.
    unfold with_headers in Hin. apply in_map_iff in Hin as (a & <- & _).
    unfold bulk_ok. cbn [fst snd] in *. apply header_ok_FormatInt; [lia|reflexivity].
  - exact Hb.
Qed.

Lemma encode_command_nonempty args : encode_command args <> [].
Proof. discriminate. Qed.

Lemma encode_commands_cons c cs :
  encode_commands (c :: cs) = encode_command c ++ encode_commands cs.
Proof. reflexivity. Qed.

Lemma encode_commands_app c1 c2 :
  encode_commands (c1 ++ c2) = encode_commands c1 ++ encode_commands c2.
Proof. unfold encode_commands. now rewrite map_app, concat_app. Qed.

Lemma partial_command_head q c q' :
  partial_command q -> q = c :: q' -> c = "*"%byte.
Proof.
  intros (args & rest & _ & _ & E) ->. unfold encode_command in E.
  cbn [app] in E. now inversion E.
Qed.

Lemma parse_partial q acc fuel :
  partial_command q -> q <> [] -> 0 < fuel -> parse_next fuel q acc = Ok (acc, q).
Proof.
  intros Hp Hq Hf. destruct fuel as [|fuel]; [lia|].
  destruct q as [|c q']; [congruence|].
  pose proof (partial_command_head _ _ _ Hp eq_refl) as ->.
  destruct Hp as (args & rest & Hwf & Hrest & E).
  cbn [parse_next]. unfold byte_at at 1. cbn [nth_error bind].
  change (Byte.eqb "*" "*") with true. cbv iota.
  rewrite encode_command_frame in E.
  rewrite (resp_incomplete _ _ _ rest acc (wf_command_frame_ok _ (proj1 Hwf))
             ltac:(rewrite with_headers_length;
                   exact (modest_makeslice _ (proj2 Hwf))) E Hrest).
  reflexivity.
Qed.

(** Buffered bytes that are whole commands followed by the beginning of
    one. *)
Lemma parse_next_commands : forall c1 q acc fuel,
  Forall fit_command c1 -> partial_command q ->
  (c1 <> [] \/ q <> []) ->
  length (encode_commands c1 ++ q) <= fuel ->
  parse_next fuel (encode_commands c1 ++ q) acc = Ok (acc ++ c1, q).
Proof.
  induction c1 as [|c cs IH]; intros q acc fuel Hwf Hp Hne Hfuel.
  - cbn [encode_commands map List.concat app] in *. rewrite app_nil_r.
    destruct Hne as [Hne|Hne]; [congruence|].
    apply parse_partial; auto. destruct q; [congruence|simpl in Hfuel; lia].
  - pose proof (Forall_inv Hwf) as Hc. pose proof (Forall_inv_tail Hwf) as Hcs.
    rewrite encode_commands_cons, <- app_assoc in *.
    remember (encode_commands cs ++ q) as post eqn:Hpost.
    destruct fuel as [|fuel].
    { rewrite length_app in Hfuel. unfold encode_command in Hfuel. simpl in Hfuel. lia. }
    cbn [parse_next].
    assert (Hhd : byte_at (encode_command c ++ post) 0 = Ok "*"%byte) by reflexivity.
    rewrite Hhd. cbn [bind]. change (Byte.eqb "*" "*") with true. cbv iota.
    pose proof (resp_complete _ _ post acc (wf_command_frame_ok _ (proj1 Hc))) as Hr.
    cbv zeta in Hr.
    rewrite <- encode_command_frame, with_headers_snd, with_headers_length,
      (modest_makeslice _ (proj2 Hc)) in Hr.
    rewrite Hr. cbn [bind].
    assert (Hlen : length post <= fuel).
    { rewrite length_app in Hfuel.
      assert (1 <= length (encode_command c)) by (unfold encode_command; simpl; lia).
      lia. }
    destruct post as [|x post'].
    + cbn [length Nat.ltb Nat.leb]. symmetry in Hpost.
      apply app_eq_nil in Hpost as [Hcs' ->].
      destruct cs as [|c' cs']; [reflexivity|].
      rewrite encode_commands_cons in Hcs'. apply app_eq_nil in Hcs' as [Hcs' _].
      now apply encode_command_nonempty in Hcs'.
    + replace (0 <? length (x :: post')) with true by reflexivity.
      rewrite Hpost. rewrite Hpost in Hlen.
      rewrite IH.
      * now rewrite <- app_assoc.
      * exact Hcs.
      * exact Hp.
      * destruct cs; [|left; discriminate]. right. intros ->. discriminate.
      * exact Hlen.
Qed.

Lemma partial_command_nil : partial_command [].
Proof.
  exists [[]], (encode_command [[]]). split; [|split].
  - split; [split; [discriminate|]|]; vm_compute; reflexivity.
  - discriminate.
  - reflexivity.
Qed.

Lemma partial_command_prefix q s : partial_command (q ++ s) -> partial_command q.
Proof.
  intros (args & rest & Hwf & Hrest & E). exists args, (s ++ rest).
  split; [exact Hwf|]. split.
  - destruct s; [exact Hrest|discriminate].
  - now rewrite E, <- app_assoc.
Qed.

(** How buffered bytes sit in the stream of commands. *)
Lemma prefix_commands : forall cmds p s partial,
  p ++ s = encode_commands cmds ++ partial ->
  Forall fit_command cmds -> partial_command partial ->
  exists c1 c2 q,
    cmds = c1 ++ c2 /\ p = encode_commands c1 ++ q /\ partial_command q /\
    q ++ s = encode_commands c2 ++ partial /\
    (c2 = [] \/ exists c cs rest0, c2 = c :: cs /\ rest0 <> [] /\
                                encode_command c = q ++ rest0).
Proof.
  induction cmds as [|c cs IH]; intros p s partial E Hwf Hp.
  - exists [], [], p. cbn [encode_commands map List.concat app] in *.
    repeat split; auto.
    rewrite <- E in Hp. now apply partial_command_prefix in Hp.
  - pose proof (Forall_inv Hwf) as Hc. pose proof (Forall_inv_tail Hwf) as Hcs.
    rewrite encode_commands_cons, <- app_assoc in E.
    apply app_eq_app in E. destruct E as [l [[E1 E2]|[E1 E2]]].
    + (* p = encode_command c ++ l *)
      symmetry in E2.
      destruct (IH l s partial E2 Hcs Hp) as (c1 & c2 & q & H1 & H2 & H3 & H4 & H5).
      exists (c :: c1), c2, q. repeat split; auto.
      * now rewrite H1.
      * now rewrite E1, H2, encode_commands_cons, <- app_assoc.
    + (* encode_command c = p ++ l *)
      destruct l as [|x l'].
      * rewrite app_nil_r in E1. cbn [app] in E2.
        exists [c], cs, []. split; [reflexivity|]. split.
        { rewrite <- E1. unfold encode_commands. cbn [map List.concat].
          now rewrite !app_nil_r. }
        split; [apply partial_command_nil|]. split; [exact E2|].
        destruct cs as [|c' cs']; [now left|right].
        exists c', cs', (encode_command c'). repeat split; auto. discriminate.
      * exists [], (c :: cs), p. split; [reflexivity|]. split; [reflexivity|].
        split.
        { exists c, (x :: l'). split; [exact Hc|]. split; [discriminate|]. exact E1. }
        split.
        { rewrite E2, encode_commands_cons, E1. now rewrite <- !app_assoc. }
        right. exists c, cs, (x :: l'). split; [reflexivity|].
        split; [discriminate|exact E1].
Qed.

(* ------------------------------------------------------------------ *)
(** ** The read buffer and one call of [ReadCommands] *)

Lemma pending_length r :
  rd_end r <= length (rd_buf r) ->
  length (pending r) = rd_end r - rd_start r.
Proof.
  intros H. unfold pending. rewrite length_firstn, length_skipn. lia.
Qed.

Lemma slice_pending r :
  rd_start r <= rd_end r -> rd_end r <= length (rd_buf r) ->
  slice (rd_buf r) (rd_start r) (rd_end r) = Ok (pending r).
Proof.
  intros H1 H2. unfold slice, pending.
  replace (rd_start r <=? rd_end r) with true by (symmetry; now apply Nat.leb_le).
  replace (rd_end r <=? length (rd_buf r)) with true by (symmetry; now apply Nat.leb_le).
  reflexivity.
Qed.

Lemma pending_suffix buf s e p1 q :
  s <= e -> e <= length buf ->
  pending (mkReader buf s e) = p1 ++ q ->
  pending (mkReader buf (e - length q) e) = q.
Proof.
  intros H1 H2 Hp.
  assert (Hl : length (p1 ++ q) = e - s).
  { rewrite <- Hp. now apply (pending_length (mkReader buf s e)). }
  rewrite length_app in Hl.
  unfold pending in *. cbn [rd_buf rd_start rd_end] in *.
  replace (e - (e - length q)) with (length q) by lia.
  replace (e - length q) with (length p1 + s) by lia.
  rewrite <- skipn_skipn.
  replace (length q) with (e - s - length p1) by lia.
  rewrite <- skipn_firstn_comm, Hp, skipn_app, skipn_all, Nat.sub_diag.
  reflexivity.
Qed.

Lemma pending_grow r :
  rd_start r <= rd_end r -> rd_end r <= length (rd_buf r) ->
  pending (grow r) = pending r.
Proof.
  intros H1 H2. unfold grow.
  destruct (rd_end r =? length (rd_buf r)); [|reflexivity].
  unfold pending. cbn [rd_buf rd_start rd_end].
  rewrite skipn_app.
  replace (rd_start r - length (rd_buf r)) with 0 by lia. cbn [skipn].
  rewrite firstn_app, length_skipn.
  replace (rd_end r - rd_start r - (length (rd_buf r) - rd_start r)) with 0 by lia.
  cbn [firstn]. now rewrite app_nil_r.
Qed.

Lemma grow_fields r :
  rd_start (grow r) = rd_start r /\ rd_end (grow r) = rd_end r.
Proof. unfold grow. destruct (rd_end r =? length (rd_buf r)); split; reflexivity. Qed.

Lemma grow_room r :
  rd_end r <= length (rd_buf r) -> 0 < length (rd_buf r) ->
  rd_end (grow r) < length (rd_buf (grow r)).
Proof.
  intros H1 H2. unfold grow.
  destruct (Nat.eqb_spec (rd_end r) (length (rd_buf r))) as [E|E];
    cbn [rd_buf rd_end].
  - rewrite length_app, repeat_length. lia.
  - lia.
Qed.

Lemma write_at_length buf off d :
  off + length d <= length buf -> length (write_at buf off d) = length buf.
Proof.
  intros H. unfold write_at. rewrite !length_app, length_firstn, length_skipn. lia.
Qed.

Lemma pending_write buf s e d :
  s <= e -> e + length d <= length buf ->
  pending (mkReader (write_at buf e d) s (e + length d)) =
  pending (mkReader buf s e) ++ d.
Proof.
  intros H1 H2. unfold pending, write_at. cbn [rd_buf rd_start rd_end].
  rewrite skipn_app, length_firstn.
  replace (Nat.min e (length buf)) with e by lia.
  replace (s - e) with 0 by lia. cbn [skipn].
  rewrite firstn_app, length_skipn, length_firstn.
  replace (Nat.min e (length buf)) with e by lia.
  replace (e + length d - s - (e - s)) with (length d) by lia.
  rewrite firstn_app, firstn_all, Nat.sub_diag. cbn [firstn]. rewrite app_nil_r.
  rewrite firstn_all2 by (rewrite length_skipn, length_firstn; lia).
  now rewrite skipn_firstn_comm.
Qed.

Lemma reader_eta r : mkReader (rd_buf r) (rd_start r) (rd_end r) = r.
Proof. destruct r; reflexivity. Qed.

(** What the first half of [ReadCommands] does with whole commands followed
    by the beginning of one. *)
Lemma parse_buffered_commands r c1 q :
  reader_ok r -> pending r = encode_commands c1 ++ q ->
  Forall fit_command c1 -> partial_command q ->
  exists r1, parse_buffered r = Ok (c1, r1) /\ reader_ok r1 /\
             pending r1 = q /\ rd_buf r1 = rd_buf r /\
             (c1 = [] -> r1 = r).
Proof.
  intros (H1 & H2 & H3 & H4) Hp Hwf Hq. unfold parse_buffered.
  destruct (Nat.ltb_spec (rd_start r) (rd_end r)) as [Hlt|Hge].
  - rewrite slice_pending by lia. cbn [bind]. rewrite Hp. unfold parse.
    assert (Hne : c1 <> [] \/ q <> []).
    { destruct c1; [|left; discriminate]. right. intros ->.
      pose proof (pending_length r H2) as Hl. rewrite Hp in Hl. simpl in Hl. lia. }
    rewrite parse_next_commands by auto. cbn [bind app].
    pose proof (pending_length r H2) as Hl. rewrite Hp, length_app in Hl.
    destruct q as [|x q'].
    + cbn [length Nat.eqb]. eexists. split; [reflexivity|].
      split; [repeat split; cbn; lia|]. split; [reflexivity|]. split; [reflexivity|].
      intros ->. destruct Hne; congruence.
    + replace (length (x :: q') =? 0) with false by reflexivity.
      eexists. split; [reflexivity|].
      cbn [length] in Hl.
      split; [repeat split; cbn [rd_buf rd_start rd_end length]; lia|].
      split.
      { apply (pending_suffix _ (rd_start r) _ (encode_commands c1)); try lia.
        rewrite reader_eta. exact Hp. }
      split; [reflexivity|]. intros ->. cbn [encode_commands map List.concat length] in Hl.
      replace (rd_end r - length (x :: q')) with (rd_start r) by (cbn [length]; lia).
      apply reader_eta.
  - assert (E : rd_start r = rd_end r) by lia.
    pose proof (pending_length r H2) as Hl. rewrite Hp, length_app in Hl.
    assert (Hc : c1 = []).
    { destruct c1 as [|c ?]; [reflexivity|]. rewrite encode_commands_cons, length_app in Hl.
      unfold encode_command in Hl. simpl in Hl. lia. }
    assert (Hq0 : q = []) by (destruct q; [reflexivity|simpl in Hl; lia]).
    subst. exists r. repeat split; auto.
Qed.


Lemma concat_map_nil_size (chunks : list bytes) :
  stream_size (map RData chunks) = length chunks + length (List.concat chunks).
Proof.
  induction chunks as [|d chunks IH]; [reflexivity|].
  cbn [map stream_size List.concat length]. rewrite length_app, IH. lia.
Qed.

(** One call of [ReadCommands] on a stream of well-formed commands. *)
Lemma ReadCommands_commands : forall fuel r wd chunks cmds partial,
  reader_ok r -> w_closed wd = false -> w_in wd = map RData chunks ->
  pending r ++ List.concat chunks = encode_commands cmds ++ partial ->
  Forall fit_command cmds -> partial_command partial ->
  stream_size (w_in wd) < fuel ->
  exists res r' chunks',
    ReadCommands fuel r wd =
      (res, r', mkWorld (map RData chunks') (w_wres wd) false (w_trace wd)) /\
    reader_ok r' /\
    stream_size (map RData chunks') <= stream_size (w_in wd) /\
    ((exists batch cmds',
        res = Ok batch /\ batch <> [] /\ cmds = batch ++ cmds' /\
        pending r' ++ List.concat chunks' = encode_commands cmds' ++ partial)
     \/ (res = Err (eof_error partial) /\ cmds = [] /\ chunks' = [] /\
         pending r' = partial)).
Proof.
  induction fuel as [|fuel IH]; intros r wd chunks cmds partial Hr Hcl Hin Heq Hwf Hpart Hfuel;
    [lia|].
  destruct (prefix_commands cmds (pending r) (List.concat chunks) partial Heq Hwf Hpart)
    as (c1 & c2 & q & Hc & Hp & Hq & Hrest & Hhead).
  assert (Hwf1 : Forall fit_command c1 /\ Forall fit_command c2).
  { rewrite Hc in Hwf. now apply Forall_app in Hwf. }
  destruct (parse_buffered_commands r c1 q Hr Hp (proj1 Hwf1) Hq)
    as (r1 & Hpb & Hr1 & Hp1 & Hbuf1 & Hsame).
  cbn [ReadCommands]. rewrite Hpb.
  destruct c1 as [|c c1'].
  - (* no whole command is buffered: read *)
    change (0 <? length (@nil (list bytes))) with false. cbv iota. specialize (Hsame eq_refl). subst r1.
    cbn [app] in Hc. subst c2.
    destruct Hr as (H1 & H2 & H3 & H4).
    pose proof (pending_grow r H1 H2) as Hpg.
    pose proof (grow_fields r) as [Hgs Hge].
    pose proof (grow_room r H2 H3) as Hroom.
    replace (length (rd_buf (grow r)) <? rd_end (grow r)) with false
      by (symmetry; apply Nat.ltb_ge; lia).
    unfold stream_read. rewrite Hcl, Hin.
    destruct chunks as [|d chunks].
    + (* end of the stream *)
      cbn [map]. cbn [List.concat] in Hrest. rewrite app_nil_r in Hrest.
      assert (Hcm : cmds = []).
      { destruct Hhead as [E|(c & cs & rest0 & E & Hr0 & E')]; [exact E|].
        subst cmds. rewrite encode_commands_cons in Hrest.
        assert (L1 : length q = length (encode_command c) +
                                length (encode_commands cs) + length partial)
          by (rewrite Hrest, !length_app; lia).
        assert (L2 : length (encode_command c) = length q + length rest0)
          by (rewrite E', length_app; lia).
        destruct rest0; [congruence|cbn [length] in L2; lia]. }
      subst cmds. cbn [encode_commands map List.concat app] in Hrest. subst q.
      exists (Err (eof_error partial)), (grow r), [].
      assert (Hwd : wd = mkWorld [] (w_wres wd) false (w_trace wd)).
      { destruct wd; cbn in Hin, Hcl |- *. now rewrite Hin, Hcl. }
      split.
      { assert (Hpl : length (pending r) = rd_end r - rd_start r)
          by (apply pending_length; exact H2).
        rewrite Hp1 in Hpl. rewrite Hge.
        destruct partial as [|x partial'].
        - cbn [length] in Hpl.
          replace (0 <? rd_end r) with false
            by (symmetry; apply Nat.ltb_ge; assert (rd_start r = rd_end r) by lia; 
                specialize (H4 ltac:(assumption)); lia).
          cbn [eof_error map]. now rewrite <- Hwd.
        - cbn [length] in Hpl.
          replace (0 <? rd_end r) with true by (symmetry; apply Nat.ltb_lt; lia).
          cbn [eof_error map]. now rewrite <- Hwd. }
      split.
      { repeat split; lia. }
      split; [cbn; lia|]. right. repeat split; auto. now rewrite Hpg.
    + (* some bytes arrive *)
      cbn [map]. set (n := length (rd_buf (grow r)) - rd_end (grow r)).
      assert (Hn : 0 < n) by (unfold n; lia).
      set (d' := if length d <=? n then d else firstn n d).
      set (chunks1 := if length d <=? n then chunks else skipn n d :: chunks).
      set (wd1 := mkWorld (map RData chunks1) (w_wres wd) false (w_trace wd)).
      assert (Hread :
        (if length d <=? n
         then (@inl bytes error d, mkWorld (map RData chunks) (w_wres wd) false (w_trace wd))
         else (inl (firstn n d),
               mkWorld (RData (skipn n d) :: map RData chunks) (w_wres wd) false
                       (w_trace wd))) = (inl d', wd1)).
      { unfold d', chunks1, wd1. destruct (length d <=? n); reflexivity. }
      rewrite Hread. clear Hread.
      assert (Hd' : length d' <= n).
      { unfold d'. destruct (Nat.leb_spec (length d) n); [lia|]. rewrite length_firstn. lia. }
      assert (Hcat : d' ++ List.concat chunks1 = d ++ List.concat chunks).
      { unfold d', chunks1. destruct (length d <=? n); [reflexivity|].
        cbn [List.concat]. now rewrite app_assoc, firstn_skipn. }
      assert (Hsize : stream_size (map RData chunks1) < stream_size (w_in wd)).
      { rewrite Hin. unfold chunks1. cbn [map stream_size].
        destruct (Nat.leb_spec (length d) n); cbn [map stream_size]; [lia|].
        rewrite length_skipn. lia. }
      subst wd1. clearbody d' chunks1.
      set (wd1 := mkWorld (map RData chunks1) (w_wres wd) false (w_trace wd)).
      set (r3 := mkReader (write_at (rd_buf (grow r)) (rd_end (grow r)) d')
                          (rd_start (grow r)) (rd_end (grow r) + length d')).
      assert (Hr3 : reader_ok r3).
      { unfold r3. repeat split; cbn [rd_buf rd_start rd_end];
          rewrite ?write_at_length by (unfold n in Hd'; lia); lia. }
      assert (Hp3 : pending r3 = pending r ++ d').
      { unfold r3. rewrite pending_write by (unfold n in Hd'; lia).
        rewrite reader_eta. now rewrite Hpg. }
      destruct (IH r3 wd1 chunks1 cmds partial Hr3 eq_refl eq_refl)
        as (res & r' & chunks' & HRC & Hr' & Hsz & Hres).
      * rewrite Hp3, <- app_assoc, Hcat. exact Heq.
      * exact Hwf.
      * exact Hpart.
      * unfold wd1. cbn [w_in]. clear -Hsize Hfuel. 
        apply Nat.lt_le_trans with (stream_size (w_in wd)); [exact Hsize|].
        apply Nat.lt_succ_r. exact Hfuel.
      * exists res, r', chunks'. split; [exact HRC|]. split; [exact Hr'|].
        split; [unfold wd1 in Hsz; cbn [w_in] in Hsz; rewrite Hin in Hsize;
                apply Nat.le_trans with (1 := Hsz), Nat.lt_le_incl, Hsize|].
        exact Hres.
  - (* whole commands are buffered *)
    change (0 <? length (c :: c1')) with true. cbv iota.
    exists (Ok (c :: c1')), r1, chunks. split.
    { rewrite <- Hin, <- Hcl. destruct wd; reflexivity. }
    split; [exact Hr1|]. split; [rewrite Hin; lia|].
    left. exists (c :: c1'), c2. repeat split; auto; [discriminate|].
    rewrite Hp1. exact Hrest.
Qed.

(* ------------------------------------------------------------------ *)
(** ** Reading a stream of commands to its end *)

Lemma read_all_commands : forall n fuel r wd chunks cmds partial,
  reader_ok r -> w_closed wd = false -> w_in wd = map RData chunks ->
  pending r ++ List.concat chunks = encode_commands cmds ++ partial ->
  Forall fit_command cmds -> partial_command partial ->
  stream_size (w_in wd) < fuel -> length cmds < n ->
  exists batches r',
    read_all n fuel r wd =
      (batches, Err (eof_error partial), r',
       mkWorld [] (w_wres wd) false (w_trace wd)) /\
    List.concat batches = cmds /\ Forall (fun b => b <> []) batches /\
    pending r' = partial /\ reader_ok r'.
Proof.
  induction n as [|n IH];
    intros fuel r wd chunks cmds partial Hr Hcl Hin Heq Hwf Hpart Hfuel Hn; [lia|].
  destruct (ReadCommands_commands fuel r wd chunks cmds partial
              Hr Hcl Hin Heq Hwf Hpart Hfuel)
    as (res & r' & chunks' & HRC & Hr' & Hsz & [Hok|Herr]).
  - destruct Hok as (batch & cmds' & -> & Hb & Hc & Heq').
    cbn [read_all]. rewrite HRC.
    assert (Hwf' : Forall fit_command cmds').
    { rewrite Hc in Hwf. now apply Forall_app in Hwf. }
    assert (Hlen : length cmds' < n).
    { rewrite Hc, length_app in Hn. destruct batch; [congruence|simpl in Hn; lia]. }
    destruct (IH fuel r' (mkWorld (map RData chunks') (w_wres wd) false (w_trace wd))
                 chunks' cmds' partial Hr' eq_refl eq_refl Heq' Hwf' Hpart)
      as (batches & r'' & HRA & Hcat & Hne & Hp & Hr''); [cbn [w_in]; lia|exact Hlen|].
    rewrite HRA. cbn [w_wres w_trace].
    exists (batch :: batches), r''. split; [reflexivity|].
    split; [cbn [List.concat]; now rewrite Hcat, Hc|].
    split; [constructor; assumption|]. split; assumption.
  - destruct Herr as (-> & -> & -> & Hp).
    cbn [read_all]. rewrite HRC. cbn [map].
    exists [], r'. split; [reflexivity|]. split; [reflexivity|].
    split; [constructor|]. split; assumption.
Qed.

(** X30.  Well-formed RESP commands of fewer than ten million arguments
    each, concatenated and delivered by the stream in arbitrary pieces
    [chunks], possibly followed by the beginning [partial] of one more such
    command: calling [ReadCommands] until it fails
    returns batches that are never empty and whose concatenation is exactly
    the commands, in order and byte for byte.  No call fails before the
    stream ends; then the error is [io.EOF] when nothing is left over and
    [io.ErrUnexpectedEOF] when the beginning of a command is, and those
    bytes are still pending in the buffer. *)
Theorem resp_commands_in_order cmds partial chunks buf wres tr n fuel :
  Forall fit_command cmds -> partial_command partial ->
  List.concat chunks = encode_commands cmds ++ partial ->
  0 < length buf ->
  length cmds < n -> stream_size (map RData chunks) < fuel ->
  exists batches r',
    read_all n fuel (newReader buf) (mkWorld (map RData chunks) wres false tr) =
      (batches, Err (eof_error partial), r', mkWorld [] wres false tr) /\
    List.concat batches = cmds /\ Forall (fun b => b <> []) batches /\
    pending r' = partial.
Proof.
  intros Hwf Hpart Hcat Hbuf Hn Hfuel.
  destruct (read_all_commands n fuel (newReader buf)
              (mkWorld (map RData chunks) wres false tr) chunks cmds partial)
    as (batches & r' & H1 & H2 & H3 & H4 & _); auto.
  - unfold newReader, reader_ok. cbn [rd_buf rd_start rd_end]. repeat split; lia.
  - exists batches, r'. auto.
Qed.

Lemma resp_commands_in_order_witness :
  exists batches r',
    read_all 4 100 (newReader (repeat x00 4))
             (mkWorld (map RData sample_chunks) [] false []) =
      (batches, Err io_ErrUnexpectedEOF, r', mkWorld [] [] false []) /\
    List.concat batches = sample_cmds /\ Forall (fun b => b <> []) batches /\
    pending r' = sample_partial.
Proof.
  apply (resp_commands_in_order sample_cmds sample_partial sample_chunks
           (repeat x00 4) [] [] 4 100).
  - repeat constructor; try discriminate.
  - exists [bs "foo"; bs "bar"], CRLF.
    split; [split; [split; [discriminate|reflexivity]|reflexivity]|].
    split; [discriminate|reflexivity].
  - reflexivity.
  - cbn; lia.
  - cbn; lia.
  - vm_compute; lia.
Defined.

(** C8.  An inline line [l] (no ['\n'] inside, not starting with ['*'])
    followed by ['\n'] is parsed into exactly the arguments that the quoting
    rules give for [l] without the ['\r'] that may end it ([line_result],
    [split_line]): escapes inside quotes, empty unquoted tokens dropped,
    empty quoted tokens kept, and [unbalanced quotes in request] for a
    quote inside an argument, a closing quote followed by something other
    than a space or the end, and a quote left open. *)
Theorem C8_inline_quoting_rules l :
  ~ In LF l -> hd_error (l ++ [LF]) <> Some "*"%byte ->
  parse (l ++ [LF]) = line_result l.
Proof.
  intros Hn Hhd. unfold parse, line_result.
  destruct (l ++ [LF]) as [|c b] eqn:Hb.
  { destruct l; discriminate. }
  cbn [length parse_next]. unfold byte_at at 1. cbn [nth_error bind].
  destruct (Byte.eqb c "*") eqn:Hc.
  { apply Byte.byte_dec_bl in Hc. subst. exfalso. apply Hhd. reflexivity. }
  rewrite <- Hb. rewrite inline_scan_line by exact Hn.
  rewrite inline_args_line_args.
  destruct (line_args (strip_cr l)) as [args| | |]; cbn [bind]; try reflexivity.
  destruct args; reflexivity.
Qed.

Lemma C8_inline_quoting_rules_witness :
  (~ In LF sample_line /\ hd_error (sample_line ++ [LF]) <> Some "*"%byte) /\
  parse (sample_line ++ [LF]) =
    Ok ([[bs "set"; bs "a b"; bs "c" ++ [LF] ++ bs "d"]], []).
Proof.
  assert (H1 : ~ In LF sample_line).
  { intros H. cbn in H. repeat (destruct H as [H|H]; [discriminate H|]). exact H. }
  assert (H2 : hd_error (sample_line ++ [LF]) <> Some "*"%byte) by discriminate.
  split; [split; assumption|].
  rewrite (C8_inline_quoting_rules sample_line H1 H2). reflexivity.
Defined.

Example split_spaces :
  line_args (bs "  foo   bar  ") = Ok [bs "foo"; bs "bar"].
Proof. reflexivity. Qed.

Example split_empty_quoted :
  line_args (bs "a " ++ [DQUOTE; DQUOTE] ++ bs " b") = Ok [bs "a"; []; bs "b"].
Proof. reflexivity. Qed.

Example split_escapes :
  line_args ([DQUOTE] ++ bs "\n\r\t\x\\" ++ [DQUOTE]) =
  Ok [[LF; CR; TAB; "x"%byte; "\"%byte]].
Proof. reflexivity. Qed.

Example split_quote_inside :
  line_args (bs "ab" ++ [DQUOTE] ++ bs "c" ++ [DQUOTE]) = Err errUnbalancedQuotes.
Proof. reflexivity. Qed.

Example split_after_closing :
  line_args ([DQUOTE] ++ bs "a" ++ [DQUOTE] ++ bs "b") = Err errUnbalancedQuotes.
Proof. reflexivity. Qed.

Example split_left_open :
  line_args (bs "set " ++ [DQUOTE] ++ bs "a b") = Err errUnbalancedQuotes.
Proof. reflexivity. Qed.

Lemma bare_headers_snd args : map snd (bare_headers args) = args.
Proof.
  unfold bare_headers. rewrite map_map. cbn [snd]. apply map_id.
Qed.

Lemma bare_headers_ok args :
  (Z.of_nat (length (bulks_bytes (bare_headers args))) < 2 ^ 63)%Z ->
  Forall bulk_ok (bare_headers args).
Proof.
  intros Hb. apply Forall_forall. intros hb Hin.
  pose proof (bulks_bytes_length_ge _ _ Hin) as Hge.
  rewrite frame_bulk_length in Hge.
  unfold bare_headers in Hin. apply in_map_iff in Hin as (a & <- & _).
  unfold bulk_ok. cbn [fst snd] in *. destruct a as [|x a'].
  - split; [intros []|reflexivity].
  - apply header_ok_FormatInt; [lia|reflexivity].
Qed.

(** C10.  [parseInt] reads an empty header as 0 without error.  So a bulk
    header without digits (['$'] followed at once by CRLF) is accepted as the
    header of an empty argument: a command whose empty arguments are
    announced that way parses to the same arguments (when the count of
    arguments is a capacity that [make] accepts; the allocation panics
    otherwise).  A count header without
    digits (['*'] followed at once by CRLF) is rejected with
    [invalid multibulk length], whatever follows, since the count must be
    positive. *)
Theorem C10_header_without_digits args post :
  args <> [] ->
  (Z.of_nat (length (frame_command (FormatInt (Z.of_nat (length args)))
                                   (bare_headers args))) < 2 ^ 63)%Z ->
  parseInt [] = Ok 0%Z /\
  parse (frame_command (FormatInt (Z.of_nat (length args))) (bare_headers args))
    = (if makeslice_ok (Z.of_nat (length args)) then Ok ([args], []) else Panic) /\
  parse (bs "*" ++ CRLF ++ post) = Err errInvalidMultiBulkLength.
Proof.
  intros Hne Hb. split; [reflexivity|]. split; [|reflexivity].
  set (hn := FormatInt (Z.of_nat (length args))) in *.
  assert (Hl : length (bare_headers args) = length args)
    by (unfold bare_headers; apply length_map).
  assert (Hok : frame_ok hn (bare_headers args)).
  { pose proof Hb as Hb'. rewrite frame_command_length in Hb'.
    pose proof (bulks_bytes_length_count (bare_headers args)) as Hc.
    split; [|split; [|split]].
    - rewrite Hl. apply header_ok_FormatInt; [lia|reflexivity].
    - destruct args; [congruence|discriminate].
    - apply bare_headers_ok. lia.
    - exact Hb. }
  pose proof (resp_complete hn (bare_headers args) [] [] Hok) as Hr.
  cbv zeta in Hr. rewrite app_nil_r, bare_headers_snd in Hr.
  unfold parse. 
  destruct (frame_command hn (bare_headers args)) as [|c b] eqn:Hf; [discriminate|].
  assert (Hc : c = "*"%byte) by (unfold frame_command in Hf; now inversion Hf).
  subst c. cbn [length parse_next]. unfold byte_at at 1. cbn [nth_error bind].
  change (Byte.eqb "*" "*") with true. cbv iota.
  cbn [length] in Hr. rewrite Hr, Hl.
  destruct (makeslice_ok (Z.of_nat (length args))); reflexivity.
Qed.

Lemma C10_header_without_digits_witness :
  ([[]; bs "a"; []] <> [] /\
   (Z.of_nat (length (frame_command (FormatInt 3) (bare_headers [[]; bs "a"; []])))
    < 2 ^ 63)%Z) /\
  parse (bs "*3" ++ CRLF ++ bs "$" ++ CRLF ++ CRLF ++ bs "$1" ++ CRLF ++ bs "a" ++ CRLF
           ++ bs "$" ++ CRLF ++ CRLF) = Ok ([[[]; bs "a"; []]], []) /\
  parse (bs "*" ++ CRLF ++ bs "$4" ++ CRLF ++ bs "PING" ++ CRLF)
    = Err errInvalidMultiBulkLength.
Proof.
  assert (H1 : [[]; bs "a"; []] <> (@nil bytes)) by discriminate.
  assert (H2 : (Z.of_nat (length (frame_command (FormatInt 3)
                                    (bare_headers [[]; bs "a"; []]))) < 2 ^ 63)%Z)
    by (vm_compute; reflexivity).
  split; [split; assumption|].
  destruct (C10_header_without_digits [[]; bs "a"; []]
              (bs "$4" ++ CRLF ++ bs "PING" ++ CRLF) H1 H2) as (_ & Ha & Hb).
  split; [exact Ha|exact Hb].
Defined.

(* ------------------------------------------------------------------ *)
(** ** The stream and the reader through [ReadCommands] *)

Lemma stream_read_world w n res w' :
  stream_read w n = (res, w') ->
  w_trace w' = w_trace w /\ w_closed w' = w_closed w /\ w_wres w' = w_wres w.
Proof.
  unfold stream_read. destruct (w_closed w) eqn:Hc.
  - intros H; inversion H; subst; auto.
  - destruct (w_in w) as [|[d|code] rest].
    + intros H; inversion H; subst; auto.
    + destruct (length d <=? n); intros H; inversion H; subst; cbn; auto.
    + intros H; inversion H; subst; cbn; auto.
Qed.

Lemma ReadCommands_world : forall fuel r w res r' w',
  ReadCommands fuel r w = (res, r', w') ->
  w_trace w' = w_trace w /\ w_closed w' = w_closed w /\ w_wres w' = w_wres w.
Proof.
  induction fuel as [|fuel IH]; intros r w res r' w' H.
  - inversion H; subst; auto.
  - cbn [ReadCommands] in H.
    destruct (parse_buffered r) as [[cmds r1]|e| |];
      try (inversion H; subst; auto; fail).
    destruct (0 <? length cmds); [inversion H; subst; auto|].
    destruct (length (rd_buf (grow r1)) <? rd_end (grow r1));
      [inversion H; subst; auto|].
    destruct (stream_read w (length (rd_buf (grow r1)) - rd_end (grow r1)))
      as [[d|e] w1] eqn:Hs.
    + apply IH in H. apply stream_read_world in Hs.
      destruct H as (A & B & C), Hs as (A' & B' & C'). repeat split; congruence.
    + apply stream_read_world in Hs.
      destruct e; try destruct (0 <? rd_end (grow r1)); inversion H; subst; exact Hs.
Qed.

Lemma ReadCommands_mono : forall fuel fuel' r w res r' w',
  ReadCommands fuel r w = (res, r', w') -> res <> OutOfFuel -> fuel <= fuel' ->
  ReadCommands fuel' r w = (res, r', w').
Proof.
  induction fuel as [|fuel IH]; intros fuel' r w res r' w' H Hne Hle.
  - inversion H; subst; congruence.
  - destruct fuel' as [|fuel']; [lia|]. cbn [ReadCommands] in *.
    destruct (parse_buffered r) as [[cmds r1]|e| |]; try exact H.
    destruct (0 <? length cmds); [exact H|].
    destruct (length (rd_buf (grow r1)) <? rd_end (grow r1)); [exact H|].
    destruct (stream_read w (length (rd_buf (grow r1)) - rd_end (grow r1)))
      as [[d|e] w1]; [|exact H].
    apply IH with (fuel' := fuel') in H; [exact H|exact Hne|lia].
Qed.

Lemma parse_buffered_ok r cmds r1 :
  reader_ok r -> parse_buffered r = Ok (cmds, r1) -> reader_ok r1.
Proof.
  intros (H1 & H2 & H3 & H4). unfold parse_buffered.
  destruct (rd_start r <? rd_end r).
  - destruct (slice (rd_buf r) (rd_start r) (rd_end r)) as [b| | |]; try discriminate.
    cbn [bind]. destruct (parse b) as [[cs b']| | |]; try discriminate.
    cbn [bind]. intros H; inversion H; subst.
    destruct (length b' =? 0) eqn:E; unfold reader_ok; cbn [rd_buf rd_start rd_end].
    + repeat split; lia.
    + apply Nat.eqb_neq in E. repeat split; lia.
  - intros H; inversion H; subst. repeat split; assumption.
Qed.

Lemma grow_ok r : reader_ok r -> reader_ok (grow r).
Proof.
  intros (H1 & H2 & H3 & H4). unfold grow.
  destruct (rd_end r =? length (rd_buf r)); unfold reader_ok;
    cbn [rd_buf rd_start rd_end]; rewrite ?length_app, ?repeat_length;
    repeat split; lia.
Qed.

Lemma stream_read_length w n d w' :
  stream_read w n = (inl d, w') -> length d <= n.
Proof.
  unfold stream_read. destruct (w_closed w); [discriminate|].
  destruct (w_in w) as [|[d0|code] rest]; try discriminate.
  destruct (Nat.leb_spec (length d0) n) as [Hle|Hgt]; intros H; inversion H; subst.
  - assumption.
  - rewrite length_firstn. lia.
Qed.

Lemma ReadCommands_reader_ok : forall fuel r w res r' w',
  reader_ok r -> ReadCommands fuel r w = (res, r', w') -> reader_ok r'.
Proof.
  induction fuel as [|fuel IH]; intros r w res r' w' Hr H.
  - inversion H; subst; exact Hr.
  - cbn [ReadCommands] in H.
    destruct (parse_buffered r) as [[cmds r1]|e| |] eqn:Hp;
      try (inversion H; subst; exact Hr).
    pose proof (parse_buffered_ok _ _ _ Hr Hp) as Hr1.
    destruct (0 <? length cmds); [inversion H; subst; exact Hr1|].
    pose proof (grow_ok _ Hr1) as Hg.
    destruct (Nat.ltb_spec (length (rd_buf (grow r1))) (rd_end (grow r1)));
      [inversion H; subst; exact Hg|].
    destruct (stream_read w (length (rd_buf (grow r1)) - rd_end (grow r1)))
      as [[d|e] w1] eqn:Hs.
    + apply stream_read_length in Hs. apply IH in H; [exact H|].
      destruct Hg as (G1 & G2 & G3 & G4). unfold reader_ok.
      cbn [rd_buf rd_start rd_end]. rewrite write_at_length by lia.
      repeat split; lia.
    + destruct e; try destruct (0 <? rd_end (grow r1)); inversion H; subst; exact Hg.
Qed.

(* ------------------------------------------------------------------ *)
(** ** Termination: the fuel of the loops is enough *)

Lemma inline_inner_shorter : forall rest i nl args q e line' args' q' e',
  inline_inner rest i nl args q e = IContinue line' args' q' e' ->
  length line' < length rest.
Proof.
  induction rest as [|c rest IH]; intros i nl args q e line' args' q' e' H;
    [discriminate|].
  cbn [inline_inner] in H. cbn [length].
  destruct (negb q).
  - destruct (Byte.eqb c " "); [inversion H; subst; lia|].
    destruct (Byte.eqb c DQUOTE).
    + destruct (negb (i =? 0)); [discriminate|]. inversion H; subst; lia.
    + apply IH in H. lia.
  - destruct e; [apply IH in H; lia|].
    destruct (Byte.eqb c DQUOTE).
    + destruct rest as [|c' rest']; [inversion H; subst; cbn; lia|].
      destruct (negb (Byte.eqb c' " ")); [discriminate|]. inversion H; subst; lia.
    + destruct (Byte.eqb c "\"); apply IH in H; lia.
Qed.

Lemma inline_outer_total : forall fuel line args q e,
  length line < fuel -> inline_outer fuel line args q e <> OutOfFuel.
Proof.
  induction fuel as [|fuel IH]; intros line args q e Hl; [lia|].
  cbn [inline_outer].
  destruct (inline_inner line 0 [] args q e) as [l' a' q' e'|err|nl e'] eqn:E.
  - apply IH. apply inline_inner_shorter in E. lia.
  - discriminate.
  - destruct q; discriminate.
Qed.

Lemma parseInt_loop_result : forall b n,
  (exists z, parseInt_loop b n = Ok z) \/ parseInt_loop b n = Err errInvalidNumber.
Proof.
  induction b as [|c b IH]; intros n; cbn [parseInt_loop]; [eauto|].
  destruct (is_digit c); [apply IH|now right].
Qed.

Lemma parseInt_result b :
  (exists z, parseInt b = Ok z) \/ parseInt b = Err errInvalidNumber.
Proof.
  rewrite parseInt_is_loop. apply parseInt_loop_result.
Qed.

Lemma byte_at_total b i : byte_at b i <> OutOfFuel.
Proof. unfold byte_at. destruct (nth_error b i); discriminate. Qed.

Lemma slice_total b lo hi : slice b lo hi <> OutOfFuel.
Proof. unfold slice. destruct (_ && _); discriminate. Qed.

Lemma slice_from_length b lo b' :
  slice_from b lo = Ok b' -> length b' = length b - lo.
Proof.
  unfold slice_from. destruct (lo <=? length b); [|discriminate].
  intros H; inversion H. apply length_skipn.
Qed.

Ltac bind_case H :=
  match type of H with
  | context [bind ?m _] =>
      let E := fresh "E" in destruct m eqn:E; cbn [bind] in H; try discriminate H
  end.

Lemma read_bulk_result : forall rest b si i r,
  read_bulk b si rest i <> OutOfFuel /\
  (read_bulk b si rest i = Ok r ->
   match r with
   | BArg i' _ => i < i'
   | BEnd i' => i <= i'
   | BNotReady => True
   end).
Proof.
  induction rest as [|c rest IH]; intros b si i r; cbn [read_bulk].
  - split; [discriminate|]. intros H; inversion H; subst. lia.
  - destruct (Byte.eqb c LF).
    + destruct (0 <? i); cbn [bind]; [|split; discriminate].
      destruct (byte_at b (i - 1)) eqn:E1; cbn [bind]; try (split; discriminate).
      { destruct (negb (Byte.eqb a CR)); [split; discriminate|].
        destruct (slice b (si + 1) (i - 1)) eqn:E2; cbn [bind]; try (split; discriminate).
        - destruct (parseInt_result a0) as [[z Hz]|Hz]; rewrite Hz; [|split; discriminate].
          destruct (z <? 0)%Z; [split; discriminate|].
          destruct (_ <=? _)%Z; [split; [discriminate|intros H; inversion H; exact I]|].
          destruct (byte_atZ b _) eqn:E3; cbn [bind]; try (split; discriminate).
          + destruct (negb (Byte.eqb a1 LF)); [split; discriminate|].
            destruct (byte_atZ b (int_add (int_add (Z.of_nat i) z) 1)) eqn:E4;
              cbn [bind]; try (split; discriminate).
            * destruct (negb (Byte.eqb a2 CR)); [split; discriminate|].
              destruct (slice b (S i) (S i + Z.to_nat z)) eqn:E5; cbn [bind];
                try (split; discriminate).
              -- split; [discriminate|]. intros H; inversion H; subst. lia.
              -- exfalso. eapply slice_total; eassumption.
            * exfalso. unfold byte_atZ in E4. destruct (_ <? 0)%Z; [discriminate|].
              eapply byte_at_total; eassumption.
          + exfalso. unfold byte_atZ in E3. destruct (_ <? 0)%Z; [discriminate|].
            eapply byte_at_total; eassumption.
        - exfalso. eapply slice_total; eassumption. }
      exfalso. eapply byte_at_total; eassumption.
    + destruct (IH b si (S i) r) as [H1 H2]. split; [exact H1|].
      intros H. specialize (H2 H). destruct r; lia.
Qed.

Lemma read_args_result : forall n b si i args,
  read_args n b si i args <> OutOfFuel /\
  (forall si' i' args', read_args n b si i args = Ok (Some (si', i', args')) ->
                        i <= i').
Proof.
  induction n as [|n IH]; intros b si i args; cbn [read_args].
  - split; [discriminate|]. intros si' i' args' H; inversion H; subst. lia.
  - destruct (S i <? length b).
    + destruct (byte_at b (S i)) eqn:E1; cbn [bind]; try (split; discriminate).
      * destruct (negb (Byte.eqb a "$")); [split; discriminate|].
        destruct (read_bulk b (S i) (skipn (S i) b) (S i)) as [r| | |] eqn:E2;
          cbn [bind]; try (split; discriminate).
        -- pose proof (proj2 (read_bulk_result _ _ _ _ r) E2) as Hr.
           destruct r as [i2 arg| |i2].
           ++ destruct (IH b (S i) i2 (args ++ [arg])) as [H1 H2].
              split; [exact H1|]. intros si' i' args' H. specialize (H2 _ _ _ H). lia.
           ++ split; discriminate.
           ++ destruct (IH b (S i) i2 args) as [H1 H2].
              split; [exact H1|]. intros si' i' args' H. specialize (H2 _ _ _ H). lia.
        -- exfalso. eapply (proj1 (read_bulk_result _ _ _ _ BNotReady)). eassumption.
      * exfalso. eapply byte_at_total; eassumption.
    + destruct (IH b si (S i) args) as [H1 H2]. split; [exact H1|].
      intros si' i' args' H. specialize (H2 _ _ _ H). lia.
Qed.

Lemma resp_loop_total : forall fuel b si i cmds,
  length b <= fuel + i -> resp_loop fuel b si i cmds <> OutOfFuel.
Proof.
  induction fuel as [|fuel IH]; intros b si i cmds Hl; cbn [resp_loop].
  - replace (i <? length b) with false by (symmetry; apply Nat.ltb_ge; lia).
    discriminate.
  - destruct (i <? length b); [|discriminate].
    destruct (byte_at b i) eqn:E1; cbn [bind]; try discriminate.
    + destruct (Byte.eqb a LF); [|apply IH; lia].
      destruct (0 <? i); cbn [bind]; [|discriminate].
      destruct (byte_at b (i - 1)) eqn:E2; cbn [bind]; try discriminate.
      * destruct (negb (Byte.eqb a0 CR)); [discriminate|].
        destruct (slice b (si + 1) (i - 1)) eqn:E3; cbn [bind]; try discriminate.
        -- destruct (parseInt_result a1) as [[z Hz]|Hz]; rewrite Hz; [|discriminate].
           destruct (z <=? 0)%Z; [discriminate|].
           destruct (negb (makeslice_ok z)); [discriminate|].
           destruct (read_args_result (Z.to_nat z) b si i []) as [H1 H2].
           destruct (read_args (Z.to_nat z) b si i []) as [[[[si' i'] args]|]| | |];
             cbn [bind]; try discriminate; [|congruence].
           destruct (_ =? _)%Z.
           ++ destruct (slice_from b (i' + 1)) eqn:E4; cbn [bind]; try discriminate.
              unfold slice_from in E4. destruct (_ <=? _); discriminate.
           ++ apply IH. specialize (H2 _ _ _ eq_refl). lia.
        -- exfalso. eapply slice_total; eassumption.
      * exfalso. eapply byte_at_total; eassumption.
    + exfalso. eapply byte_at_total; eassumption.
Qed.

Lemma resp_loop_shorter : forall fuel b si i cmds cmds' b',
  resp_loop fuel b si i cmds = Ok (Some (cmds', b')) -> length b' < length b.
Proof.
  induction fuel as [|fuel IH]; intros b si i cmds cmds' b' H; cbn [resp_loop] in H.
  - destruct (i <? length b); discriminate.
  - destruct (i <? length b); [|discriminate].
    bind_case H. destruct (Byte.eqb a LF); [|eapply IH; eassumption].
    bind_case H. destruct (negb (Byte.eqb a0 CR)); [discriminate|].
    bind_case H. destruct (parseInt a1); try discriminate.
    destruct (a2 <=? 0)%Z; [discriminate|].
    destruct (negb (makeslice_ok a2)); [discriminate|].
    bind_case H. destruct a3 as [[[si' i'] args]|]; [|discriminate].
    destruct (_ =? _)%Z; [|eapply IH; eassumption].
    bind_case H. inversion H; subst.
    pose proof (slice_from_length _ _ _ E3) as Hl.
    unfold slice_from in E3. destruct (Nat.leb_spec (i' + 1) (length b)); [lia|discriminate].
Qed.

Lemma inline_scan_result : forall rest b i cmds,
  inline_scan b rest i cmds <> OutOfFuel /\
  (forall cmds' b', inline_scan b rest i cmds = Ok (Some (cmds', b')) ->
                    length b' < length b).
Proof.
  induction rest as [|c rest IH]; intros b i cmds; cbn [inline_scan].
  - split; discriminate.
  - destruct (Byte.eqb c LF); [|apply IH].
    set (m := if 0 <? i then _ else _).
    assert (Hm : m <> OutOfFuel).
    { unfold m. destruct (0 <? i); [|apply slice_total].
      destruct (byte_at b (i - 1)) eqn:E; cbn [bind]; try discriminate.
      - destruct (Byte.eqb a CR); apply slice_total.
      - exfalso. eapply byte_at_total; eassumption. }
    destruct m as [line| | |] eqn:Em; cbn [bind]; try (split; discriminate);
      [|congruence].
    pose proof (inline_outer_total (S (length line)) line [] false false
                  ltac:(lia)) as Ht.
    unfold inline_args.
    destruct (inline_outer (S (length line)) line [] false false) as [args| | |];
      cbn [bind]; try (split; discriminate); [|congruence].
    destruct (slice_from b (i + 1)) as [b1| | |] eqn:E1; cbn [bind];
      try (split; discriminate).
    + split; [discriminate|]. intros cmds' b' H. inversion H; subst.
      pose proof (slice_from_length _ _ _ E1) as Hl.
      unfold slice_from in E1.
      destruct (Nat.leb_spec (i + 1) (length b)); [lia|discriminate].
    + unfold slice_from in E1. destruct (_ <=? _); discriminate.
Qed.

(** The loops of the parser never run out of the fuel given to them. *)
Lemma parse_next_total : forall fuel b cmds,
  0 < length b -> length b <= fuel -> parse_next fuel b cmds <> OutOfFuel.
Proof.
  induction fuel as [|fuel IH]; intros b cmds Hb Hl; [lia|].
  cbn [parse_next].
  destruct (byte_at b 0) eqn:E; cbn [bind]; try discriminate.
  - destruct (Byte.eqb a "*").
    + pose proof (resp_loop_total (length b) b 0 0 cmds ltac:(lia)) as Ht.
      destruct (resp_loop (length b) b 0 0 cmds) as [[[cmds' b']|]| | |] eqn:Er;
        cbn [bind]; try discriminate; [|congruence].
      apply resp_loop_shorter in Er.
      destruct (Nat.ltb_spec 0 (length b')); [apply IH; lia|discriminate].
    + destruct (inline_scan_result b b 0 cmds) as [Ht Hs].
      destruct (inline_scan b b 0 cmds) as [[[cmds' b']|]| | |] eqn:Er;
        cbn [bind]; try discriminate; [|congruence].
      specialize (Hs _ _ eq_refl).
      destruct (Nat.ltb_spec 0 (length b')); [apply IH; lia|discriminate].
  - exfalso. eapply byte_at_total; eassumption.
Qed.

Lemma parse_buffered_total r : parse_buffered r <> OutOfFuel.
Proof.
  unfold parse_buffered. destruct (Nat.ltb_spec (rd_start r) (rd_end r)); [|discriminate].
  unfold slice.
  destruct ((rd_start r <=? rd_end r) && (rd_end r <=? length (rd_buf r))) eqn:E;
    cbn [bind]; [|discriminate].
  apply andb_true_iff in E as [_ E2]. apply Nat.leb_le in E2.
  set (b := firstn _ _).
  assert (Hb : 0 < length b).
  { unfold b. rewrite length_firstn, length_skipn. lia. }
  pose proof (parse_next_total (length b) b [] Hb (le_n _)) as Ht.
  unfold parse. destruct (parse_next (length b) b []) as [[cmds b']| | |];
    cbn [bind]; try discriminate. congruence.
Qed.

(** [ReadCommands] returns whenever the stream is finite and the buffer is
    not empty: fuel above the size of the stream is enough. *)
Lemma ReadCommands_total : forall fuel r w,
  reader_ok r -> stream_size (w_in w) < fuel ->
  fst (fst (ReadCommands fuel r w)) <> OutOfFuel.
Proof.
  induction fuel as [|fuel IH]; intros r w Hr Hs; [lia|].
  cbn [ReadCommands].
  pose proof (parse_buffered_total r) as Hp.
  destruct (parse_buffered r) as [[cmds r1]|e| |] eqn:E; cbn [fst]; try discriminate;
    [|congruence].
  pose proof (parse_buffered_ok _ _ _ Hr E) as Hr1.
  destruct (0 <? length cmds); [discriminate|].
  pose proof (grow_ok _ Hr1) as Hg.
  destruct Hr1 as (A1 & A2 & A3 & A4).
  pose proof (grow_room r1 A2 A3) as Hroom.
  destruct (length (rd_buf (grow r1)) <? rd_end (grow r1)); [discriminate|].
  destruct (stream_read w (length (rd_buf (grow r1)) - rd_end (grow r1)))
    as [[d|e] w1] eqn:Hsr.
  - pose proof (stream_read_length _ _ _ _ Hsr) as Hd.
    apply IH.
    + destruct Hg as (G1 & G2 & G3 & G4). unfold reader_ok.
      cbn [rd_buf rd_start rd_end]. rewrite write_at_length by lia.
      repeat split; lia.
    + unfold stream_read in Hsr. destruct (w_closed w); [discriminate|].
      destruct (w_in w) as [|[d0|code] rest]; try discriminate.
      cbn [stream_size] in Hs.
      destruct (Nat.leb_spec (length d0) (length (rd_buf (grow r1)) - rd_end (grow r1)));
        inversion Hsr; subst; cbn [w_in stream_size]; [lia|].
      rewrite length_skipn. lia.
  - destruct e; try destruct (0 <? rd_end (grow r1)); discriminate.
Qed.

(* ------------------------------------------------------------------ *)
(** ** The writer and the engine *)

Section EngineProofs.

Variable growslice : nat -> nat -> nat.

Lemma wr_append_b w xs : wr_b (wr_append growslice w xs) = wr_b w ++ xs.
Proof. reflexivity. Qed.

Lemma wr_append_err w xs : wr_err (wr_append growslice w xs) = wr_err w.
Proof. reflexivity. Qed.

Lemma bytes_eqb_eq a b : bytes_eqb a b = true -> a = b.
Proof. unfold bytes_eqb. destruct (list_eq_dec Byte.byte_eq_dec a b); [auto|discriminate]. Qed.

(** A call on a writer without sticky error appends the encoding of the
    reply and returns no error. *)
Lemma do_write_appends w call :
  wr_err w = None ->
  fst (do_write growslice w call) = None /\
  wr_b (snd (do_write growslice w call)) = wr_b w ++ encoding call /\
  wr_err (snd (do_write growslice w call)) = None.
Proof.
  intros He.
  destruct call; cbn [do_write encoding];
    unfold WriteString, WriteError, WriteInt, WriteNull, WriteBulk,
           WriteBulkBytes, WriteArrayStart; rewrite He; cbn [fst snd];
    try (repeat split; rewrite ?wr_append_b, ?wr_append_err; auto;
         unfold CRLF; cbn [bs list_byte_of_string app];
         rewrite <- ?app_assoc; reflexivity).
  destruct (bytes_eqb s (bs "OK")) eqn:E; cbn [fst snd];
    repeat split; rewrite ?wr_append_b, ?wr_append_err; auto.
  - apply bytes_eqb_eq in E. subst s. reflexivity.
  - unfold CRLF; cbn [bs list_byte_of_string app]. rewrite <- ?app_assoc; reflexivity.
Qed.

Lemma write_calls_appends calls : forall w,
  wr_err w = None ->
  wr_b (write_calls growslice w calls) = wr_b w ++ List.concat (map encoding calls) /\
  wr_err (write_calls growslice w calls) = None.
Proof.
  induction calls as [|call calls IH]; intros w He.
  - cbn. now rewrite app_nil_r.
  - cbn [write_calls fold_left map List.concat].
    destruct (do_write_appends w call He) as (_ & Hb & He').
    destruct (IH _ He') as (Hb2 & He2). fold (write_calls growslice) in *.
    unfold write_calls in *. rewrite Hb2, He2, Hb. now rewrite <- app_assoc.
Qed.

Lemma stream_write_trace wd b r wd' :
  stream_write wd b = (r, wd') -> w_trace wd' = w_trace wd ++ [EvWrite b r].
Proof.
  unfold stream_write. destruct (w_closed wd).
  - intros H; inversion H; reflexivity.
  - destruct (w_wres wd) as [|[code|] rest]; intros H; inversion H; reflexivity.
Qed.

(** C2.  After any sequence of [Write*] calls on a fresh writer (empty
    buffer, no sticky error, any capacity) the buffer holds the
    concatenation of the encodings of the calls.  [Flush] then passes the
    whole buffer to the stream in one [Write]; when that succeeds the buffer
    has length 0, when it fails the error is returned and becomes sticky.
    With nothing buffered [Flush] does not write. *)
Theorem C2_writer_output cap calls wd :
  let w := write_calls growslice (mkWriter [] cap None) calls in
  let out := List.concat (map encoding calls) in
  wr_b w = out /\ wr_err w = None /\
  (out = [] -> Flush w wd = (None, w, wd)) /\
  (out <> [] ->
   forall r wd', stream_write wd out = (r, wd') ->
     w_trace wd' = w_trace wd ++ [EvWrite out r] /\
     Flush w wd =
       (r, mkWriter (match r with None => [] | Some _ => out end) (wr_cap w) r,
        wd')).
Proof.
  intros w out.
  destruct (write_calls_appends calls (mkWriter [] cap None) eq_refl) as [Hb He].
  cbn [wr_b app] in Hb. fold w in Hb, He. fold out in Hb.
  split; [exact Hb|]. split; [exact He|]. split.
  - intros Ho. unfold Flush. rewrite He, Hb, Ho. reflexivity.
  - intros Ho r wd' Hw. split; [eapply stream_write_trace; eassumption|].
    unfold Flush. rewrite He, Hb.
    destruct out as [|x out']; [congruence|].
    cbn [length Nat.eqb]. rewrite Hw. destruct r; reflexivity.
Qed.

Lemma do_write_sticky w e call :
  wr_err w = Some e -> do_write growslice w call = (Some e, w).
Proof.
  intros He.
  destruct call; cbn [do_write];
    unfold WriteString, WriteError, WriteInt, WriteNull, WriteBulk,
           WriteBulkBytes, WriteArrayStart; rewrite He; reflexivity.
Qed.

Lemma Flush_ok_empties w wd w1 wd1 :
  wr_err w = None -> Flush w wd = (None, w1, wd1) ->
  w1 = mkWriter [] (wr_cap w) None.
Proof.
  intros He. unfold Flush. rewrite He.
  destruct (Nat.eqb_spec (length (wr_b w)) 0) as [E|E].
  - intros H; inversion H; subst. destruct w1 as [b c e]; cbn in *.
    destruct b; [|discriminate]. now subst.
  - destruct (stream_write wd (wr_b w)) as [[e|] wd']; intros H;
      inversion H; subst; congruence.
Qed.

Lemma Flush_err_keeps w wd e w1 wd1 :
  wr_err w = None -> Flush w wd = (Some e, w1, wd1) ->
  w1 = mkWriter (wr_b w) (wr_cap w) (Some e).
Proof.
  intros He. unfold Flush. rewrite He.
  destruct (length (wr_b w) =? 0); [discriminate|].
  destruct (stream_write wd (wr_b w)) as [[e'|] wd']; intros H; inversion H.
  reflexivity.
Qed.

(** C7, as amended.  With the sticky error [e] set, every [Write*] call
    leaves the writer as it is and returns [e], [Flush] and [Close] return
    [e] without touching the stream, and of the methods of the [Conn] facade
    only [Close] returns it (the [Write*] methods of the facade return
    nothing and change nothing).  [Close] on a writer without sticky error
    flushes once: when the flush succeeds the sticky error becomes [closed]
    and every later [Flush] returns [closed] without touching the stream;
    when the flush fails the sticky error is the error of the flush. *)
Theorem C7_sticky_error w e w0 call c wd :
  wr_err w = Some e -> wr_err w0 = None -> c_wr c = w ->
  do_write growslice w call = (Some e, w) /\
  Flush w wd = (Some e, w, wd) /\
  writer_Close w wd = (Some e, w, wd) /\
  conn_write growslice c call = c /\
  fst (fst (conn_Close c wd)) = Some e /\
  match Flush w0 wd with
  | (None, _, wd1) =>
      let w1 := mkWriter [] (wr_cap w0) (Some errClosed) in
      writer_Close w0 wd = (None, w1, wd1) /\
      forall wd2, Flush w1 wd2 = (Some errClosed, w1, wd2)
  | (Some e', _, wd1) =>
      let w1 := mkWriter (wr_b w0) (wr_cap w0) (Some e') in
      writer_Close w0 wd = (Some e', w1, wd1) /\
      forall wd2, Flush w1 wd2 = (Some e', w1, wd2)
  end.
Proof.
  intros He He0 Hc.
  split; [now apply do_write_sticky|].
  split; [unfold Flush; now rewrite He|].
  split; [unfold writer_Close; now rewrite He|].
  split.
  { unfold conn_write. rewrite Hc, (do_write_sticky w e) by exact He.
    cbn [snd]. rewrite <- Hc. destruct c; reflexivity. }
  split.
  { unfold conn_Close, writer_Close. rewrite Hc, He. reflexivity. }
  destruct (Flush w0 wd) as [[[e'|] w1] wd1] eqn:HF.
  - pose proof (Flush_err_keeps _ _ _ _ _ He0 HF) as ->.
    split; [|reflexivity].
    unfold writer_Close. rewrite He0, HF. reflexivity.
  - pose proof (Flush_ok_empties _ _ _ _ He0 HF) as ->.
    split; [|reflexivity].
    unfold writer_Close. rewrite He0, HF. reflexivity.
Qed.

Lemma handle_round_mono fuel fuel' cfg c wd res c' wd' :
  handle_round growslice fuel cfg c wd = (res, c', wd') ->
  res <> OutOfFuel -> fuel <= fuel' ->
  handle_round growslice fuel' cfg c wd = (res, c', wd').
Proof.
  intros H Hne Hle. unfold handle_round in *.
  destruct (c_hj c); [exact H|].
  destruct (ReadCommands fuel (c_rd c) wd) as [[rres r'] wd1] eqn:E.
  assert (Hr : rres <> OutOfFuel).
  { intros ->. inversion H; subst. congruence. }
  rewrite (ReadCommands_mono _ _ _ _ _ _ _ E Hr Hle). exact H.
Qed.

Lemma handle_loop_mono : forall fuel fuel' cfg c wd res c' wd',
  handle_loop growslice fuel cfg c wd = (res, c', wd') ->
  res <> OutOfFuel -> fuel <= fuel' ->
  handle_loop growslice fuel' cfg c wd = (res, c', wd').
Proof.
  induction fuel as [|fuel IH]; intros fuel' cfg c wd res c' wd' H Hne Hle.
  - inversion H; subst; congruence.
  - destruct fuel' as [|fuel']; [lia|]. cbn [handle_loop] in *.
    destruct (handle_round growslice fuel cfg c wd) as [[rres c1] wd1] eqn:E.
    assert (Hr : rres <> OutOfFuel).
    { intros ->. inversion H; subst. congruence. }
    rewrite (handle_round_mono _ fuel' _ _ _ _ _ _ E Hr) by lia.
    destruct rres as [[|err]|e| |]; try exact H.
    apply IH with (fuel' := fuel') in H; [exact H|exact Hne|lia].
Qed.

(** Whatever the loop does from a later round, it does from the first. *)
Lemma handle_loop_rounds cfg c0 wd0 c wd :
  rounds growslice cfg c0 wd0 c wd ->
  forall fuel err c' wd',
    handle_loop growslice fuel cfg c wd = (Ok err, c', wd') ->
    exists fuel', handle_loop growslice fuel' cfg c0 wd0 = (Ok err, c', wd').
Proof.
  induction 1 as [c wd|f c wd c1 wd1 c2 wd2 Hround _ IH]; intros fuel err c' wd' H.
  - exists fuel. exact H.
  - destruct (IH _ _ _ _ H) as [f1 Hf1].
    exists (S (Nat.max f f1)). cbn [handle_loop].
    rewrite (handle_round_mono f (Nat.max f f1) _ _ _ _ _ _ Hround) by (try discriminate; lia).
    apply handle_loop_mono with (fuel := f1); [exact Hf1|discriminate|lia].
Qed.

Lemma Flush_healthy w wd w' wd' :
  Flush w wd = (None, w', wd') -> wr_err w' = None.
Proof.
  unfold Flush. destruct (wr_err w) eqn:He; [discriminate|].
  destruct (length (wr_b w) =? 0).
  - intros H; inversion H; subst; exact He.
  - destruct (stream_write wd (wr_b w)) as [[e|] wd1]; intros H; inversion H.
    reflexivity.
Qed.

Lemma handle_round_continue fuel cfg c wd c1 wd1 :
  handle_round growslice fuel cfg c wd = (Ok Continue, c1, wd1) ->
  wr_err (c_wr c1) = None.
Proof.
  unfold handle_round. destruct (c_hj c); [discriminate|].
  destruct (ReadCommands fuel (c_rd c) wd) as [[[cmds|e| |] r'] wd'];
    try discriminate.
  - match goal with |- context [let '(a, b) := ?X in _] => destruct X as [c2 wd2] end.
    destruct (wr_err (c_wr c2)) as [e|] eqn:He.
    + destruct e; discriminate.
    + destruct (Flush (c_wr c2) wd2) as [[[e|] w'] wd''] eqn:HF; [discriminate|].
      intros H; inversion H; subst. cbn [c_wr set_wr].
      eapply Flush_healthy; eassumption.
  - destruct e; try discriminate.
    match goal with |- context [Flush ?a ?b] => destruct (Flush a b) as [[? ?] ?] end.
    discriminate.
Qed.

Lemma rounds_conn_ok cfg c0 wd0 c wd :
  rounds growslice cfg c0 wd0 c wd -> conn_ok c0 wd0 -> conn_ok c wd.
Proof.
  induction 1 as [c wd|f c wd c1 wd1 c2 wd2 Hround _ IH]; intros H0; [exact H0|].
  apply IH. left. eapply handle_round_continue; eassumption.
Qed.

(** A connection whose writer has a sticky error was closed, and a closed
    stream with an empty buffer yields no protocol error. *)
Lemma protocol_error_healthy c wd fuel msg r' wd' :
  conn_ok c wd ->
  ReadCommands fuel (c_rd c) wd = (Err (errProtocol msg), r', wd') ->
  wr_err (c_wr c) = None.
Proof.
  intros [H|[Hcl Hse]] HR; [exact H|]. exfalso.
  destruct fuel as [|fuel]; [discriminate|]. cbn [ReadCommands] in HR.
  unfold parse_buffered in HR.
  replace (rd_start (c_rd c) <? rd_end (c_rd c)) with false in HR
    by (symmetry; apply Nat.ltb_ge; lia).
  change (0 <? length (@nil (list bytes))) with false in HR. cbv iota in HR.
  destruct (length (rd_buf (grow (c_rd c))) <? rd_end (grow (c_rd c)));
    [discriminate|].
  unfold stream_read in HR. rewrite Hcl in HR. discriminate.
Qed.

Lemma run_prog_rd {R} (p : prog R) : forall c wd,
  c_rd (snd (fst (run_prog growslice p c wd))) = c_rd c.
Proof.
  induction p as [r|call k IH|n k IH|v k IH|k IH|k IH|k IH|k IH]; intros c wd;
    cbn [run_prog].
  - reflexivity.
  - rewrite IH. reflexivity.
  - rewrite IH. reflexivity.
  - rewrite IH. reflexivity.
  - apply IH.
  - apply IH.
  - unfold conn_Close. destruct (writer_Close (c_wr c) wd) as [[err w'] wd'].
    rewrite IH. reflexivity.
  - rewrite IH. reflexivity.
Qed.

Lemma handle_round_reader_ok fuel cfg c wd res c' wd' :
  reader_ok (c_rd c) ->
  handle_round growslice fuel cfg c wd = (res, c', wd') -> reader_ok (c_rd c').
Proof.
  intros Hr. unfold handle_round. destruct (c_hj c).
  { intros H; inversion H; subst; exact Hr. }
  destruct (ReadCommands fuel (c_rd c) wd) as [[rres r'] wd1] eqn:E.
  pose proof (ReadCommands_reader_ok _ _ _ _ _ _ Hr E) as Hr'.
  destruct rres as [cmds|e| |].
  - assert (Hh : forall (h : handler) api,
              c_rd (fst (let '(_, c'0, wd2) :=
                           run_prog growslice (h (w_trace wd1) cmds) (set_rd c r')
                                    (log wd1 (EvHandler api cmds)) in (c'0, wd2))) = r').
    { intros h api.
      pose proof (run_prog_rd (h (w_trace wd1) cmds) (set_rd c r')
                    (log wd1 (EvHandler api cmds))) as Hp.
      destruct (run_prog growslice (h (w_trace wd1) cmds) (set_rd c r')
                  (log wd1 (EvHandler api cmds))) as [[u c2] wd2].
      exact Hp. }
    match goal with |- context [let '(a, b) := ?X in _] =>
      assert (Hx : c_rd (fst X) = r'); [|destruct X as [c2 wd2]] end.
    { destruct (0 <? length cmds); [|reflexivity].
      destruct (shandler cfg) as [h|]; [apply Hh|].
      destruct (bhandler cfg) as [h|]; [apply Hh|reflexivity]. }
    cbn [fst] in Hx.
    destruct (wr_err (c_wr c2)) as [e|].
    + rewrite <- Hx in Hr'.
      destruct e; intros H; inversion H; subst; exact Hr'.
    + rewrite <- Hx in Hr'.
      destruct (Flush (c_wr c2) wd2) as [[[e|] w'] wd''];
        intros H; inversion H; subst; cbn [c_rd set_wr]; exact Hr'.
  - destruct e;
      try (intros H; inversion H; subst; exact Hr').
    match goal with |- context [Flush ?a ?b] => destruct (Flush a b) as [[? ?] ?] end.
    intros H; inversion H; subst; exact Hr'.
  - intros H; inversion H; subst; exact Hr'.
  - intros H; inversion H; subst; exact Hr'.
Qed.

Lemma rounds_reader_ok cfg c0 wd0 c wd :
  rounds growslice cfg c0 wd0 c wd -> reader_ok (c_rd c0) -> reader_ok (c_rd c).
Proof.
  induction 1 as [c wd|f c wd c1 wd1 c2 wd2 Hround _ IH]; intros H0; [exact H0|].
  apply IH. eapply handle_round_reader_ok; eassumption.
Qed.

(** C3.  At whatever round of the loop [ReadCommands] reports a protocol
    error, [handle] ends: the reply [-ERR Protocol error: msg] and CRLF is
    appended to the write buffer and the buffer is passed to the stream in one
    write whose result [res] is ignored, the loop returns the protocol error,
    the stream is closed, the observer (if any) receives the protocol error,
    and nothing else happens after the trace of that round: no handler is
    called again. *)
Theorem C3_protocol_error_reply cfg s id c0 wd0 c wd fuel msg r' wd' :
  conn_ok c0 wd0 -> rounds growslice cfg c0 wd0 c wd -> c_hj c = false ->
  ReadCommands fuel (c_rd c) wd = (Err (errProtocol msg), r', wd') ->
  let out := wr_b (c_wr c) ++ bs "-ERR Protocol error: " ++ msg ++ CRLF in
  exists fuel' res s' c' wdf,
    handle growslice fuel' cfg s id c0 wd0 =
      Ok (Some (errProtocol msg), s', c', wdf) /\
    w_closed wdf = true /\
    w_trace wdf =
      w_trace wd ++ EvWrite out res :: EvConnClose ::
        (if closed cfg then [EvClosed (Some (errProtocol msg))] else []).
Proof.
  intros Hok Hrounds Hhj HR out.
  pose proof (protocol_error_healthy c wd fuel msg r' wd'
                (rounds_conn_ok cfg _ _ _ _ Hrounds Hok) HR) as He.
  pose proof (ReadCommands_world _ _ _ _ _ _ HR) as (Htr & _ & _).
  destruct (stream_write wd' out) as [res wd''] eqn:Hw.
  pose proof (stream_write_trace _ _ _ _ Hw) as Htr2.
  set (w2 := mkWriter (match res with None => [] | Some _ => out end)
               (wr_cap (snd (WriteError growslice (c_wr (set_rd c r'))
                               (bs "ERR " ++ errProtocol_Error msg)))) res).
  assert (Hround : handle_round growslice fuel cfg c wd =
                   (Ok (Return_ (Some (errProtocol msg))),
                    set_wr (set_rd c r') w2, wd'')).
  { unfold handle_round. rewrite Hhj, HR.
    assert (Hb : wr_b (snd (WriteError growslice (c_wr (set_rd c r'))
                               (bs "ERR " ++ errProtocol_Error msg))) = out).
    { unfold WriteError. cbn [c_wr set_rd]. rewrite He. cbn [snd].
      rewrite !wr_append_b. unfold out, errProtocol_Error.
      cbn [bs list_byte_of_string app]. rewrite <- !app_assoc. reflexivity. }
    assert (He' : wr_err (snd (WriteError growslice (c_wr (set_rd c r'))
                                 (bs "ERR " ++ errProtocol_Error msg))) = None).
    { unfold WriteError. cbn [c_wr set_rd]. rewrite He. cbn [snd].
      rewrite !wr_append_err. exact He. }
    unfold Flush. rewrite He', Hb.
    assert (Hlen : (length out =? 0) = false).
    { apply Nat.eqb_neq. unfold out. rewrite !length_app. cbn. lia. }
    rewrite Hlen, Hw. unfold w2. destruct res; reflexivity. }
  assert (Hloop : handle_loop growslice (S fuel) cfg c wd =
                  (Ok (Some (errProtocol msg)), set_wr (set_rd c r') w2, wd'')).
  { cbn [handle_loop]. rewrite Hround. reflexivity. }
  destruct (handle_loop_rounds cfg _ _ _ _ Hrounds _ _ _ _ Hloop)
    as [fuel' Hloop'].
  exists fuel', res. eexists _, _, _. split.
  { unfold handle, handle_run. rewrite Hloop'. unfold handle_deferred.
    cbn [is_hijacked]. reflexivity. }
  split.
  { destruct (closed cfg); reflexivity. }
  destruct (closed cfg); cbn [w_trace log stream_close];
    rewrite Htr2, Htr, <- ?app_assoc; reflexivity.
Qed.

(** C4, as amended.  When the loop finds the hijacked flag set it returns
    the sentinel [errHijacked]; [handle] then leaves the stream as it is
    (nothing is closed, no buffer goes back to a pool), removes the
    connection from the registry, and the observer, if there is one, is
    called with the sentinel itself as its error. *)
Theorem C4_hijack_exit cfg s id c0 wd0 c wd :
  rounds growslice cfg c0 wd0 c wd -> c_hj c = true ->
  exists fuel,
    handle growslice fuel cfg s id c0 wd0 =
      Ok (Some errHijacked,
          mkServer (remove Nat.eq_dec id (s_conns s)) (s_rdpool s) (s_wrpool s),
          c,
          if closed cfg then log wd (EvClosed (Some errHijacked)) else wd).
Proof.
  intros Hrounds Hhj.
  assert (Hloop : handle_loop growslice 1 cfg c wd = (Ok (Some errHijacked), c, wd)).
  { cbn [handle_loop]. unfold handle_round. rewrite Hhj. reflexivity. }
  destruct (handle_loop_rounds cfg _ _ _ _ Hrounds _ _ _ _ Hloop)
    as [fuel Hloop'].
  exists fuel. unfold handle, handle_run. rewrite Hloop'. unfold handle_deferred.
  cbn [is_hijacked]. destruct (closed cfg); reflexivity.
Qed.

Lemma pending_nil_end r :
  reader_ok r -> (pending r = [] <-> rd_end r = 0).
Proof.
  intros (H1 & H2 & H3 & H4).
  assert (Hl : length (pending r) = rd_end r - rd_start r).
  { unfold pending. rewrite length_firstn, length_skipn. lia. }
  split.
  - intros E. rewrite E in Hl. cbn in Hl. apply H4. lia.
  - intros E. destruct (pending r); [reflexivity|]. cbn in Hl. lia.
Qed.

(** C9.  When the stream is at its end and the buffered bytes hold no whole
    command, [ReadCommands] returns [io.EOF] if nothing is left unconsumed
    and [io.ErrUnexpectedEOF] if the beginning of a command is; [handle]
    then closes the stream and calls the observer with no error in the first
    case and with [io.ErrUnexpectedEOF] in the second. *)
Theorem C9_end_of_stream cfg s id c0 wd0 c wd r1 :
  reader_ok (c_rd c0) -> rounds growslice cfg c0 wd0 c wd -> c_hj c = false ->
  w_in wd = [] -> w_closed wd = false -> closed cfg = true ->
  parse_buffered (c_rd c) = Ok ([], r1) ->
  (forall fuel,
     ReadCommands (S fuel) (c_rd c) wd =
       (Err (eof_error (pending r1)), grow r1, wd)) /\
  exists fuel' s' c' wdf,
    handle growslice fuel' cfg s id c0 wd0 =
      Ok (Some (eof_error (pending r1)), s', c', wdf) /\
    w_trace wdf =
      w_trace wd ++
        [EvConnClose;
         EvClosed (match pending r1 with
                   | [] => None
                   | _ :: _ => Some io_ErrUnexpectedEOF
                   end)].
Proof.
  intros Hr0 Hrounds Hhj Hin Hcl Hobs Hp.
  pose proof (rounds_reader_ok cfg _ _ _ _ Hrounds Hr0) as Hr.
  pose proof (parse_buffered_ok _ _ _ Hr Hp) as Hr1.
  pose proof (grow_ok _ Hr1) as Hg.
  assert (HRC : forall fuel,
            ReadCommands (S fuel) (c_rd c) wd =
            (Err (eof_error (pending r1)), grow r1, wd)).
  { intros fuel. cbn [ReadCommands]. rewrite Hp.
    change (0 <? length (@nil (list bytes))) with false. cbv iota.
    destruct Hg as (G1 & G2 & G3 & G4).
    replace (length (rd_buf (grow r1)) <? rd_end (grow r1)) with false
      by (symmetry; apply Nat.ltb_ge; lia).
    unfold stream_read. rewrite Hcl, Hin.
    pose proof (pending_nil_end r1 Hr1) as Hiff.
    destruct (grow_fields r1) as [_ Hge]. rewrite Hge.
    destruct (pending r1) as [|x p'] eqn:Epen.
    - replace (0 <? rd_end r1) with false
        by (symmetry; apply Nat.ltb_ge; destruct Hiff as [Hi _];
            rewrite (Hi eq_refl); lia).
      reflexivity.
    - replace (0 <? rd_end r1) with true
        by (symmetry; apply Nat.ltb_lt;
            destruct (Nat.eq_dec (rd_end r1) 0) as [E0|E0];
            [apply Hiff in E0; discriminate|lia]).
      reflexivity. }
  split; [exact HRC|].
  assert (Hloop : handle_loop growslice 2 cfg c wd =
                  (Ok (Some (eof_error (pending r1))), set_rd c (grow r1), wd)).
  { cbn [handle_loop]. unfold handle_round. rewrite Hhj, (HRC 0).
    destruct (pending r1); reflexivity. }
  destruct (handle_loop_rounds cfg _ _ _ _ Hrounds _ _ _ _ Hloop)
    as [fuel' Hloop'].
  exists fuel'. eexists _, _, _. split.
  { unfold handle, handle_run. rewrite Hloop'. unfold handle_deferred.
    replace (is_hijacked (Some (eof_error (pending r1)))) with false
      by (destruct (pending r1); reflexivity).
    rewrite Hobs. reflexivity. }
  cbn [w_trace log stream_close]. rewrite <- app_assoc.
  destruct (pending r1); reflexivity.
Qed.

(** With commands buffered on the handle, [ReadCommand] hands out the first
    one and keeps the others. *)
Lemma ReadCommand_buffered fuel c args rest wd :
  ReadCommand (S fuel) (mkHijacked c (args :: rest)) wd =
    (Ok args, mkHijacked c rest, wd).
Proof. reflexivity. Qed.

(** [ReadCommandBytes] on a fresh handle does read from the parser. *)
Example ReadCommandBytes_reads :
  fst (fst (ReadCommandBytes 10 (fst (conn_Hijack sample_conn)) ping_world)) =
    Ok [bs "ping"].
Proof. vm_compute. reflexivity. Qed.

(** C5 (a defect of the code).  On the handle that [Hijack] returns no
    command is buffered, and [ReadCommand] then calls itself without reading
    from the parser: whatever the fuel, it never returns. *)
Theorem C5_ReadCommand_never_returns fuel c wd :
  ReadCommand fuel (fst (conn_Hijack c)) wd =
    (OutOfFuel, fst (conn_Hijack c), wd).
Proof.
  induction fuel as [|fuel IH]; [reflexivity|].
  cbn [ReadCommand]. cbn [conn_Hijack fst hjc_cmds] in *. exact IH.
Qed.

Lemma run_prog_sticky_closed {R} (p : prog R) : forall c wd,
  wr_err (c_wr c) = None \/ w_closed wd = true ->
  wr_err (c_wr (snd (fst (run_prog growslice p c wd)))) = None \/
  w_closed (snd (run_prog growslice p c wd)) = true.
Proof.
  induction p as [r|call k IH|n k IH|v k IH|k IH|k IH|k IH|k IH]; intros c wd H;
    cbn [run_prog].
  - exact H.
  - apply IH. destruct H as [H|H]; [left|right; exact H].
    unfold conn_write. cbn [c_wr set_wr].
    apply (do_write_appends (c_wr c) call H).
  - apply IH. exact H.
  - apply IH. exact H.
  - apply IH. exact H.
  - apply IH. exact H.
  - unfold conn_Close. destruct (writer_Close (c_wr c) wd) as [[err w'] wd'].
    apply IH. right. reflexivity.
  - apply IH. exact H.
Qed.

(** The connection that the accept loop hands to [handle], after the accept
    filter ran on it, is as [conn_ok] says. *)
Lemma accepted_conn_ok {R} s id addr (p : prog R) wd :
  let c := snd (new_conn s id addr) in
  conn_ok (snd (fst (run_prog growslice p c wd))) (snd (run_prog growslice p c wd)).
Proof.
  intros c.
  assert (Hc : wr_err (c_wr c) = None /\ rd_start (c_rd c) = rd_end (c_rd c)).
  { unfold c, new_conn. destruct (rev (s_rdpool s)); destruct (rev (s_wrpool s));
      split; reflexivity. }
  destruct (run_prog_sticky_closed p c wd (or_introl (proj1 Hc))) as [H|H].
  - left. exact H.
  - right. split; [exact H|]. rewrite (run_prog_rd p c wd). exact (proj2 Hc).
Qed.

End EngineProofs.

(* ------------------------------------------------------------------ *)
(** ** Sample runs *)

Lemma second_round_rounds cfg wd :
  fst (fst (handle_round sample_grow 10 cfg sample_conn wd)) = Ok Continue ->
  rounds sample_grow cfg sample_conn wd
         (fst (second_round cfg wd)) (snd (second_round cfg wd)).
Proof.
  intros H. unfold second_round.
  destruct (handle_round sample_grow 10 cfg sample_conn wd) as [[res c] wd'] eqn:E.
  cbn [fst snd] in *. subst res.
  eapply rounds_step; [exact E|apply rounds_refl].
Defined.

Lemma C3_protocol_error_reply_witness :
  exists fuel' res s' c' wdf,
    handle sample_grow fuel' sample_cfg sample_server 1 sample_conn bad_world =
      Ok (Some errInvalidMultiBulkLength, s', c', wdf) /\
    w_closed wdf = true /\
    w_trace wdf =
      [EvHandler false [[bs "ping"]]; EvWrite (bs "+PONG" ++ CRLF) None]
      ++ EvWrite (bs "-ERR Protocol error: invalid multibulk length" ++ CRLF) res
         :: EvConnClose :: [EvClosed (Some errInvalidMultiBulkLength)].
Proof.
  exact (C3_protocol_error_reply sample_grow sample_cfg sample_server 1
           sample_conn bad_world
           (fst (second_round sample_cfg bad_world))
           (snd (second_round sample_cfg bad_world))
           5 (bs "invalid multibulk length")
           (snd (fst (ReadCommands 5 (c_rd (fst (second_round sample_cfg bad_world)))
                                   (snd (second_round sample_cfg bad_world)))))
           (snd (ReadCommands 5 (c_rd (fst (second_round sample_cfg bad_world)))
                              (snd (second_round sample_cfg bad_world))))
           (or_introl eq_refl)
           (second_round_rounds sample_cfg bad_world eq_refl)
           eq_refl eq_refl).
Defined.

(** C4 does not hold as the specification states it: a handler that hijacks the connection on
    its first command makes the observer receive [errHijacked], not "no
    error". *)
Lemma C4_counterexample :
  exists s' c' wdf,
    handle sample_grow 10 hijack_cfg sample_server 1 sample_conn ping_world =
      Ok (Some errHijacked, s', c', wdf) /\
    w_trace wdf = [EvHandler false [[bs "ping"]]; EvClosed (Some errHijacked)] /\
    ~ In (EvClosed None) (w_trace wdf).
Proof.
  eexists _, _, _. split; [vm_compute; reflexivity|]. split; [reflexivity|].
  cbn. intros [H|[H|[]]]; discriminate H.
Qed.

Lemma C4_hijack_exit_witness :
  exists fuel,
    handle sample_grow fuel hijack_cfg sample_server 1 sample_conn ping_world =
      Ok (Some errHijacked, mkServer [] [] [],
          fst (second_round hijack_cfg ping_world),
          log (snd (second_round hijack_cfg ping_world))
              (EvClosed (Some errHijacked))).
Proof.
  exact (C4_hijack_exit sample_grow hijack_cfg sample_server 1 sample_conn ping_world
           (fst (second_round hijack_cfg ping_world))
           (snd (second_round hijack_cfg ping_world))
           (second_round_rounds hijack_cfg ping_world eq_refl) eq_refl).
Defined.

Lemma sample_conn_reader_ok : reader_ok (c_rd sample_conn).
Proof.
  unfold reader_ok. cbn [sample_conn c_rd rd_buf rd_start rd_end].
  rewrite repeat_length. repeat split.
  - apply le_n.
  - apply Nat.le_0_l.
  - apply Nat.lt_0_succ.
Defined.

Lemma C9_end_of_stream_witness :
  (forall fuel,
     ReadCommands (S fuel) (c_rd (fst (second_round sample_cfg cut_world)))
                  (snd (second_round sample_cfg cut_world)) =
       (Err io_ErrUnexpectedEOF,
        grow (c_rd (fst (second_round sample_cfg cut_world))),
        snd (second_round sample_cfg cut_world))) /\
  exists fuel' s' c' wdf,
    handle sample_grow fuel' sample_cfg sample_server 1 sample_conn cut_world =
      Ok (Some io_ErrUnexpectedEOF, s', c', wdf) /\
    w_trace wdf =
      [EvHandler false [[bs "ping"]]; EvWrite (bs "+PONG" ++ CRLF) None]
      ++ [EvConnClose; EvClosed (Some io_ErrUnexpectedEOF)].
Proof.
  exact (C9_end_of_stream sample_grow sample_cfg sample_server 1 sample_conn cut_world
           (fst (second_round sample_cfg cut_world))
           (snd (second_round sample_cfg cut_world))
           (c_rd (fst (second_round sample_cfg cut_world)))
           sample_conn_reader_ok
           (second_round_rounds sample_cfg cut_world eq_refl)
           eq_refl eq_refl eq_refl eq_refl eq_refl).
Defined.

(** C7 does not hold as the specification states it: when the flush of [Close] fails, the
    sticky error is the error of the stream, not [closed], and later flushes
    return it. *)
Lemma C7_counterexample :
  let w0 := mkWriter (bs "+OK" ++ CRLF) 64 None in
  let wd := mkWorld [] [Some 7] false [] in
  let w1 := snd (fst (writer_Close w0 wd)) in
  wr_err w0 = None /\
  wr_err w1 = Some (errNet 7) /\ wr_err w1 <> Some errClosed /\
  fst (fst (Flush w1 (snd (writer_Close w0 wd)))) = Some (errNet 7).
Proof.
  cbn. repeat split; discriminate.
Qed.

Lemma C7_sticky_error_witness :
  let w := mkWriter [] 64 (Some (errNet 7)) in
  let w0 := mkWriter (bs "+OK" ++ CRLF) 64 None in
  let c := mkConn w (mkReader (repeat x00 8) 0 0) [] None false in
  let wd := mkWorld [] [] false [] in
  (wr_err w = Some (errNet 7) /\ wr_err w0 = None /\ c_wr c = w) /\
  do_write sample_grow w (CallWriteString (bs "OK")) = (Some (errNet 7), w) /\
  fst (fst (conn_Close c wd)) = Some (errNet 7) /\
  wr_err (snd (fst (writer_Close w0 wd))) = Some errClosed.
Proof.
  intros w w0 c wd.
  split; [repeat split|].
  destruct (C7_sticky_error sample_grow w (errNet 7) w0 (CallWriteString (bs "OK")) c wd
              eq_refl eq_refl eq_refl) as (H1 & _ & _ & _ & H5 & H6).
  split; [exact H1|]. split; [exact H5|].
  exact (f_equal (fun x => wr_err (snd (fst x)))
           (proj1 (H6 : writer_Close w0 wd =
                        (None, mkWriter [] 64 (Some errClosed), snd (Flush w0 wd)) /\
                        forall wd2, Flush (mkWriter [] 64 (Some errClosed)) wd2 =
                                    (Some errClosed, mkWriter [] 64 (Some errClosed), wd2)))).
Defined.

Lemma C2_writer_output_witness :
  let calls := [CallWriteString (bs "OK"); CallWriteBulk (bs "v"); CallWriteInt (-12);
                CallWriteNull; CallWriteArrayStart 2; CallWriteError (bs "ERR x");
                CallWriteBulkBytes []] in
  let wd := mkWorld [] [] false [] in
  Flush (write_calls sample_grow (mkWriter [] 512 None) calls) wd =
    (None,
     mkWriter [] (wr_cap (write_calls sample_grow (mkWriter [] 512 None) calls)) None,
     mkWorld [] [] false
       [EvWrite (bs "+OK" ++ CRLF ++ bs "$1" ++ CRLF ++ bs "v" ++ CRLF ++ bs ":-12" ++ CRLF
                 ++ bs "$-1" ++ CRLF ++ bs "*2" ++ CRLF ++ bs "-ERR x" ++ CRLF
                 ++ bs "$0" ++ CRLF ++ CRLF) None]).
Proof.
  intros calls wd.
  destruct (C2_writer_output sample_grow 512 calls wd) as (_ & _ & _ & H).
  exact (proj2 (H ltac:(discriminate) None _ eq_refl)).
Defined.

(** What the deferred function leaves in the pools respects both bounds. *)
Lemma handle_deferred_pool_bounds cfg s id c wd err :
  let s' := fst (handle_deferred cfg s id c wd err) in
  (length (s_rdpool s) <= defaultPoolSize ->
   length (s_rdpool s') <= defaultPoolSize) /\
  (length (s_wrpool s) <= defaultPoolSize ->
   length (s_wrpool s') <= defaultPoolSize) /\
  (Forall (fun b => length b <= defaultBufLen) (s_rdpool s) ->
   Forall (fun b => length b <= defaultBufLen) (s_rdpool s')) /\
  (Forall (fun b => snd b <= defaultBufLen) (s_wrpool s) ->
   Forall (fun b => snd b <= defaultBufLen) (s_wrpool s')).
Proof.
  cbv zeta. unfold handle_deferred.
  destruct (is_hijacked err); cbn [fst s_rdpool s_wrpool]; [tauto|].
  destruct (Nat.ltb_spec (length (s_rdpool s)) defaultPoolSize) as [R1|R1];
    destruct (Nat.ltb_spec (length (rd_buf (c_rd c))) defaultBufLen) as [R2|R2];
    destruct (Nat.ltb_spec (length (s_wrpool s)) defaultPoolSize) as [W1|W1];
    destruct (Nat.ltb_spec (wr_cap (c_wr c)) defaultBufLen) as [W2|W2];
    cbn [andb fst s_rdpool s_wrpool];
    repeat split; intros H; rewrite ?length_app; cbn [length]; try lia;
    try exact H;
    apply Forall_app; (split; [exact H|]); constructor; cbn [snd];
    try lia; constructor.
Qed.

(** A read buffer is never shorter than the default length once it has that
    length, so the deferred function never puts one in the pool. *)
Lemma handle_deferred_read_pool cfg s id c wd err :
  defaultBufLen <= length (rd_buf (c_rd c)) ->
  s_rdpool (fst (handle_deferred cfg s id c wd err)) = s_rdpool s.
Proof.
  intros H. unfold handle_deferred.
  destruct (is_hijacked err); cbn [fst s_rdpool]; [reflexivity|].
  destruct (Nat.ltb_spec (length (rd_buf (c_rd c))) defaultBufLen); [lia|].
  rewrite andb_false_r. reflexivity.
Qed.

(** C6 (a defect of the code).  A connection whose read buffer has the
    default length and whose write buffer has the default capacity, so
    neither is above 4096, closes while both pools are empty: neither buffer
    goes back to its pool, because the tests of [handle] are strict. *)
Theorem C6_default_buffers_not_pooled cfg wd :
  let c := mkConn (mkWriter [] defaultBufLen None)
                  (mkReader (repeat x00 defaultBufLen) 0 0) [] None false in
  length (rd_buf (c_rd c)) <= defaultBufLen /\
  wr_cap (c_wr c) <= defaultBufLen /\
  fst (handle_deferred cfg (mkServer [1] [] []) 1 c wd (Some io_EOF)) =
    mkServer [] [] [].
Proof.
  cbv zeta. split; [vm_compute; repeat constructor|]. split; [apply le_n|].
  unfold handle_deferred. cbn [is_hijacked s_rdpool s_wrpool s_conns fst length
                               c_rd c_wr rd_buf wr_cap].
  rewrite repeat_length. rewrite Nat.ltb_irrefl, andb_false_r.
  destruct (closed cfg); reflexivity.
Qed.

(* ================================================================== *)
(** * Further properties of the parser, the reader and the engine *)

(* ------------------------------------------------------------------ *)
(** ** [parseInt]: what it accepts and the number it returns *)

Lemma int_wrap_add_l a b : int_wrap (int_wrap a + b) = int_wrap (a + b).
Proof.
  unfold int_wrap. f_equal.
  replace ((a + 2 ^ 63) mod 2 ^ 64 - 2 ^ 63 + b + 2 ^ 63)%Z
    with ((a + 2 ^ 63) mod 2 ^ 64 + b)%Z by ring.
  rewrite Zplus_mod_idemp_l. f_equal. ring.
Qed.

Lemma int_wrap_mul_l a b : int_wrap (int_wrap a * b) = int_wrap (a * b).
Proof.
  unfold int_wrap. f_equal.
  pose proof (Z.div_mod (a + 2 ^ 63) (2 ^ 64) ltac:(lia)) as H.
  set (q := ((a + 2 ^ 63) / 2 ^ 64)%Z) in *.
  set (m := ((a + 2 ^ 63) mod 2 ^ 64)%Z) in *.
  replace ((m - 2 ^ 63) * b + 2 ^ 63)%Z
    with (a * b + 2 ^ 63 + (- (q * b)) * 2 ^ 64)%Z by lia.
  apply Z_mod_plus_full.
Qed.

Lemma parseInt_loop_digits : forall b n m,
  n = int_wrap m -> forallb is_digit b = true ->
  parseInt_loop b n =
    Ok (int_wrap (fold_left (fun n c => (10 * n + digit_val c)%Z) b m)).
Proof.
  induction b as [|c b IH]; intros n m Hn Hd; cbn [parseInt_loop fold_left].
  - now subst.
  - cbn [forallb] in Hd. apply andb_true_iff in Hd as [Hc Hb]. rewrite Hc.
    apply IH; [|exact Hb]. subst n. unfold int_add, int_mul.
    rewrite int_wrap_mul_l, int_wrap_add_l. f_equal. ring.
Qed.

Lemma parseInt_loop_not_digits : forall b n,
  forallb is_digit b = false -> parseInt_loop b n = Err errInvalidNumber.
Proof.
  induction b as [|c b IH]; intros n Hd; [discriminate|].
  cbn [forallb] in Hd. cbn [parseInt_loop].
  destruct (is_digit c); [apply IH; exact Hd|reflexivity].
Qed.

Lemma parseInt_value b :
  parseInt b =
    if forallb is_digit b then Ok (int_wrap (digits_value b))
    else Err errInvalidNumber.
Proof.
  rewrite parseInt_is_loop.
  destruct (forallb is_digit b) eqn:Hd.
  - apply parseInt_loop_digits; [reflexivity|exact Hd].
  - apply parseInt_loop_not_digits. exact Hd.
Qed.

(** X1.  [parseInt] accepts exactly the strings made of decimal digits, the
    empty one included, and returns the number they denote reduced to a
    64-bit [int]: an overflow is not an error, the value wraps around.  Any
    other byte gives "invalid number". *)
Theorem parseInt_digits_value b :
  parseInt b =
    if forallb is_digit b then Ok (int_wrap (digits_value b))
    else Err errInvalidNumber.
Proof.
  destruct b as [|c0 [|c1 [|c2 b]]]; try reflexivity.
  - cbn [parseInt forallb andb].
    destruct (is_digit c0) eqn:H0; cbn [andb];
      [|cbn [parseInt_loop]; rewrite H0; reflexivity].
    unfold digits_value. cbn [fold_left]. rewrite int_wrap_small; [reflexivity|].
    pose proof (digit_val_range c0 H0). lia.
  - cbn [parseInt forallb andb].
    destruct (is_digit c0) eqn:H0; destruct (is_digit c1) eqn:H1; cbn [andb];
      try (cbn [parseInt_loop]; rewrite H0, ?H1; reflexivity).
    unfold digits_value, int_add, int_mul. cbn [fold_left].
    rewrite int_wrap_add_l. f_equal. f_equal. ring.
  - cbn [parseInt].
    destruct (forallb is_digit (c0 :: c1 :: c2 :: b)) eqn:Hd.
    + apply parseInt_loop_digits; [reflexivity|exact Hd].
    + apply parseInt_loop_not_digits. exact Hd.
Qed.

Lemma FormatInt_neg z : (z < 0)%Z -> exists d, FormatInt z = "-"%byte :: d.
Proof.
  intros H. unfold FormatInt. destruct (Z.ltb_spec z 0); [eauto|lia].
Qed.

(** X2.  What [strconv.FormatInt] writes for a number of the [int] range,
    [parseInt] reads back as the same number when it is not negative; the
    sign of a negative number is refused as "invalid number". *)
Theorem parseInt_FormatInt_roundtrip z :
  (z < 2 ^ 63)%Z ->
  parseInt (FormatInt z) = if (z <? 0)%Z then Err errInvalidNumber else Ok z.
Proof.
  intros Hz. destruct (Z.ltb_spec z 0) as [Hneg|Hpos].
  - destruct (FormatInt_neg z Hneg) as [d Hd]. rewrite Hd, parseInt_is_loop.
    reflexivity.
  - apply parseInt_FormatInt. lia.
Qed.

Lemma parseInt_FormatInt_roundtrip_witness :
  (1234567 < 2 ^ 63)%Z /\ parseInt (FormatInt 1234567) = Ok 1234567%Z /\
  ((-5) < 2 ^ 63)%Z /\ parseInt (FormatInt (-5)) = Err errInvalidNumber.
Proof.
  split; [reflexivity|]. split.
  - exact (parseInt_FormatInt_roundtrip 1234567 eq_refl).
  - split; [reflexivity|]. exact (parseInt_FormatInt_roundtrip (-5) eq_refl).
Defined.

(* ------------------------------------------------------------------ *)
(** ** The shape of what the parser returns *)

Lemma slice_from_skipn b lo b' :
  slice_from b lo = Ok b' -> b' = skipn lo b /\ lo <= length b.
Proof.
  unfold slice_from. destruct (Nat.leb_spec lo (length b)) as [Hle|Hgt];
    [|discriminate].
  intros H; inversion H. split; [reflexivity|assumption].
Qed.

Lemma resp_loop_shape : forall fuel b si i cmds cmds' b',
  resp_loop fuel b si i cmds = Ok (Some (cmds', b')) ->
  exists args k, cmds' = cmds ++ [args] /\ args <> [] /\
                 b' = skipn k b /\ 0 < k <= length b.
Proof.
  induction fuel as [|fuel IH]; intros b si i cmds cmds' b' H; cbn [resp_loop] in H.
  - destruct (i <? length b); discriminate.
  - destruct (i <? length b); [|discriminate].
    bind_case H. destruct (Byte.eqb a LF); [|eapply IH; eassumption].
    bind_case H. destruct (negb (Byte.eqb a0 CR)); [discriminate|].
    bind_case H. destruct (parseInt a1) as [ni| | |]; try discriminate.
    destruct (Z.leb_spec ni 0) as [|Hni]; [discriminate|].
    destruct (negb (makeslice_ok ni)); [discriminate H|].
    bind_case H. destruct a2 as [[[si' i'] args]|]; [|discriminate].
    destruct (Z.eqb_spec (Z.of_nat (length args)) ni) as [Hl|];
      [|eapply IH; eassumption].
    bind_case H. inversion H; subst cmds' b'.
    apply slice_from_skipn in E3 as [-> Hk].
    exists args, (i' + 1). repeat split; try lia.
    intros ->. cbn in Hl. lia.
Qed.

Lemma inline_scan_shape : forall rest b i cmds cmds' b',
  inline_scan b rest i cmds = Ok (Some (cmds', b')) ->
  (cmds' = cmds \/ exists args, args <> [] /\ cmds' = cmds ++ [args]) /\
  exists k, b' = skipn k b /\ 0 < k <= length b.
Proof.
  induction rest as [|c rest IH]; intros b i cmds cmds' b' H; cbn [inline_scan] in H;
    [discriminate|].
  destruct (Byte.eqb c LF); [|eapply IH; eassumption].
  bind_case H. bind_case H. bind_case H. inversion H; subst cmds' b'.
  apply slice_from_skipn in E1 as [-> Hk]. split.
  - destruct a0 as [|x a0]; cbn [length Nat.ltb Nat.leb]; [now left|].
    right. exists (x :: a0). split; [discriminate|reflexivity].
  - exists (i + 1). split; [reflexivity|lia].
Qed.

Lemma skipn_skipn_add {A} (l : list A) a b : skipn a (skipn b l) = skipn (b + a) l.
Proof.
  revert l. induction b as [|b IH]; intros l; [reflexivity|].
  destruct l; [now rewrite !skipn_nil|]. cbn [skipn Nat.add]. apply IH.
Qed.

Lemma parse_next_shape : forall fuel b cmds cmds' b',
  parse_next fuel b cmds = Ok (cmds', b') ->
  exists new k, cmds' = cmds ++ new /\ Forall (fun args => args <> []) new /\
                b' = skipn k b /\ k <= length b /\ (new <> [] -> 0 < k).
Proof.
  induction fuel as [|fuel IH]; intros b cmds cmds' b' H; [discriminate|].
  cbn [parse_next] in H. bind_case H. bind_case H.
  destruct a0 as [[cmds1 b1]|].
  - assert (Hstep : exists new k, cmds1 = cmds ++ new /\
                      Forall (fun args => args <> []) new /\
                      b1 = skipn k b /\ 0 < k <= length b).
    { destruct (Byte.eqb a "*").
      - apply resp_loop_shape in E0 as (args & k & -> & Ha & -> & Hk).
        exists [args], k. repeat split; try lia. constructor; [exact Ha|constructor].
      - apply inline_scan_shape in E0 as ([->|(args & Ha & ->)] & k & -> & Hk).
        + exists [], k. rewrite app_nil_r. repeat split; try lia. constructor.
        + exists [args], k. repeat split; try lia.
          constructor; [exact Ha|constructor]. }
    destruct Hstep as (new & k & -> & Hnew & -> & Hk).
    destruct (0 <? length (skipn k b)).
    + apply IH in H as (new2 & k2 & -> & Hnew2 & -> & Hk2 & Hpos).
      exists (new ++ new2), (k + k2). rewrite app_assoc, skipn_skipn_add.
      rewrite length_skipn in Hk2.
      repeat split; try lia. apply Forall_app. split; assumption.
    + inversion H; subst. exists new, k. repeat split; try lia. assumption.
  - inversion H; subst. exists [], 0. rewrite app_nil_r. repeat split; try lia.
    + constructor.
    + congruence.
Qed.

(** X4.  What the parser leaves unconsumed is an end of the bytes it was
    given: it drops nothing it has not parsed and invents nothing.  Whenever
    it returns a command it has consumed at least one byte. *)
Theorem parse_leaves_suffix b cmds b' :
  parse b = Ok (cmds, b') ->
  exists pre, b = pre ++ b' /\ (cmds <> [] -> pre <> []).
Proof.
  intros H. apply parse_next_shape in H as (new & k & Hc & _ & -> & Hk & Hpos).
  cbn [app] in Hc. subst new. exists (firstn k b). split.
  - symmetry. apply firstn_skipn.
  - intros Hne He. specialize (Hpos Hne).
    apply (f_equal (@List.length byte)) in He. rewrite length_firstn in He.
    cbn [length] in He. lia.
Qed.

Lemma parse_leaves_suffix_witness :
  parse (bs "get k" ++ CRLF ++ bs "*1" ++ CRLF ++ bs "$4") =
    Ok ([[bs "get"; bs "k"]], bs "*1" ++ CRLF ++ bs "$4") /\
  exists pre, bs "get k" ++ CRLF ++ bs "*1" ++ CRLF ++ bs "$4" =
                pre ++ bs "*1" ++ CRLF ++ bs "$4" /\
              ([[bs "get"; bs "k"]] <> [] -> pre <> []).
Proof.
  split; [reflexivity|].
  exact (parse_leaves_suffix (bs "get k" ++ CRLF ++ bs "*1" ++ CRLF ++ bs "$4")
           [[bs "get"; bs "k"]] (bs "*1" ++ CRLF ++ bs "$4") eq_refl).
Defined.

Lemma parse_buffered_shape r cmds r1 :
  parse_buffered r = Ok (cmds, r1) -> Forall (fun args => args <> []) cmds.
Proof.
  unfold parse_buffered. destruct (rd_start r <? rd_end r).
  - intros H. bind_case H. bind_case H. destruct a0 as [cs b'].
    inversion H; subst.
    apply parse_next_shape in E0 as (new & k & Hc & Hnew & _). cbn [app] in Hc.
    now subst.
  - intros H; inversion H. constructor.
Qed.

(** X3.  A batch that [ReadCommands] returns without error holds at least
    one command, and every command in it has at least one argument: blank
    inline lines give no command, and a RESP command is returned only with
    all of its (at least one) arguments. *)
Theorem ReadCommands_batch_nonempty : forall fuel r w cmds r' w',
  ReadCommands fuel r w = (Ok cmds, r', w') ->
  cmds <> [] /\ Forall (fun args => args <> []) cmds.
Proof.
  induction fuel as [|fuel IH]; intros r w cmds r' w' H; [discriminate H|].
  cbn [ReadCommands] in H.
  destruct (parse_buffered r) as [[cs r1]| | |] eqn:E; try discriminate H.
  destruct cs as [|c cs].
  - change (0 <? length (@nil (list bytes))) with false in H. cbv iota zeta in H.
    destruct (length (rd_buf (grow r1)) <? rd_end (grow r1)); [discriminate H|].
    destruct (stream_read w _) as [[d|e] w1].
    + eapply IH; eassumption.
    + destruct e; try destruct (0 <? rd_end (grow r1)); discriminate H.
  - change (0 <? length (c :: cs)) with true in H. cbv iota in H.
    inversion H; subst. split; [discriminate|].
    eapply parse_buffered_shape; eassumption.
Qed.

Lemma ReadCommands_batch_nonempty_witness :
  let w := mkWorld [RData (CRLF ++ bs "  " ++ CRLF ++ bs "ping" ++ CRLF)] [] false [] in
  let r := newReader (repeat x00 16) in
  fst (fst (ReadCommands 5 r w)) = Ok [[bs "ping"]] /\
  [[bs "ping"]] <> [] /\
  Forall (fun args : list bytes => args <> []) [[bs "ping"]].
Proof.
  cbv zeta. split; [reflexivity|].
  exact (ReadCommands_batch_nonempty 5 (newReader (repeat x00 16))
           (mkWorld [RData (CRLF ++ bs "  " ++ CRLF ++ bs "ping" ++ CRLF)] [] false [])
           [[bs "ping"]] _ _ eq_refl).
Defined.

(* ------------------------------------------------------------------ *)
(** ** Index safety of the parser *)

Lemma digit_run_app run post :
  forallb is_digit run = true -> length run <= digit_run (run ++ post).
Proof.
  induction run as [|c run IH]; intros H; cbn [length app digit_run]; [lia|].
  cbn [forallb] in H. apply andb_true_iff in H as [Hc Hr]. rewrite Hc.
  specialize (IH Hr). lia.
Qed.

Lemma longest_digit_run_sub : forall pre run post,
  forallb is_digit run = true ->
  length run <= longest_digit_run (pre ++ run ++ post).
Proof.
  induction pre as [|c pre IH]; intros run post H.
  - cbn [app]. pose proof (digit_run_app run post H) as Hr.
    destruct run as [|c run]; [cbn [length]; lia|].
    cbn [app longest_digit_run] in *. lia.
  - cbn [app longest_digit_run]. specialize (IH run post H). lia.
Qed.

Lemma longest_digit_run_skipn : forall k b,
  longest_digit_run (skipn k b) <= longest_digit_run b.
Proof.
  induction k as [|k IH]; intros b; [cbn [skipn]; lia|].
  destruct b as [|c b]; [cbn; lia|]. cbn [skipn longest_digit_run].
  specialize (IH b). lia.
Qed.

Lemma fold_digits_bound : forall h m,
  forallb is_digit h = true -> (0 <= m)%Z ->
  (0 <= fold_left (fun n c => 10 * n + digit_val c) h m
   < (m + 1) * 10 ^ Z.of_nat (length h))%Z.
Proof.
  induction h as [|c h IH]; intros m Hd Hm; cbn [fold_left length].
  - change (10 ^ Z.of_nat 0)%Z with 1%Z. lia.
  - cbn [forallb] in Hd. apply andb_true_iff in Hd as [Hc Hh].
    pose proof (digit_val_range c Hc) as Hv.
    specialize (IH (10 * m + digit_val c)%Z Hh ltac:(lia)).
    rewrite Nat2Z.inj_succ, Z.pow_succ_r by lia.
    assert (Hp : (0 < 10 ^ Z.of_nat (length h))%Z) by (apply Z.pow_pos_nonneg; lia).
    nia.
Qed.

Lemma digits_value_bound h :
  forallb is_digit h = true ->
  (0 <= digits_value h < 10 ^ Z.of_nat (length h))%Z.
Proof.
  intros H. pose proof (fold_digits_bound h 0 H ltac:(lia)) as Hb.
  unfold digits_value. lia.
Qed.

Lemma slice_sub b lo hi h :
  slice b lo hi = Ok h -> exists pre post, b = pre ++ h ++ post.
Proof.
  unfold slice. destruct (_ && _); [|discriminate]. intros H; inversion H.
  exists (firstn lo b), (skipn (hi - lo) (skipn lo b)).
  now rewrite firstn_skipn, firstn_skipn.
Qed.

(** A length header cut from a buffer whose runs of digits are shorter than
    8 is read as a number below ten million: the sums of the parser do not
    wrap, and [make] accepts it as a capacity (a slice of at most 240
    MB). *)
Lemma short_header b lo hi h n :
  longest_digit_run b < 8 -> slice b lo hi = Ok h -> parseInt h = Ok n ->
  (0 <= n < 10 ^ 7)%Z.
Proof.
  intros Hrun Hs Hp. rewrite parseInt_value in Hp.
  destruct (forallb is_digit h) eqn:Hd; [|discriminate].
  inversion Hp; subst n. clear Hp.
  apply slice_sub in Hs as (pre & post & ->).
  pose proof (longest_digit_run_sub pre h post Hd) as Hl.
  pose proof (digits_value_bound h Hd) as Hv.
  assert (Hpow : (10 ^ Z.of_nat (length h) <= 10 ^ 7)%Z)
    by (apply Z.pow_le_mono_r; lia).
  rewrite int_wrap_small; lia.
Qed.

Lemma byte_at_in_range b i :
  i < length b -> exists c, byte_at b i = Ok c /\ nth_error b i = Some c.
Proof.
  intros H. unfold byte_at. destruct (nth_error b i) as [c|] eqn:E; [eauto|].
  apply nth_error_None in E. lia.
Qed.

Lemma slice_in_range b lo hi :
  lo <= hi -> hi <= length b -> exists h, slice b lo hi = Ok h.
Proof.
  intros H1 H2. unfold slice.
  destruct (Nat.leb_spec lo hi); [|lia].
  destruct (Nat.leb_spec hi (length b)); [|lia]. cbn [andb]. eauto.
Qed.

Lemma skipn_cons_nth {A} (b : list A) i c rest :
  c :: rest = skipn i b ->
  nth_error b i = Some c /\ i < length b /\ rest = skipn (S i) b.
Proof.
  revert b. induction i as [|i IH]; intros b H.
  - cbn [skipn] in H. subst b. cbn. repeat split. lia.
  - destruct b as [|x b]; [discriminate|]. cbn [skipn] in H.
    apply IH in H as (H1 & H2 & H3). cbn [nth_error length]. repeat split;
      [assumption|lia|assumption].
Qed.

Lemma inline_outer_no_panic : forall fuel line args q e,
  inline_outer fuel line args q e <> Panic.
Proof.
  induction fuel as [|fuel IH]; intros line args q e; cbn [inline_outer];
    [discriminate|].
  destruct (inline_inner line 0 [] args q e); [apply IH|discriminate|].
  destruct q; discriminate.
Qed.

Section IndexSafety.

Variable b : bytes.
Hypothesis Hrun : longest_digit_run b < 8.
Hypothesis Hlen : (Z.of_nat (length b) < 2 ^ 62)%Z.

Lemma read_bulk_safe : forall rest si i,
  rest = skipn i b -> si <= i -> nth_error b si = Some "$"%byte ->
  match read_bulk b si rest i with
  | Panic => False
  | Ok (BArg i' _) => i' < length b
  | Ok (BEnd i') => length b <= i'
  | _ => True
  end.
Proof.
  induction rest as [|c rest IH]; intros si i Hrest Hsi Hd; cbn [read_bulk].
  - apply (f_equal (@List.length byte)) in Hrest. rewrite length_skipn in Hrest.
    cbn [length] in Hrest. lia.
  - apply skipn_cons_nth in Hrest as (Hc & Hi & Hrest).
    destruct (Byte.eqb c LF) eqn:Ec; [|apply IH; [assumption|lia|assumption]].
    apply Byte.byte_dec_bl in Ec. subst c.
    assert (Hne : si <> i) by (intros ->; rewrite Hc in Hd; discriminate).
    destruct (Nat.ltb_spec 0 i); [|lia].
    destruct (byte_at_in_range b (i - 1) ltac:(lia)) as (p & -> & Hp). cbn [bind].
    destruct (Byte.eqb p CR) eqn:Ep; cbn [negb]; [|exact I].
    apply Byte.byte_dec_bl in Ep. subst p.
    assert (Hne' : si <> i - 1) by (intros ->; rewrite Hp in Hd; discriminate).
    destruct (slice_in_range b (si + 1) (i - 1) ltac:(lia) ltac:(lia)) as (h & Hh).
    rewrite Hh. cbn [bind].
    destruct (parseInt_result h) as [[n Hn]|Hn]; rewrite Hn; [|exact I].
    pose proof (short_header b _ _ h n Hrun Hh Hn) as Hb.
    destruct (Z.ltb_spec n 0); [lia|].
    unfold int_add.
    rewrite (int_wrap_small (Z.of_nat i + n)) by lia.
    rewrite (int_wrap_small (Z.of_nat i + n + 2)) by lia.
    rewrite (int_wrap_small (Z.of_nat i + n + 1)) by lia.
    destruct (Z.leb_spec (Z.of_nat (length b)) (Z.of_nat i + n + 2)); [exact I|].
    unfold byte_atZ.
    destruct (Z.ltb_spec (Z.of_nat i + n + 2) 0); [lia|].
    destruct (Z.ltb_spec (Z.of_nat i + n + 1) 0); [lia|].
    destruct (byte_at_in_range b (Z.to_nat (Z.of_nat i + n + 2)) ltac:(lia))
      as (c2 & -> & _). cbn [bind].
    destruct (negb (Byte.eqb c2 LF)); [exact I|].
    destruct (byte_at_in_range b (Z.to_nat (Z.of_nat i + n + 1)) ltac:(lia))
      as (c1 & -> & _). cbn [bind].
    destruct (negb (Byte.eqb c1 CR)); [exact I|].
    destruct (slice_in_range b (S i) (S i + Z.to_nat n) ltac:(lia) ltac:(lia))
      as (arg & ->). cbn [bind]. lia.
Qed.

Lemma read_args_safe : forall n si i args,
  match read_args n b si i args with
  | Panic => False
  | Ok (Some (_, i', args')) =>
      (length args' = length args + n /\ (0 < n -> i' < length b)) \/
      (length args' < length args + n /\ length b <= i')
  | _ => True
  end.
Proof.
  induction n as [|n IH]; intros si i args; cbn [read_args].
  - left. split; lia.
  - destruct (Nat.ltb_spec (S i) (length b)) as [Hi|Hi].
    + destruct (byte_at_in_range b (S i) Hi) as (c & -> & Hc). cbn [bind].
      destruct (Byte.eqb c "$") eqn:Ec; cbn [negb]; [|exact I].
      apply Byte.byte_dec_bl in Ec. subst c.
      pose proof (read_bulk_safe (skipn (S i) b) (S i) (S i) eq_refl (le_n _) Hc)
        as Hb.
      destruct (read_bulk b (S i) (skipn (S i) b) (S i)) as [[i2 arg| |i2]| | |];
        cbn [bind]; try exact I; try contradiction.
      * destruct n as [|n'].
        { cbn [read_args]. left. rewrite length_app. cbn [length]. split; lia. }
        specialize (IH (S i) i2 (args ++ [arg])).
        destruct (read_args (S n') b (S i) i2 (args ++ [arg]))
          as [[[[si' i'] args']|]| | |]; try exact I; try contradiction.
        rewrite length_app in IH. cbn [length] in IH.
        destruct IH as [[H1 H2]|[H1 H2]]; [left|right]; split; lia.
      * rewrite read_args_skip_all by lia. right. split; lia.
    + rewrite read_args_skip_all by lia. right. split; lia.
Qed.

Lemma resp_loop_safe : forall fuel si i cmds,
  length b <= i \/
  (si <= i /\ (nth_error b si = Some "*"%byte \/ nth_error b si = Some "$"%byte)) ->
  resp_loop fuel b si i cmds <> Panic.
Proof.
  induction fuel as [|fuel IH]; intros si i cmds Hinv; cbn [resp_loop].
  - destruct (i <? length b); discriminate.
  - destruct (Nat.ltb_spec i (length b)) as [Hi|Hi]; [|discriminate].
    destruct Hinv as [Hinv|[Hsi Hhd]]; [lia|].
    destruct (byte_at_in_range b i Hi) as (c & -> & Hc). cbn [bind].
    destruct (Byte.eqb c LF) eqn:Ec;
      [|apply IH; right; split; [lia|exact Hhd]].
    apply Byte.byte_dec_bl in Ec. subst c.
    assert (Hne : si <> i)
      by (intros ->; rewrite Hc in Hhd; destruct Hhd; discriminate).
    destruct (Nat.ltb_spec 0 i); [|lia].
    destruct (byte_at_in_range b (i - 1) ltac:(lia)) as (p & -> & Hp). cbn [bind].
    destruct (Byte.eqb p CR) eqn:Ep; cbn [negb]; [|discriminate].
    apply Byte.byte_dec_bl in Ep. subst p.
    assert (Hne' : si <> i - 1)
      by (intros ->; rewrite Hp in Hhd; destruct Hhd; discriminate).
    destruct (slice_in_range b (si + 1) (i - 1) ltac:(lia) ltac:(lia)) as (h & Hsl).
    rewrite Hsl. cbn [bind].
    destruct (parseInt_result h) as [[n Hn]|Hn]; rewrite Hn; [|discriminate].
    destruct (Z.leb_spec n 0) as [|Hpos]; [discriminate|].
    assert (Hms : makeslice_ok n = true).
    { pose proof (short_header b _ _ h n Hrun Hsl Hn) as Hsh.
      unfold makeslice_ok, sliceHeaderSize, maxAlloc. apply Z.leb_le. lia. }
    rewrite Hms. cbn [negb].
    pose proof (read_args_safe (Z.to_nat n) si i []) as Ha.
    destruct (read_args (Z.to_nat n) b si i []) as [[[[si' i'] args]|]| | |];
      cbn [bind]; try discriminate; try contradiction.
    cbn [length] in Ha.
    destruct (Z.eqb_spec (Z.of_nat (length args)) n) as [Heq|Hneq].
    + destruct Ha as [[_ Hi']|[Hlt _]]; [|lia].
      unfold slice_from. destruct (Nat.leb_spec (i' + 1) (length b)); [discriminate|].
      specialize (Hi' ltac:(lia)). lia.
    + apply IH. left. destruct Ha as [[Hl _]|[_ Hge]]; lia.
Qed.

End IndexSafety.

Lemma inline_scan_safe b : forall rest i cmds,
  rest = skipn i b -> inline_scan b rest i cmds <> Panic.
Proof.
  induction rest as [|c rest IH]; intros i cmds Hrest; cbn [inline_scan];
    [discriminate|].
  apply skipn_cons_nth in Hrest as (Hc & Hi & Hrest).
  destruct (Byte.eqb c LF); [|apply IH; exact Hrest].
  assert (Hline : exists line,
            (if 0 <? i
             then p <- byte_at b (i - 1) ;;
                  if Byte.eqb p CR then slice b 0 (i - 1) else slice b 0 i
             else slice b 0 i) = Ok line).
  { destruct (slice_in_range b 0 i ltac:(lia) ltac:(lia)) as (l1 & H1).
    destruct (Nat.ltb_spec 0 i); [|eauto].
    destruct (byte_at_in_range b (i - 1) ltac:(lia)) as (p & -> & _). cbn [bind].
    destruct (Byte.eqb p CR); [|eauto].
    apply slice_in_range; lia. }
  destruct Hline as (line & ->). cbn [bind]. unfold inline_args.
  pose proof (inline_outer_no_panic (S (length line)) line [] false false) as Ho.
  destruct (inline_outer (S (length line)) line [] false false); cbn [bind];
    try discriminate; [|congruence].
  unfold slice_from. destruct (Nat.leb_spec (i + 1) (length b)); [discriminate|lia].
Qed.

Lemma parse_next_safe : forall fuel b cmds,
  b <> [] -> longest_digit_run b < 8 -> (Z.of_nat (length b) < 2 ^ 62)%Z ->
  parse_next fuel b cmds <> Panic.
Proof.
  induction fuel as [|fuel IH]; intros b cmds Hne Hrun Hlen; cbn [parse_next];
    [discriminate|].
  destruct b as [|c0 b0] eqn:Hb; [congruence|]. rewrite <- Hb in *.
  assert (H0 : byte_at b 0 = Ok c0) by (subst b; reflexivity).
  rewrite H0. cbn [bind].
  assert (Hsuffix : forall k, 0 < length (skipn k b) ->
            skipn k b <> [] /\ longest_digit_run (skipn k b) < 8 /\
            (Z.of_nat (length (skipn k b)) < 2 ^ 62)%Z).
  { intros k Hk. pose proof (longest_digit_run_skipn k b) as Hl.
    split; [intros E; rewrite E in Hk; cbn in Hk; lia|].
    rewrite length_skipn in *. lia. }
  destruct (Byte.eqb c0 "*") eqn:Ec.
  - apply Byte.byte_dec_bl in Ec. subst c0.
    pose proof (resp_loop_safe b Hrun Hlen (length b) 0 0 cmds) as Hs.
    destruct (resp_loop (length b) b 0 0 cmds) as [[[cmds' b']|]| | |] eqn:Er;
      cbn [bind]; try discriminate.
    + apply resp_loop_shape in Er as (args & k & _ & _ & -> & _).
      destruct (Nat.ltb_spec 0 (length (skipn k b))) as [Hk|]; [|discriminate].
      destruct (Hsuffix k Hk) as (S1 & S2 & S3). apply IH; assumption.
    + exfalso. apply Hs; [|reflexivity]. right. split; [lia|]. left.
      subst b. reflexivity.
  - pose proof (inline_scan_safe b b 0 cmds eq_refl) as Hs.
    destruct (inline_scan b b 0 cmds) as [[[cmds' b']|]| | |] eqn:Er;
      cbn [bind]; try discriminate; [|congruence].
    apply inline_scan_shape in Er as (_ & k & -> & _).
    destruct (Nat.ltb_spec 0 (length (skipn k b))) as [Hk|]; [|discriminate].
    destruct (Hsuffix k Hk) as (S1 & S2 & S3). apply IH; assumption.
Qed.

(** X6.  The parser stays within its bounds: on bytes that hold no run of
    8 or more consecutive digits (and fewer than [2^62] of them) no index
    or slice expression of the parser is ever out of range and no capacity
    passed to [make] is, whatever else the bytes are: the parser raises no
    run-time panic. *)
Theorem parse_index_safe b :
  longest_digit_run b < 8 -> (Z.of_nat (length b) < 2 ^ 62)%Z ->
  parse b <> Panic.
Proof.
  intros Hrun Hlen. unfold parse. destruct b as [|c b]; [discriminate|].
  apply parse_next_safe; [discriminate|assumption|assumption].
Qed.

Lemma parse_index_safe_witness :
  let b := bs "*2" ++ CRLF ++ bs "$9999999" ++ CRLF ++ bs "$x" ++ LF :: bs "*" in
  longest_digit_run b < 8 /\ (Z.of_nat (length b) < 2 ^ 62)%Z /\ parse b <> Panic.
Proof.
  cbv zeta.
  assert (H1 : longest_digit_run
                 (bs "*2" ++ CRLF ++ bs "$9999999" ++ CRLF ++ bs "$x"
                     ++ LF :: bs "*") < 8) by (vm_compute; lia).
  assert (H2 : (Z.of_nat (length
                 (bs "*2" ++ CRLF ++ bs "$9999999" ++ CRLF ++ bs "$x"
                     ++ LF :: bs "*")) < 2 ^ 62)%Z) by (vm_compute; reflexivity).
  split; [exact H1|]. split; [exact H2|].
  exact (parse_index_safe _ H1 H2).
Defined.

Lemma dec_digits_length : forall fuel n acc,
  length (dec_digits fuel n acc) <= S fuel + length acc.
Proof.
  induction fuel as [|fuel IH]; intros n acc; cbn [dec_digits length]; [lia|].
  destruct (n <? 10)%N; [cbn [length]; lia|].
  specialize (IH (n / 10)%N (digit_byte (n mod 10) :: acc)). cbn [length] in IH. lia.
Qed.

Lemma decimal_length n : (Z.of_N n < 2 ^ 63)%Z -> 1 <= length (decimal n) <= 63.
Proof.
  intros H. split.
  - pose proof (decimal_nonempty n). destruct (decimal n); [congruence|cbn; lia].
  - unfold decimal. pose proof (dec_digits_length (N.to_nat (N.log2 n)) n []) as Hl.
    cbn [length] in Hl.
    assert (N.log2 n < 63)%N.
    { destruct (N.eq_dec n 0) as [->|Hn]; [reflexivity|].
      apply N.log2_lt_pow2; [lia|]. change (2 ^ 63)%N with (Z.to_N (2 ^ 63)). lia. }
    lia.
Qed.

Lemma decimal_no_LF n : ~ In LF (decimal n).
Proof.
  intros H. pose proof (decimal_digits n) as Hd. rewrite Forall_forall in Hd.
  specialize (Hd LF H). discriminate.
Qed.

Lemma parseInt_decimal n : (Z.of_N n < 2 ^ 63)%Z -> parseInt (decimal n) = Ok (Z.of_N n).
Proof.
  intros H. rewrite parseInt_is_loop. apply parseInt_loop_decimal. exact H.
Qed.

(** The bulk loop at a header whose length, added to the index, exceeds the
    largest [int]: the sum wraps to a negative index. *)
Lemma read_bulk_overflow b pre h n rest' :
  ~ In LF h -> parseInt h = Ok n -> (0 <= n < 2 ^ 63)%Z ->
  b = pre ++ "$"%byte :: h ++ CR :: LF :: rest' ->
  (2 ^ 63 <= Z.of_nat (length pre + length h + 2) + n + 2)%Z ->
  (Z.of_nat (length pre + length h + 2) < 2 ^ 62)%Z ->
  read_bulk b (length pre) ("$"%byte :: h ++ CR :: LF :: rest') (length pre) = Panic.
Proof.
  intros Hnl Hp Hn Hb Hov Hi.
  replace ("$"%byte :: h ++ CR :: LF :: rest')
    with (("$"%byte :: h ++ [CR]) ++ LF :: rest') by assoc.
  rewrite read_bulk_skip by (apply not_in_header, Hnl).
  replace (length pre + length ("$"%byte :: h ++ [CR]))
    with (length pre + length h + 2) by len.
  set (i := length pre + length h + 2) in *.
  cbn [read_bulk]. change (Byte.eqb LF LF) with true. cbv iota.
  replace (0 <? i) with true by (symmetry; apply Nat.ltb_lt; unfold i; lia).
  rewrite (byte_at_split b (pre ++ "$"%byte :: h) CR (LF :: rest'))
    by (subst b i; first [assoc | len]).
  cbn [bind]. change (negb (Byte.eqb CR CR)) with false. cbv iota.
  rewrite (slice_split b (pre ++ ["$"%byte]) h (CR :: LF :: rest'))
    by (subst b i; first [assoc | len]).
  cbn [bind]. rewrite Hp.
  replace (n <? 0)%Z with false by (symmetry; apply Z.ltb_ge; lia).
  unfold int_add. rewrite int_wrap_add_l.
  assert (Hk : (int_wrap (Z.of_nat i + n + 2) = Z.of_nat i + n + 2 - 2 ^ 64)%Z).
  { unfold int_wrap.
    replace (Z.of_nat i + n + 2 + 2 ^ 63)%Z
      with ((Z.of_nat i + n + 2 - 2 ^ 63) + 1 * 2 ^ 64)%Z by lia.
    rewrite Z_mod_plus_full, Z.mod_small by lia. lia. }
  rewrite Hk.
  replace (Z.of_nat (length b) <=? Z.of_nat i + n + 2 - 2 ^ 64)%Z with false
    by (symmetry; apply Z.leb_gt; lia).
  unfold byte_atZ.
  replace (Z.of_nat i + n + 2 - 2 ^ 64 <? 0)%Z with true
    by (symmetry; apply Z.ltb_lt; lia).
  reflexivity.
Qed.

(** The switch on [b[0]] at a ['*']. *)
Lemma parse_resp b rest0 :
  b = "*"%byte :: rest0 ->
  parse b = (r <- resp_loop (length b) b 0 0 [] ;;
             match r with
             | None => Ok ([], b)
             | Some (cmds', b') =>
                 if 0 <? length b' then parse_next (length rest0) b' cmds'
                 else Ok (cmds', b')
             end).
Proof.
  intros Hb. unfold parse. rewrite Hb at 1. cbn [length parse_next].
  assert (H0 : byte_at b 0 = Ok "*"%byte) by (rewrite Hb; reflexivity).
  rewrite H0. cbn [bind]. change (Byte.eqb "*" "*") with true. cbv iota.
  reflexivity.
Qed.

(** The [outer2] loop at the header of the overflow. *)
Lemma resp_loop_huge_bulk n rest b cmds :
  (2 ^ 63 - 9 <= Z.of_N n < 2 ^ 63)%Z ->
  b = bs "*1" ++ CRLF ++ bs "$" ++ decimal n ++ CRLF ++ rest ->
  resp_loop (length b) b 0 0 cmds = Panic.
Proof.
  intros Hn Hb0.
  pose proof (decimal_length n ltac:(lia)) as Hdl.
  assert (Hb : b = "*"%byte :: ["1"%byte] ++ CR :: LF ::
                     ("$"%byte :: decimal n ++ CR :: LF :: rest))
    by (rewrite Hb0; reflexivity).
  assert (Hlen : length b = 5 + (length (decimal n) + (2 + length rest))).
  { rewrite Hb. cbn [length app]. rewrite length_app. cbn [length]. lia. }
  rewrite Hlen.
  rewrite (resp_loop_skip_eq b ["*"%byte; "1"%byte; CR] []
             (LF :: "$"%byte :: decimal n ++ CR :: LF :: rest)
             (S (S (length (decimal n) + (2 + length rest)))) _ 0 0 cmds)
    by (first [ exact Hb | cbn [length]; lia | reflexivity
              | intros [H|[H|[H|[]]]]; discriminate H ]).
  cbn [length Nat.add].
  assert (Hh : header_ok ["1"%byte] 1) by (split; [intros [H|[]]; discriminate H|reflexivity]).
  rewrite (resp_loop_at_LF _ b ["1"%byte] 1 _ cmds Hh ltac:(lia) Hb).
  cbn [length Nat.add read_args].
  replace (4 <? length b) with true by (symmetry; apply Nat.ltb_lt; lia).
  assert (H4 : byte_at b 4 = Ok "$"%byte) by (rewrite Hb; reflexivity).
  rewrite H4. cbn [bind]. change (negb (Byte.eqb "$" "$")) with false. cbv iota.
  assert (Hsk : skipn 4 b = "$"%byte :: decimal n ++ CR :: LF :: rest)
    by (rewrite Hb; reflexivity).
  rewrite Hsk.
  assert (Hov : read_bulk b (length ["*"%byte; "1"%byte; CR; LF])
                  ("$"%byte :: decimal n ++ CR :: LF :: rest)
                  (length ["*"%byte; "1"%byte; CR; LF]) = Panic).
  { apply (read_bulk_overflow b _ (decimal n) (Z.of_N n) rest).
    - apply decimal_no_LF.
    - apply parseInt_decimal. lia.
    - lia.
    - exact Hb.
    - cbn [length]. lia.
    - cbn [length]. lia. }
  cbn [length] in Hov. rewrite Hov. reflexivity.
Qed.

(** X5.  A bulk length within 9 of the largest [int] makes the parser index
    its buffer out of range: the test [i+ni2+2 >= len(b)] overflows, the sum
    is negative, and [b[i+ni2+2]] is evaluated.  Whatever follows the
    header, the result is a run-time panic, not "invalid bulk length". *)
Theorem parse_huge_bulk_length_panics n rest :
  (2 ^ 63 - 9 <= Z.of_N n < 2 ^ 63)%Z ->
  parse (bs "*1" ++ CRLF ++ bs "$" ++ decimal n ++ CRLF ++ rest) = Panic.
Proof.
  intros Hn.
  set (b := bs "*1" ++ CRLF ++ bs "$" ++ decimal n ++ CRLF ++ rest).
  rewrite (parse_resp b (bs "1" ++ CRLF ++ bs "$" ++ decimal n ++ CRLF ++ rest))
    by reflexivity.
  rewrite (resp_loop_huge_bulk n rest b [] Hn eq_refl).
  reflexivity.
Qed.

Lemma parse_huge_bulk_length_panics_witness :
  (2 ^ 63 - 9 <= Z.of_N 9223372036854775807 < 2 ^ 63)%Z /\
  parse (bs "*1" ++ CRLF ++ bs "$9223372036854775807" ++ CRLF ++ bs "x") = Panic.
Proof.
  assert (H : (2 ^ 63 - 9 <= Z.of_N 9223372036854775807 < 2 ^ 63)%Z)
    by (split; [vm_compute; discriminate|reflexivity]).
  split; [exact H|].
  exact (parse_huge_bulk_length_panics 9223372036854775807 (bs "x") H).
Defined.

(* ------------------------------------------------------------------ *)
(** ** RESP: what the parser rejects *)

(** X7.  In a buffer that starts with ['*'], the bytes up to the first line
    end must be a count of arguments: digits that [parseInt] reads as a
    number above zero, followed by ['\r'].  Anything else, a missing ['\r'],
    a sign, a letter, zero, no digit at all, is answered with "invalid
    multibulk length", whatever follows the line. *)
Theorem invalid_multibulk_length l post :
  ~ In LF l ->
  (forall h n, l = h ++ [CR] -> parseInt h = Ok n -> (n <= 0)%Z) ->
  parse ("*"%byte :: l ++ LF :: post) = Err errInvalidMultiBulkLength.
Proof.
  intros Hnl Hbad.
  set (b := "*"%byte :: l ++ LF :: post).
  rewrite (parse_resp b (l ++ LF :: post) eq_refl).
  assert (Hlen : length b = length ("*"%byte :: l) + S (length post))
    by (unfold b; len).
  rewrite Hlen.
  rewrite (resp_loop_skip_eq b ("*"%byte :: l) [] (LF :: post) (S (length post))
             _ 0 0 [])
    by (first [ reflexivity | intros [H|H]; [discriminate H|exact (Hnl H)] ]).
  cbn [Nat.add resp_loop].
  replace (length ("*"%byte :: l) <? length b) with true
    by (symmetry; apply Nat.ltb_lt; lia).
  rewrite (byte_at_split b ("*"%byte :: l) LF post) by reflexivity.
  cbn [bind]. change (Byte.eqb LF LF) with true. cbv iota.
  change (0 <? length ("*"%byte :: l)) with true. cbv iota.
  destruct l as [|c l'] using rev_ind.
  - reflexivity.
  - clear IHl'.
    rewrite (byte_at_split b ("*"%byte :: l') c (LF :: post))
      by (first [ unfold b; assoc | len ]).
    cbn [bind].
    destruct (Byte.eqb c CR) eqn:Ec; cbn [negb]; [|reflexivity].
    apply Byte.byte_dec_bl in Ec. subst c.
    rewrite (slice_split b ["*"%byte] l' (CR :: LF :: post))
      by (first [ unfold b; assoc | len ]).
    cbn [bind].
    destruct (parseInt_result l') as [[n Hn]|Hn]; rewrite Hn; [|reflexivity].
    specialize (Hbad l' n eq_refl Hn).
    replace (n <=? 0)%Z with true by (symmetry; apply Z.leb_le; exact Hbad).
    reflexivity.
Qed.

Lemma invalid_multibulk_length_witness :
  parse (bs "*-1" ++ CRLF ++ bs "$4" ++ CRLF ++ bs "PING" ++ CRLF)
    = Err errInvalidMultiBulkLength /\
  parse (bs "*1" ++ [LF]) = Err errInvalidMultiBulkLength.
Proof.
  split.
  - apply (invalid_multibulk_length (bs "-1" ++ [CR])
             (bs "$4" ++ CRLF ++ bs "PING" ++ CRLF)).
    + intros H. cbn in H. repeat (destruct H as [H|H]; [discriminate H|]). exact H.
    + intros h n Hh Hp. apply app_inj_tail in Hh as [<- _]. discriminate Hp.
  - apply (invalid_multibulk_length (bs "1") []).
    + intros H. cbn in H. repeat (destruct H as [H|H]; [discriminate H|]). exact H.
    + intros h n Hh Hp. exfalso.
      apply (f_equal (@rev byte)) in Hh. rewrite rev_app_distr in Hh.
      cbn in Hh. inversion Hh.
Defined.

Lemma read_args_app : forall n1 n2 b si i args,
  read_args (n1 + n2) b si i args =
  (r <- read_args n1 b si i args ;;
   match r with
   | Some (si', i', args') => read_args n2 b si' i' args'
   | None => Ok None
   end).
Proof.
  induction n1 as [|n1 IH]; intros n2 b si i args; [reflexivity|].
  cbn [Nat.add read_args].
  destruct (S i <? length b); [|apply IH].
  destruct (byte_at b (S i)) as [c| | |]; cbn [bind]; try reflexivity.
  destruct (negb (Byte.eqb c "$")); [reflexivity|].
  destruct (read_bulk b (S i) (skipn (S i) b) (S i)) as [[i' arg| |i']| | |];
    cbn [bind]; try reflexivity; apply IH.
Qed.

(** A command of [n] arguments of which the first ones, [good], are well
    formed: the parser reads them and goes on with the remaining rounds of
    the argument loop at the byte that follows them. *)
Lemma parse_after_good_bulks hn n good bad e :
  count_ok hn n -> length good < n -> Forall bulk_ok good ->
  (Z.of_nat (length (frame_command hn good)) < 2 ^ 63)%Z ->
  let b := frame_command hn good ++ bad in
  (forall si args,
     read_args (n - length good) b si (length (frame_command hn good) - 1) args
       = Err e) ->
  parse b = Err e.
Proof.
  intros [Hh Hfit] Hlt Hok Hbound b Hrest.
  apply modest_makeslice in Hfit.
  rewrite frame_command_length in Hbound.
  assert (Hb : b = "*"%byte :: hn ++ CR :: LF :: (bulks_bytes good ++ bad)).
  { unfold b, frame_command, CRLF, bulks_bytes. assoc. }
  rewrite (parse_resp b _ Hb).
  rewrite (resp_loop_skip_eq b ("*"%byte :: hn ++ [CR]) []
             (LF :: bulks_bytes good ++ bad)
             (S (length (bulks_bytes good ++ bad))) (length b) 0 0 [])
    by (first [ rewrite Hb; assoc | apply not_in_count, Hh | rewrite Hb; len
              | reflexivity ]).
  replace (0 + length ("*"%byte :: hn ++ [CR])) with (length hn + 2)
    by (cbn [length]; len).
  rewrite (resp_loop_at_LF _ b hn n _ [] Hh ltac:(lia) Hb).
  rewrite Hfit. cbn [negb].
  replace n with (length good + (n - length good)) at 1 by lia.
  rewrite read_args_app.
  destruct (read_args_complete_eq b good ("*"%byte :: hn ++ CRLF) bad 0 [])
    as [si' Hra]; [rewrite Hb; unfold CRLF; assoc|discriminate|exact Hok| |].
  { unfold CRLF. len. }
  replace (length ("*"%byte :: hn ++ CRLF) - 1) with (length hn + 2) in Hra
    by (unfold CRLF; len).
  rewrite Hra. cbn [bind app].
  replace (length ("*"%byte :: hn ++ CRLF) + length (bulks_bytes good) - 1)
    with (length (frame_command hn good) - 1)
    by (rewrite frame_command_length; unfold CRLF; len).
  rewrite Hrest. reflexivity.
Qed.

Lemma frame_command_nonempty hn good : 1 <= length (frame_command hn good).
Proof. rewrite frame_command_length. lia. Qed.

(** X8.  Where the parser expects the ['$'] of the next argument and finds
    another byte, it reports that byte: "expected '$', got 'c'".  This
    holds at every argument of a command that announces fewer than ten
    million arguments, after any number of well-formed ones. *)
Theorem expected_dollar hn n good c rest :
  count_ok hn n -> length good < n -> Forall bulk_ok good ->
  (Z.of_nat (length (frame_command hn good)) < 2 ^ 63)%Z ->
  c <> "$"%byte ->
  parse (frame_command hn good ++ c :: rest) = Err (errExpectedDollar c).
Proof.
  intros Hh Hlt Hok Hbound Hc.
  apply (parse_after_good_bulks hn n good (c :: rest)); try assumption.
  intros si args.
  pose proof (frame_command_nonempty hn good) as Hpos.
  destruct (n - length good) as [|m] eqn:Hm; [lia|].
  cbn [read_args].
  replace (S (length (frame_command hn good) - 1))
    with (length (frame_command hn good)) by lia.
  replace (length (frame_command hn good) <?
           length (frame_command hn good ++ c :: rest)) with true
    by (symmetry; apply Nat.ltb_lt; len).
  rewrite (byte_at_split _ (frame_command hn good) c rest) by reflexivity.
  cbn [bind].
  destruct (Byte.eqb c "$") eqn:E; [apply Byte.byte_dec_bl in E; congruence|].
  reflexivity.
Qed.

Lemma expected_dollar_witness :
  parse (bs "*2" ++ CRLF ++ bs "$3" ++ CRLF ++ bs "GET" ++ CRLF ++ bs "+k" ++ CRLF)
    = Err (errProtocol (bs "expected '$', got '+'")).
Proof.
  apply (expected_dollar (bs "2") 2 [(bs "3", bs "GET")] "+"%byte (bs "k" ++ CRLF)).
  - split; [split; [|reflexivity]|reflexivity].
    intros H. cbn in H. repeat (destruct H as [H|H]; [discriminate H|]). exact H.
  - cbn. lia.
  - constructor; [|constructor]. split; [|reflexivity].
    intros H. cbn in H. repeat (destruct H as [H|H]; [discriminate H|]). exact H.
  - vm_compute. reflexivity.
  - discriminate.
Defined.

(** X9.  The line that starts with the ['$'] of an argument must hold a
    length: digits that [parseInt] reads as a number that is not negative,
    followed by ['\r'].  Anything else is answered with "invalid bulk
    length", at every argument of a command that announces fewer than ten
    million arguments. *)
Theorem invalid_bulk_length hn n good l post :
  count_ok hn n -> length good < n -> Forall bulk_ok good ->
  (Z.of_nat (length (frame_command hn good)) < 2 ^ 63)%Z ->
  ~ In LF l ->
  (forall h m, l = h ++ [CR] -> parseInt h = Ok m -> (m < 0)%Z) ->
  parse (frame_command hn good ++ "$"%byte :: l ++ LF :: post)
    = Err errInvalidBulkLength.
Proof.
  intros Hh Hlt Hok Hbound Hnl Hbad.
  apply (parse_after_good_bulks hn n good ("$"%byte :: l ++ LF :: post));
    try assumption.
  intros si args.
  pose proof (frame_command_nonempty hn good) as Hpos.
  destruct (n - length good) as [|m] eqn:Hm; [lia|].
  set (pre := frame_command hn good) in *.
  set (b := pre ++ "$"%byte :: l ++ LF :: post).
  cbn [read_args].
  replace (S (length pre - 1)) with (length pre) by lia.
  replace (length pre <? length b) with true
    by (symmetry; apply Nat.ltb_lt; unfold b; len).
  rewrite (byte_at_split b pre "$"%byte (l ++ LF :: post)) by reflexivity.
  cbn [bind]. change (negb (Byte.eqb "$" "$")) with false. cbv iota.
  assert (Hsk : skipn (length pre) b = ("$"%byte :: l) ++ LF :: post).
  { unfold b. rewrite skipn_app, skipn_all, Nat.sub_diag. reflexivity. }
  rewrite Hsk.
  rewrite read_bulk_skip
    by (intros [H|H]; [discriminate H|exact (Hnl H)]).
  cbn [read_bulk]. change (Byte.eqb LF LF) with true. cbv iota.
  replace (0 <? length pre + length ("$"%byte :: l)) with true
    by (symmetry; apply Nat.ltb_lt; cbn [length]; lia).
  destruct l as [|c l'] using rev_ind.
  - rewrite (byte_at_split b pre "$"%byte (LF :: post))
      by (first [ reflexivity | cbn [length]; lia ]).
    reflexivity.
  - clear IHl'.
    rewrite (byte_at_split b (pre ++ "$"%byte :: l') c (LF :: post))
      by (first [ unfold b; assoc | len ]).
    cbn [bind].
    destruct (Byte.eqb c CR) eqn:Ec; cbn [negb]; [|reflexivity].
    apply Byte.byte_dec_bl in Ec. subst c.
    rewrite (slice_split b (pre ++ ["$"%byte]) l' (CR :: LF :: post))
      by (first [ unfold b; assoc | len ]).
    cbn [bind].
    destruct (parseInt_result l') as [[k Hk]|Hk]; rewrite Hk; [|reflexivity].
    specialize (Hbad l' k eq_refl Hk).
    replace (k <? 0)%Z with true by (symmetry; apply Z.ltb_lt; exact Hbad).
    reflexivity.
Qed.

Lemma invalid_bulk_length_witness :
  parse (bs "*1" ++ CRLF ++ bs "$-1" ++ CRLF) = Err errInvalidBulkLength /\
  parse (bs "*1" ++ CRLF ++ bs "$9223372036854775808" ++ CRLF ++ bs "x")
    = Err errInvalidBulkLength.
Proof.
  assert (Hh : count_ok (bs "1") 1).
  { split; [split; [|reflexivity]|reflexivity].
    intros H. cbn in H. repeat (destruct H as [H|H]; [discriminate H|]). exact H. }
  split.
  - apply (invalid_bulk_length (bs "1") 1 [] (bs "-1" ++ [CR]) []).
    + exact Hh.
    + cbn. lia.
    + constructor.
    + vm_compute. reflexivity.
    + intros H. cbn in H. repeat (destruct H as [H|H]; [discriminate H|]). exact H.
    + intros h m Hl Hp. apply app_inj_tail in Hl as [<- _]. discriminate Hp.
  - apply (invalid_bulk_length (bs "1") 1 [] (bs "9223372036854775808" ++ [CR])
             (bs "x")).
    + exact Hh.
    + cbn. lia.
    + constructor.
    + vm_compute. reflexivity.
    + intros H. cbn in H. repeat (destruct H as [H|H]; [discriminate H|]). exact H.
    + intros h m Hl Hp. apply app_inj_tail in Hl as [<- _].
      vm_compute in Hp. inversion Hp. reflexivity.
Defined.

(** X10.  The bytes of an argument must be followed by ['\r'] and ['\n']:
    when the two bytes after the announced length are anything else, the
    parser answers "invalid bulk length".  It does not look for a line end
    inside the argument or after it.  This holds at every argument of a
    command that announces fewer than ten million arguments. *)
Theorem bulk_not_terminated hn n good h a x y post :
  count_ok hn n -> length good < n -> Forall bulk_ok good ->
  header_ok h (length a) ->
  (Z.of_nat (length (frame_command hn good) + length (frame_bulk (h, a)))
   < 2 ^ 63)%Z ->
  (x, y) <> (CR, LF) ->
  parse (frame_command hn good ++ "$"%byte :: h ++ CRLF ++ a ++ x :: y :: post)
    = Err errInvalidBulkLength.
Proof.
  intros Hh Hlt Hok Hha Hbound Hxy.
  rewrite frame_bulk_length in Hbound. cbn [fst snd] in Hbound.
  apply (parse_after_good_bulks hn n good
           ("$"%byte :: h ++ CRLF ++ a ++ x :: y :: post)); try assumption; [lia|].
  intros si args.
  pose proof (frame_command_nonempty hn good) as Hpos.
  destruct (n - length good) as [|m] eqn:Hm; [lia|].
  set (pre := frame_command hn good) in *.
  set (b := pre ++ "$"%byte :: h ++ CRLF ++ a ++ x :: y :: post).
  assert (Hb : b = pre ++ "$"%byte :: h ++ CR :: LF :: (a ++ x :: y :: post))
    by (unfold b, CRLF; assoc).
  assert (Hlen : length b = length pre + length h + length a + length post + 5)
    by (rewrite Hb; len).
  cbn [read_args].
  replace (S (length pre - 1)) with (length pre) by lia.
  replace (length pre <? length b) with true
    by (symmetry; apply Nat.ltb_lt; lia).
  rewrite (byte_at_split b pre "$"%byte (h ++ CR :: LF :: (a ++ x :: y :: post)))
    by (first [exact Hb | reflexivity]).
  cbn [bind]. change (negb (Byte.eqb "$" "$")) with false. cbv iota.
  assert (Hsk : skipn (length pre) b =
                ("$"%byte :: h ++ [CR]) ++ LF :: (a ++ x :: y :: post)).
  { rewrite Hb, skipn_app, skipn_all, Nat.sub_diag. cbn [skipn app]. assoc. }
  rewrite Hsk.
  rewrite read_bulk_skip by (apply not_in_header, Hha).
  replace (length pre + length ("$"%byte :: h ++ [CR]))
    with (length pre + length h + 2) by len.
  pose proof (read_bulk_at_LF b pre h (length a) (a ++ x :: y :: post) Hha Hb
                ltac:(lia)) as Hat.
  cbv zeta in Hat. rewrite Hat. clear Hat.
  replace (Z.of_nat (length b) <=?
           Z.of_nat (length pre + length h + 2 + length a + 2))%Z with false
    by (symmetry; apply Z.leb_gt; lia).
  rewrite (byte_at_split b (pre ++ "$"%byte :: h ++ CRLF ++ a ++ [x]) y post)
    by (first [ unfold b, CRLF; assoc | unfold CRLF; len ]).
  cbn [bind].
  destruct (Byte.eqb y LF) eqn:Ey; cbn [negb]; [|reflexivity].
  rewrite (byte_at_split b (pre ++ "$"%byte :: h ++ CRLF ++ a) x (y :: post))
    by (first [ unfold b, CRLF; assoc | unfold CRLF; len ]).
  cbn [bind].
  destruct (Byte.eqb x CR) eqn:Ex; cbn [negb]; [|reflexivity].
  apply Byte.byte_dec_bl in Ey, Ex. subst. congruence.
Qed.

Lemma bulk_not_terminated_witness :
  parse (bs "*1" ++ CRLF ++ bs "$3" ++ CRLF ++ bs "foobar" ++ CRLF)
    = Err errInvalidBulkLength.
Proof.
  apply (bulk_not_terminated (bs "1") 1 [] (bs "3") (bs "foo") "b"%byte "a"%byte
           (bs "r" ++ CRLF)).
  - split; [split; [|reflexivity]|reflexivity].
    intros H. cbn in H. repeat (destruct H as [H|H]; [discriminate H|]). exact H.
  - cbn. lia.
  - constructor.
  - split; [|reflexivity].
    intros H. cbn in H. repeat (destruct H as [H|H]; [discriminate H|]). exact H.
  - vm_compute. reflexivity.
  - discriminate.
Defined.

(* ------------------------------------------------------------------ *)
(** ** Inline commands: what a client can send *)

Lemma parse_one_line l :
  ~ In LF l -> hd_error (l ++ [LF]) <> Some "*"%byte ->
  parse (l ++ [LF]) = line_result l.
Proof.
  intros Hn Hhd. unfold parse, line_result.
  destruct (l ++ [LF]) as [|c b] eqn:Hb.
  { destruct l; discriminate. }
  cbn [length parse_next]. unfold byte_at at 1. cbn [nth_error bind].
  destruct (Byte.eqb c "*") eqn:Hc.
  { apply Byte.byte_dec_bl in Hc. subst. exfalso. apply Hhd. reflexivity. }
  rewrite <- Hb. rewrite inline_scan_line by exact Hn.
  rewrite inline_args_line_args.
  destruct (line_args (strip_cr l)) as [args| | |]; cbn [bind]; try reflexivity.
  destruct args; reflexivity.
Qed.

Lemma parse_crlf_line l args :
  ~ In LF l -> hd_error (l ++ CRLF) <> Some "*"%byte ->
  line_args l = Ok args -> args <> [] ->
  parse (l ++ CRLF) = Ok ([args], []).
Proof.
  intros Hn Hhd Hl Hne.
  replace (l ++ CRLF) with ((l ++ [CR]) ++ [LF]) in * by (unfold CRLF; assoc).
  rewrite parse_one_line.
  - unfold line_result. rewrite strip_cr_snoc. change (Byte.eqb CR CR) with true.
    cbv iota. rewrite Hl. cbn [bind]. destruct args; [congruence|reflexivity].
  - intros H. apply in_app_or in H as [H|[H|[]]]; [exact (Hn H)|discriminate H].
  - exact Hhd.
Qed.

Lemma plain_byte_spec c :
  plain_byte c = true ->
  Byte.eqb c " " = false /\ Byte.eqb c DQUOTE = false /\ Byte.eqb c LF = false.
Proof.
  unfold plain_byte. intros H.
  apply andb_true_iff in H as [H H3]. apply andb_true_iff in H as [H1 H2].
  repeat split; apply negb_true_iff; assumption.
Qed.

Lemma bare_arg_plain : forall w rest,
  forallb plain_byte w = true ->
  bare_arg (w ++ " "%byte :: rest) = (w, " "%byte :: rest).
Proof.
  induction w as [|c w IH]; intros rest H; [reflexivity|].
  cbn [forallb] in H. apply andb_true_iff in H as [Hc Hw].
  apply plain_byte_spec in Hc as (H1 & H2 & _).
  cbn [app bare_arg]. rewrite H1, H2. cbn [orb]. rewrite IH by exact Hw.
  reflexivity.
Qed.

Lemma bare_arg_plain_end : forall w,
  forallb plain_byte w = true -> bare_arg w = (w, []).
Proof.
  induction w as [|c w IH]; intros H; [reflexivity|].
  cbn [forallb] in H. apply andb_true_iff in H as [Hc Hw].
  apply plain_byte_spec in Hc as (H1 & H2 & _).
  cbn [bare_arg]. rewrite H1, H2. cbn [orb]. rewrite IH by exact Hw. reflexivity.
Qed.

Lemma plain_word_spec w :
  plain_word w = true ->
  exists c w', w = c :: w' /\ forallb plain_byte w = true /\
               Byte.eqb c " " = false /\ Byte.eqb c DQUOTE = false.
Proof.
  unfold plain_word. intros H. apply andb_true_iff in H as [Hl Hp].
  destruct w as [|c w']; [discriminate|]. exists c, w'.
  pose proof Hp as Hp'. cbn [forallb] in Hp'. apply andb_true_iff in Hp' as [Hc _].
  apply plain_byte_spec in Hc as (H1 & H2 & _). repeat split; assumption.
Qed.

Lemma join_words_cons w w2 ws :
  join_words (w :: w2 :: ws) = w ++ " "%byte :: join_words (w2 :: ws).
Proof. reflexivity. Qed.

Lemma split_line_words : forall ws fuel,
  forallb plain_word ws = true -> length (join_words ws) < fuel ->
  split_line fuel (join_words ws) = Ok ws.
Proof.
  induction ws as [|w ws IH]; intros fuel Hp Hf.
  - destruct fuel; [lia|reflexivity].
  - cbn [forallb] in Hp. apply andb_true_iff in Hp as [Hw Hws].
    apply plain_word_spec in Hw as (c & w' & -> & Hpw & Hc1 & Hc2).
    destruct fuel as [|fuel]; [lia|].
    destruct ws as [|w2 ws].
    + cbn [join_words split_line]. rewrite Hc1, Hc2.
      rewrite (bare_arg_plain_end (c :: w') Hpw). reflexivity.
    + rewrite join_words_cons in *. cbn [app split_line]. rewrite Hc1, Hc2.
      change (c :: w' ++ " "%byte :: join_words (w2 :: ws))
        with ((c :: w') ++ " "%byte :: join_words (w2 :: ws)).
      rewrite (bare_arg_plain (c :: w') _ Hpw).
      change (Byte.eqb " " DQUOTE) with false. cbv iota.
      rewrite length_app in Hf. cbn [length] in Hf.
      destruct fuel as [|fuel]; [lia|].
      cbn [split_line]. change (Byte.eqb " " " ") with true. cbv iota.
      rewrite IH by (first [exact Hws | lia]). reflexivity.
Qed.

Lemma join_words_no_LF : forall ws,
  Forall (fun w => ~ In LF w) ws -> ~ In LF (join_words ws).
Proof.
  induction ws as [|w ws IH]; intros H; [intros []|].
  inversion H as [|? ? Hw Hws]; subst.
  destruct ws as [|w2 ws]; [exact Hw|].
  rewrite join_words_cons. intros Hin.
  apply in_app_or in Hin as [Hin|[Hin|Hin]];
    [exact (Hw Hin)|discriminate Hin|exact (IH Hws Hin)].
Qed.

Lemma plain_no_LF w : forallb plain_byte w = true -> ~ In LF w.
Proof.
  intros H Hin. rewrite forallb_forall in H. specialize (H LF Hin). discriminate.
Qed.

(** X11.  An inline line of words separated by single spaces, ended by
    ['\r'] ['\n'], is read as one command whose arguments are the words, when
    no word is empty or holds a space, a quote or a line end and the line
    does not begin with ['*']. *)
Theorem inline_plain_words ws :
  ws <> [] -> forallb plain_word ws = true ->
  hd_error (join_words ws) <> Some "*"%byte ->
  parse (join_words ws ++ CRLF) = Ok ([ws], []).
Proof.
  intros Hne Hp Hhd.
  apply parse_crlf_line.
  - apply join_words_no_LF. rewrite Forall_forall. intros w Hw.
    rewrite forallb_forall in Hp. specialize (Hp w Hw).
    apply plain_word_spec in Hp as (_ & _ & _ & Hpw & _). apply plain_no_LF, Hpw.
  - destruct ws as [|w ws]; [congruence|].
    cbn [forallb] in Hp. apply andb_true_iff in Hp as [Hw _].
    apply plain_word_spec in Hw as (c & w' & -> & _).
    destruct ws; exact Hhd.
  - apply split_line_words; [exact Hp|lia].
  - exact Hne.
Qed.

Lemma inline_plain_words_witness :
  parse (bs "SET key:1 va\lue" ++ CRLF) = Ok ([[bs "SET"; bs "key:1"; bs "va\lue"]], []).
Proof.
  apply (inline_plain_words [bs "SET"; bs "key:1"; bs "va\lue"]).
  - discriminate.
  - reflexivity.
  - discriminate.
Defined.

Lemma quoted_arg_quote : forall a acc rest,
  quoted_arg (List.concat (map quote_byte a) ++ DQUOTE :: rest) acc =
    Some (acc ++ a, rest).
Proof.
  induction a as [|c a IH]; intros acc rest.
  - cbn [map List.concat app quoted_arg]. change (Byte.eqb DQUOTE "\") with false.
    change (Byte.eqb DQUOTE DQUOTE) with true. cbv iota. now rewrite app_nil_r.
  - cbn [map List.concat]. rewrite <- app_assoc. unfold quote_byte at 1.
    destruct (Byte.eqb c LF) eqn:E1.
    { apply Byte.byte_dec_bl in E1. subst c. cbn [app quoted_arg].
      change (Byte.eqb "\" "\") with true. cbv iota.
      rewrite IH. change (escaped "n") with LF. now rewrite <- app_assoc. }
    destruct (Byte.eqb c DQUOTE) eqn:E2.
    { apply Byte.byte_dec_bl in E2. subst c. cbn [orb app quoted_arg].
      change (Byte.eqb "\" "\") with true. cbv iota.
      rewrite IH. change (escaped DQUOTE) with DQUOTE. now rewrite <- app_assoc. }
    destruct (Byte.eqb c "\") eqn:E3.
    { apply Byte.byte_dec_bl in E3. subst c. cbn [orb app quoted_arg].
      change (Byte.eqb "\" "\") with true. cbv iota.
      rewrite IH. change (escaped "\") with "\"%byte. now rewrite <- app_assoc. }
    cbn [orb app quoted_arg]. rewrite E3, E2. rewrite IH. now rewrite <- app_assoc.
Qed.

Lemma quote_arg_eq a :
  quote_arg a = DQUOTE :: (List.concat (map quote_byte a) ++ [DQUOTE]).
Proof. reflexivity. Qed.

Lemma split_line_quoted : forall args fuel,
  length (join_words (map quote_arg args)) < fuel ->
  split_line fuel (join_words (map quote_arg args)) = Ok args.
Proof.
  induction args as [|a args IH]; intros fuel Hf.
  - destruct fuel; [lia|reflexivity].
  - destruct fuel as [|fuel]; [lia|].
    destruct args as [|a2 args].
    + cbn [map join_words]. rewrite quote_arg_eq. cbn [split_line].
      change (Byte.eqb DQUOTE " ") with false.
      change (Byte.eqb DQUOTE DQUOTE) with true. cbv iota.
      rewrite quoted_arg_quote. reflexivity.
    + cbn [map] in *. rewrite join_words_cons in *.
      rewrite (quote_arg_eq a) in *. cbn [app split_line].
      change (Byte.eqb DQUOTE " ") with false.
      change (Byte.eqb DQUOTE DQUOTE) with true. cbv iota.
      rewrite <- app_assoc. cbn [app]. rewrite quoted_arg_quote. cbn [app].
      change (Byte.eqb " " " ") with true. cbv iota.
      cbn [length] in Hf. rewrite !length_app in Hf. cbn [length] in Hf.
      destruct fuel as [|fuel]; [lia|].
      cbn [split_line]. change (Byte.eqb " " " ") with true. cbv iota.
      rewrite IH by lia. reflexivity.
Qed.

Lemma quote_byte_no_LF c : ~ In LF (quote_byte c).
Proof.
  unfold quote_byte. destruct (Byte.eqb c LF) eqn:E1.
  { intros [H|[H|[]]]; discriminate H. }
  assert (Hc : c <> LF) by (intros ->; discriminate E1).
  destruct (Byte.eqb c DQUOTE || Byte.eqb c "\").
  - intros [H|[H|[]]]; [discriminate H|congruence].
  - intros [H|[]]. congruence.
Qed.

Lemma quote_arg_no_LF a : ~ In LF (quote_arg a).
Proof.
  unfold quote_arg. intros [H|H]; [discriminate H|].
  apply in_app_or in H as [H|[H|[]]]; [|discriminate H].
  apply in_concat in H as (x & Hx & Hin). apply in_map_iff in Hx as (c & <- & _).
  exact (quote_byte_no_LF c Hin).
Qed.

(** X12.  Every list of arguments, whatever bytes they hold (spaces,
    quotes, backslashes, line ends, nothing at all), can be sent as one
    inline line: each argument between quotes, with backslash-n for a line
    end and a backslash before a quote or a backslash.  The parser returns
    the arguments unchanged. *)
Theorem inline_quoted_args args :
  args <> [] ->
  parse (join_words (map quote_arg args) ++ CRLF) = Ok ([args], []).
Proof.
  intros Hne. apply parse_crlf_line.
  - apply join_words_no_LF. rewrite Forall_forall. intros w Hw.
    apply in_map_iff in Hw as (a & <- & _). apply quote_arg_no_LF.
  - destruct args as [|a [|a2 args]]; [congruence|discriminate|discriminate].
  - apply split_line_quoted. lia.
  - exact Hne.
Qed.

Lemma inline_quoted_args_witness :
  parse ([DQUOTE] ++ bs "a b" ++ [DQUOTE] ++ bs " " ++ [DQUOTE; DQUOTE] ++ bs " "
           ++ [DQUOTE] ++ bs "x\ny\" ++ [DQUOTE] ++ bs "\\z" ++ [DQUOTE] ++ CRLF)
    = Ok ([[bs "a b"; []; bs "x" ++ [LF] ++ bs "y" ++ [DQUOTE] ++ bs "\z"]], []).
Proof.
  apply (inline_quoted_args [bs "a b"; []; bs "x" ++ [LF] ++ bs "y" ++ [DQUOTE] ++ bs "\z"]).
  discriminate.
Defined.

(* ------------------------------------------------------------------ *)
(** ** The reader: what [ReadCommands] keeps *)

Lemma parse_buffered_pending r cmds r1 :
  reader_ok r -> parse_buffered r = Ok (cmds, r1) ->
  rd_buf r1 = rd_buf r /\
  exists k, pending r1 = skipn k (pending r) /\ k <= length (pending r) /\
            (cmds <> [] -> 0 < k).
Proof.
  intros (H1 & H2 & H3 & H4). unfold parse_buffered.
  destruct (Nat.ltb_spec (rd_start r) (rd_end r)) as [Hlt|Hge].
  - rewrite slice_pending by lia. cbn [bind].
    destruct (parse (pending r)) as [[cs b']| | |] eqn:Ep; cbn [bind];
      try discriminate.
    intros H; inversion H; subst cs r1; clear H.
    apply parse_next_shape in Ep as (new & k & Hc & _ & Hb & Hk & Hpos).
    cbn [app] in Hc. subst new.
    assert (Hpre : pending r = firstn k (pending r) ++ b')
      by (rewrite Hb; symmetry; apply firstn_skipn).
    destruct (Nat.eqb_spec (length b') 0) as [Hz|Hnz]; cbn [rd_buf]; split;
      try reflexivity; exists k.
    + destruct b'; [|discriminate]. unfold pending at 1. cbn [rd_end rd_start].
      split; [rewrite <- Hb; reflexivity|]. split; assumption.
    + split; [|split; assumption].
      rewrite <- Hb.
      rewrite <- (reader_eta r) in Hpre at 1.
      exact (pending_suffix (rd_buf r) (rd_start r) (rd_end r) _ b'
               ltac:(lia) H2 Hpre).
  - intros H; inversion H; subst. split; [reflexivity|].
    exists 0. repeat split; try lia. congruence.
Qed.

Lemma grow_length r :
  length (rd_buf (grow r)) = length (rd_buf r) \/
  length (rd_buf (grow r)) = 2 * length (rd_buf r).
Proof.
  unfold grow. destruct (rd_end r =? length (rd_buf r)); cbn [rd_buf]; [right|now left].
  rewrite length_app, repeat_length. lia.
Qed.

Lemma stream_read_data w n d w' :
  stream_read w n = (inl d, w') ->
  stream_bytes (w_in w) = d ++ stream_bytes (w_in w') /\
  length d + stream_size (w_in w') <= stream_size (w_in w) + (if n =? 0 then 1 else 0) /\
  stream_size (w_in w') <= stream_size (w_in w).
Proof.
  unfold stream_read. destruct (w_closed w); [discriminate|].
  destruct (w_in w) as [|[d0|code] rest]; try discriminate.
  destruct (Nat.leb_spec (length d0) n) as [Hle|Hgt]; intros H; inversion H; subst;
    cbn [w_in stream_bytes stream_size].
  - repeat split; try lia; destruct (n =? 0); lia.
  - rewrite app_assoc, firstn_skipn. rewrite length_firstn, length_skipn.
    repeat split; try lia; destruct (Nat.eqb_spec n 0); lia.
Qed.

Lemma stream_read_error w n e w' :
  stream_read w n = (inr e, w') ->
  stream_bytes (w_in w') = stream_bytes (w_in w) /\
  stream_size (w_in w') <= stream_size (w_in w).
Proof.
  unfold stream_read. intros H.
  destruct (w_closed w); [inversion H; subst; split; [reflexivity|lia]|].
  destruct (w_in w) as [|[d0|code] rest] eqn:Hin.
  - inversion H; subst. rewrite Hin. split; [reflexivity|lia].
  - destruct (length d0 <=? n); discriminate H.
  - inversion H; subst. cbn [w_in stream_bytes stream_size].
    split; [reflexivity|lia].
Qed.

Lemma skipn_app_le {A} k (l1 l2 : list A) :
  k <= length l1 -> skipn k (l1 ++ l2) = skipn k l1 ++ l2.
Proof.
  intros H. rewrite skipn_app. replace (k - length l1) with 0 by lia. reflexivity.
Qed.

(** One call of [ReadCommands], in the terms of what is buffered and what is
    still to come. *)
Lemma ReadCommands_keeps : forall fuel r w res r' w',
  reader_ok r -> ReadCommands fuel r w = (res, r', w') ->
  (exists j, length (rd_buf r') = 2 ^ j * length (rd_buf r)) /\
  (exists k, pending r' ++ stream_bytes (w_in w') =
             skipn k (pending r ++ stream_bytes (w_in w)) /\
             k <= length (pending r ++ stream_bytes (w_in w))) /\
  stream_size (w_in w') <= stream_size (w_in w) /\
  (forall cmds, res = Ok cmds ->
     length (pending r') + stream_size (w_in w')
       < length (pending r) + stream_size (w_in w)).
Proof.
  induction fuel as [|fuel IH]; intros r w res r' w' Hr H.
  - inversion H; subst. split; [exists 0; cbn; lia|].
    split; [exists 0; split; [reflexivity|lia]|]. split; [lia|discriminate].
  - cbn [ReadCommands] in H.
    assert (Hsame : (exists j, length (rd_buf r) = 2 ^ j * length (rd_buf r)) /\
                    (exists k, pending r ++ stream_bytes (w_in w) =
                               skipn k (pending r ++ stream_bytes (w_in w)) /\
                               k <= length (pending r ++ stream_bytes (w_in w))) /\
                    stream_size (w_in w) <= stream_size (w_in w)).
    { split; [exists 0; cbn; lia|]. split; [|lia]. exists 0. split; [reflexivity|lia]. }
    destruct (parse_buffered r) as [[cs r1]| | |] eqn:Ep;
      try (inversion H; subst; destruct Hsame as (S1 & S2 & S3);
           repeat split; try assumption; discriminate).
    pose proof (parse_buffered_ok _ _ _ Hr Ep) as Hr1.
    destruct (parse_buffered_pending _ _ _ Hr Ep) as (Hbuf & k & Hk & Hkl & Hkpos).
    assert (Hk' : pending r1 ++ stream_bytes (w_in w) =
                  skipn k (pending r ++ stream_bytes (w_in w)))
      by (rewrite skipn_app_le by exact Hkl; rewrite Hk; reflexivity).
    assert (Hl1 : length (pending r1) = length (pending r) - k)
      by (rewrite Hk; apply length_skipn).
    destruct cs as [|c cs].
    + change (0 <? length (@nil (list bytes))) with false in H. cbv iota zeta in H.
      pose proof (grow_ok _ Hr1) as Hg.
      pose proof (grow_length r1) as Hgl.
      destruct Hr1 as (A1 & A2 & A3 & A4).
      pose proof (grow_room r1 A2 A3) as Hroom.
      pose proof (pending_grow r1 A1 A2) as Hpg.
      assert (Hj : exists j, length (rd_buf (grow r1)) = 2 ^ j * length (rd_buf r)).
      { rewrite <- Hbuf. destruct Hgl as [->| ->]; [exists 0|exists 1]; cbn; lia. }
      destruct (length (rd_buf (grow r1)) <? rd_end (grow r1)).
      { inversion H; subst. split; [exact Hj|]. rewrite Hpg. split.
        - exists k. split; [exact Hk'|rewrite length_app; lia].
        - split; [lia|discriminate]. }
      destruct (stream_read w (length (rd_buf (grow r1)) - rd_end (grow r1)))
        as [[d|e] w1] eqn:Hs.
      * pose proof (stream_read_length _ _ _ _ Hs) as Hd.
        destruct (stream_read_data _ _ _ _ Hs) as (Hsb & Hss & Hss').
        replace (length (rd_buf (grow r1)) - rd_end (grow r1) =? 0) with false in Hss
          by (symmetry; apply Nat.eqb_neq; lia).
        destruct Hg as (G1 & G2 & G3 & G4).
        set (r2 := mkReader (write_at (rd_buf (grow r1)) (rd_end (grow r1)) d)
                            (rd_start (grow r1)) (rd_end (grow r1) + length d)) in *.
        assert (Hr2 : reader_ok r2).
        { unfold reader_ok, r2. cbn [rd_buf rd_start rd_end].
          rewrite write_at_length by lia. repeat split; lia. }
        assert (Hp2 : pending r2 = pending r1 ++ d).
        { unfold r2. rewrite pending_write by lia.
          rewrite reader_eta. now rewrite Hpg. }
        destruct (IH r2 w1 res r' w' Hr2 H) as ((j2 & Hj2) & (k2 & Hk2 & Hk2l) & Hs2 & Hprog).
        split; [|split; [|split]].
        -- destruct Hj as (j & Hj). exists (j2 + j). rewrite Hj2. unfold r2.
           cbn [rd_buf]. rewrite write_at_length by lia. rewrite Hj.
           rewrite Nat.pow_add_r. lia.
        -- exists (k + k2). rewrite Hk2, Hp2, <- app_assoc, <- Hsb, Hk'.
           rewrite skipn_skipn_add. split; [reflexivity|].
           assert (HsbL : length (stream_bytes (w_in w)) =
                          length d + length (stream_bytes (w_in w1)))
             by (rewrite Hsb, length_app; reflexivity).
           rewrite length_app in *. rewrite Hp2, length_app in Hk2l. lia.
        -- lia.
        -- intros cmds Hc. specialize (Hprog cmds Hc).
           rewrite Hp2, length_app in Hprog. lia.
      * destruct (stream_read_error _ _ _ _ Hs) as (Hsb & Hss).
        assert (r' = grow r1 /\ w' = w1 /\ forall cmds, res <> Ok cmds) as (-> & -> & Hres).
        { destruct e; try destruct (0 <? rd_end (grow r1)); inversion H; subst;
            repeat split; discriminate. }
        split; [exact Hj|]. rewrite Hpg, Hsb. split.
        -- exists k. split; [exact Hk'|rewrite length_app; lia].
        -- split; [lia|]. intros cmds Hc. exfalso. exact (Hres cmds Hc).
    + change (0 <? length (c :: cs)) with true in H. cbv iota in H.
      inversion H; subst. split; [exists 0; rewrite Hbuf; cbn; lia|]. split.
      * exists k. split; [exact Hk'|rewrite length_app; lia].
      * split; [lia|]. intros _ _. specialize (Hkpos ltac:(discriminate)). lia.
Qed.

(** X13.  [ReadCommands] loses no byte and invents none: what is buffered
    and not consumed, followed by what the stream still holds, is after the
    call an end of what it was before.  The buffer only ever doubles, the
    cursors stay ordered within it, and the call never writes to the stream
    nor closes it, whatever it returns. *)
Theorem ReadCommands_invariants fuel r w res r' w' :
  reader_ok r -> ReadCommands fuel r w = (res, r', w') ->
  reader_ok r' /\
  (exists j, length (rd_buf r') = 2 ^ j * length (rd_buf r)) /\
  (exists consumed,
     pending r ++ stream_bytes (w_in w) =
       consumed ++ pending r' ++ stream_bytes (w_in w')) /\
  w_trace w' = w_trace w /\ w_closed w' = w_closed w.
Proof.
  intros Hr H.
  destruct (ReadCommands_keeps fuel r w res r' w' Hr H) as (Hj & (k & Hk & _) & _).
  destruct (ReadCommands_world fuel r w res r' w' H) as (Ht & Hc & _).
  split; [exact (ReadCommands_reader_ok fuel r w res r' w' Hr H)|].
  split; [exact Hj|]. split; [|split; assumption].
  exists (firstn k (pending r ++ stream_bytes (w_in w))).
  rewrite Hk. symmetry. apply firstn_skipn.
Qed.

Lemma ReadCommands_invariants_witness :
  let r := newReader (repeat x00 4) in
  let w := mkWorld [RData (bs "ping" ++ CRLF ++ bs "*1" ++ CRLF); RData (bs "$1")] []
                   false [] in
  let r' := snd (fst (ReadCommands 5 r w)) in
  let w' := snd (ReadCommands 5 r w) in
  reader_ok r /\
  fst (fst (ReadCommands 5 r w)) = Ok [[bs "ping"]] /\
  length (rd_buf r') = 2 ^ 1 * length (rd_buf r) /\ pending r' = bs "*1" /\
  exists consumed,
    pending r ++ stream_bytes (w_in w) =
      consumed ++ pending r' ++ stream_bytes (w_in w').
Proof.
  cbv zeta.
  assert (Hr : reader_ok (newReader (repeat x00 4)))
    by (unfold reader_ok; cbn; repeat split; lia).
  split; [exact Hr|]. split; [vm_compute; reflexivity|].
  split; [vm_compute; reflexivity|]. split; [vm_compute; reflexivity|].
  set (r := newReader (repeat x00 4)) in *.
  set (w := mkWorld [RData (bs "ping" ++ CRLF ++ bs "*1" ++ CRLF); RData (bs "$1")] []
                    false []).
  assert (E : ReadCommands 5 r w =
              (fst (fst (ReadCommands 5 r w)), snd (fst (ReadCommands 5 r w)),
               snd (ReadCommands 5 r w)))
    by (destruct (ReadCommands 5 r w) as [[x y] z]; reflexivity).
  exact (proj1 (proj2 (proj2 (ReadCommands_invariants 5 r w _ _ _ Hr E)))).
Defined.

(** X14.  On a buffer that is not empty [ReadCommands] returns after finitely
    many reads: fuel above the number of reads and bytes left on the stream
    is enough, and more fuel changes nothing. *)
Theorem ReadCommands_terminates fuel fuel' r w :
  reader_ok r -> stream_size (w_in w) < fuel -> fuel <= fuel' ->
  fst (fst (ReadCommands fuel r w)) <> OutOfFuel /\
  ReadCommands fuel' r w = ReadCommands fuel r w.
Proof.
  intros Hr Hs Hf.
  pose proof (ReadCommands_total fuel r w Hr Hs) as Ht.
  split; [exact Ht|].
  destruct (ReadCommands fuel r w) as [[res r'] w'] eqn:E.
  exact (ReadCommands_mono fuel fuel' r w res r' w' E Ht Hf).
Qed.

Lemma ReadCommands_terminates_witness :
  let r := newReader (repeat x00 4) in
  let w := mkWorld [RData (bs "ping" ++ CRLF)] [] false [] in
  reader_ok r /\ stream_size (w_in w) < 8 /\ 8 <= 1000 /\
  fst (fst (ReadCommands 8 r w)) <> OutOfFuel /\
  ReadCommands 1000 r w = ReadCommands 8 r w.
Proof.
  cbv zeta.
  assert (Hr : reader_ok (newReader (repeat x00 4)))
    by (unfold reader_ok; cbn; repeat split; lia).
  assert (Hs : stream_size (w_in (mkWorld [RData (bs "ping" ++ CRLF)] [] false [])) < 8)
    by (cbn; lia).
  assert (Hf : 8 <= 1000) by lia.
  split; [exact Hr|]. split; [exact Hs|]. split; [exact Hf|].
  exact (ReadCommands_terminates 8 1000 _ _ Hr Hs Hf).
Defined.

(* ------------------------------------------------------------------ *)
(** ** Index safety of [ReadCommands] *)

Lemma digit_run_app_le : forall l1 l2, digit_run l1 <= digit_run (l1 ++ l2).
Proof.
  induction l1 as [|c l1 IH]; intros l2; cbn [app digit_run]; [lia|].
  destruct (is_digit c); [specialize (IH l2); lia|lia].
Qed.

Lemma longest_digit_run_app_l : forall l1 l2,
  longest_digit_run l1 <= longest_digit_run (l1 ++ l2).
Proof.
  induction l1 as [|c l1 IH]; intros l2; [cbn; lia|].
  cbn [app longest_digit_run]. specialize (IH l2).
  pose proof (digit_run_app_le (c :: l1) l2) as Hd. cbn [app] in Hd. lia.
Qed.

Lemma parse_buffered_safe r :
  reader_ok r -> longest_digit_run (pending r) < 8 ->
  (Z.of_nat (length (pending r)) < 2 ^ 62)%Z ->
  parse_buffered r <> Panic.
Proof.
  intros (H1 & H2 & H3 & H4) Hrun Hlen. unfold parse_buffered.
  destruct (rd_start r <? rd_end r); [|discriminate].
  rewrite slice_pending by lia. cbn [bind].
  assert (Hp : parse (pending r) <> Panic).
  { unfold parse. destruct (pending r) as [|c b] eqn:E; [discriminate|].
    apply parse_next_safe; [discriminate|assumption|assumption]. }
  destruct (parse (pending r)) as [[cs b']| | |]; cbn [bind]; try discriminate.
  congruence.
Qed.

Lemma ReadCommands_safe : forall fuel r w,
  reader_ok r ->
  longest_digit_run (pending r ++ stream_bytes (w_in w)) < 8 ->
  (Z.of_nat (length (pending r ++ stream_bytes (w_in w))) < 2 ^ 62)%Z ->
  fst (fst (ReadCommands fuel r w)) <> Panic.
Proof.
  induction fuel as [|fuel IH]; intros r w Hr Hrun Hlen; [discriminate|].
  cbn [ReadCommands].
  assert (Hp : parse_buffered r <> Panic).
  { apply parse_buffered_safe; [exact Hr| |].
    - pose proof (longest_digit_run_app_l (pending r) (stream_bytes (w_in w))). lia.
    - rewrite length_app in Hlen. lia. }
  destruct (parse_buffered r) as [[cs r1]| | |] eqn:Ep; cbn [fst];
    try discriminate; [|congruence].
  pose proof (parse_buffered_ok _ _ _ Hr Ep) as Hr1.
  destruct (parse_buffered_pending _ _ _ Hr Ep) as (Hbuf & k & Hk & Hkl & _).
  destruct (0 <? length cs); [discriminate|].
  pose proof (grow_ok _ Hr1) as Hg.
  destruct Hr1 as (A1 & A2 & A3 & A4).
  pose proof (grow_room r1 A2 A3) as Hroom.
  pose proof (pending_grow r1 A1 A2) as Hpg.
  destruct (Nat.ltb_spec (length (rd_buf (grow r1))) (rd_end (grow r1))); [lia|].
  destruct (stream_read w (length (rd_buf (grow r1)) - rd_end (grow r1)))
    as [[d|e] w1] eqn:Hs.
  - pose proof (stream_read_length _ _ _ _ Hs) as Hd.
    destruct (stream_read_data _ _ _ _ Hs) as (Hsb & _ & _).
    destruct Hg as (G1 & G2 & G3 & G4).
    set (r2 := mkReader (write_at (rd_buf (grow r1)) (rd_end (grow r1)) d)
                        (rd_start (grow r1)) (rd_end (grow r1) + length d)) in *.
    assert (Hr2 : reader_ok r2).
    { unfold reader_ok, r2. cbn [rd_buf rd_start rd_end].
      rewrite write_at_length by lia. repeat split; lia. }
    assert (Hp2 : pending r2 ++ stream_bytes (w_in w1) =
                  skipn k (pending r ++ stream_bytes (w_in w))).
    { unfold r2. rewrite pending_write by lia. rewrite reader_eta, Hpg.
      rewrite <- app_assoc, <- Hsb, Hk. symmetry. apply skipn_app_le. exact Hkl. }
    apply IH; [exact Hr2| |]; rewrite Hp2.
    + pose proof (longest_digit_run_skipn k (pending r ++ stream_bytes (w_in w))). lia.
    + rewrite length_skipn. lia.
  - destruct e; try destruct (0 <? rd_end (grow r1)); discriminate.
Qed.

(* ------------------------------------------------------------------ *)
(** ** The engine: termination and index safety *)

Section EngineSafety.

Variable growslice : nat -> nat -> nat.

Lemma Flush_in w wd e w' wd' :
  Flush w wd = (e, w', wd') -> w_in wd' = w_in wd.
Proof.
  unfold Flush. destruct (wr_err w); [intros H; inversion H; reflexivity|].
  destruct (length (wr_b w) =? 0); [intros H; inversion H; reflexivity|].
  unfold stream_write.
  destruct (w_closed wd); [intros H; inversion H; reflexivity|].
  destruct (w_wres wd) as [|[code|] rest]; intros H; inversion H; reflexivity.
Qed.

Lemma conn_Close_in c wd e c' wd' :
  conn_Close c wd = (e, c', wd') -> w_in wd' = w_in wd /\ c_rd c' = c_rd c.
Proof.
  unfold conn_Close, writer_Close.
  destruct (wr_err (c_wr c)); [intros H; inversion H; split; reflexivity|].
  destruct (Flush (c_wr c) wd) as [[[e1|] w1] wd1] eqn:Ef;
    apply Flush_in in Ef; intros H; inversion H; subst; cbn [stream_close w_in];
    split; try assumption; reflexivity.
Qed.

Lemma run_prog_in {R} (p : prog R) : forall c wd,
  w_in (snd (run_prog growslice p c wd)) = w_in wd.
Proof.
  induction p as [r|call k IH|n k IH|v k IH|k IH|k IH|k IH|k IH]; intros c wd;
    cbn [run_prog]; try apply IH; try reflexivity.
  destruct (conn_Close c wd) as [[err c'] wd'] eqn:E.
  apply conn_Close_in in E as [E _]. rewrite IH. exact E.
Qed.

(** What a round of the loop does to the reader and to the stream of reads
    is what its call of [ReadCommands] does. *)
Lemma handle_round_reads fuel cfg c wd res c' wd' rres r' wd1 :
  c_hj c = false -> ReadCommands fuel (c_rd c) wd = (rres, r', wd1) ->
  handle_round growslice fuel cfg c wd = (res, c', wd') ->
  c_rd c' = r' /\ w_in wd' = w_in wd1 /\
  match res with
  | Ok Continue => exists cmds, rres = Ok cmds
  | Ok (Return_ _) => True
  | Err _ => False
  | Panic => rres = Panic
  | OutOfFuel => rres = OutOfFuel
  end.
Proof.
  intros Hhj E. unfold handle_round. rewrite Hhj, E.
  destruct rres as [cmds|e| |].
  - assert (Hh : forall (h : handler) api,
              let X := (let '(_, c'0, wd2) :=
                          run_prog growslice (h (w_trace wd1) cmds) (set_rd c r')
                                   (log wd1 (EvHandler api cmds)) in (c'0, wd2)) in
              c_rd (fst X) = r' /\ w_in (snd X) = w_in wd1).
    { intros h api.
      pose proof (run_prog_rd growslice (h (w_trace wd1) cmds) (set_rd c r')
                    (log wd1 (EvHandler api cmds))) as Hp.
      pose proof (run_prog_in (h (w_trace wd1) cmds) (set_rd c r')
                    (log wd1 (EvHandler api cmds))) as Hi.
      destruct (run_prog growslice (h (w_trace wd1) cmds) (set_rd c r')
                  (log wd1 (EvHandler api cmds))) as [[u c2] wd2].
      split; [exact Hp|exact Hi]. }
    match goal with |- context [let '(a, b) := ?X in _] =>
      assert (Hx : c_rd (fst X) = r' /\ w_in (snd X) = w_in wd1);
        [|destruct X as [c2 wd2]] end.
    { destruct (0 <? length cmds); [|split; reflexivity].
      destruct (shandler cfg) as [h|]; [apply Hh|].
      destruct (bhandler cfg) as [h|]; [apply Hh|split; reflexivity]. }
    cbn [fst snd] in Hx. destruct Hx as [Hx1 Hx2].
    destruct (wr_err (c_wr c2)) as [e|].
    + destruct e; intros H; inversion H; subst; repeat split; assumption.
    + destruct (Flush (c_wr c2) wd2) as [[[e|] w'] wd''] eqn:Ef;
        apply Flush_in in Ef;
        intros H; inversion H; subst; cbn [c_rd set_wr];
        repeat split; try congruence. eauto.
  - destruct e;
      try (intros H; inversion H; subst; repeat split; reflexivity).
    match goal with |- context [Flush ?a ?b] =>
      destruct (Flush a b) as [[? ?] ?] eqn:Ef end.
    apply Flush_in in Ef.
    intros H; inversion H; subst; repeat split; assumption.
  - intros H; inversion H; subst; repeat split; reflexivity.
  - intros H; inversion H; subst; repeat split; reflexivity.
Qed.

Lemma handle_round_hijacked fuel cfg c wd :
  c_hj c = true ->
  handle_round growslice fuel cfg c wd = (Ok (Return_ (Some errHijacked)), c, wd).
Proof. intros H. unfold handle_round. rewrite H. reflexivity. Qed.

(** The measure that every round of the loop decreases. *)
Lemma handle_loop_total : forall fuel cfg c wd,
  reader_ok (c_rd c) ->
  length (pending (c_rd c)) + 2 * stream_size (w_in wd) + 1 < fuel ->
  fst (fst (handle_loop growslice fuel cfg c wd)) <> OutOfFuel.
Proof.
  induction fuel as [|fuel IH]; intros cfg c wd Hr Hf; [lia|].
  cbn [handle_loop].
  destruct (handle_round growslice fuel cfg c wd) as [[res c1] wd1] eqn:Er.
  destruct (c_hj c) eqn:Hhj.
  { rewrite handle_round_hijacked in Er by exact Hhj. inversion Er; subst.
    discriminate. }
  destruct (ReadCommands fuel (c_rd c) wd) as [[rres r'] wd0] eqn:E.
  destruct (handle_round_reads _ _ _ _ _ _ _ _ _ _ Hhj E Er) as (Hrd & Hin & Hres).
  pose proof (ReadCommands_total fuel (c_rd c) wd Hr ltac:(lia)) as Ht.
  rewrite E in Ht. cbn [fst] in Ht.
  destruct res as [[|err]|e| |]; cbn [fst]; try discriminate; try contradiction.
  destruct Hres as (cmds & ->).
  destruct (ReadCommands_keeps _ _ _ _ _ _ Hr E) as (_ & _ & Hss & Hprog).
  specialize (Hprog cmds eq_refl).
  apply IH.
  - rewrite Hrd. exact (ReadCommands_reader_ok _ _ _ _ _ _ Hr E).
  - rewrite Hrd, Hin. lia.
Qed.

Lemma handle_loop_safe : forall fuel cfg c wd,
  reader_ok (c_rd c) ->
  longest_digit_run (pending (c_rd c) ++ stream_bytes (w_in wd)) < 8 ->
  (Z.of_nat (length (pending (c_rd c) ++ stream_bytes (w_in wd))) < 2 ^ 62)%Z ->
  fst (fst (handle_loop growslice fuel cfg c wd)) <> Panic.
Proof.
  induction fuel as [|fuel IH]; intros cfg c wd Hr Hrun Hlen; [discriminate|].
  cbn [handle_loop].
  destruct (handle_round growslice fuel cfg c wd) as [[res c1] wd1] eqn:Er.
  destruct (c_hj c) eqn:Hhj.
  { rewrite handle_round_hijacked in Er by exact Hhj. inversion Er; subst.
    discriminate. }
  destruct (ReadCommands fuel (c_rd c) wd) as [[rres r'] wd0] eqn:E.
  destruct (handle_round_reads _ _ _ _ _ _ _ _ _ _ Hhj E Er) as (Hrd & Hin & Hres).
  pose proof (ReadCommands_safe fuel (c_rd c) wd Hr Hrun Hlen) as Hs.
  rewrite E in Hs. cbn [fst] in Hs.
  destruct res as [[|err]|e| |]; cbn [fst]; try discriminate; try contradiction.
  destruct (ReadCommands_keeps _ _ _ _ _ _ Hr E) as (_ & (k & Hk & Hkl) & _).
  apply IH.
  - rewrite Hrd. exact (ReadCommands_reader_ok _ _ _ _ _ _ Hr E).
  - rewrite Hrd, Hin, Hk.
    pose proof (longest_digit_run_skipn k (pending (c_rd c) ++ stream_bytes (w_in wd))).
    lia.
  - rewrite Hrd, Hin, Hk, length_skipn. lia.
Qed.

Lemma handle_of_loop fuel cfg s id c wd :
  (handle growslice fuel cfg s id c wd = OutOfFuel <->
   fst (fst (handle_loop growslice fuel cfg c wd)) = OutOfFuel) /\
  (handle growslice fuel cfg s id c wd = Panic <->
   fst (fst (handle_loop growslice fuel cfg c wd)) = Panic).
Proof.
  unfold handle, handle_run.
  destruct (handle_loop growslice fuel cfg c wd) as [[[err|e| |] c'] wd'];
    cbn [fst]; try (split; split; intros H; (discriminate H || reflexivity)).
  destruct (handle_deferred cfg s id c' wd' err) as [s' wd''].
  split; split; intros H; discriminate H.
Qed.

(** X15.  Serving a connection ends: on every stream that is finite,
    whatever the handler does with the commands, [handle] returns once it
    has fuel above the bytes buffered plus twice the bytes and reads left on
    the stream; more fuel gives the same result. *)
Theorem handle_terminates fuel fuel' cfg s id c wd :
  reader_ok (c_rd c) ->
  length (pending (c_rd c)) + 2 * stream_size (w_in wd) + 1 < fuel ->
  fuel <= fuel' ->
  handle growslice fuel cfg s id c wd <> OutOfFuel /\
  handle growslice fuel' cfg s id c wd = handle growslice fuel cfg s id c wd.
Proof.
  intros Hr Hf Hle.
  pose proof (handle_loop_total fuel cfg c wd Hr Hf) as Ht.
  split.
  - intros H. apply (proj1 (handle_of_loop fuel cfg s id c wd)) in H. exact (Ht H).
  - unfold handle, handle_run.
    destruct (handle_loop growslice fuel cfg c wd) as [[res c1] wd1] eqn:E.
    cbn [fst] in Ht.
    rewrite (handle_loop_mono growslice fuel fuel' cfg c wd res c1 wd1 E Ht Hle).
    reflexivity.
Qed.

(** X16.  Serving a connection raises no run-time panic on numbers below
    ten million: while the bytes buffered and still to come hold no run of
    8 or more consecutive digits (and are fewer than [2^62]), [handle]
    never indexes a buffer out of range and never passes [make] a capacity
    out of range, whatever else the client sends and however the stream
    cuts it. *)
Theorem handle_index_safe fuel cfg s id c wd :
  reader_ok (c_rd c) ->
  longest_digit_run (pending (c_rd c) ++ stream_bytes (w_in wd)) < 8 ->
  (Z.of_nat (length (pending (c_rd c) ++ stream_bytes (w_in wd))) < 2 ^ 62)%Z ->
  handle growslice fuel cfg s id c wd <> Panic.
Proof.
  intros Hr Hrun Hlen H.
  apply (proj2 (handle_of_loop fuel cfg s id c wd)) in H.
  exact (handle_loop_safe fuel cfg c wd Hr Hrun Hlen H).
Qed.

End EngineSafety.

Lemma handle_terminates_witness :
  reader_ok (c_rd sample_conn) /\
  length (pending (c_rd sample_conn)) + 2 * stream_size (w_in bad_world) + 1 < 40 /\
  handle sample_grow 40 sample_cfg sample_server 1 sample_conn bad_world
    <> OutOfFuel /\
  handle sample_grow 1000 sample_cfg sample_server 1 sample_conn bad_world =
    handle sample_grow 40 sample_cfg sample_server 1 sample_conn bad_world.
Proof.
  assert (Hf : length (pending (c_rd sample_conn))
               + 2 * stream_size (w_in bad_world) + 1 < 40) by (vm_compute; lia).
  split; [exact sample_conn_reader_ok|]. split; [exact Hf|].
  exact (handle_terminates sample_grow 40 1000 sample_cfg sample_server 1
           sample_conn bad_world sample_conn_reader_ok Hf ltac:(lia)).
Defined.

Lemma handle_index_safe_witness :
  let wd := mkWorld [RData (bs "*1" ++ CRLF ++ bs "$9999"); RFail 3;
                     RData (bs "999" ++ CRLF ++ bs "x")] [] false [] in
  reader_ok (c_rd sample_conn) /\
  longest_digit_run (pending (c_rd sample_conn) ++ stream_bytes (w_in wd)) < 8 /\
  handle sample_grow 50 sample_cfg sample_server 1 sample_conn wd <> Panic.
Proof.
  cbv zeta.
  set (wd := mkWorld [RData (bs "*1" ++ CRLF ++ bs "$9999"); RFail 3;
                      RData (bs "999" ++ CRLF ++ bs "x")] [] false []).
  assert (H1 : longest_digit_run
                 (pending (c_rd sample_conn) ++ stream_bytes (w_in wd)) < 8)
    by (vm_compute; lia).
  assert (H2 : (Z.of_nat (length (pending (c_rd sample_conn)
                                    ++ stream_bytes (w_in wd))) < 2 ^ 62)%Z)
    by (vm_compute; reflexivity).
  split; [exact sample_conn_reader_ok|]. split; [exact H1|].
  exact (handle_index_safe sample_grow 50 sample_cfg sample_server 1 sample_conn wd
           sample_conn_reader_ok H1 H2).
Defined.

(* ------------------------------------------------------------------ *)
(** ** The engine: what a connection leaves on the trace *)

Lemma trace_adds_refl P wd : trace_adds P wd wd.
Proof. exists []. split; [now rewrite app_nil_r|constructor]. Qed.

Lemma trace_adds_trans P wd1 wd2 wd3 :
  trace_adds P wd1 wd2 -> trace_adds P wd2 wd3 -> trace_adds P wd1 wd3.
Proof.
  intros (e1 & H1 & F1) (e2 & H2 & F2). exists (e1 ++ e2). split.
  - rewrite H2, H1, app_assoc. reflexivity.
  - apply Forall_app. split; assumption.
Qed.

Lemma trace_adds_same P wd wd' :
  w_trace wd' = w_trace wd -> trace_adds P wd wd'.
Proof. intros H. exists []. split; [now rewrite app_nil_r|constructor]. Qed.

Lemma trace_adds_one (P : event -> Prop) wd wd' e :
  w_trace wd' = w_trace wd ++ [e] -> P e -> trace_adds P wd wd'.
Proof. intros H He. exists [e]. split; [exact H|]. constructor; [exact He|constructor]. Qed.

Lemma stream_event_not_observer e : stream_event e -> not_observer e.
Proof. intros H err ->. exact H. Qed.

Lemma trace_adds_weaken wd wd' :
  trace_adds stream_event wd wd' -> trace_adds not_observer wd wd'.
Proof.
  intros (evs & H & F). exists evs. split; [exact H|].
  eapply Forall_impl; [|exact F]. exact stream_event_not_observer.
Qed.

Lemma Flush_trace w wd e w' wd' :
  Flush w wd = (e, w', wd') -> trace_adds stream_event wd wd'.
Proof.
  unfold Flush. destruct (wr_err w);
    [intros H; inversion H; apply trace_adds_refl|].
  destruct (length (wr_b w) =? 0);
    [intros H; inversion H; apply trace_adds_refl|].
  destruct (stream_write wd (wr_b w)) as [[e1|] wd1] eqn:Hw;
    apply stream_write_trace in Hw; intros H; inversion H; subst;
    (eapply trace_adds_one; [exact Hw|exact I]).
Qed.

Lemma stream_close_trace wd : trace_adds stream_event wd (stream_close wd).
Proof. eapply trace_adds_one; [reflexivity|exact I]. Qed.

Lemma conn_Close_trace c wd e c' wd' :
  conn_Close c wd = (e, c', wd') ->
  trace_adds stream_event wd wd' /\ w_closed wd' = true.
Proof.
  unfold conn_Close, writer_Close.
  destruct (wr_err (c_wr c)).
  { intros H; inversion H. split; [apply stream_close_trace|reflexivity]. }
  destruct (Flush (c_wr c) wd) as [[[e1|] w1] wd1] eqn:Ef;
    apply Flush_trace in Ef; intros H; inversion H; subst;
    (split; [|reflexivity]);
    (eapply trace_adds_trans; [exact Ef|apply stream_close_trace]).
Qed.

Section EngineTrace.

Variable growslice : nat -> nat -> nat.

Lemma run_prog_trace {R} (p : prog R) : forall c wd,
  trace_adds stream_event wd (snd (run_prog growslice p c wd)).
Proof.
  induction p as [r|call k IH|n k IH|v k IH|k IH|k IH|k IH|k IH]; intros c wd;
    cbn [run_prog]; try apply IH; try apply trace_adds_refl.
  destruct (conn_Close c wd) as [[err c'] wd'] eqn:E.
  apply conn_Close_trace in E as [E _].
  eapply trace_adds_trans; [exact E|apply IH].
Qed.

Lemma handle_round_trace fuel cfg c wd res c' wd' :
  handle_round growslice fuel cfg c wd = (res, c', wd') ->
  trace_adds not_observer wd wd'.
Proof.
  unfold handle_round. destruct (c_hj c).
  { intros H; inversion H; apply trace_adds_refl. }
  destruct (ReadCommands fuel (c_rd c) wd) as [[rres r'] wd1] eqn:E.
  apply ReadCommands_world in E as (Etr & _ & _).
  apply (trace_adds_same not_observer) in Etr.
  destruct rres as [cmds|e| |].
  - assert (Hh : forall (h : handler) api,
              trace_adds not_observer wd1 (snd (let '(_, c'0, wd2) :=
                          run_prog growslice (h (w_trace wd1) cmds) (set_rd c r')
                                   (log wd1 (EvHandler api cmds)) in (c'0, wd2)))).
    { intros h api.
      pose proof (run_prog_trace (h (w_trace wd1) cmds) (set_rd c r')
                    (log wd1 (EvHandler api cmds))) as Hp.
      destruct (run_prog growslice (h (w_trace wd1) cmds) (set_rd c r')
                  (log wd1 (EvHandler api cmds))) as [[u c2] wd2].
      cbn [snd] in *. eapply trace_adds_trans; [|apply trace_adds_weaken; exact Hp].
      eapply trace_adds_one; [reflexivity|intros err; discriminate]. }
    match goal with |- context [let '(a, b) := ?X in _] =>
      assert (Hx : trace_adds not_observer wd1 (snd X)); [|destruct X as [c2 wd2]] end.
    { destruct (0 <? length cmds); [|apply trace_adds_refl].
      destruct (shandler cfg) as [h|]; [apply Hh|].
      destruct (bhandler cfg) as [h|]; [apply Hh|apply trace_adds_refl]. }
    cbn [snd] in Hx.
    pose proof (trace_adds_trans _ _ _ _ Etr Hx) as Hx'.
    destruct (wr_err (c_wr c2)) as [e|].
    + destruct e; intros H; inversion H; subst; exact Hx'.
    + destruct (Flush (c_wr c2) wd2) as [[[e|] w'] wd''] eqn:Ef;
        apply Flush_trace, trace_adds_weaken in Ef; intros H; inversion H; subst;
        (eapply trace_adds_trans; [exact Hx'|exact Ef]).
  - destruct e; try (intros H; inversion H; subst; exact Etr).
    match goal with |- context [Flush ?a ?b] =>
      destruct (Flush a b) as [[? ?] ?] eqn:Ef end.
    apply Flush_trace, trace_adds_weaken in Ef. intros H; inversion H; subst.
    eapply trace_adds_trans; [exact Etr|exact Ef].
  - intros H; inversion H; subst; exact Etr.
  - intros H; inversion H; subst; exact Etr.
Qed.

Lemma handle_loop_trace : forall fuel cfg c wd res c' wd',
  handle_loop growslice fuel cfg c wd = (res, c', wd') ->
  trace_adds not_observer wd wd'.
Proof.
  induction fuel as [|fuel IH]; intros cfg c wd res c' wd' H.
  - inversion H; apply trace_adds_refl.
  - cbn [handle_loop] in H.
    destruct (handle_round growslice fuel cfg c wd) as [[r1 c1] wd1] eqn:Er.
    apply handle_round_trace in Er.
    destruct r1 as [[|err]|e| |]; try (inversion H; subst; exact Er).
    eapply trace_adds_trans; [exact Er|]. eapply IH. exact H.
Qed.

Lemma handle_round_not_err fuel cfg c wd e c' wd' :
  handle_round growslice fuel cfg c wd <> (Err e, c', wd').
Proof.
  intros H. destruct (c_hj c) eqn:Hhj.
  { rewrite handle_round_hijacked in H by exact Hhj. discriminate H. }
  destruct (ReadCommands fuel (c_rd c) wd) as [[rres r'] wd1] eqn:E.
  exact (proj2 (proj2 (handle_round_reads growslice _ _ _ _ _ _ _ _ _ _ Hhj E H))).
Qed.

Lemma handle_loop_not_err : forall fuel cfg c wd e c' wd',
  handle_loop growslice fuel cfg c wd <> (Err e, c', wd').
Proof.
  induction fuel as [|fuel IH]; intros cfg c wd e c' wd' H; [discriminate H|].
  cbn [handle_loop] in H.
  destruct (handle_round growslice fuel cfg c wd) as [[r1 c1] wd1] eqn:Er.
  destruct r1 as [[|err]|e1| |]; try discriminate H.
  - exact (IH _ _ _ _ _ _ H).
  - exact (handle_round_not_err _ _ _ _ _ _ _ Er).
Qed.

(** X17.  However the loop ends, by returning or by panicking, [handle]
    finishes the connection in the same way: unless the connection was
    hijacked it closes the stream, and then, if an observer is installed,
    it calls the observer, once, as the very last action, with the error of
    the loop ([io.EOF] turned into no error; no error either when the loop
    panicked, since nothing was assigned to [err]).  Nothing before that is
    a call of the observer, and the connection is gone from the registry of
    the server. *)
Theorem handle_exit fuel cfg s id c wd res s' c' wdf :
  handle_run growslice fuel cfg s id c wd = (res, s', c', wdf) ->
  res <> OutOfFuel ->
  let err := match res with Ok e => e | _ => None end in
  exists evs,
    Forall not_observer evs /\
    w_trace wdf =
      w_trace wd ++ evs
        ++ (if is_hijacked err then [] else [EvConnClose])
        ++ (if closed cfg
            then [EvClosed (match err with Some io_EOF => None | _ => err end)]
            else []) /\
    (is_hijacked err = false -> w_closed wdf = true) /\
    s_conns s' = remove Nat.eq_dec id (s_conns s).
Proof.
  unfold handle_run.
  destruct (handle_loop growslice fuel cfg c wd) as [[[e1|e1| |] c1] wd1] eqn:El.
  - apply handle_loop_trace in El as (evs & Htr & Hev).
    unfold handle_deferred. intros H _. exists evs. split; [exact Hev|].
    destruct (is_hijacked e1) eqn:Hhj; destruct (closed cfg);
      inversion H; subst;
      cbn [w_trace log stream_close w_closed s_conns];
      rewrite Hhj, Htr, <- ?app_assoc; cbn [app]; rewrite ?app_nil_r;
      repeat split; try reflexivity; discriminate.
  - exfalso. exact (handle_loop_not_err _ _ _ _ _ _ _ El).
  - apply handle_loop_trace in El as (evs & Htr & Hev).
    unfold handle_deferred. intros H _. exists evs. split; [exact Hev|].
    destruct (closed cfg);
      inversion H; subst;
      cbn [is_hijacked w_trace log stream_close w_closed s_conns];
      rewrite Htr, <- ?app_assoc; cbn [app]; rewrite ?app_nil_r;
      repeat split; reflexivity.
  - intros H Hne. inversion H; subst. congruence.
Qed.

End EngineTrace.

Lemma handle_exit_witness :
  exists s' c' wdf,
    handle_run sample_grow 40 sample_cfg sample_server 1 sample_conn
               huge_count_world = (Panic, s', c', wdf) /\
    w_trace wdf = [EvConnClose; EvClosed None] /\
    exists evs,
      Forall not_observer evs /\
      w_trace wdf =
        w_trace huge_count_world ++ evs ++ [EvConnClose] ++ [EvClosed None] /\
      (false = false -> w_closed wdf = true) /\
      s_conns s' = remove Nat.eq_dec 1 (s_conns sample_server).
Proof.
  eexists _, _, _.
  match goal with |- ?A /\ _ => assert (H : A) by (vm_compute; reflexivity) end.
  split; [exact H|]. split; [reflexivity|].
  exact (handle_exit sample_grow 40 sample_cfg sample_server 1 sample_conn
           huge_count_world _ _ _ _ H ltac:(discriminate)).
Defined.

(* ------------------------------------------------------------------ *)
(** ** The errors of [ReadCommands] *)

Lemma byte_at_no_err b i e : byte_at b i <> Err e.
Proof. unfold byte_at. destruct (nth_error b i); discriminate. Qed.

Lemma byte_atZ_no_err b i e : byte_atZ b i <> Err e.
Proof. unfold byte_atZ. destruct (i <? 0)%Z; [discriminate|apply byte_at_no_err]. Qed.

Lemma slice_no_err b lo hi e : slice b lo hi <> Err e.
Proof. unfold slice. destruct (_ && _); discriminate. Qed.

Lemma slice_from_no_err b lo e : slice_from b lo <> Err e.
Proof. unfold slice_from. destruct (_ <=? _); discriminate. Qed.

Lemma is_protocol_intro msg : is_protocol (errProtocol msg).
Proof. now exists msg. Qed.

Ltac no_err :=
  exfalso;
  match goal with
  | H : byte_at _ _ = Err _ |- _ => exact (byte_at_no_err _ _ _ H)
  | H : byte_atZ _ _ = Err _ |- _ => exact (byte_atZ_no_err _ _ _ H)
  | H : slice _ _ _ = Err _ |- _ => exact (slice_no_err _ _ _ _ H)
  | H : slice_from _ _ = Err _ |- _ => exact (slice_from_no_err _ _ _ H)
  end.

Ltac protocol H :=
  first [ discriminate H
        | inversion H; subst; apply is_protocol_intro ].

Lemma inline_inner_err : forall rest i nl args q e err,
  inline_inner rest i nl args q e = IReturn err -> is_protocol err.
Proof.
  induction rest as [|c rest IH]; intros i nl args q e err H; [discriminate|].
  cbn [inline_inner] in H.
  destruct (negb q).
  - destruct (Byte.eqb c " "); [discriminate|].
    destruct (Byte.eqb c DQUOTE); [|eapply IH; eassumption].
    destruct (negb (i =? 0)); protocol H.
  - destruct e; [eapply IH; eassumption|].
    destruct (Byte.eqb c DQUOTE).
    + destruct rest as [|c' rest']; [discriminate|].
      destruct (negb (Byte.eqb c' " ")); protocol H.
    + destruct (Byte.eqb c "\"); eapply IH; eassumption.
Qed.

Lemma inline_outer_err : forall fuel line args q e err,
  inline_outer fuel line args q e = Err err -> is_protocol err.
Proof.
  induction fuel as [|fuel IH]; intros line args q e err H; [discriminate|].
  cbn [inline_outer] in H.
  destruct (inline_inner line 0 [] args q e) eqn:Ei.
  - eapply IH; eassumption.
  - inversion H; subst. eapply inline_inner_err; eassumption.
  - destruct q; protocol H.
Qed.

Lemma inline_scan_err : forall rest b i cmds err,
  inline_scan b rest i cmds = Err err -> is_protocol err.
Proof.
  induction rest as [|c rest IH]; intros b i cmds err H; [discriminate|].
  cbn [inline_scan] in H.
  destruct (Byte.eqb c LF); [|eapply IH; eassumption].
  match type of H with context [bind ?m _] => destruct m as [line|e0| |] eqn:El end;
    cbn [bind] in H; try discriminate.
  - destruct (inline_args line) as [args|e1| |] eqn:Ea; cbn [bind] in H;
      try discriminate.
    + destruct (slice_from b (i + 1)) eqn:Es; cbn [bind] in H; try discriminate.
      no_err.
    + inversion H; subst. eapply inline_outer_err; exact Ea.
  - exfalso. destruct (0 <? i).
    + destruct (byte_at b (i - 1)) eqn:Eb; cbn [bind] in El; try discriminate.
      * destruct (Byte.eqb a CR); no_err.
      * no_err.
    + no_err.
Qed.

Lemma read_bulk_err : forall rest b si i err,
  read_bulk b si rest i = Err err -> is_protocol err.
Proof.
  induction rest as [|c rest IH]; intros b si i err H; [discriminate|].
  cbn [read_bulk] in H.
  destruct (Byte.eqb c LF); [|eapply IH; eassumption].
  match type of H with context [bind ?m _] => destruct m as [p|e0| |] eqn:Ep end;
    cbn [bind] in H; try discriminate.
  2:{ destruct (0 <? i); [no_err|discriminate]. }
  destruct (negb (Byte.eqb p CR)); [protocol H|].
  destruct (slice b (si + 1) (i - 1)) eqn:Es; cbn [bind] in H; try discriminate;
    [|no_err].
  destruct (parseInt a) as [n| | |]; try discriminate; [|protocol H].
  destruct (n <? 0)%Z; [protocol H|].
  destruct (_ <=? _)%Z; [discriminate|].
  match type of H with context [bind ?m _] => destruct m as [c2|e0| |] eqn:E2 end;
    cbn [bind] in H; try discriminate; [|no_err].
  destruct (negb (Byte.eqb c2 LF)); [protocol H|].
  match type of H with context [bind ?m _] => destruct m as [c1|e0| |] eqn:E1 end;
    cbn [bind] in H; try discriminate; [|no_err].
  destruct (negb (Byte.eqb c1 CR)); [protocol H|].
  match type of H with context [bind ?m _] => destruct m as [arg|e0| |] eqn:E3 end;
    cbn [bind] in H; try discriminate. no_err.
Qed.

Lemma read_args_err : forall n b si i args err,
  read_args n b si i args = Err err -> is_protocol err.
Proof.
  induction n as [|n IH]; intros b si i args err H; [discriminate|].
  cbn [read_args] in H.
  destruct (S i <? length b); [|eapply IH; eassumption].
  destruct (byte_at b (S i)) as [c|e0| |] eqn:Eb; cbn [bind] in H; try discriminate;
    [|no_err].
  destruct (negb (Byte.eqb c "$")); [protocol H|].
  destruct (read_bulk b (S i) (skipn (S i) b) (S i)) as [[i' arg| |i']|e0| |] eqn:Er;
    cbn [bind] in H; try discriminate; try (eapply IH; eassumption).
  inversion H; subst. eapply read_bulk_err; exact Er.
Qed.

Lemma resp_loop_err : forall fuel b si i cmds err,
  resp_loop fuel b si i cmds = Err err -> is_protocol err.
Proof.
  induction fuel as [|fuel IH]; intros b si i cmds err H; cbn [resp_loop] in H.
  - destruct (i <? length b); discriminate.
  - destruct (i <? length b); [|discriminate].
    destruct (byte_at b i) as [c|e0| |] eqn:Eb; cbn [bind] in H; try discriminate;
      [|no_err].
    destruct (Byte.eqb c LF); [|eapply IH; eassumption].
    match type of H with context [bind ?m _] => destruct m as [p|e0| |] eqn:Ep end;
      cbn [bind] in H; try discriminate.
    2:{ destruct (0 <? i); [no_err|discriminate]. }
    destruct (negb (Byte.eqb p CR)); [protocol H|].
    destruct (slice b (si + 1) (i - 1)) eqn:Es; cbn [bind] in H; try discriminate;
      [|no_err].
    destruct (parseInt a) as [n| | |]; try discriminate; [|protocol H].
    destruct (n <=? 0)%Z; [protocol H|].
    destruct (negb (makeslice_ok n)); [discriminate H|].
    destruct (read_args (Z.to_nat n) b si i []) as [[[[si' i'] args]|]|e0| |] eqn:Ea;
      cbn [bind] in H; try discriminate.
    + destruct (_ =? _)%Z; [|eapply IH; eassumption].
      destruct (slice_from b (i' + 1)) eqn:Esf; cbn [bind] in H; try discriminate.
      no_err.
    + inversion H; subst. eapply read_args_err; exact Ea.
Qed.

Lemma parse_next_err : forall fuel b cmds err,
  parse_next fuel b cmds = Err err -> is_protocol err.
Proof.
  induction fuel as [|fuel IH]; intros b cmds err H; [discriminate|].
  cbn [parse_next] in H.
  destruct (byte_at b 0) as [c|e0| |] eqn:Eb; cbn [bind] in H; try discriminate;
    [|no_err].
  match type of H with context [bind ?m _] => destruct m as [r|e0| |] eqn:Er end;
    cbn [bind] in H; try discriminate.
  - destruct r as [[cmds' b']|]; [|discriminate].
    destruct (0 <? length b'); [eapply IH; eassumption|discriminate].
  - inversion H; subst. destruct (Byte.eqb c "*").
    + eapply resp_loop_err; exact Er.
    + eapply inline_scan_err; exact Er.
Qed.

Lemma parse_buffered_err r err : parse_buffered r = Err err -> is_protocol err.
Proof.
  unfold parse_buffered. destruct (rd_start r <? rd_end r); [|discriminate].
  destruct (slice (rd_buf r) (rd_start r) (rd_end r)) eqn:Es; cbn [bind];
    try discriminate; [|intros; no_err].
  destruct (parse a) as [[cs b']|e0| |] eqn:Ep; cbn [bind]; try discriminate.
  intros H; inversion H; subst. eapply parse_next_err; exact Ep.
Qed.

Lemma stream_read_errors w n e w' :
  stream_read w n = (inr e, w') -> e = io_EOF \/ exists code, e = errNet code.
Proof.
  unfold stream_read. destruct (w_closed w).
  - intros H; inversion H. right. now exists 0.
  - destruct (w_in w) as [|[d0|code] rest].
    + intros H; inversion H. now left.
    + destruct (length d0 <=? n); discriminate.
    + intros H; inversion H. right. now exists code.
Qed.

(** [ReadCommands] never fails with the sentinel of a hijacked
    connection. *)
Lemma ReadCommands_not_hijacked : forall fuel r w e r' w',
  ReadCommands fuel r w = (Err e, r', w') -> is_hijacked (Some e) = false.
Proof.
  induction fuel as [|fuel IH]; intros r w e r' w' H; [discriminate H|].
  cbn [ReadCommands] in H.
  destruct (parse_buffered r) as [[cs r1]|e0| |] eqn:Ep; try discriminate H.
  - destruct (0 <? length cs); [discriminate H|]. cbv zeta in H.
    destruct (length (rd_buf (grow r1)) <? rd_end (grow r1)); [discriminate H|].
    destruct (stream_read w _) as [[d|e1] w1] eqn:Es; [eapply IH; exact H|].
    destruct (stream_read_errors _ _ _ _ Es) as [->|[code ->]].
    + destruct (0 <? rd_end (grow r1)); inversion H; reflexivity.
    + inversion H; reflexivity.
  - inversion H; subst. destruct (parse_buffered_err _ _ Ep) as [msg ->].
    reflexivity.
Qed.


(** X18.  [ReadCommands] fails in four ways only: with a protocol error,
    with [io.EOF], with [io.ErrUnexpectedEOF], or with the error that the
    stream returned.  The "invalid number" of [parseInt] in particular never
    leaves the parser. *)
Theorem ReadCommands_error_kinds fuel r w e r' w' :
  ReadCommands fuel r w = (Err e, r', w') ->
  is_protocol e \/ e = io_EOF \/ e = io_ErrUnexpectedEOF \/
  exists code, e = errNet code.
Proof.
  revert r w e r' w'.
  induction fuel as [|fuel IH]; intros r w e r' w' H; [discriminate H|].
  cbn [ReadCommands] in H.
  destruct (parse_buffered r) as [[cs r1]|e0| |] eqn:Ep; try discriminate H.
  - destruct (0 <? length cs); [discriminate H|]. cbv zeta in H.
    destruct (length (rd_buf (grow r1)) <? rd_end (grow r1)); [discriminate H|].
    destruct (stream_read w _) as [[d|e1] w1] eqn:Es; [eapply IH; exact H|].
    destruct (stream_read_errors _ _ _ _ Es) as [->|[code ->]].
    + destruct (0 <? rd_end (grow r1)); inversion H; subst; auto.
    + inversion H; subst. right. right. right. now exists code.
  - inversion H; subst. left. eapply parse_buffered_err; exact Ep.
Qed.

Lemma ReadCommands_error_kinds_witness :
  let w := mkWorld [RData (bs "*x" ++ CRLF)] [] false [] in
  fst (fst (ReadCommands 5 (newReader (repeat x00 8)) w))
    = Err errInvalidMultiBulkLength /\
  (is_protocol errInvalidMultiBulkLength \/ errInvalidMultiBulkLength = io_EOF \/
   errInvalidMultiBulkLength = io_ErrUnexpectedEOF \/
   exists code, errInvalidMultiBulkLength = errNet code).
Proof.
  cbv zeta. split; [reflexivity|].
  set (r := newReader (repeat x00 8)).
  set (w := mkWorld [RData (bs "*x" ++ CRLF)] [] false []).
  assert (E : ReadCommands 5 r w =
              (Err errInvalidMultiBulkLength, snd (fst (ReadCommands 5 r w)),
               snd (ReadCommands 5 r w))) by reflexivity.
  exact (ReadCommands_error_kinds 5 r w _ _ _ E).
Defined.

(* ------------------------------------------------------------------ *)
(** ** The engine: rounds of the loop *)

Section EngineRounds.

Variable growslice : nat -> nat -> nat.

Lemma set_wr_set_wr c w1 w2 : set_wr (set_wr c w1) w2 = set_wr c w2.
Proof. reflexivity. Qed.

Lemma run_prog_replies (k : prog unit) : forall calls c wd,
  run_prog growslice (replies calls k) c wd =
  run_prog growslice k (set_wr c (write_calls growslice (c_wr c) calls)) wd.
Proof.
  induction calls as [|call calls IH]; intros c wd.
  - cbn [replies fold_right write_calls fold_left]. destruct c; reflexivity.
  - change (replies (call :: calls) k) with (DoWrite call (replies calls k)).
    cbn [run_prog]. rewrite IH. unfold conn_write. cbn [c_wr set_wr].
    reflexivity.
Qed.

Lemma ReadCommands_Ok_nonempty : forall fuel r w cmds r' w',
  ReadCommands fuel r w = (Ok cmds, r', w') -> (0 <? length cmds) = true.
Proof.
  induction fuel as [|fuel IH]; intros r w cmds r' w' H; [discriminate H|].
  cbn [ReadCommands] in H.
  destruct (parse_buffered r) as [[cs r1]| | |]; try discriminate H.
  destruct (0 <? length cs) eqn:Hl; [inversion H; subst; exact Hl|].
  cbv zeta in H.
  destruct (length (rd_buf (grow r1)) <? rd_end (grow r1)); [discriminate H|].
  destruct (stream_read w _) as [[d|e] w1]; [eapply IH; exact H|].
  destruct e; try destruct (0 <? rd_end (grow r1)); discriminate H.
Qed.

(** X19.  The replies to a batch go out together: when the handler has
    answered the commands of a batch with [Write*] calls, the engine passes
    the concatenation of all the replies to the stream in one write, after
    the handler has returned.  The loop goes on when the write succeeds and
    returns its error when it fails. *)
Theorem batch_replies_one_write fuel cfg c wd cmds r' wd1 h calls res wd2 :
  c_hj c = false -> wr_err (c_wr c) = None -> wr_b (c_wr c) = [] ->
  ReadCommands fuel (c_rd c) wd = (Ok cmds, r', wd1) ->
  shandler cfg = Some h -> h (w_trace wd1) cmds = replies calls (Return tt) ->
  List.concat (map encoding calls) <> [] ->
  stream_write (log wd1 (EvHandler false cmds)) (List.concat (map encoding calls))
    = (res, wd2) ->
  exists c',
    handle_round growslice fuel cfg c wd =
      (Ok (match res with None => Continue | Some e => Return_ (Some e) end),
       c', wd2) /\
    w_trace wd2 =
      w_trace wd ++ [EvHandler false cmds;
                     EvWrite (List.concat (map encoding calls)) res] /\
    wr_b (c_wr c') =
      match res with None => [] | Some _ => List.concat (map encoding calls) end.
Proof.
  intros Hhj He Hb HR Hs Hh Hout Hw.
  pose proof (ReadCommands_Ok_nonempty _ _ _ _ _ _ HR) as Hne.
  pose proof (ReadCommands_world _ _ _ _ _ _ HR) as (Htr & _ & _).
  destruct (write_calls_appends growslice calls (c_wr c) He) as [Hwb Hwe].
  rewrite Hb in Hwb. cbn [app] in Hwb.
  set (out := List.concat (map encoding calls)) in *.
  set (w1 := write_calls growslice (c_wr c) calls) in *.
  assert (Hlen : (length out =? 0) = false).
  { apply Nat.eqb_neq. destruct out; [congruence|discriminate]. }
  unfold handle_round. rewrite Hhj, HR, Hne, Hs, Hh, run_prog_replies.
  cbn [run_prog c_wr set_rd set_wr]. fold w1. rewrite Hwe.
  unfold Flush. rewrite Hwe, Hwb, Hlen, Hw.
  destruct res as [e|]; eexists; (split; [reflexivity|]);
    (split; [|reflexivity]);
    rewrite (stream_write_trace _ _ _ _ Hw); cbn [log w_trace];
    rewrite Htr, <- app_assoc; reflexivity.
Qed.

End EngineRounds.

Lemma batch_replies_one_write_witness :
  exists c' wd2,
    handle_round sample_grow 10 sample_cfg sample_conn ping_world =
      (Ok Continue, c', wd2) /\
    w_trace wd2 =
      w_trace ping_world ++ [EvHandler false [[bs "ping"]];
                             EvWrite (bs "+PONG" ++ CRLF) None] /\
    wr_b (c_wr c') = [].
Proof.
  set (rc := ReadCommands 10 (c_rd sample_conn) ping_world).
  set (calls := [CallWriteString (bs "PONG")]).
  set (wr := stream_write (log (snd rc) (EvHandler false [[bs "ping"]]))
                          (List.concat (map encoding calls))).
  assert (HR : ReadCommands 10 (c_rd sample_conn) ping_world =
               (Ok [[bs "ping"]], snd (fst rc), snd rc)) by reflexivity.
  assert (Hw : stream_write (log (snd rc) (EvHandler false [[bs "ping"]]))
                 (List.concat (map encoding calls)) = (None, snd wr)) by reflexivity.
  destruct (batch_replies_one_write sample_grow 10 sample_cfg sample_conn ping_world
              [[bs "ping"]] (snd (fst rc)) (snd rc) pong calls None (snd wr)
              eq_refl eq_refl eq_refl HR eq_refl eq_refl ltac:(discriminate) Hw)
    as (c' & H1 & H2 & H3).
  exists c', (snd wr). split; [exact H1|]. split; [exact H2|exact H3].
Defined.

Section EngineExits.

Variable growslice : nat -> nat -> nat.

Lemma is_protocol_dec e : is_protocol e \/ ~ is_protocol e.
Proof.
  destruct e; try (right; intros [msg H]; discriminate H).
  left. apply is_protocol_intro.
Qed.

(** X20.  Only a protocol error is answered.  When [ReadCommands] fails
    with anything else (the end of the stream, an error of the stream)
    [handle] writes nothing, not even replies that are still buffered in
    the writer: it closes the stream, tells the observer and returns the
    error. *)
Theorem read_error_not_answered cfg s id c0 wd0 c wd fuel e r' wd' :
  rounds growslice cfg c0 wd0 c wd -> c_hj c = false ->
  ReadCommands fuel (c_rd c) wd = (Err e, r', wd') -> ~ is_protocol e ->
  exists fuel' s' wdf,
    handle growslice fuel' cfg s id c0 wd0 = Ok (Some e, s', set_rd c r', wdf) /\
    c_wr (set_rd c r') = c_wr c /\
    w_trace wdf =
      w_trace wd ++ EvConnClose ::
        (if closed cfg
         then [EvClosed (match e with io_EOF => None | _ => Some e end)]
         else []).
Proof.
  intros Hrounds Hhj HR Hnp.
  pose proof (ReadCommands_world _ _ _ _ _ _ HR) as (Htr & _ & _).
  assert (Hround : handle_round growslice fuel cfg c wd =
                   (Ok (Return_ (Some e)), set_rd c r', wd')).
  { unfold handle_round. rewrite Hhj, HR.
    destruct e; try reflexivity. exfalso. apply Hnp, is_protocol_intro. }
  assert (Hloop : handle_loop growslice (S fuel) cfg c wd =
                  (Ok (Some e), set_rd c r', wd')).
  { cbn [handle_loop]. rewrite Hround. reflexivity. }
  destruct (handle_loop_rounds growslice cfg _ _ _ _ Hrounds _ _ _ _ Hloop)
    as [fuel' Hloop'].
  pose proof (ReadCommands_not_hijacked _ _ _ _ _ _ HR) as Hh.
  exists fuel'. eexists _, _. split.
  { unfold handle, handle_run. rewrite Hloop'. unfold handle_deferred. rewrite Hh. reflexivity. }
  split; [reflexivity|].
  destruct (closed cfg); cbn [w_trace log stream_close]; rewrite Htr, <- ?app_assoc;
    [|reflexivity].
  destruct e; reflexivity.
Qed.

Lemma write_calls_sticky calls : forall w e,
  wr_err w = Some e -> write_calls growslice w calls = w.
Proof.
  induction calls as [|call calls IH]; intros w e He; [reflexivity|].
  cbn [write_calls fold_left]. rewrite (do_write_sticky growslice w e call He).
  cbn [snd]. exact (IH w e He).
Qed.

Lemma stream_write_error wd b e wd' :
  stream_write wd b = (Some e, wd') -> exists code, e = errNet code.
Proof.
  unfold stream_write. destruct (w_closed wd).
  - intros H; inversion H. now exists 0.
  - destruct (w_wres wd) as [|[code|] rest]; intros H; inversion H.
    now exists code.
Qed.

(** X21.  A handler that closes the connection ends it without error.
    [Close] flushes the replies written before it in one write and closes
    the stream; replies written after it are dropped; the loop then returns
    no error (or the error of that write), [handle] closes the stream a
    second time, and the observer is told of no error. *)
Theorem handler_close_exit cfg s id c0 wd0 c wd fuel cmds r' wd1 h calls1 calls2
    res wd2 :
  rounds growslice cfg c0 wd0 c wd -> c_hj c = false ->
  wr_err (c_wr c) = None -> wr_b (c_wr c) = [] ->
  ReadCommands fuel (c_rd c) wd = (Ok cmds, r', wd1) ->
  shandler cfg = Some h ->
  h (w_trace wd1) cmds =
    replies calls1 (DoClose (fun _ => replies calls2 (Return tt))) ->
  List.concat (map encoding calls1) <> [] ->
  stream_write (log wd1 (EvHandler false cmds)) (List.concat (map encoding calls1))
    = (res, wd2) ->
  exists fuel' s' c' wdf,
    handle growslice fuel' cfg s id c0 wd0 = Ok (res, s', c', wdf) /\
    w_trace wdf =
      w_trace wd ++ [EvHandler false cmds;
                     EvWrite (List.concat (map encoding calls1)) res;
                     EvConnClose; EvConnClose]
        ++ (if closed cfg then [EvClosed res] else []).
Proof.
  intros Hrounds Hhj He Hb HR Hs Hh Hout Hw.
  pose proof (ReadCommands_Ok_nonempty _ _ _ _ _ _ HR) as Hne.
  pose proof (ReadCommands_world _ _ _ _ _ _ HR) as (Htr & _ & _).
  destruct (write_calls_appends growslice calls1 (c_wr c) He) as [Hwb Hwe].
  rewrite Hb in Hwb. cbn [app] in Hwb.
  set (out := List.concat (map encoding calls1)) in *.
  set (w1 := write_calls growslice (c_wr c) calls1) in *.
  assert (Hlen : (length out =? 0) = false).
  { apply Nat.eqb_neq. destruct out; [congruence|discriminate]. }
  pose proof (stream_write_trace _ _ _ _ Hw) as Htr2.
  assert (Hround : exists c',
            handle_round growslice fuel cfg c wd =
              (Ok (Return_ res), c', stream_close wd2)).
  { unfold handle_round. rewrite Hhj, HR, Hne, Hs, Hh, run_prog_replies.
    cbn [run_prog]. unfold conn_Close, writer_Close.
    cbn [c_wr set_rd set_wr]. fold w1. rewrite Hwe.
    unfold Flush. rewrite Hwe, Hwb, Hlen, Hw.
    destruct res as [e|].
    - destruct (stream_write_error _ _ _ _ Hw) as [code ->].
      rewrite run_prog_replies. cbn [run_prog c_wr set_wr].
      rewrite (write_calls_sticky calls2 _ (errNet code)) by reflexivity.
      cbn [wr_err]. eexists. reflexivity.
    - rewrite run_prog_replies. cbn [run_prog c_wr set_wr].
      rewrite (write_calls_sticky calls2 _ errClosed) by reflexivity.
      cbn [wr_err]. eexists. reflexivity. }
  destruct Hround as [c' Hround].
  assert (Hloop : handle_loop growslice (S fuel) cfg c wd =
                  (Ok res, c', stream_close wd2)).
  { cbn [handle_loop]. rewrite Hround. reflexivity. }
  destruct (handle_loop_rounds growslice cfg _ _ _ _ Hrounds _ _ _ _ Hloop)
    as [fuel' Hloop'].
  assert (Hres : is_hijacked res = false /\
                 match res with Some io_EOF => None | _ => res end = res).
  { destruct res as [e|]; [|split; reflexivity].
    destruct (stream_write_error _ _ _ _ Hw) as [code ->]. split; reflexivity. }
  destruct Hres as [Hhjk Hobs].
  exists fuel'. eexists _, c', _. split.
  { unfold handle, handle_run. rewrite Hloop'. unfold handle_deferred. rewrite Hhjk.
    reflexivity. }
  destruct (closed cfg); cbn [w_trace log stream_close];
    rewrite ?Hobs, Htr2; cbn [log w_trace]; rewrite Htr, <- ?app_assoc;
    reflexivity.
Qed.

Lemma run_prog_refusing : forall calls c wd,
  run_prog growslice (refusing calls) c wd =
  (false, set_wr c (write_calls growslice (c_wr c) calls), wd).
Proof.
  induction calls as [|call calls IH]; intros c wd.
  - cbn [refusing fold_right write_calls fold_left run_prog]. destruct c; reflexivity.
  - change (refusing (call :: calls)) with (DoWrite call (refusing calls)).
    cbn [run_prog]. rewrite IH. unfold conn_write. cbn [c_wr set_wr].
    reflexivity.
Qed.

(** The connection that the accept loop builds: the buffers are the last
    ones of the pools. *)
Lemma new_conn_server s id addr :
  fst (new_conn s id addr) =
  mkServer (id :: s_conns s) (removelast (s_rdpool s)) (removelast (s_wrpool s)).
Proof.
  unfold new_conn.
  destruct (rev (s_rdpool s)) as [|x xs] eqn:E1;
    destruct (rev (s_wrpool s)) as [|y ys] eqn:E2; cbn [snd fst];
    try (apply (f_equal (@rev bytes)) in E1; rewrite rev_involutive in E1;
         cbn [rev] in E1; rewrite E1);
    try (apply (f_equal (@rev (bytes * nat))) in E2; rewrite rev_involutive in E2;
         cbn [rev] in E2; rewrite E2);
    reflexivity.
Qed.

Lemma new_conn_writer s id addr :
  Forall (fun slot => fst slot = []) (s_wrpool s) ->
  wr_b (c_wr (snd (new_conn s id addr))) = [] /\
  wr_err (c_wr (snd (new_conn s id addr))) = None.
Proof.
  intros Hp. unfold new_conn.
  destruct (rev (s_rdpool s)) as [|x xs];
    destruct (rev (s_wrpool s)) as [|y ys] eqn:E2; cbn [snd fst c_wr wr_b wr_err];
    (split; [|reflexivity]); try reflexivity;
    (rewrite Forall_forall in Hp; apply Hp, (proj2 (in_rev (s_wrpool s) y));
     rewrite E2; now left).
Qed.

(** X22.  A connection that the accept callback refuses is closed at once.
    When the callback has written replies before it returned false, [Close]
    passes them to the stream in one write and then closes the stream,
    whether that write succeeds or not; neither a handler nor the observer
    is called, the connection is gone from the registry, and the buffers
    that it took from the pools are not given back. *)
Theorem accept_refused fuel cfg s id addr wd f calls res wd2 :
  accept cfg = Some f -> f (w_trace wd) = refusing calls ->
  Forall (fun slot => fst slot = []) (s_wrpool s) ->
  List.concat (map encoding calls) <> [] ->
  stream_write wd (List.concat (map encoding calls)) = (res, wd2) ->
  serve_conn growslice fuel cfg s id addr wd =
    Ok (None,
        mkServer (remove Nat.eq_dec id (s_conns s))
                 (removelast (s_rdpool s)) (removelast (s_wrpool s)),
        stream_close wd2) /\
  w_trace (stream_close wd2) =
    w_trace wd ++ [EvWrite (List.concat (map encoding calls)) res; EvConnClose] /\
  w_closed (stream_close wd2) = true.
Proof.
  intros Ha Hf Hpool Hout Hw.
  destruct (new_conn_writer s id addr Hpool) as [Hb0 He0].
  pose proof (new_conn_server s id addr) as Hs.
  destruct (write_calls_appends growslice calls
              (c_wr (snd (new_conn s id addr))) He0) as [Hwb Hwe].
  rewrite Hb0 in Hwb. cbn [app] in Hwb.
  set (out := List.concat (map encoding calls)) in *.
  assert (Hlen : (length out =? 0) = false).
  { apply Nat.eqb_neq. destruct out; [congruence|discriminate]. }
  split; [|split; [|reflexivity]].
  - unfold serve_conn.
    destruct (new_conn s id addr) as [s1 c1] eqn:En. cbn [fst snd] in *.
    rewrite Ha, Hf, run_prog_refusing. cbn [negb].
    unfold conn_Close, writer_Close. cbn [c_wr set_wr]. rewrite Hwe.
    unfold Flush. rewrite Hwe, Hwb, Hlen, Hw. subst s1.
    cbn [s_conns s_rdpool s_wrpool remove].
    destruct (Nat.eq_dec id id) as [_|Hne]; [|congruence].
    destruct res; reflexivity.
  - cbn [stream_close w_trace]. rewrite (stream_write_trace _ _ _ _ Hw).
    rewrite <- app_assoc. reflexivity.
Qed.

Lemma handle_loop_buffer : forall fuel cfg c wd res c' wd',
  reader_ok (c_rd c) ->
  handle_loop growslice fuel cfg c wd = (res, c', wd') ->
  length (rd_buf (c_rd c)) <= length (rd_buf (c_rd c')).
Proof.
  induction fuel as [|fuel IH]; intros cfg c wd res c' wd' Hr H.
  - inversion H; subst. lia.
  - cbn [handle_loop] in H.
    destruct (handle_round growslice fuel cfg c wd) as [[r1 c1] wd1] eqn:Er.
    assert (Hstep : reader_ok (c_rd c1) /\
                    length (rd_buf (c_rd c)) <= length (rd_buf (c_rd c1))).
    { split; [exact (handle_round_reader_ok growslice _ _ _ _ _ _ _ Hr Er)|].
      destruct (c_hj c) eqn:Hhj.
      - rewrite handle_round_hijacked in Er by exact Hhj. inversion Er; subst. lia.
      - destruct (ReadCommands fuel (c_rd c) wd) as [[rres r'] wd0] eqn:E.
        destruct (handle_round_reads _ _ _ _ _ _ _ _ _ _ _ Hhj E Er) as (Hrd & _).
        destruct (ReadCommands_keeps _ _ _ _ _ _ Hr E) as ((j & Hj) & _).
        rewrite Hrd, Hj.
        assert (1 <= 2 ^ j) by (apply Nat.neq_0_lt_0, Nat.pow_nonzero; lia).
        nia. }
    destruct Hstep as [Hr1 Hl1].
    destruct r1 as [[|err]|e| |]; try (inversion H; subst; exact Hl1).
    specialize (IH _ _ _ _ _ _ Hr1 H). lia.
Qed.

(** X23.  The pool of read buffers is only ever drained.  Every buffer in
    it has the default length at least (the ones [NewServer] puts there have
    exactly that length), a connection takes the last one, and when the
    connection ends, however it ends, the buffer is not put back: after
    [serve_conn] the pool is what it was without its last buffer. *)
Theorem read_pool_only_drains fuel cfg s id addr wd res s' wd' :
  Forall (fun b => defaultBufLen <= length b) (s_rdpool s) ->
  serve_conn growslice fuel cfg s id addr wd = Ok (res, s', wd') ->
  s_rdpool s' = removelast (s_rdpool s) /\
  Forall (fun b => defaultBufLen <= length b) (s_rdpool s').
Proof.
  intros Hpool H.
  assert (Hrl : Forall (fun b => defaultBufLen <= length b) (removelast (s_rdpool s))).
  { rewrite Forall_forall in *. intros b Hb. apply Hpool.
    destruct (s_rdpool s) as [|x l] eqn:E; [destruct Hb|].
    rewrite (app_removelast_last x (l := x :: l)) by discriminate.
    apply in_or_app. now left. }
  assert (Hn : exists c wrp,
            new_conn s id addr =
              (mkServer (id :: s_conns s) (removelast (s_rdpool s)) wrp, c) /\
            defaultBufLen <= length (rd_buf (c_rd c)) /\
            rd_start (c_rd c) = 0 /\ rd_end (c_rd c) = 0).
  { unfold new_conn.
    destruct (rev (s_rdpool s)) as [|x xs] eqn:E1.
    - apply (f_equal (@rev bytes)) in E1. rewrite rev_involutive in E1.
      cbn [rev] in E1. rewrite E1.
      destruct (rev (s_wrpool s)); eexists _, _;
        (split; [reflexivity|]); cbn [c_rd rd_buf rd_start rd_end];
        rewrite repeat_length; repeat split; lia.
    - assert (Hx : defaultBufLen <= length x).
      { rewrite Forall_forall in Hpool. apply Hpool.
        apply (proj2 (in_rev (s_rdpool s) x)). rewrite E1. now left. }
      destruct (rev (s_wrpool s)); eexists _, _;
        (split; [reflexivity|]); cbn [c_rd rd_buf rd_start rd_end];
        repeat split; assumption. }
  destruct Hn as (c & wrp & Hn & Hlen & Hst & Hen).
  unfold serve_conn in H. rewrite Hn in H.
  assert (Hdef : 0 < defaultBufLen) by (unfold defaultBufLen; lia).
  destruct (match accept cfg with
            | Some f => run_prog growslice (f (w_trace wd)) c wd
            | None => (true, c, wd)
            end) as [[ok c1] wd1] eqn:Ea.
  assert (Hc1 : c_rd c1 = c_rd c).
  { destruct (accept cfg) as [f|]; [|inversion Ea; reflexivity].
    pose proof (run_prog_rd growslice (f (w_trace wd)) c wd) as Hp.
    rewrite Ea in Hp. exact Hp. }
  destruct ok; cbn [negb] in H.
  - match type of H with context [handle growslice fuel ?cfg' _ _ _ _] =>
      set (cfg1 := cfg') in * end.
    unfold handle, handle_run in H.
    destruct (handle_loop growslice fuel cfg1 c1 wd1) as [[[err|e| |] c2] wd2] eqn:El;
      try discriminate H.
    assert (Hr1 : reader_ok (c_rd c1)).
    { rewrite Hc1. unfold reader_ok. rewrite Hst, Hen. repeat split; lia. }
    pose proof (handle_loop_buffer _ _ _ _ _ _ _ Hr1 El) as Hb.
    rewrite Hc1 in Hb.
    pose proof (handle_deferred_read_pool cfg1
                  (mkServer (id :: s_conns s) (removelast (s_rdpool s)) wrp)
                  id c2 wd2 err ltac:(lia)) as Hp.
    destruct (handle_deferred cfg1 _ id c2 wd2 err) as [s2 wd3].
    cbn [fst s_rdpool] in Hp. inversion H; subst. rewrite Hp.
    split; [reflexivity|exact Hrl].
  - destruct (conn_Close c1 wd1) as [[e c2] wd2]. inversion H; subst.
    cbn [s_rdpool]. split; [reflexivity|exact Hrl].
Qed.

End EngineExits.

Lemma read_error_not_answered_witness :
  exists fuel' s' wdf,
    handle sample_grow fuel' sample_cfg sample_server 1 pending_conn failing_world
      = Ok (Some (errNet 5), s',
            set_rd pending_conn
              (snd (fst (ReadCommands 5 (c_rd pending_conn) failing_world))), wdf) /\
    wr_b (c_wr pending_conn) = bs "+hi" ++ CRLF /\
    w_trace wdf = [EvConnClose; EvClosed (Some (errNet 5))].
Proof.
  assert (HR : ReadCommands 5 (c_rd pending_conn) failing_world =
               (Err (errNet 5),
                snd (fst (ReadCommands 5 (c_rd pending_conn) failing_world)),
                snd (ReadCommands 5 (c_rd pending_conn) failing_world)))
    by reflexivity.
  assert (Hnp : ~ is_protocol (errNet 5)) by (intros [msg H]; discriminate H).
  destruct (read_error_not_answered sample_grow sample_cfg sample_server 1
              pending_conn failing_world pending_conn failing_world 5 (errNet 5)
              _ _ (rounds_refl _ _ _ _) eq_refl HR Hnp)
    as (fuel' & s' & wdf & H1 & H2 & H3).
  exists fuel', s', wdf. split; [exact H1|]. split; [reflexivity|exact H3].
Defined.

Lemma handler_close_exit_witness :
  exists fuel' s' c' wdf,
    handle sample_grow fuel' closer_cfg sample_server 1 sample_conn ping_world
      = Ok (None, s', c', wdf) /\
    w_trace wdf =
      [EvHandler false [[bs "ping"]]; EvWrite (bs "+BYE" ++ CRLF) None;
       EvConnClose; EvConnClose; EvClosed None].
Proof.
  set (rc := ReadCommands 10 (c_rd sample_conn) ping_world).
  set (wr := stream_write (log (snd rc) (EvHandler false [[bs "ping"]]))
               (List.concat (map encoding [CallWriteString (bs "BYE")]))).
  assert (HR : ReadCommands 10 (c_rd sample_conn) ping_world =
               (Ok [[bs "ping"]], snd (fst rc), snd rc)) by reflexivity.
  assert (Hw : stream_write (log (snd rc) (EvHandler false [[bs "ping"]]))
                 (List.concat (map encoding [CallWriteString (bs "BYE")]))
               = (None, snd wr)) by reflexivity.
  exact (handler_close_exit sample_grow closer_cfg sample_server 1
           sample_conn ping_world sample_conn ping_world 10 [[bs "ping"]]
           (snd (fst rc)) (snd rc) closer [CallWriteString (bs "BYE")]
           [CallWriteString (bs "late")] None (snd wr)
           (rounds_refl _ _ _ _) eq_refl eq_refl eq_refl HR eq_refl eq_refl
           ltac:(discriminate) Hw).
Defined.

Lemma accept_refused_witness :
  exists wd2,
    serve_conn sample_grow 10 refuse_cfg small_server 7 (bs "10.0.0.9:1") ping_world
      = Ok (None, mkServer [] [repeat x00 defaultBufLen] [], stream_close wd2) /\
    w_trace (stream_close wd2) =
      [EvWrite (bs "-ERR busy" ++ CRLF) None; EvConnClose] /\
    w_closed (stream_close wd2) = true.
Proof.
  set (wr := stream_write ping_world
               (List.concat (map encoding [CallWriteError (bs "ERR busy")]))).
  assert (Hw : stream_write ping_world
                 (List.concat (map encoding [CallWriteError (bs "ERR busy")]))
               = (None, snd wr)) by reflexivity.
  assert (Hp : Forall (fun slot : bytes * nat => fst slot = [])
                      (s_wrpool small_server))
    by (repeat constructor).
  exists (snd wr).
  exact (accept_refused sample_grow 10 refuse_cfg small_server 7 (bs "10.0.0.9:1")
           ping_world _ [CallWriteError (bs "ERR busy")] None (snd wr)
           eq_refl eq_refl Hp ltac:(discriminate) Hw).
Defined.

Lemma small_server_pool :
  Forall (fun b => defaultBufLen <= length b) (s_rdpool small_server).
Proof.
  cbn [small_server s_rdpool]. repeat constructor; rewrite repeat_length; apply le_n.
Defined.

Lemma read_pool_only_drains_witness :
  exists res s' wd',
    serve_conn sample_grow 40 sample_cfg small_server 7 (bs "10.0.0.9:1") ping_world
      = Ok (res, s', wd') /\
    s_rdpool s' = [repeat x00 defaultBufLen] /\
    Forall (fun b => defaultBufLen <= length b) (s_rdpool s').
Proof.
  eexists _, _, _.
  match goal with |- ?A /\ _ => assert (H : A) by (vm_compute; reflexivity) end.
  split; [exact H|].
  exact (read_pool_only_drains sample_grow 40 sample_cfg small_server 7
           (bs "10.0.0.9:1") ping_world _ _ _ small_server_pool H).
Defined.

(* ------------------------------------------------------------------ *)
(** ** The hijacked connection: [ReadCommandBytes] *)

Lemma read_each_commands : forall n fuel h wd chunks cmds partial,
  reader_ok (c_rd (hjc_conn h)) -> w_closed wd = false ->
  w_in wd = map RData chunks ->
  pending (c_rd (hjc_conn h)) ++ List.concat chunks
    = encode_commands cmds ++ partial ->
  Forall fit_command cmds -> partial_command partial ->
  stream_size (w_in wd) + 1 < fuel -> length (hjc_cmds h) + length cmds < n ->
  exists h',
    read_each n fuel h wd =
      (hjc_cmds h ++ cmds, Err (eof_error partial), h',
       mkWorld [] (w_wres wd) false (w_trace wd)) /\
    hjc_cmds h' = [] /\ pending (c_rd (hjc_conn h')) = partial.
Proof.
  induction n as [|n IH];
    intros fuel h wd chunks cmds partial Hr Hcl Hin Heq Hwf Hpart Hfuel Hn; [lia|].
  destruct fuel as [|f]; [lia|].
  cbn [read_each ReadCommandBytes].
  destruct (hjc_cmds h) as [|q qs] eqn:Hq.
  - destruct (ReadCommands_commands f (c_rd (hjc_conn h)) wd chunks cmds partial
                Hr Hcl Hin Heq Hwf Hpart ltac:(lia))
      as (res & r' & chunks' & HRC & Hr' & Hsz & [Hok|Herr]).
    + destruct Hok as (batch & cmds' & -> & Hb & Hc & Heq').
      rewrite HRC. destruct f as [|f']; [lia|].
      destruct batch as [|a rest]; [congruence|].
      cbn [ReadCommandBytes hjc_cmds hjc_conn].
      assert (Hwf' : Forall fit_command cmds').
      { rewrite Hc in Hwf. now apply Forall_app in Hwf. }
      destruct (IH (S (S f'))
                  (mkHijacked (set_rd (hjc_conn h) r') rest)
                  (mkWorld (map RData chunks') (w_wres wd) false (w_trace wd))
                  chunks' cmds' partial Hr' eq_refl eq_refl Heq' Hwf' Hpart)
        as (h' & HRE & Hq' & Hp').
      { cbn [w_in]. lia. }
      { cbn [hjc_cmds]. rewrite Hc, length_app in Hn. cbn [length] in Hn. lia. }
      rewrite HRE. cbn [hjc_cmds w_wres w_trace app].
      exists h'. rewrite Hc. split; [reflexivity|]. split; assumption.
    + destruct Herr as (-> & -> & -> & Hp).
      rewrite HRC. cbn [map]. eexists. split; [reflexivity|].
      cbn [hjc_cmds hjc_conn c_rd set_rd]. split; [reflexivity|exact Hp].
  - destruct (IH (S f) (mkHijacked (hjc_conn h) qs) wd chunks cmds partial
                Hr Hcl Hin Heq Hwf Hpart Hfuel) as (h' & HRE & Hq' & Hp').
    { cbn [hjc_cmds length] in *. lia. }
    rewrite HRE. cbn [hjc_cmds app]. exists h'. split; [reflexivity|].
    split; assumption.
Qed.

(** X24.  On a connection that a handler has hijacked, [ReadCommandBytes]
    does what its sibling [ReadCommand] fails to do: called again and
    again it returns, one per call and in order, every command that the
    client sends (well-formed, of fewer than ten million arguments),
    starting with the bytes that were buffered when the connection was
    hijacked, and it fails only when the stream ends. *)
Theorem ReadCommandBytes_in_order c cmds partial chunks wres tr n fuel :
  Forall fit_command cmds -> partial_command partial ->
  reader_ok (c_rd c) ->
  pending (c_rd c) ++ List.concat chunks = encode_commands cmds ++ partial ->
  length cmds < n -> stream_size (map RData chunks) + 1 < fuel ->
  exists h',
    read_each n fuel (fst (conn_Hijack c))
              (mkWorld (map RData chunks) wres false tr) =
      (cmds, Err (eof_error partial), h', mkWorld [] wres false tr) /\
    pending (c_rd (hjc_conn h')) = partial.
Proof.
  intros Hwf Hpart Hr Heq Hn Hfuel.
  destruct (read_each_commands n fuel (fst (conn_Hijack c))
              (mkWorld (map RData chunks) wres false tr) chunks cmds partial
              Hr eq_refl eq_refl Heq Hwf Hpart Hfuel Hn) as (h' & H1 & _ & H2).
  exists h'. split; [exact H1|exact H2].
Qed.

Lemma ReadCommandBytes_in_order_witness :
  exists h',
    read_each 4 100 (fst (conn_Hijack sample_conn))
              (mkWorld (map RData sample_chunks) [] false []) =
      (sample_cmds, Err io_ErrUnexpectedEOF, h', mkWorld [] [] false []) /\
    pending (c_rd (hjc_conn h')) = sample_partial.
Proof.
  assert (Hwf : Forall fit_command sample_cmds).
  { repeat constructor; try discriminate; vm_compute; reflexivity. }
  assert (Hp : partial_command sample_partial).
  { exists [bs "foo"; bs "bar"], CRLF. split; [|split; [discriminate|reflexivity]].
    split; [split; [discriminate|vm_compute; reflexivity]|reflexivity]. }
  exact (ReadCommandBytes_in_order sample_conn sample_cmds sample_partial
           sample_chunks [] [] 4 100 Hwf Hp sample_conn_reader_ok
           ltac:(vm_compute; reflexivity) ltac:(vm_compute; lia)
           ltac:(vm_compute; lia)).
Defined.

(* ------------------------------------------------------------------ *)
(** ** The writer and the parser together *)

Section WriterReader.

Variable growslice : nat -> nat -> nat.

Lemma encoding_bulks args :
  List.concat (map encoding (map CallWriteBulkBytes args)) =
  List.concat (map encode_bulk args).
Proof.
  induction args as [|a args IH]; [reflexivity|].
  cbn [map List.concat]. rewrite IH. reflexivity.
Qed.

(** X25.  What the writer produces for an array header followed by one bulk
    string for each argument is a command that the parser reads back as
    those arguments: the two halves of the package speak the same
    protocol, whatever bytes the arguments hold.  (A count of arguments
    that [make] refuses as a capacity makes the parser panic; so many
    arguments do not fit in memory.) *)
Theorem writer_output_parses cap args :
  wf_command args ->
  parse (wr_b (write_calls growslice (mkWriter [] cap None)
                 (CallWriteArrayStart (Z.of_nat (length args))
                    :: map CallWriteBulkBytes args)))
    = if makeslice_ok (Z.of_nat (length args)) then Ok ([args], []) else Panic.
Proof.
  intros Hwf.
  destruct (write_calls_appends growslice
              (CallWriteArrayStart (Z.of_nat (length args))
                 :: map CallWriteBulkBytes args)
              (mkWriter [] cap None) eq_refl) as [Hb _].
  rewrite Hb. cbn [wr_b app map List.concat]. rewrite encoding_bulks.
  assert (He : encoding (CallWriteArrayStart (Z.of_nat (length args)))
                 ++ List.concat (map encode_bulk args) = encode_command args).
  { unfold encode_command. cbn [encoding]. change (bs "*") with ["*"%byte].
    cbn [app]. rewrite <- !app_assoc. reflexivity. }
  rewrite He.
  pose proof (resp_complete _ _ [] [] (wf_command_frame_ok _ Hwf)) as Hr.
  cbv zeta in Hr.
  rewrite <- encode_command_frame, with_headers_snd, with_headers_length,
    app_nil_r in Hr.
  rewrite (parse_resp (encode_command args) _ eq_refl), Hr.
  destruct (makeslice_ok (Z.of_nat (length args))); reflexivity.
Qed.

End WriterReader.

Lemma writer_output_parses_witness :
  parse (bs "*2" ++ CRLF ++ bs "$3" ++ CRLF ++ bs "GET" ++ CRLF
           ++ bs "$2" ++ CRLF ++ CRLF ++ CRLF)
    = Ok ([[bs "GET"; CRLF]], []).
Proof.
  assert (Hwf : wf_command [bs "GET"; CRLF])
    by (split; [discriminate|vm_compute; reflexivity]).
  exact (writer_output_parses sample_grow 16 [bs "GET"; CRLF] Hwf).
Defined.

(* ------------------------------------------------------------------ *)
(** ** The engine: from the stream to the handler *)

Lemma delivered_app evs1 evs2 :
  delivered (evs1 ++ evs2) = delivered evs1 ++ delivered evs2.
Proof.
  induction evs1 as [|e evs1 IH]; [reflexivity|].
  destruct e; cbn [app delivered]; rewrite IH; [reflexivity|reflexivity| |reflexivity].
  now rewrite app_assoc.
Qed.

Section EngineDelivers.

Variable growslice : nat -> nat -> nat.

(** A flush on a stream that accepts every write. *)
Lemma Flush_succeeds w ins tr :
  wr_err w = None ->
  exists w' evs,
    Flush w (mkWorld ins [] false tr) = (None, w', mkWorld ins [] false (tr ++ evs)) /\
    wr_err w' = None /\ delivered evs = [].
Proof.
  intros He. unfold Flush. rewrite He.
  destruct (length (wr_b w) =? 0).
  - exists w, []. rewrite app_nil_r. repeat split; assumption.
  - cbn [stream_write w_closed w_wres w_in w_trace].
    eexists _, [_]. split; [reflexivity|]. split; reflexivity.
Qed.

(** One round of the loop on a stream that still holds commands. *)
Lemma handle_round_delivers fuel cfg h c chunks cmds partial tr :
  shandler cfg = Some h -> replying h ->
  c_hj c = false -> wr_err (c_wr c) = None -> reader_ok (c_rd c) ->
  pending (c_rd c) ++ List.concat chunks = encode_commands cmds ++ partial ->
  Forall fit_command cmds -> partial_command partial ->
  stream_size (map RData chunks) < fuel ->
  (exists batch cmds' c' chunks' evs,
     handle_round growslice fuel cfg c (mkWorld (map RData chunks) [] false tr) =
       (Ok Continue, c', mkWorld (map RData chunks') [] false (tr ++ evs)) /\
     batch <> [] /\ cmds = batch ++ cmds' /\ delivered evs = batch /\
     c_hj c' = false /\ wr_err (c_wr c') = None /\ reader_ok (c_rd c') /\
     pending (c_rd c') ++ List.concat chunks' = encode_commands cmds' ++ partial /\
     stream_size (map RData chunks') <= stream_size (map RData chunks)) \/
  (cmds = [] /\
   exists c',
     handle_round growslice fuel cfg c (mkWorld (map RData chunks) [] false tr) =
       (Ok (Return_ (Some (eof_error partial))), c', mkWorld [] [] false tr)).
Proof.
  intros Hs Hrep Hhj He Hr Heq Hwf Hpart Hfuel.
  destruct (ReadCommands_commands fuel (c_rd c) (mkWorld (map RData chunks) [] false tr)
              chunks cmds partial Hr eq_refl eq_refl Heq Hwf Hpart Hfuel)
    as (res & r' & chunks' & HRC & Hr' & Hsz & [Hok|Herr]).
  - left. destruct Hok as (batch & cmds' & -> & Hb & Hc & Heq').
    cbn [w_wres w_trace] in HRC.
    destruct (Hrep tr batch) as [calls Hcalls].
    destruct (write_calls_appends growslice calls (c_wr c) He) as [_ Hwe].
    destruct (Flush_succeeds (write_calls growslice (c_wr c) calls)
                (map RData chunks') (tr ++ [EvHandler false batch]) Hwe)
      as (w' & evs & Hfl & Hwe' & Hdel).
    exists batch, cmds', (set_wr (set_rd c r') w'), chunks',
           (EvHandler false batch :: evs).
    split.
    + unfold handle_round. rewrite Hhj, HRC.
      replace (0 <? length batch) with true
        by (destruct batch; [congruence|reflexivity]).
      rewrite Hs. cbn [w_trace]. rewrite Hcalls, run_prog_replies.
      cbn [run_prog c_wr set_rd set_wr]. rewrite Hwe.
      unfold log at 1. cbn [w_in w_wres w_closed w_trace].
      rewrite Hfl. rewrite <- app_assoc. reflexivity.
    + split; [exact Hb|]. split; [exact Hc|].
      split; [cbn [delivered]; rewrite Hdel; apply app_nil_r|].
      cbn [c_hj c_wr c_rd set_wr set_rd]. cbn [w_in] in Hsz.
      split; [exact Hhj|]. split; [exact Hwe'|]. split; [exact Hr'|].
      split; [exact Heq'|exact Hsz].
  - right. destruct Herr as (-> & -> & -> & Hp). split; [reflexivity|].
    cbn [map w_wres w_trace] in HRC. exists (set_rd c r').
    unfold handle_round. rewrite Hhj, HRC.
    destruct partial; reflexivity.
Qed.

Lemma handle_loop_delivers : forall n cfg h c chunks cmds partial tr,
  length cmds < n ->
  shandler cfg = Some h -> replying h ->
  c_hj c = false -> wr_err (c_wr c) = None -> reader_ok (c_rd c) ->
  pending (c_rd c) ++ List.concat chunks = encode_commands cmds ++ partial ->
  Forall fit_command cmds -> partial_command partial ->
  exists fuel c' evs,
    handle_loop growslice fuel cfg c (mkWorld (map RData chunks) [] false tr) =
      (Ok (Some (eof_error partial)), c', mkWorld [] [] false (tr ++ evs)) /\
    delivered evs = cmds.
Proof.
  induction n as [|n IH];
    intros cfg h c chunks cmds partial tr Hn Hs Hrep Hhj He Hr Heq Hwf Hpart; [lia|].
  destruct (handle_round_delivers (S (stream_size (map RData chunks))) cfg h c chunks
              cmds partial tr Hs Hrep Hhj He Hr Heq Hwf Hpart (Nat.lt_succ_diag_r _))
    as [Hcont|[-> [c' Hend]]].
  - destruct Hcont as (batch & cmds' & c1 & chunks' & evs1 & Hround & Hb & Hc & Hdel
                       & Hhj1 & He1 & Hr1 & Heq1 & Hsz).
    assert (Hwf' : Forall fit_command cmds').
    { rewrite Hc in Hwf. now apply Forall_app in Hwf. }
    assert (Hlen : length cmds' < n).
    { rewrite Hc, length_app in Hn. destruct batch; [congruence|cbn [length] in Hn; lia]. }
    destruct (IH cfg h c1 chunks' cmds' partial (tr ++ evs1) Hlen Hs Hrep Hhj1 He1 Hr1
                Heq1 Hwf' Hpart) as (f2 & c2 & evs2 & Hloop & Hdel2).
    set (F := Nat.max (S (stream_size (map RData chunks))) f2).
    exists (S F), c2, (evs1 ++ evs2). split.
    + cbn [handle_loop].
      rewrite (handle_round_mono growslice _ F _ _ _ _ _ _ Hround)
        by (first [discriminate | unfold F; lia]).
      rewrite (handle_loop_mono growslice f2 F _ _ _ _ _ _ Hloop)
        by (first [discriminate | unfold F; lia]).
      rewrite app_assoc. reflexivity.
    + rewrite delivered_app, Hdel, Hdel2. symmetry. exact Hc.
  - exists (S (S (stream_size (map RData chunks)))), c', []. split.
    + cbn [handle_loop]. rewrite Hend. rewrite app_nil_r. reflexivity.
    + reflexivity.
Qed.

(** X26.  From the socket to the handler nothing is lost, repeated or
    reordered: when a client sends well-formed RESP commands of fewer than
    ten million arguments each, cut by the
    stream in any way, and the handler only replies, [handle] hands every
    command to the handler exactly once, in the order sent, in batches;
    it ends when the stream does, with [io.EOF], or with
    [io.ErrUnexpectedEOF] when the stream ends inside a command. *)
Theorem handle_delivers_commands cfg h s id c chunks cmds partial tr :
  shandler cfg = Some h -> replying h ->
  c_hj c = false -> wr_err (c_wr c) = None -> reader_ok (c_rd c) ->
  pending (c_rd c) ++ List.concat chunks = encode_commands cmds ++ partial ->
  Forall fit_command cmds -> partial_command partial ->
  exists fuel s' c' wdf evs,
    handle growslice fuel cfg s id c (mkWorld (map RData chunks) [] false tr) =
      Ok (Some (eof_error partial), s', c', wdf) /\
    w_trace wdf = tr ++ evs /\ delivered evs = cmds.
Proof.
  intros Hs Hrep Hhj He Hr Heq Hwf Hpart.
  destruct (handle_loop_delivers (S (length cmds)) cfg h c chunks cmds partial tr
              (Nat.lt_succ_diag_r _) Hs Hrep Hhj He Hr Heq Hwf Hpart)
    as (fuel & c' & evs & Hloop & Hdel).
  exists fuel. unfold handle, handle_run. rewrite Hloop. unfold handle_deferred.
  replace (is_hijacked (Some (eof_error partial))) with false
    by (destruct partial; reflexivity).
  destruct (closed cfg); eexists _, _, _, _; (split; [reflexivity|]);
    cbn [w_trace log stream_close]; rewrite <- !app_assoc;
    (split; [reflexivity|]); rewrite delivered_app, Hdel; cbn [delivered app];
    apply app_nil_r.
Qed.

End EngineDelivers.

Lemma pong_replying : replying pong.
Proof.
  intros tr cmds. exists (map (fun _ => CallWriteString (bs "PONG")) cmds).
  unfold pong, replies. induction cmds as [|c cmds IH]; [reflexivity|].
  cbn [fold_right map]. rewrite IH. reflexivity.
Defined.

Lemma handle_delivers_commands_witness :
  exists fuel s' c' wdf evs,
    handle sample_grow fuel sample_cfg sample_server 1 sample_conn
           (mkWorld (map RData sample_chunks) [] false []) =
      Ok (Some io_ErrUnexpectedEOF, s', c', wdf) /\
    w_trace wdf = [] ++ evs /\ delivered evs = sample_cmds.
Proof.
  assert (Hwf : Forall fit_command sample_cmds).
  { repeat constructor; try discriminate; vm_compute; reflexivity. }
  assert (Hp : partial_command sample_partial).
  { exists [bs "foo"; bs "bar"], CRLF. split; [|split; [discriminate|reflexivity]].
    split; [split; [discriminate|vm_compute; reflexivity]|reflexivity]. }
  exact (handle_delivers_commands sample_grow sample_cfg pong sample_server 1
           sample_conn sample_chunks sample_cmds sample_partial []
           eq_refl pong_replying eq_refl eq_refl sample_conn_reader_ok
           ltac:(vm_compute; reflexivity) Hwf Hp).
Defined.

(* ------------------------------------------------------------------ *)
(** ** Pipelines of inline and RESP commands *)

(** One round of [next:] at a line. *)
Lemma parse_next_line l post acc fuel args :
  ~ In LF l -> hd_error (l ++ CRLF) <> Some "*"%byte ->
  line_args l = Ok args -> args <> [] ->
  parse_next (S fuel) ((l ++ CRLF) ++ post) acc =
  if 0 <? length post then parse_next fuel post (acc ++ [args])
  else Ok (acc ++ [args], post).
Proof.
  intros Hn Hhd Hl Hne.
  replace ((l ++ CRLF) ++ post) with ((l ++ [CR]) ++ LF :: post)
    by (unfold CRLF; assoc).
  assert (Hhd' : hd_error ((l ++ [CR]) ++ LF :: post) = hd_error (l ++ CRLF))
    by (destruct l; reflexivity).
  assert (Hn' : ~ In LF (l ++ [CR])).
  { intros H. apply in_app_or in H as [H|[H|[]]]; [exact (Hn H)|discriminate H]. }
  destruct ((l ++ [CR]) ++ LF :: post) as [|c b] eqn:Hb.
  { destruct l; discriminate. }
  cbn [parse_next]. unfold byte_at at 1. cbn [nth_error bind].
  destruct (Byte.eqb c "*") eqn:Hc.
  { apply Byte.byte_dec_bl in Hc. subst c. exfalso. apply Hhd.
    rewrite <- Hhd'. reflexivity. }
  rewrite <- Hb. rewrite inline_scan_line by exact Hn'.
  rewrite inline_args_line_args, strip_cr_snoc.
  change (Byte.eqb CR CR) with true. cbv iota. rewrite Hl. cbn [bind].
  destruct args as [|a args]; [congruence|]. reflexivity.
Qed.

(** One round of [next:] at a RESP command. *)
Lemma parse_next_resp c post acc fuel :
  wf_command c ->
  parse_next (S fuel) (encode_command c ++ post) acc =
  if makeslice_ok (Z.of_nat (length c)) then
    if 0 <? length post then parse_next fuel post (acc ++ [c])
    else Ok (acc ++ [c], post)
  else Panic.
Proof.
  intros Hc. cbn [parse_next].
  assert (Hhd : byte_at (encode_command c ++ post) 0 = Ok "*"%byte) by reflexivity.
  rewrite Hhd. cbn [bind]. change (Byte.eqb "*" "*") with true. cbv iota.
  pose proof (resp_complete _ _ post acc (wf_command_frame_ok _ Hc)) as Hr.
  cbv zeta in Hr.
  rewrite <- encode_command_frame, with_headers_snd, with_headers_length in Hr.
  rewrite Hr. destruct (makeslice_ok (Z.of_nat (length c))); reflexivity.
Qed.

Lemma sent_step s post acc fuel :
  sent_ok s ->
  parse_next (S fuel) (sent_bytes s ++ post) acc =
  if sent_fits s then
    if 0 <? length post then parse_next fuel post (acc ++ [sent_args s])
    else Ok (acc ++ [sent_args s], post)
  else Panic.
Proof.
  destruct s as [args|ws|args]; cbn [sent_ok sent_bytes sent_args sent_fits].
  - apply parse_next_resp.
  - intros (Hne & Hp & Hhd). apply parse_next_line.
    + apply join_words_no_LF. rewrite Forall_forall. intros w Hw.
      rewrite forallb_forall in Hp. specialize (Hp w Hw).
      apply plain_word_spec in Hp as (_ & _ & _ & Hpw & _). apply plain_no_LF, Hpw.
    + destruct ws as [|w ws]; [congruence|].
      cbn [forallb] in Hp. apply andb_true_iff in Hp as [Hw _].
      apply plain_word_spec in Hw as (c & w' & -> & _).
      destruct ws; exact Hhd.
    + apply split_line_words; [exact Hp|lia].
    + exact Hne.
  - intros Hne. apply parse_next_line.
    + apply join_words_no_LF. rewrite Forall_forall. intros w Hw.
      apply in_map_iff in Hw as (a & <- & _). apply quote_arg_no_LF.
    + destruct args as [|a [|a2 args]]; [congruence|discriminate|discriminate].
    + apply split_line_quoted. lia.
    + exact Hne.
Qed.

Lemma sent_bytes_nonempty s : 1 <= length (sent_bytes s).
Proof.
  destruct s; cbn [sent_bytes]; unfold encode_command, CRLF;
    rewrite ?length_app; cbn [length]; lia.
Qed.

(** X27.  Commands of every form can be pipelined and mixed.  A buffer that
    holds any number of commands one after the other, each sent as a RESP
    array, as a line of plain words or as a line of quoted arguments, is
    parsed into the commands in the order they were sent, with nothing left
    over.  (A RESP array whose count of arguments [make] refuses as a
    capacity makes the parser panic; so many arguments do not fit in
    memory.) *)
Theorem parse_mixed_pipeline items :
  items <> [] -> Forall sent_ok items ->
  parse (List.concat (map sent_bytes items)) =
  if forallb sent_fits items then Ok (map sent_args items, []) else Panic.
Proof.
  intros Hne Hok. unfold parse.
  assert (H : forall its acc fuel,
             its <> [] -> Forall sent_ok its ->
             length (List.concat (map sent_bytes its)) <= fuel ->
             parse_next fuel (List.concat (map sent_bytes its)) acc =
             if forallb sent_fits its then Ok (acc ++ map sent_args its, [])
             else Panic).
  { clear. induction its as [|s its IH]; intros acc fuel Hne Hok Hfuel; [congruence|].
    cbn [map List.concat] in *. rewrite length_app in Hfuel.
    pose proof (sent_bytes_nonempty s) as Hs.
    destruct fuel as [|fuel]; [lia|].
    rewrite (sent_step s _ acc fuel (Forall_inv Hok)).
    cbn [forallb]. destruct (sent_fits s); cbn [andb]; [|reflexivity].
    destruct its as [|s2 its].
    - cbn [map List.concat length Nat.ltb Nat.leb forallb]. reflexivity.
    - assert (Hpos : 0 < length (List.concat (map sent_bytes (s2 :: its)))).
      { cbn [map List.concat]. rewrite length_app.
        pose proof (sent_bytes_nonempty s2). lia. }
      apply Nat.ltb_lt in Hpos. rewrite Hpos.
      rewrite IH; [|discriminate|exact (Forall_inv_tail Hok)|lia].
      rewrite <- app_assoc. reflexivity. }
  rewrite (H items [] _ Hne Hok (Nat.le_refl _)). reflexivity.
Qed.

Lemma parse_mixed_pipeline_witness :
  parse (List.concat (map sent_bytes
           [SentWords [bs "get"; bs "k"]; SentResp [bs "SET"; bs "k"; [CR; LF]];
            SentQuoted [bs "echo"; bs "a b"; []]])) =
  Ok ([[bs "get"; bs "k"]; [bs "SET"; bs "k"; [CR; LF]]; [bs "echo"; bs "a b"; []]], []).
Proof.
  apply (parse_mixed_pipeline
           [SentWords [bs "get"; bs "k"]; SentResp [bs "SET"; bs "k"; [CR; LF]];
            SentQuoted [bs "echo"; bs "a b"; []]]).
  - discriminate.
  - repeat constructor; discriminate.
Defined.

(* ------------------------------------------------------------------ *)
(** ** A bulk length near the largest [int], sent over the stream *)

(** After the count of arguments, a first bulk header that has not reached
    its line end is waited for. *)
Lemma parse_open_bulk_header hn n q :
  count_ok hn n -> 0 < n -> ~ In LF q ->
  (forall c q', q = c :: q' -> c = "$"%byte) ->
  parse ("*"%byte :: hn ++ CR :: LF :: q) = Ok ([], "*"%byte :: hn ++ CR :: LF :: q).
Proof.
  intros [Hh Hfit] Hpos Hq Hd.
  apply modest_makeslice in Hfit.
  set (b := "*"%byte :: hn ++ CR :: LF :: q).
  assert (Hlen : length b = length hn + 3 + length q) by (unfold b; len).
  rewrite (parse_resp b (hn ++ CR :: LF :: q)) by reflexivity.
  rewrite (resp_loop_skip_eq b ("*"%byte :: hn ++ [CR]) [] (LF :: q)
             (S (length q)) (length b) 0 0 [])
    by (first [ unfold b; assoc | apply not_in_count, (proj1 Hh)
              | rewrite Hlen; len | reflexivity ]).
  replace (0 + length ("*"%byte :: hn ++ [CR])) with (length hn + 2) by len.
  rewrite (resp_loop_at_LF _ b hn n q [] Hh Hpos eq_refl).
  rewrite Hfit. cbn [negb].
  destruct n as [|n']; [lia|]. cbn [read_args].
  destruct q as [|c q'].
  - replace (S (length hn + 2) <? length b) with false
      by (symmetry; apply Nat.ltb_ge; rewrite Hlen; cbn [length]; lia).
    rewrite read_args_skip_all by (rewrite Hlen; cbn [length]; lia).
    cbn [bind length].
    replace (Z.of_nat 0 =? Z.of_nat (S n'))%Z with false
      by (symmetry; apply Z.eqb_neq; lia).
    rewrite resp_loop_end by (rewrite Hlen; cbn [length]; lia).
    reflexivity.
  - pose proof (Hd c q' eq_refl) as Hc. subst c.
    replace (S (length hn + 2) <? length b) with true
      by (symmetry; apply Nat.ltb_lt; rewrite Hlen; cbn [length]; lia).
    rewrite (byte_at_split b ("*"%byte :: hn ++ [CR; LF]) "$"%byte q')
      by (first [unfold b; assoc | len]).
    cbn [bind]. change (negb (Byte.eqb "$" "$")) with false. cbv iota.
    assert (Hsk : skipn (S (length hn + 2)) b = "$"%byte :: q').
    { replace (S (length hn + 2)) with (length ("*"%byte :: hn ++ [CR; LF])) by len.
      replace b with (("*"%byte :: hn ++ [CR; LF]) ++ "$"%byte :: q')
        by (unfold b; assoc).
      rewrite skipn_app, skipn_all, Nat.sub_diag. reflexivity. }
    rewrite Hsk.
    rewrite <- (app_nil_r ("$"%byte :: q')) at 1.
    rewrite read_bulk_skip by exact Hq.
    cbn [read_bulk bind].
    rewrite read_args_skip_all by (rewrite Hlen; cbn [length]; lia).
    cbn [bind length].
    replace (Z.of_nat 0 =? Z.of_nat (S n'))%Z with false
      by (symmetry; apply Z.eqb_neq; lia).
    rewrite resp_loop_end by (rewrite Hlen; cbn [length]; lia).
    reflexivity.
Qed.

(** The beginnings of the header of the overflow are waited for. *)
Lemma huge_bulk_prefix_waits n p s :
  p ++ s = bs "*1" ++ CRLF ++ bs "$" ++ decimal n ++ CRLF -> p <> [] -> s <> [] ->
  parse p = Ok ([], p).
Proof.
  intros E Hp Hs.
  change (bs "*1" ++ CRLF ++ bs "$" ++ decimal n ++ CRLF)
    with ("*"%byte :: "1"%byte :: CR :: LF :: "$"%byte :: decimal n ++ [CR; LF]) in E.
  destruct p as [|p0 [|p1 [|p2 [|p3 q]]]]; [congruence| | | |];
    cbn [app] in E.
  - inversion E; subst. reflexivity.
  - inversion E; subst. reflexivity.
  - inversion E; subst. reflexivity.
  - inversion E as [[E0 E1 E2 E3 Eq]]. subst p0 p1 p2 p3.
    assert (Hh : count_ok ["1"%byte] 1)
      by (split; [split; [intros [H|[]]; discriminate H|reflexivity]|reflexivity]).
    apply (parse_open_bulk_header ["1"%byte] 1 q Hh); [lia| |].
    + destruct (exists_last Hs) as (s' & x & ->).
      replace ("$"%byte :: decimal n ++ [CR; LF])
        with (("$"%byte :: decimal n ++ [CR]) ++ [LF]) in Eq by assoc.
      rewrite app_assoc in Eq. apply app_inj_tail in Eq as [Eq _].
      intros Hin. apply (not_in_header (decimal n) (decimal_no_LF n)).
      rewrite <- Eq. apply in_or_app. now left.
    + intros c q' ->. cbn [app] in Eq. now inversion Eq.
Qed.

(** [ReadCommands] on a stream that delivers, in any pieces, bytes whose
    beginnings are waited for and that make the parser fail once they are
    all there. *)
Lemma ReadCommands_reaches_panic : forall fuel r wd chunks att rest,
  reader_ok r -> w_closed wd = false -> w_in wd = map RData chunks ->
  pending r ++ List.concat chunks = att ++ rest ->
  (forall p s, p ++ s = att -> p <> [] -> s <> [] -> parse p = Ok ([], p)) ->
  (forall s, parse (att ++ s) = Panic) ->
  stream_size (w_in wd) < fuel ->
  fst (fst (ReadCommands fuel r wd)) = Panic.
Proof.
  induction fuel as [|fuel IH]; intros r wd chunks att rest Hr Hcl Hin Heq Hwait Hpanic Hfuel;
    [lia|].
  destruct Hr as (H1 & H2 & H3 & H4).
  pose proof (pending_length r H2) as Hpl.
  assert (Hpb : parse_buffered r = Panic \/
                (parse_buffered r = Ok ([], r) /\ length (pending r) < length att)).
  { unfold parse_buffered.
    destruct (Nat.ltb_spec (rd_start r) (rd_end r)) as [Hlt|Hge].
    - rewrite slice_pending by lia. cbn [bind].
      destruct (app_eq_app _ _ _ _ Heq) as [l [[Hp _]|[Ha _]]].
      + left. rewrite Hp, Hpanic. reflexivity.
      + destruct l as [|x l].
        * left. rewrite app_nil_r in Ha. rewrite <- Ha.
          rewrite <- (app_nil_r att), Hpanic. reflexivity.
        * right.
          assert (Hne : pending r <> []).
          { intros E. rewrite E in Hpl. cbn [length] in Hpl. lia. }
          rewrite (Hwait (pending r) (x :: l) (eq_sym Ha) Hne ltac:(discriminate)).
          cbn [bind]. split.
          -- replace (length (pending r) =? 0) with false
               by (symmetry; apply Nat.eqb_neq; lia).
             rewrite Hpl.
             replace (rd_end r - (rd_end r - rd_start r)) with (rd_start r) by lia.
             now rewrite reader_eta.
          -- rewrite Ha, length_app. cbn [length]. lia.
    - right. split; [reflexivity|].
      replace (rd_end r - rd_start r) with 0 in Hpl by lia.
      rewrite Hpl. destruct att as [|a att']; [|cbn [length]; lia].
      exfalso. specialize (Hpanic []). discriminate Hpanic. }
  cbn [ReadCommands].
  destruct Hpb as [Hpb|[Hpb Hshort]]; rewrite Hpb; [reflexivity|].
  change (0 <? length (@nil (list bytes))) with false. cbv iota zeta.
  pose proof (pending_grow r H1 H2) as Hpg.
  pose proof (grow_fields r) as [Hgs Hge].
  pose proof (grow_room r H2 H3) as Hroom.
  replace (length (rd_buf (grow r)) <? rd_end (grow r)) with false
    by (symmetry; apply Nat.ltb_ge; lia).
  unfold stream_read. rewrite Hcl, Hin.
  destruct chunks as [|d chunks].
  - exfalso. cbn [List.concat] in Heq. rewrite app_nil_r in Heq.
    rewrite Heq, length_app in Hshort. lia.
  - cbn [map]. set (n := length (rd_buf (grow r)) - rd_end (grow r)).
    assert (Hn : 0 < n) by (unfold n; lia).
    set (d' := if length d <=? n then d else firstn n d).
    set (chunks1 := if length d <=? n then chunks else skipn n d :: chunks).
    set (wd1 := mkWorld (map RData chunks1) (w_wres wd) false (w_trace wd)).
    assert (Hread :
      (if length d <=? n
       then (@inl bytes error d, mkWorld (map RData chunks) (w_wres wd) false (w_trace wd))
       else (inl (firstn n d),
             mkWorld (RData (skipn n d) :: map RData chunks) (w_wres wd) false
                     (w_trace wd))) = (inl d', wd1)).
    { unfold d', chunks1, wd1. destruct (length d <=? n); reflexivity. }
    rewrite Hread. clear Hread.
    assert (Hd' : length d' <= n).
    { unfold d'. destruct (Nat.leb_spec (length d) n); [lia|]. rewrite length_firstn. lia. }
    assert (Hcat : d' ++ List.concat chunks1 = d ++ List.concat chunks).
    { unfold d', chunks1. destruct (length d <=? n); [reflexivity|].
      cbn [List.concat]. now rewrite app_assoc, firstn_skipn. }
    assert (Hsize : stream_size (map RData chunks1) < stream_size (w_in wd)).
    { rewrite Hin. unfold chunks1. cbn [map stream_size].
      destruct (Nat.leb_spec (length d) n); cbn [map stream_size]; [lia|].
      rewrite length_skipn. lia. }
    subst wd1. clearbody d' chunks1.
    set (wd1 := mkWorld (map RData chunks1) (w_wres wd) false (w_trace wd)).
    set (r3 := mkReader (write_at (rd_buf (grow r)) (rd_end (grow r)) d')
                        (rd_start (grow r)) (rd_end (grow r) + length d')).
    assert (Hr3 : reader_ok r3).
    { unfold r3. repeat split; cbn [rd_buf rd_start rd_end];
        rewrite ?write_at_length by (unfold n in Hd'; lia); lia. }
    assert (Hp3 : pending r3 = pending r ++ d').
    { unfold r3. rewrite pending_write by (unfold n in Hd'; lia).
      rewrite reader_eta. now rewrite Hpg. }
    apply (IH r3 wd1 chunks1 att rest Hr3 eq_refl eq_refl).
    + rewrite Hp3, <- app_assoc, Hcat. exact Heq.
    + exact Hwait.
    + exact Hpanic.
    + unfold wd1. cbn [w_in]. lia.
Qed.

Section EnginePanics.

Variable growslice : nat -> nat -> nat.

Lemma handle_loop_rounds_panic cfg c0 wd0 c wd :
  rounds growslice cfg c0 wd0 c wd ->
  forall fuel c' wd',
    handle_loop growslice fuel cfg c wd = (Panic, c', wd') ->
    exists fuel', handle_loop growslice fuel' cfg c0 wd0 = (Panic, c', wd').
Proof.
  induction 1 as [c wd|f c wd c1 wd1 c2 wd2 Hround _ IH]; intros fuel c' wd' H.
  - exists fuel. exact H.
  - destruct (IH _ _ _ H) as [f1 Hf1].
    exists (S (Nat.max f f1)). cbn [handle_loop].
    rewrite (handle_round_mono growslice f (Nat.max f f1) _ _ _ _ _ _ Hround)
      by (try discriminate; lia).
    apply handle_loop_mono with (fuel := f1); [exact Hf1|discriminate|lia].
Qed.

(** X28.  One client can bring the server down.  When the bytes a
    connection still has to parse begin with a command whose bulk length is
    within 9 of the largest [int], [handle] panics as soon as the line of
    that length has arrived: however the stream cuts the bytes into reads,
    whatever follows them, and whatever commands were served on the
    connection before.  Nothing in the source calls [recover]: the panic is
    the result of [handle]. *)
Theorem handle_huge_bulk_length_panics cfg s id c0 wd0 c wd chunks n rest :
  rounds growslice cfg c0 wd0 c wd -> c_hj c = false -> reader_ok (c_rd c) ->
  w_closed wd = false -> w_in wd = map RData chunks ->
  (2 ^ 63 - 9 <= Z.of_N n < 2 ^ 63)%Z ->
  pending (c_rd c) ++ List.concat chunks =
    bs "*1" ++ CRLF ++ bs "$" ++ decimal n ++ CRLF ++ rest ->
  exists fuel, forall fuel', fuel <= fuel' ->
    handle growslice fuel' cfg s id c0 wd0 = Panic.
Proof.
  intros Hrounds Hhj Hr Hcl Hin Hn Heq.
  set (att := bs "*1" ++ CRLF ++ bs "$" ++ decimal n ++ CRLF).
  assert (Hatt : forall s0, att ++ s0 = bs "*1" ++ CRLF ++ bs "$" ++ decimal n ++ CRLF ++ s0).
  { intros s0. unfold att, CRLF. assoc. }
  set (f := S (stream_size (w_in wd))).
  pose proof (ReadCommands_reaches_panic f (c_rd c) wd chunks att rest Hr Hcl Hin) as HR.
  destruct (ReadCommands f (c_rd c) wd) as [[res r'] wd1] eqn:E.
  cbn [fst] in HR. rewrite HR in E.
  - assert (Hloop : handle_loop growslice (S f) cfg c wd = (Panic, set_rd c r', wd1)).
    { cbn [handle_loop]. unfold handle_round. rewrite Hhj, E. reflexivity. }
    destruct (handle_loop_rounds_panic cfg _ _ _ _ Hrounds _ _ _ Hloop) as [fuel Hf].
    exists fuel. intros fuel' Hle. unfold handle, handle_run.
    rewrite (handle_loop_mono growslice fuel fuel' _ _ _ _ _ _ Hf) by (try discriminate; lia).
    reflexivity.
  - rewrite Hatt. exact Heq.
  - intros p s0 Hps. exact (huge_bulk_prefix_waits n p s0 Hps).
  - intros s0. rewrite Hatt.
    rewrite (parse_resp _ (bs "1" ++ CRLF ++ bs "$" ++ decimal n ++ CRLF ++ s0))
      by reflexivity.
    rewrite (resp_loop_huge_bulk n s0 _ [] Hn eq_refl). reflexivity.
  - unfold f. lia.
Qed.

End EnginePanics.

Lemma handle_huge_bulk_length_panics_witness :
  exists fuel, forall fuel', fuel <= fuel' ->
    handle sample_grow fuel' sample_cfg sample_server 1 sample_conn
      (mkWorld (map RData [bs "*1" ++ CRLF ++ bs "$92233";
                           bs "72036854775807" ++ CRLF ++ bs "x"]) [] false [])
    = Panic.
Proof.
  assert (Hn : (2 ^ 63 - 9 <= Z.of_N 9223372036854775807 < 2 ^ 63)%Z)
    by (split; [vm_compute; discriminate|reflexivity]).
  set (chunks := [bs "*1" ++ CRLF ++ bs "$92233";
                  bs "72036854775807" ++ CRLF ++ bs "x"]).
  set (wd := mkWorld (map RData chunks) [] false []).
  assert (He : pending (c_rd sample_conn) ++ List.concat chunks =
               bs "*1" ++ CRLF ++ bs "$" ++ decimal 9223372036854775807 ++ CRLF
                 ++ bs "x") by (vm_compute; reflexivity).
  exact (handle_huge_bulk_length_panics sample_grow sample_cfg sample_server 1
           sample_conn wd sample_conn wd chunks 9223372036854775807 (bs "x")
           (rounds_refl _ _ _ _) eq_refl sample_conn_reader_ok eq_refl eq_refl Hn
           He).
Defined.

(* ------------------------------------------------------------------ *)
(** ** A count of arguments that [make] refuses *)

(** A buffer that starts with ['*'] and holds no line end is left as it is:
    the count of arguments is not complete. *)
Lemma parse_star_no_LF l :
  ~ In LF l -> parse ("*"%byte :: l) = Ok ([], "*"%byte :: l).
Proof.
  intros Hn. rewrite (parse_resp _ l eq_refl).
  assert (Hn' : ~ In LF ("*"%byte :: l)).
  { intros [H|H]; [discriminate H|contradiction]. }
  rewrite (resp_loop_skip_eq ("*"%byte :: l) ("*"%byte :: l) [] [] 0
             (length ("*"%byte :: l)) 0 0 [])
    by (first [now rewrite app_nil_r | exact Hn' | lia | reflexivity]).
  rewrite resp_loop_end by (cbn [Nat.add]; lia).
  reflexivity.
Qed.

(** The parser at a complete count header that [make] refuses. *)
Lemma parse_huge_count n post :
  (maxAlloc < sliceHeaderSize * Z.of_N n)%Z -> (Z.of_N n < 2 ^ 63)%Z ->
  parse ((bs "*" ++ decimal n ++ CRLF) ++ post) = Panic.
Proof.
  intros Hbig Hint.
  assert (Hpos : (0 < Z.of_N n)%Z) by (unfold maxAlloc, sliceHeaderSize in Hbig; lia).
  set (b := (bs "*" ++ decimal n ++ CRLF) ++ post).
  assert (Hb : b = "*"%byte :: decimal n ++ CR :: LF :: post).
  { unfold b, CRLF. change (bs "*") with ["*"%byte]. assoc. }
  rewrite (parse_resp b _ Hb).
  rewrite (resp_loop_skip_eq b ("*"%byte :: decimal n ++ [CR]) [] (LF :: post)
             (S (length post)) (length b) 0 0 [])
    by (first [ rewrite Hb; assoc | apply not_in_count, decimal_no_LF
              | rewrite Hb; len | reflexivity ]).
  replace (0 + length ("*"%byte :: decimal n ++ [CR])) with (length (decimal n) + 2)
    by len.
  assert (Hh : header_ok (decimal n) (N.to_nat n)).
  { split; [apply decimal_no_LF|]. rewrite N_nat_Z. apply parseInt_decimal, Hint. }
  rewrite (resp_loop_at_LF _ b (decimal n) (N.to_nat n) post [] Hh ltac:(lia) Hb).
  rewrite N_nat_Z.
  replace (makeslice_ok (Z.of_N n)) with false
    by (symmetry; apply Z.leb_gt; exact Hbig).
  reflexivity.
Qed.

(** The beginnings of such a header are waited for. *)
Lemma huge_count_prefix_waits n p s :
  p ++ s = bs "*" ++ decimal n ++ CRLF -> p <> [] -> s <> [] ->
  parse p = Ok ([], p).
Proof.
  intros E Hp Hs.
  change (bs "*" ++ decimal n ++ CRLF) with ("*"%byte :: decimal n ++ [CR; LF]) in E.
  destruct p as [|p0 q]; [congruence|]. cbn [app] in E.
  inversion E as [[E0 Eq]]. subst p0.
  apply parse_star_no_LF.
  destruct (exists_last Hs) as (s' & x & ->).
  replace (decimal n ++ [CR; LF]) with ((decimal n ++ [CR]) ++ [LF]) in Eq by assoc.
  rewrite app_assoc in Eq. apply app_inj_tail in Eq as [Eq _].
  intros Hin. apply (decimal_no_LF n).
  assert (Hin' : In LF (decimal n ++ [CR])) by (rewrite <- Eq; apply in_or_app; now left).
  apply in_app_or in Hin' as [H|[H|[]]]; [exact H|discriminate H].
Qed.

Lemma empty_bulks_length k :
  length (List.concat (map encode_bulk (repeat (@nil byte) k))) = 6 * k.
Proof.
  induction k as [|k IH]; [reflexivity|].
  cbn [repeat map List.concat]. rewrite length_app, IH.
  change (length (encode_bulk [])) with 6. lia.
Qed.

(** Such a header is the beginning of a well-formed command: one of [n]
    empty arguments. *)
Lemma huge_count_begins_command n :
  (0 < Z.of_N n < 2 ^ 59)%Z ->
  exists args rest,
    wf_command args /\ rest <> [] /\
    encode_command args = (bs "*" ++ decimal n ++ CRLF) ++ rest.
Proof.
  intros Hn.
  exists (repeat [] (N.to_nat n)),
         (List.concat (map encode_bulk (repeat [] (N.to_nat n)))).
  assert (Hk : 0 < N.to_nat n) by lia.
  assert (He : encode_command (repeat [] (N.to_nat n)) =
               (bs "*" ++ decimal n ++ CRLF)
                 ++ List.concat (map encode_bulk (repeat [] (N.to_nat n)))).
  { unfold encode_command. rewrite repeat_length, N_nat_Z.
    rewrite FormatInt_nonneg by lia. rewrite N2Z.id.
    change (bs "*") with ["*"%byte]. assoc. }
  split; [split|split].
  - destruct (N.to_nat n); [lia|discriminate].
  - rewrite He, !length_app, empty_bulks_length.
    pose proof (decimal_length n ltac:(lia)) as Hd.
    change (length (bs "*")) with 1. change (length CRLF) with 2. lia.
  - destruct (N.to_nat n); [lia|discriminate].
  - exact He.
Qed.

(** C1 (a defect of the code).  The count of arguments that a client
    announces is passed to [make] as a capacity without an upper bound.
    When the bytes still to parse begin with the count header of a command
    whose count [make] refuses, [ReadCommands] does not leave the
    incomplete command pending: it panics as soon as the line of the count
    has arrived, however the stream cuts the bytes into reads and whatever
    follows them. *)
Theorem C1_huge_count_panics n rest chunks r wd fuel :
  (maxAlloc < sliceHeaderSize * Z.of_N n)%Z -> (Z.of_N n < 2 ^ 63)%Z ->
  reader_ok r -> w_closed wd = false -> w_in wd = map RData chunks ->
  pending r ++ List.concat chunks = bs "*" ++ decimal n ++ CRLF ++ rest ->
  stream_size (w_in wd) < fuel ->
  fst (fst (ReadCommands fuel r wd)) = Panic.
Proof.
  intros Hbig Hint Hr Hcl Hin Heq Hfuel.
  apply (ReadCommands_reaches_panic fuel r wd chunks
           (bs "*" ++ decimal n ++ CRLF) rest Hr Hcl Hin).
  - rewrite Heq. change (bs "*") with ["*"%byte]. unfold CRLF. assoc.
  - intros p s0 Hps. exact (huge_count_prefix_waits n p s0 Hps).
  - intros s0. exact (parse_huge_count n s0 Hbig Hint).
  - exact Hfuel.
Qed.

Lemma C1_huge_count_panics_witness :
  fst (fst (ReadCommands 30 (newReader (repeat x00 4))
              (mkWorld (map RData [bs "*2000000"; bs "0000000" ++ CRLF]) [] false [])))
  = Panic.
Proof.
  assert (Hbig : (maxAlloc < sliceHeaderSize * Z.of_N 20000000000000)%Z)
    by reflexivity.
  assert (Hint : (Z.of_N 20000000000000 < 2 ^ 63)%Z) by reflexivity.
  assert (Hr : reader_ok (newReader (repeat x00 4))).
  { unfold newReader, reader_ok. cbn [rd_buf rd_start rd_end repeat length].
    repeat split; lia. }
  exact (C1_huge_count_panics 20000000000000 [] [bs "*2000000"; bs "0000000" ++ CRLF]
           (newReader (repeat x00 4))
           (mkWorld (map RData [bs "*2000000"; bs "0000000" ++ CRLF]) [] false [])
           30 Hbig Hint Hr eq_refl eq_refl
           ltac:(vm_compute; reflexivity) ltac:(vm_compute; lia)).
Defined.


Section EngineHijack.

Variable growslice : nat -> nat -> nat.

(** X29.  A handler that hijacks the connection does not take the writer
    with it at once: the replies it wrote, before and after [Hijack], are
    still flushed by the engine when it returns, in one write.  When that
    write succeeds the loop finds the flag and [handle] leaves the stream
    open; when it fails the loop returns the error of the write, not the
    sentinel, and [handle] closes the stream of the hijacked connection and
    hands the error to the observer. *)
Theorem hijack_replies_flushed cfg s id c0 wd0 c wd fuel cmds r' wd1 h calls1 calls2
    res wd2 :
  rounds growslice cfg c0 wd0 c wd -> c_hj c = false ->
  wr_err (c_wr c) = None -> wr_b (c_wr c) = [] ->
  ReadCommands fuel (c_rd c) wd = (Ok cmds, r', wd1) ->
  shandler cfg = Some h ->
  h (w_trace wd1) cmds =
    replies calls1 (DoHijack (replies calls2 (Return tt))) ->
  List.concat (map encoding (calls1 ++ calls2)) <> [] ->
  stream_write (log wd1 (EvHandler false cmds))
               (List.concat (map encoding (calls1 ++ calls2))) = (res, wd2) ->
  let err := match res with None => Some errHijacked | Some e => Some e end in
  exists fuel' s' c' wdf,
    handle growslice fuel' cfg s id c0 wd0 = Ok (err, s', c', wdf) /\
    c_hj c' = true /\
    w_trace wdf =
      w_trace wd ++ [EvHandler false cmds;
                     EvWrite (List.concat (map encoding (calls1 ++ calls2))) res]
        ++ match res with None => [] | Some _ => [EvConnClose] end
        ++ (if closed cfg then [EvClosed err] else []) /\
    w_closed wdf = match res with None => false | Some _ => true end.
Proof.
  intros Hrounds Hhj He Hb HR Hs Hh Hout Hw err.
  pose proof (ReadCommands_Ok_nonempty _ _ _ _ _ _ HR) as Hne.
  pose proof (ReadCommands_world _ _ _ _ _ _ HR) as (Htr & _ & _).
  destruct (write_calls_appends growslice (calls1 ++ calls2) (c_wr c) He) as [Hwb Hwe].
  rewrite Hb in Hwb. cbn [app] in Hwb.
  set (out := List.concat (map encoding (calls1 ++ calls2))) in *.
  assert (Hlen : (length out =? 0) = false).
  { apply Nat.eqb_neq. destruct out; [congruence|discriminate]. }
  pose proof (stream_write_trace _ _ _ _ Hw) as Htr2.
  unfold write_calls in Hwb, Hwe. rewrite fold_left_app in Hwb, Hwe.
  fold (write_calls growslice (c_wr c) calls1) in Hwb, Hwe.
  set (w1 := write_calls growslice (c_wr c) calls1) in *.
  fold (write_calls growslice w1 calls2) in Hwb, Hwe.
  set (w2 := write_calls growslice w1 calls2) in *.
  assert (Hround : exists c',
            handle_round growslice fuel cfg c wd =
              (Ok (match res with None => Continue | Some e => Return_ (Some e) end),
               c', wd2) /\ c_hj c' = true).
  { unfold handle_round. rewrite Hhj, HR, Hne, Hs, Hh, run_prog_replies.
    cbn [run_prog conn_Hijack snd c_wr set_rd set_wr]. fold w1.
    rewrite run_prog_replies. cbn [run_prog c_wr set_wr]. fold w2.
    rewrite Hwe. unfold Flush. rewrite Hwe, Hwb, Hlen, Hw.
    destruct res as [e|]; eexists; split; reflexivity. }
  destruct Hround as (c' & Hround & Hhj').
  assert (Hloop : handle_loop growslice (S (S fuel)) cfg c wd = (Ok err, c', wd2)).
  { cbn [handle_loop].
    rewrite (handle_round_mono growslice fuel (S fuel) _ _ _ _ _ _ Hround)
      by (try (destruct res; discriminate); lia).
    unfold err. destruct res as [e|]; [reflexivity|].
    unfold handle_round. rewrite Hhj'. reflexivity. }
  destruct (handle_loop_rounds growslice cfg _ _ _ _ Hrounds _ _ _ _ Hloop)
    as [fuel' Hloop'].
  exists fuel', (fst (handle_deferred cfg s id c' wd2 err)), c',
         (snd (handle_deferred cfg s id c' wd2 err)).
  split.
  { unfold handle, handle_run. rewrite Hloop'.
    destruct (handle_deferred cfg s id c' wd2 err); reflexivity. }
  split; [exact Hhj'|].
  unfold handle_deferred, err. destruct res as [e|].
  - destruct (stream_write_error _ _ _ _ Hw) as [code ->].
    cbn [is_hijacked snd].
    split.
    + destruct (closed cfg); cbn [w_trace log stream_close snd];
        rewrite Htr2; cbn [log w_trace]; rewrite Htr, <- ?app_assoc; reflexivity.
    + destruct (closed cfg); reflexivity.
  - cbn [is_hijacked snd].
    assert (Hcl : w_closed wd2 = false).
    { revert Hw. unfold stream_write. cbn [log w_closed w_wres].
      destruct (w_closed wd1); [intros H; inversion H|].
      destruct (w_wres wd1) as [|[code|] rest]; intros H; inversion H; reflexivity. }
    split.
    + destruct (closed cfg); cbn [w_trace log snd];
        rewrite Htr2; cbn [log w_trace]; rewrite Htr, <- ?app_assoc; reflexivity.
    + destruct (closed cfg); cbn [log w_closed snd]; exact Hcl.
Qed.

End EngineHijack.

Lemma hijack_replies_flushed_witness :
  exists fuel' s' c' wdf,
    handle sample_grow fuel' taker_cfg sample_server 1 sample_conn broken_world
      = Ok (Some (errNet 9), s', c', wdf) /\
    c_hj c' = true /\
    w_trace wdf =
      [EvHandler false [[bs "ping"]];
       EvWrite (bs "+OK" ++ CRLF ++ bs "+late" ++ CRLF) (Some (errNet 9));
       EvConnClose; EvClosed (Some (errNet 9))] /\
    w_closed wdf = true.
Proof.
  set (rc := ReadCommands 10 (c_rd sample_conn) broken_world).
  set (out := List.concat (map encoding ([CallWriteString (bs "OK")]
                                          ++ [CallWriteString (bs "late")]))).
  set (wr := stream_write (log (snd rc) (EvHandler false [[bs "ping"]])) out).
  assert (HR : ReadCommands 10 (c_rd sample_conn) broken_world =
               (Ok [[bs "ping"]], snd (fst rc), snd rc)) by reflexivity.
  assert (Hw : stream_write (log (snd rc) (EvHandler false [[bs "ping"]])) out
               = (Some (errNet 9), snd wr)) by reflexivity.
  exact (hijack_replies_flushed sample_grow taker_cfg sample_server 1
           sample_conn broken_world sample_conn broken_world 10 [[bs "ping"]]
           (snd (fst rc)) (snd rc) taker [CallWriteString (bs "OK")]
           [CallWriteString (bs "late")] (Some (errNet 9)) (snd wr)
           (rounds_refl _ _ _ _) eq_refl eq_refl eq_refl HR eq_refl eq_refl
           ltac:(discriminate) Hw).
Defined.
